(** * RISC-V target of the ELF linker, and the CHERIoT export table printer

    A shallow embedding of [lld/ELF/Arch/RISCV.cpp] (flag merging,
    relocation application, PLT header, linker relaxation) and of the
    compartment export records of [RISCVAsmPrinter.cpp].

    Machine integers are [Z] with the wrap-around written out; buffers are
    lists of byte values; the linker's shared symbols are a finite map from
    a symbol handle to its [Defined] record. *)

From Stdlib Require Import ZArith Lia List Bool String Permutation Sorted.
From Stdlib.Strings Require Import Byte.
From stdpp Require Import base option list gmap strings.

Local Open Scope Z_scope.

(** ** llvm/Support/MathExtras.h and machine integers *)

Module MathExtras.

(** Conversion to an unsigned integer of [w] bits. *)
Definition trunc (w : Z) (x : Z) : Z := x mod 2 ^ w.

Definition u8 := trunc 8.
Definition u16 := trunc 16.
Definition u32 := trunc 32.
Definition u64 := trunc 64.

(** [SignExtend64<B>(x)]: the low [B] bits of [x] read as two's complement. *)
Definition SignExtend64 (B : Z) (x : Z) : Z :=
  let y := x mod 2 ^ B in
  if y <? 2 ^ (B - 1) then y else y - 2 ^ B.

(** [static_cast<int64_t>] and [static_cast<int32_t>]. *)
Definition s64 := SignExtend64 64.
Definition s32 := SignExtend64 32.

(** [isInt<N>(x)] on an [int64_t], [isUInt<N>(x)] on a [uint64_t]. *)
Definition isInt (N : Z) (x : Z) : bool :=
  (- 2 ^ (N - 1) <=? x) && (x <? 2 ^ (N - 1)).
Definition isUInt (N : Z) (x : Z) : bool := x <? 2 ^ N.

(** [PowerOf2Ceil(A)]: 0 for 0, else the least power of two that is >= A. *)
Definition PowerOf2Ceil (A : Z) : Z :=
  if A =? 0 then 0 else u64 (2 ^ Z.log2_up A).

(** [countLeadingZeros] of a [uint64_t]. *)
Definition countLeadingZeros (x : Z) : Z :=
  if x =? 0 then 64 else 63 - Z.log2 x.

End MathExtras.
Import MathExtras.

(** ** llvm/Support/Endian.h over a byte buffer *)

Module Endian.

(** A buffer is a list of bytes; a location is an index into it.  A read
    that leaves the buffer has no defined behaviour in the source: it yields
    [None] here; [writele] leaves the buffer alone in that case, and the
    callers below check the bounds first. *)
Definition buffer := list byte.

Definition Z_of_byte (b : byte) : Z := Z.of_N (Byte.to_N b).
Definition byte_of_Z (z : Z) : byte :=
  default Byte.x00 (Byte.of_N (Z.to_N (z mod 256))).

Fixpoint le_combine (bs : list byte) : Z :=
  match bs with
  | [] => 0
  | b :: t => Z_of_byte b + 256 * le_combine t
  end.

Fixpoint le_split (n : nat) (v : Z) : list byte :=
  match n with
  | O => []
  | S k => byte_of_Z v :: le_split k (v / 256)
  end.

Definition readle (n : nat) (buf : buffer) (loc : nat) : option Z :=
  if Nat.leb (loc + n) (length buf)
  then Some (le_combine (take n (drop loc buf)))
  else None.

Definition writele (n : nat) (buf : buffer) (loc : nat) (v : Z) : buffer :=
  if Nat.leb (loc + n) (length buf)
  then take loc buf ++ le_split n v ++ drop (loc + n) buf
  else buf.

Definition read16le := readle 2.
Definition read32le := readle 4.
Definition read64le := readle 8.
Definition write16le := writele 2.
Definition write32le := writele 4.
Definition write64le := writele 8.

End Endian.
Import Endian.

(** ** Instruction encoders (RISCV.cpp, lines 56-93) *)

Module Op.
Definition ADDI := 0x13.
Definition AUIPC := 0x17.
Definition JALR := 0x67.
Definition LD := 0x3003.
Definition LW := 0x2003.
Definition SRLI := 0x5013.
Definition SUB := 0x40000033.
Definition CIncOffsetImm := 0x105b.
Definition CLC_64 := 0x3003.
Definition CLC_128 := 0x200f.
Definition CSub := 0x2800005b.
Definition AUIPCC := 0x17.
Definition AUICGP := 0x7b.
End Op.

Module Reg.
Definition X_RA := 1.
Definition X_T0 := 5.
Definition X_T1 := 6.
Definition X_T2 := 7.
Definition X_T3 := 28.
End Reg.

Definition hi20 (val : Z) : Z := Z.shiftr (u32 (val + 0x800)) 12.
Definition lo12 (val : Z) : Z := Z.land val 4095.

Definition itype (op rd rs1 imm : Z) : Z :=
  u32 (Z.lor (Z.lor (Z.lor op (Z.shiftl rd 7)) (Z.shiftl rs1 15)) (Z.shiftl imm 20)).
Definition rtype (op rd rs1 rs2 : Z) : Z :=
  u32 (Z.lor (Z.lor (Z.lor op (Z.shiftl rd 7)) (Z.shiftl rs1 15)) (Z.shiftl rs2 20)).
Definition utype (op rd imm : Z) : Z :=
  u32 (Z.lor (Z.lor op (Z.shiftl rd 7)) (Z.shiftl imm 12)).

(** Extract bits [v[begin:end]], both inclusive; the result is a [uint32_t]. *)
Definition extractBits (v begin_ end_ : Z) : Z :=
  u32 (Z.shiftr (Z.land v (2 ^ (begin_ + 1) - 1)) end_).

(** ** llvm/BinaryFormat/ELF.h: the constants this file uses *)

Module ELF.

Definition EF_RISCV_RVC := 0x0001.
Definition EF_RISCV_FLOAT_ABI := 0x0006.
Definition EF_RISCV_FLOAT_ABI_SOFT := 0x0000.
Definition EF_RISCV_FLOAT_ABI_DOUBLE := 0x0004.
Definition EF_RISCV_RVE := 0x0008.
Definition EF_RISCV_CHERIABI := 0x00010000.
Definition EF_RISCV_CAP_MODE := 0x00020000.

Definition SHF_EXECINSTR := 0x4.

(** Relocation kinds named in RISCV.cpp; any other number is [R_OTHER]. *)
Inductive RelType :=
| R_RISCV_NONE | R_RISCV_32 | R_RISCV_64 | R_RISCV_RELATIVE | R_RISCV_COPY
| R_RISCV_JUMP_SLOT | R_RISCV_TLS_DTPMOD32 | R_RISCV_TLS_DTPMOD64
| R_RISCV_TLS_DTPREL32 | R_RISCV_TLS_DTPREL64 | R_RISCV_TLS_TPREL32
| R_RISCV_TLS_TPREL64 | R_RISCV_BRANCH | R_RISCV_JAL | R_RISCV_CALL
| R_RISCV_CALL_PLT | R_RISCV_GOT_HI20 | R_RISCV_TLS_GOT_HI20
| R_RISCV_TLS_GD_HI20 | R_RISCV_PCREL_HI20 | R_RISCV_PCREL_LO12_I
| R_RISCV_PCREL_LO12_S | R_RISCV_HI20 | R_RISCV_LO12_I | R_RISCV_LO12_S
| R_RISCV_TPREL_HI20 | R_RISCV_TPREL_LO12_I | R_RISCV_TPREL_LO12_S
| R_RISCV_TPREL_ADD | R_RISCV_ADD8 | R_RISCV_ADD16 | R_RISCV_ADD32
| R_RISCV_ADD64 | R_RISCV_SUB8 | R_RISCV_SUB16 | R_RISCV_SUB32
| R_RISCV_SUB64 | R_RISCV_ALIGN | R_RISCV_RVC_BRANCH | R_RISCV_RVC_JUMP
| R_RISCV_RVC_LUI | R_RISCV_RELAX | R_RISCV_SUB6 | R_RISCV_SET6
| R_RISCV_SET8 | R_RISCV_SET16 | R_RISCV_SET32 | R_RISCV_32_PCREL
| R_RISCV_IRELATIVE
| R_RISCV_CHERI_CAPTAB_PCREL_HI20 | R_RISCV_CHERI_CAPABILITY
| R_RISCV_CHERI_SIZE | R_RISCV_CHERI_TPREL_CINCOFFSET
| R_RISCV_CHERI_TLS_IE_CAPTAB_PCREL_HI20
| R_RISCV_CHERI_TLS_GD_CAPTAB_PCREL_HI20
| R_RISCV_CHERI_CJAL | R_RISCV_CHERI_CCALL | R_RISCV_CHERI_RVC_CJUMP
| R_RISCV_CHERIOT_COMPARTMENT_HI | R_RISCV_CHERIOT_COMPARTMENT_LO_I
| R_RISCV_CHERIOT_COMPARTMENT_LO_S | R_RISCV_CHERIOT_COMPARTMENT_SIZE
| R_OTHER (n : Z).

End ELF.
Import ELF.

(** ** The linker's shared data (Config.h, Relocations.h, Symbols.h,
    InputSection.h), as far as RISCV.cpp reads and writes it *)

(** Handles stand for the pointers of the source. *)
Definition SymId := nat.
Definition SecId := nat.
Definition FileId := nat.

Record Config := mkConfig {
  is64 : bool;
  isCheriAbi : bool;
  relax_enabled : bool;
  relocatable : bool;
  writeAddends : bool;
  eflags : Z;
  wordsize : Z;
  capabilitySize : Z
}.

Inductive RelExpr :=
| R_NONE | R_ABS | R_RISCV_ADD | R_PC | R_PLT_PC | R_GOT_PC
| R_RISCV_PC_INDIRECT | R_TLSGD_PC | R_TPREL | R_RELAX_HINT
| R_CHERI_CAPABILITY | R_CHERI_CAPABILITY_TABLE_ENTRY_PC
| R_CHERI_CAPABILITY_TABLE_TLSIE_ENTRY_PC
| R_CHERI_CAPABILITY_TABLE_TLSGD_ENTRY_PC
| R_CHERIOT_COMPARTMENT_CGPREL_HI | R_CHERIOT_COMPARTMENT_CGPREL_LO_I
| R_CHERIOT_COMPARTMENT_CGPREL_LO_S | R_CHERIOT_COMPARTMENT_SIZE.

Record Relocation := mkRelocation {
  r_expr : RelExpr;
  r_type : RelType;
  r_offset : Z;
  r_addend : Z;
  r_sym : SymId
}.

Record InputFile := mkInputFile {
  f_id : FileId;
  f_name : string;
  f_eflags : Z;
  f_symbols : list SymId
}.

(** What the linker reports and goes on: [error], [warn]; the checks of
    Target.h add theirs. *)
Inductive Diag :=
| Error (msg : string)
| Warning (msg : string)
| RangeError (loc : nat) (v : Z) (bits : Z)
| AlignmentError (loc : nat) (v : Z) (align : Z).

(** What ends a run: [fatal]; a failed [assert] or [cast]; an [error] that is
    followed by a use of the very object found missing; a read outside its
    buffer or array. *)
Inductive Failure :=
| FatalError (msg : string)
| AssertionFailed (msg : string)
| ReportedError (msg : string)
| InvalidAccess.

Inductive Outcome (A : Type) :=
| Done (a : A)
| Stop (f : Failure).
Arguments Done {A} a.
Arguments Stop {A} f.

Definition obind {A B} (m : Outcome A) (k : A -> Outcome B) : Outcome B :=
  match m with
  | Done a => k a
  | Stop f => Stop f
  end.

Definition of_option {A} (o : option A) : Outcome A :=
  match o with
  | Some a => Done a
  | None => Stop InvalidAccess
  end.

#[global] Instance outcome_ret : MRet Outcome := fun _ a => Done a.
#[global] Instance outcome_bind : MBind Outcome := fun _ _ k m => obind m k.

Definition b2z (b : bool) : Z := if b then 1 else 0.
Definition nonzero (x : Z) : bool := negb (x =? 0).

(** ** calcEFlags (RISCV.cpp, lines 131-172) *)

Definition getEFlags (f : InputFile) : Z := f_eflags f.

Definition eflags_mismatch (mask : Z) (eflags target : Z) : bool :=
  negb (Z.land eflags mask =? Z.land target mask).

(** One round of the loop over [objectFiles]: the merged flags so far and
    the errors reported so far. *)
Definition calcEFlags_step (acc : Z * list Diag) (f : InputFile) : Z * list Diag :=
  let '(target, errs) := acc in
  let eflags := getEFlags f in
  let target :=
    if nonzero (Z.land eflags EF_RISCV_RVC) then Z.lor target EF_RISCV_RVC else target in
  let e1 := if eflags_mismatch EF_RISCV_FLOAT_ABI eflags target
            then [Error (f_name f ++ ": cannot link object files with different floating-point ABI")]
            else [] in
  let e2 := if eflags_mismatch EF_RISCV_RVE eflags target
            then [Error (f_name f ++ ": cannot link object files with different EF_RISCV_RVE")]
            else [] in
  let e3 := if eflags_mismatch EF_RISCV_CHERIABI eflags target
            then [Error (f_name f ++ ": cannot link object files with different EF_RISCV_CHERIABI")]
            else [] in
  let e4 := if eflags_mismatch EF_RISCV_CAP_MODE eflags target
            then [Error (f_name f ++ ": cannot link object files with different EF_RISCV_CAP_MODE")]
            else [] in
  (target, errs ++ e1 ++ e2 ++ e3 ++ e4).

Definition calcEFlags (objectFiles : list InputFile) : Z * list Diag :=
  match objectFiles with
  | [] => (0, [])
  | front :: _ => fold_left calcEFlags_step objectFiles (getEFlags front, [])
  end.

Definition calcIsCheriAbi (config : Config) (objectFiles : list InputFile) : bool * list Diag :=
  let isCheri := nonzero (Z.land (eflags config) EF_RISCV_CHERIABI) in
  match objectFiles with
  | front :: _ =>
      if isCheriAbi config && negb isCheri
      then (isCheri, [Error (f_name front ++ ": object file is non-CheriABI but emulation forces it")])
      else (isCheri, [])
  | [] => (isCheri, [])
  end.

(** ** writePltHeader (RISCV.cpp, lines 229-270) *)

(** Set by the constructor [RISCV::RISCV()]. *)
Definition pltHeaderSize := 32.
Definition pltEntrySize := 16.

Definition memset (buf : buffer) (loc : nat) (c : byte) (n : nat) : buffer :=
  if Nat.leb (loc + n) (length buf)
  then take loc buf ++ replicate n c ++ drop (loc + n) buf
  else buf.

Definition plt_shift (config : Config) : Z :=
  u32 (2 - b2z (is64 config) - b2z (isCheriAbi config)).

(** [gotPltVA] and [pltVA] are [in.gotPlt->getVA()] and [in.plt->getVA()];
    [buf] points at index [loc] of the buffer. *)
Definition writePltHeader (config : Config) (gotPltVA pltVA : Z)
    (buf : buffer) (loc : nat) : buffer :=
  if isCheriAbi config then memset buf loc Byte.x00 (Z.to_nat pltHeaderSize)
  else
    let offset := u32 (gotPltVA - pltVA) in
    let ptrsub := if isCheriAbi config then Op.CSub else Op.SUB in
    let ptrload := if isCheriAbi config
                   then (if is64 config then Op.CLC_128 else Op.CLC_64)
                   else (if is64 config then Op.LD else Op.LW) in
    let ptraddi := if isCheriAbi config then Op.CIncOffsetImm else Op.ADDI in
    let shift := plt_shift config in
    let ptrsize := if isCheriAbi config then capabilitySize config else wordsize config in
    let z := if shift =? 0 then 4%nat else 0%nat in
    let buf := write32le buf (loc + 0) (utype Op.AUIPC Reg.X_T2 (hi20 offset)) in
    let buf := write32le buf (loc + 4) (rtype ptrsub Reg.X_T1 Reg.X_T1 Reg.X_T3) in
    let buf := write32le buf (loc + 8) (itype ptrload Reg.X_T3 Reg.X_T2 (lo12 offset)) in
    let buf := write32le buf (loc + 12)
                 (itype Op.ADDI Reg.X_T1 Reg.X_T1 (u32 (- pltHeaderSize - 12))) in
    let buf := write32le buf (loc + 16) (itype ptraddi Reg.X_T0 Reg.X_T2 (lo12 offset)) in
    let buf := if negb (shift =? 0)
               then write32le buf (loc + 20) (itype Op.SRLI Reg.X_T1 Reg.X_T1 shift)
               else buf in
    let buf := write32le buf (loc + 24 - z) (itype ptrload Reg.X_T0 Reg.X_T0 ptrsize) in
    let buf := write32le buf (loc + 28 - z) (itype Op.JALR 0 Reg.X_T3 0) in
    if shift =? 0 then write32le buf (loc + 28) (itype Op.ADDI 0 0 0) else buf.


(** ** relocate (RISCV.cpp, lines 377-628) *)

(** Modelled from the spec: [checkInt], [checkUInt] and [checkAlignment] of
    Target.h.  "Every range/alignment check that fails reports a
    user-visible error anchored at the relocation location", and "links
    accumulate errors then abort before emission": a failed check adds a
    diagnostic and the caller goes on. *)
Definition checkInt (loc : nat) (v : Z) (n : Z) : list Diag :=
  if isInt n v then [] else [RangeError loc v n].
Definition checkUInt (loc : nat) (v : Z) (n : Z) : list Diag :=
  if isUInt n v then [] else [RangeError loc v n].
Definition checkAlignment (loc : nat) (v : Z) (n : Z) : list Diag :=
  if Z.land v (n - 1) =? 0 then [] else [AlignmentError loc v n].

Definition load (n : nat) (buf : buffer) (loc : nat) : Outcome Z :=
  of_option (readle n buf loc).
Definition store (n : nat) (buf : buffer) (loc : nat) (v : Z) : Outcome buffer :=
  if Nat.leb (loc + n) (length buf) then Done (writele n buf loc v) else Stop InvalidAccess.

Definition dtpOffset := 0x800.

Section Relocate.

Variable config : Config.
(** [isPCCRelative(loc, sym)] of the CHERIoT support code; [loc] may be null. *)
Variable isPCCRelative : option nat -> SymId -> bool.

(** The HI20 family: also the first half of a CALL. *)
Definition relocate_hi20 (bits : Z) (buf : buffer) (loc : nat) (val : Z)
    : Outcome (buffer * list Diag) :=
  let hi := u64 (val + 0x800) in
  let d := checkInt loc (Z.shiftr (SignExtend64 bits hi) 12) 20 in
  insn ← load 4 buf loc;
  buf' ← store 4 buf loc (Z.lor (Z.land insn 0xFFF) (Z.land hi 0xFFFFF000));
  mret (buf', d).

(** The LO12_I family: also the second half of a CALL. *)
Definition relocate_lo12_i (buf : buffer) (loc : nat) (val : Z)
    : Outcome (buffer * list Diag) :=
  let hi := Z.shiftr (u64 (val + 0x800)) 12 in
  let lo := u64 (val - Z.shiftl hi 12) in
  insn ← load 4 buf loc;
  buf' ← store 4 buf loc (Z.lor (Z.land insn 0xFFFFF) (Z.shiftl (Z.land lo 0xFFF) 20));
  mret (buf', []).

(** [val] is a [uint64_t]; the result is the patched buffer and what was
    reported on the way. *)
Definition relocate (buf : buffer) (loc : nat) (rel : Relocation) (val : Z)
    : Outcome (buffer * list Diag) :=
  let bits := wordsize config * 8 in
  match r_type rel with
  | R_RISCV_32 => buf' ← store 4 buf loc val; mret (buf', [])
  | R_RISCV_64 => buf' ← store 8 buf loc val; mret (buf', [])
  | R_RISCV_RVC_BRANCH =>
      let d := checkInt loc (Z.shiftr (s64 val) 1) 8 ++ checkAlignment loc val 2 in
      w ← load 2 buf loc;
      let insn := Z.land w 0xE383 in
      let imm8 := u16 (Z.shiftl (extractBits val 8 8) 12) in
      let imm4_3 := u16 (Z.shiftl (extractBits val 4 3) 10) in
      let imm7_6 := u16 (Z.shiftl (extractBits val 7 6) 5) in
      let imm2_1 := u16 (Z.shiftl (extractBits val 2 1) 3) in
      let imm5 := u16 (Z.shiftl (extractBits val 5 5) 2) in
      let insn := Z.lor insn
                    (Z.lor (Z.lor (Z.lor (Z.lor imm8 imm4_3) imm7_6) imm2_1) imm5) in
      buf' ← store 2 buf loc insn; mret (buf', d)
  | R_RISCV_RVC_JUMP | R_RISCV_CHERI_RVC_CJUMP =>
      let d := checkInt loc (Z.shiftr (s64 val) 1) 11 ++ checkAlignment loc val 2 in
      w ← load 2 buf loc;
      let insn := Z.land w 0xE003 in
      let imm11 := u16 (Z.shiftl (extractBits val 11 11) 12) in
      let imm4 := u16 (Z.shiftl (extractBits val 4 4) 11) in
      let imm9_8 := u16 (Z.shiftl (extractBits val 9 8) 9) in
      let imm10 := u16 (Z.shiftl (extractBits val 10 10) 8) in
      let imm6 := u16 (Z.shiftl (extractBits val 6 6) 7) in
      let imm7 := u16 (Z.shiftl (extractBits val 7 7) 6) in
      let imm3_1 := u16 (Z.shiftl (extractBits val 3 1) 3) in
      let imm5 := u16 (Z.shiftl (extractBits val 5 5) 2) in
      let insn := Z.lor insn
                    (Z.lor (Z.lor (Z.lor (Z.lor (Z.lor (Z.lor (Z.lor
                       imm11 imm4) imm9_8) imm10) imm6) imm7) imm3_1) imm5) in
      buf' ← store 2 buf loc insn; mret (buf', d)
  | R_RISCV_RVC_LUI =>
      let imm := Z.shiftr (SignExtend64 bits (u64 (val + 0x800))) 12 in
      let d := checkInt loc imm 6 in
      w ← load 2 buf loc;
      if imm =? 0
      then buf' ← store 2 buf loc (Z.lor (Z.land w 0x0F83) 0x4000); mret (buf', d)
      else
        let imm17 := u16 (Z.shiftl (extractBits (u64 (val + 0x800)) 17 17) 12) in
        let imm16_12 := u16 (Z.shiftl (extractBits (u64 (val + 0x800)) 16 12) 2) in
        buf' ← store 2 buf loc (Z.lor (Z.lor (Z.land w 0xEF83) imm17) imm16_12);
        mret (buf', d)
  | R_RISCV_JAL | R_RISCV_CHERI_CJAL =>
      let d := checkInt loc (Z.shiftr (s64 val) 1) 20 ++ checkAlignment loc val 2 in
      w ← load 4 buf loc;
      let insn := Z.land w 0xFFF in
      let imm20 := u32 (Z.shiftl (extractBits val 20 20) 31) in
      let imm10_1 := u32 (Z.shiftl (extractBits val 10 1) 21) in
      let imm11 := u32 (Z.shiftl (extractBits val 11 11) 20) in
      let imm19_12 := u32 (Z.shiftl (extractBits val 19 12) 12) in
      let insn := Z.lor insn (Z.lor (Z.lor (Z.lor imm20 imm10_1) imm11) imm19_12) in
      buf' ← store 4 buf loc insn; mret (buf', d)
  | R_RISCV_BRANCH =>
      let d := checkInt loc (Z.shiftr (s64 val) 1) 12 ++ checkAlignment loc val 2 in
      w ← load 4 buf loc;
      let insn := Z.land w 0x1FFF07F in
      let imm12 := u32 (Z.shiftl (extractBits val 12 12) 31) in
      let imm10_5 := u32 (Z.shiftl (extractBits val 10 5) 25) in
      let imm4_1 := u32 (Z.shiftl (extractBits val 4 1) 8) in
      let imm11 := u32 (Z.shiftl (extractBits val 11 11) 7) in
      let insn := Z.lor insn (Z.lor (Z.lor (Z.lor imm12 imm10_5) imm4_1) imm11) in
      buf' ← store 4 buf loc insn; mret (buf', d)
  | R_RISCV_CALL | R_RISCV_CALL_PLT | R_RISCV_CHERI_CCALL =>
      let hi := Z.shiftr (SignExtend64 bits (u64 (val + 0x800))) 12 in
      let d := checkInt loc hi 20 in
      if isInt 20 hi
      then
        '(buf1, d1) ← relocate_hi20 bits buf loc val;
        '(buf2, d2) ← relocate_lo12_i buf1 (loc + 4) val;
        mret (buf2, d ++ d1 ++ d2)
      else mret (buf, d)
  | R_RISCV_CHERI_CAPTAB_PCREL_HI20 | R_RISCV_CHERI_TLS_IE_CAPTAB_PCREL_HI20
  | R_RISCV_CHERI_TLS_GD_CAPTAB_PCREL_HI20 | R_RISCV_GOT_HI20
  | R_RISCV_PCREL_HI20 | R_RISCV_TLS_GD_HI20 | R_RISCV_TLS_GOT_HI20
  | R_RISCV_TPREL_HI20 | R_RISCV_HI20 =>
      relocate_hi20 bits buf loc val
  | R_RISCV_PCREL_LO12_I | R_RISCV_TPREL_LO12_I | R_RISCV_LO12_I =>
      relocate_lo12_i buf loc val
  | R_RISCV_PCREL_LO12_S | R_RISCV_TPREL_LO12_S | R_RISCV_LO12_S =>
      let hi := Z.shiftr (u64 (val + 0x800)) 12 in
      let lo := u64 (val - Z.shiftl hi 12) in
      let imm11_5 := u32 (Z.shiftl (extractBits lo 11 5) 25) in
      let imm4_0 := u32 (Z.shiftl (extractBits lo 4 0) 7) in
      w ← load 4 buf loc;
      buf' ← store 4 buf loc (Z.lor (Z.lor (Z.land w 0x1FFF07F) imm11_5) imm4_0);
      mret (buf', [])
  | R_RISCV_ADD8 =>
      w ← load 1 buf loc; buf' ← store 1 buf loc (w + val); mret (buf', [])
  | R_RISCV_ADD16 =>
      w ← load 2 buf loc; buf' ← store 2 buf loc (w + val); mret (buf', [])
  | R_RISCV_ADD32 =>
      w ← load 4 buf loc; buf' ← store 4 buf loc (w + val); mret (buf', [])
  | R_RISCV_ADD64 =>
      w ← load 8 buf loc; buf' ← store 8 buf loc (w + val); mret (buf', [])
  | R_RISCV_SUB6 =>
      w ← load 1 buf loc;
      buf' ← store 1 buf loc (Z.lor (Z.land w 0xc0) (Z.land (Z.land w 0x3f - val) 0x3f));
      mret (buf', [])
  | R_RISCV_SUB8 =>
      w ← load 1 buf loc; buf' ← store 1 buf loc (w - val); mret (buf', [])
  | R_RISCV_SUB16 =>
      w ← load 2 buf loc; buf' ← store 2 buf loc (w - val); mret (buf', [])
  | R_RISCV_SUB32 =>
      w ← load 4 buf loc; buf' ← store 4 buf loc (w - val); mret (buf', [])
  | R_RISCV_SUB64 =>
      w ← load 8 buf loc; buf' ← store 8 buf loc (w - val); mret (buf', [])
  | R_RISCV_SET6 =>
      w ← load 1 buf loc;
      buf' ← store 1 buf loc (Z.lor (Z.land w 0xc0) (Z.land val 0x3f));
      mret (buf', [])
  | R_RISCV_SET8 => buf' ← store 1 buf loc val; mret (buf', [])
  | R_RISCV_SET16 => buf' ← store 2 buf loc val; mret (buf', [])
  | R_RISCV_SET32 | R_RISCV_32_PCREL => buf' ← store 4 buf loc val; mret (buf', [])
  | R_RISCV_TLS_DTPREL32 =>
      buf' ← store 4 buf loc (if isCheriAbi config then val else val - dtpOffset);
      mret (buf', [])
  | R_RISCV_TLS_DTPREL64 =>
      buf' ← store 8 buf loc (if isCheriAbi config then val else val - dtpOffset);
      mret (buf', [])
  | R_RISCV_RELAX => mret (buf, [])
  | R_RISCV_CHERIOT_COMPARTMENT_LO_I =>
      let val :=
        if isPCCRelative (Some loc) (r_sym rel)
        then (if (0 <=? s64 val) || (Z.land val 0x7ff =? 0)
              then Z.land val 0x7ff
              else Z.lor (Z.land (u64 (-1)) (u64 (Z.lnot 0x7ff))) (Z.land val 0x7ff))
        else val in
      let d := checkInt loc (s64 val) 12 in
      w ← load 4 buf loc;
      buf' ← store 4 buf loc (Z.lor (Z.land w 0x000fffff) (Z.shiftl val 20));
      mret (buf', d)
  | R_RISCV_CHERIOT_COMPARTMENT_SIZE =>
      let d := checkUInt loc val 12 in
      w ← load 4 buf loc;
      buf' ← store 4 buf loc (Z.lor (Z.land w 0x000fffff) (Z.shiftl val 20));
      mret (buf', d)
  | R_RISCV_CHERIOT_COMPARTMENT_LO_S =>
      w ← load 4 buf loc;
      let insn := Z.land w 0x1fff07f in
      let val_high := Z.land (u32 val) 0xfe0 in
      let val_low := Z.land (u32 val) 0x1f in
      buf' ← store 4 buf loc (Z.lor (Z.lor insn (Z.shiftl val_high 20)) (Z.shiftl val_low 7));
      mret (buf', [])
  | R_RISCV_CHERIOT_COMPARTMENT_HI =>
      let pcc := isPCCRelative (Some loc) (r_sym rel) in
      let opcode := if pcc then Op.AUIPCC else Op.AUICGP in
      let val :=
        if pcc
        then
          let val := if s64 val <? 0
                     then Z.land (u64 (val + 0x7ff)) (u64 (Z.lnot 0x7ff)) else val in
          u64 (Z.shiftr (s64 val) 11)
        else val in
      w ← load 4 buf loc;
      let existingOpcode := Z.land w 0x7f in
      let dw :=
        if negb (existingOpcode =? Op.AUIPCC) && negb (existingOpcode =? Op.AUICGP)
        then [Warning "R_RISCV_CHERIOT_COMPARTMENT_HI relocation applied to instruction with unexpected opcode"]
        else [] in
      let d := checkInt loc (s64 val) 20 in
      let insn := Z.land w 0x00000f80 in
      buf' ← store 4 buf loc (Z.lor (Z.lor insn (Z.shiftl val 12)) opcode);
      mret (buf', dw ++ d)
  | _ => Stop (AssertionFailed "unknown relocation")
  end.

End Relocate.

(** ** Linker relaxation (RISCV.cpp, lines 643-955) *)

Record Defined := mkDefined {
  d_file : FileId;
  d_section : option SecId;
  d_value : Z;
  d_size : Z
}.

Definition set_value (v : Z) (d : Defined) : Defined :=
  mkDefined (d_file d) (d_section d) v (d_size d).
Definition set_size (sz : Z) (d : Defined) : Defined :=
  mkDefined (d_file d) (d_section d) (d_value d) sz.

Record SymbolAnchor := mkSymbolAnchor {
  a_offset : Z;
  a_d : SymId;
  a_end : bool
}.

Record RISCVRelaxAux := mkRISCVRelaxAux {
  anchors : list SymbolAnchor;
  relocDeltas : list Z;
  relocTypes : list RelType;
  writes : list Z
}.

Record InputSection := mkInputSection {
  sec_flags : Z;
  relocations : list Relocation;
  rawData : buffer;
  relaxAux : option RISCVRelaxAux;
  bytesDropped : Z
}.

Record OutputSection := mkOutputSection {
  os_flags : Z;
  os_sections : list SecId
}.

(** The symbols of the link: a handle that is not in the map is a symbol
    that is not a [Defined]. *)
Abbreviation SymTab := (gmap SymId Defined).

Record LinkState := mkLinkState {
  objectFiles : list InputFile;
  outputSections : list OutputSection;
  sections : gmap SecId InputSection;
  symtab : SymTab
}.

Definition set_relocTypes (i : nat) (t : RelType) (aux : RISCVRelaxAux) : RISCVRelaxAux :=
  mkRISCVRelaxAux (anchors aux) (relocDeltas aux) (<[i := t]> (relocTypes aux)) (writes aux).
Definition push_write (w : Z) (aux : RISCVRelaxAux) : RISCVRelaxAux :=
  mkRISCVRelaxAux (anchors aux) (relocDeltas aux) (relocTypes aux) (writes aux ++ [u32 w]).
Definition set_relocDeltas (i : nat) (v : Z) (aux : RISCVRelaxAux) : RISCVRelaxAux :=
  mkRISCVRelaxAux (anchors aux) (<[i := v]> (relocDeltas aux)) (relocTypes aux) (writes aux).

Definition is_RELAX (t : RelType) : bool :=
  match t with R_RISCV_RELAX => true | _ => false end.
Definition is_COMPARTMENT_HI (t : RelType) : bool :=
  match t with R_RISCV_CHERIOT_COMPARTMENT_HI => true | _ => false end.

(** The order of [llvm::sort] in [initSymbolAnchors]:
    [make_pair(a.offset, a.end) < make_pair(b.offset, b.end)]. *)
Definition anchor_lt (a b : SymbolAnchor) : bool :=
  (a_offset a <? a_offset b) ||
  ((a_offset a =? a_offset b) && (negb (a_end a) && a_end b)).

Fixpoint insertAnchor (a : SymbolAnchor) (l : list SymbolAnchor) : list SymbolAnchor :=
  match l with
  | [] => [a]
  | b :: l' => if anchor_lt b a then b :: insertAnchor a l' else a :: b :: l'
  end.

(** [llvm::sort] leaves the order of equal keys open; this is one such sort. *)
Definition sortAnchors (l : list SymbolAnchor) : list SymbolAnchor :=
  foldr insertAnchor [] l.

Section Relax.

Variable config : Config.
Variable isPCCRelative : option nat -> SymId -> bool.
(** [sym.getVA()] reads the symbol's current [value]; [sym.getPltVA()],
    [getBiasedCGPOffset] and [getBiasedCGPOffsetLo12] come from the rest of
    the linker. *)
Variable getVA : SymTab -> SymId -> Z.
Variable getPltVA : SymId -> Z.
Variable getBiasedCGPOffset : SymTab -> SymId -> Z.
Variable getBiasedCGPOffsetLo12 : SymTab -> SymId -> Z.
(** [sec.getVA()], by section handle. *)
Variable sectionVA : SecId -> Z.

(** *** initSymbolAnchors *)

Definition is_exec (flags : Z) : bool := nonzero (Z.land flags SHF_EXECINSTR).

Definition exec_sections (st : LinkState) : list SecId :=
  concat (map os_sections (filter (fun o => is_exec (os_flags o) = true) (outputSections st))).

Definition freshAux (sec : InputSection) : InputSection :=
  let n := length (relocations sec) in
  mkInputSection (sec_flags sec) (relocations sec) (rawData sec)
    (Some (mkRISCVRelaxAux [] (replicate n 0) (replicate n R_RISCV_NONE) []))
    (bytesDropped sec).

Definition onAnchors (f : list SymbolAnchor -> list SymbolAnchor)
    (sec : InputSection) : InputSection :=
  match relaxAux sec with
  | Some aux =>
      mkInputSection (sec_flags sec) (relocations sec) (rawData sec)
        (Some (mkRISCVRelaxAux (f (anchors aux)) (relocDeltas aux) (relocTypes aux) (writes aux)))
        (bytesDropped sec)
  | None => sec
  end.

(** The body of the loop over the symbols of [file]. *)
Definition pushAnchors (syms : SymTab) (file : InputFile)
    (secs : gmap SecId InputSection) (sym : SymId) : gmap SecId InputSection :=
  match syms !! sym with
  | Some d =>
      if negb (Nat.eqb (d_file d) (f_id file)) then secs
      else
        match d_section d with
        | Some sid =>
            match secs !! sid with
            | Some sec =>
                if is_exec (sec_flags sec) && bool_decide (is_Some (relaxAux sec))
                then
                  alter (onAnchors (fun l =>
                           l ++ [mkSymbolAnchor (d_value d) sym false;
                                 mkSymbolAnchor (u64 (d_value d + d_size d)) sym true]))
                        sid secs
                else secs
            | None => secs
            end
        | None => secs
        end
  | None => secs
  end.

Definition initSymbolAnchors (st : LinkState) : LinkState :=
  let secs1 := foldl (fun secs sid => alter freshAux sid secs) (sections st) (exec_sections st) in
  let secs2 :=
    foldl (fun secs file => foldl (pushAnchors (symtab st) file) secs (f_symbols file))
          secs1 (objectFiles st) in
  let secs3 := foldl (fun secs sid => alter (onAnchors sortAnchors) sid secs)
                     secs2 (exec_sections st) in
  mkLinkState (objectFiles st) (outputSections st) secs3 (symtab st).

(** *** relaxCall and relaxCGP *)

(** Both return the section's aux data and the value left in [remove]
    (which the caller set to 0). *)
Definition relaxCall (syms : SymTab) (sec : InputSection) (aux : RISCVRelaxAux)
    (i : nat) (loc : Z) (r : Relocation) : Outcome (RISCVRelaxAux * Z) :=
  let jalRVCType := match r_type r with
                    | R_RISCV_CHERI_CCALL => R_RISCV_CHERI_RVC_CJUMP
                    | _ => R_RISCV_RVC_JUMP
                    end in
  let jalType := match r_type r with
                 | R_RISCV_CHERI_CCALL => R_RISCV_CHERI_CJAL
                 | _ => R_RISCV_JAL
                 end in
  let rvc := nonzero (Z.land (eflags config) EF_RISCV_RVC) in
  insnPair ← load 8 (rawData sec) (Z.to_nat (r_offset r));
  let rd := extractBits insnPair (32 + 11) (32 + 7) in
  let dest := u64 ((match r_expr r with
                    | R_PLT_PC => getPltVA (r_sym r)
                    | _ => getVA syms (r_sym r)
                    end) + r_addend r) in
  let displace := s64 (dest - loc) in
  if rvc && isInt 12 displace && (rd =? 0)
  then mret (push_write 0xa001 (set_relocTypes i jalRVCType aux), 6)
  else if rvc && isInt 12 displace && (rd =? Reg.X_RA) && negb (is64 config)
  then mret (push_write 0x2001 (set_relocTypes i jalRVCType aux), 6)
  else if isInt 21 displace
  then mret (push_write (Z.lor 0x6f (Z.shiftl rd 7)) (set_relocTypes i jalType aux), 4)
  else mret (aux, 0).

Definition relaxCGP (syms : SymTab) (sec : InputSection) (aux : RISCVRelaxAux)
    (i : nat) (loc : Z) (r : Relocation) : Outcome (RISCVRelaxAux * Z) :=
  if isPCCRelative None (r_sym r) then mret (aux, 0)
  else
    let hival := u64 (getBiasedCGPOffset syms (r_sym r) - getBiasedCGPOffsetLo12 syms (r_sym r)) in
    if negb (hival =? 0) then mret (aux, 0)
    else
      insn ← load 4 (rawData sec) (Z.to_nat (r_offset r));
      let insn' := Z.lor (Z.land insn (u32 (Z.lnot (Z.shiftl 31 15)))) (Z.shiftl 3 15) in
      match r_type r with
      | R_RISCV_CHERIOT_COMPARTMENT_HI => mret (set_relocTypes i R_RISCV_RELAX aux, 4)
      | R_RISCV_CHERIOT_COMPARTMENT_LO_I =>
          mret (push_write insn' (set_relocTypes i R_RISCV_CHERIOT_COMPARTMENT_LO_I aux), 0)
      | R_RISCV_CHERIOT_COMPARTMENT_LO_S =>
          mret (push_write insn' (set_relocTypes i R_RISCV_CHERIOT_COMPARTMENT_LO_I aux), 0)
      | _ => mret (aux, 0)
      end.

(** *** rewriteCheriotLowRelocs *)

(** [relocsOf] gives the relocations of the section a symbol lives in.  The
    loop only changes [sym] and [addend] of LO_I records and only reads those
    of HI records, so reading a section's list as it was when the loop began
    is reading it as it is. *)
Definition rewriteLowReloc (syms : SymTab) (relocsOf : SecId -> option (list Relocation))
    (r : Relocation) : Outcome (Relocation * bool) :=
  match r_type r with
  | R_RISCV_CHERIOT_COMPARTMENT_LO_I =>
      if isPCCRelative None (r_sym r)
      then
        match syms !! r_sym r with
        | None => Stop (AssertionFailed "cast<Defined>")
        | Some d =>
            match d_section d with
            | None =>
                Stop (ReportedError
                  "R_RISCV_CHERIOT_COMPARTMENT_LO_I relocation points to an absolute symbol")
            | Some sid =>
                rels ← of_option (relocsOf sid);
                match find (fun t => (r_offset t =? d_value d) && is_COMPARTMENT_HI (r_type t)) rels with
                | None =>
                    Stop (ReportedError
                      "Could not find R_RISCV_CHERIOT_COMPARTMENT_HI relocation")
                | Some target =>
                    if isPCCRelative None (r_sym target) then mret (r, false)
                    else mret (mkRelocation (r_expr r) (r_type r) (r_offset r)
                                 (r_addend target) (r_sym target), true)
                end
            end
        end
      else mret (r, false)
  | _ => mret (r, false)
  end.

Fixpoint rewriteCheriotLowRelocs_loop (syms : SymTab)
    (relocsOf : SecId -> option (list Relocation)) (rels : list Relocation)
    : Outcome (list Relocation * bool) :=
  match rels with
  | [] => mret ([], false)
  | r :: rels' =>
      '(r', m) ← rewriteLowReloc syms relocsOf r;
      '(rest, m') ← rewriteCheriotLowRelocs_loop syms relocsOf rels';
      mret (r' :: rest, m || m')
  end.

Definition rewriteCheriotLowRelocs (syms : SymTab)
    (relocsOf : SecId -> option (list Relocation)) (sec : InputSection)
    : Outcome (InputSection * bool) :=
  '(rels, modified) ← rewriteCheriotLowRelocs_loop syms relocsOf (relocations sec);
  mret (mkInputSection (sec_flags sec) rels (rawData sec) (relaxAux sec) (bytesDropped sec),
        modified).

(** *** relax *)

(** First loop of [relax]: the delta each symbol's start anchor had in the
    previous pass.  [drainValueDelta] is the inner [for] over the anchors
    whose offset is at most [off]. *)
Fixpoint drainValueDelta (off delta : Z) (sa : list SymbolAnchor) (vd : gmap SymId Z)
    : list SymbolAnchor * gmap SymId Z :=
  match sa with
  | a :: sa' =>
      if a_offset a <=? off
      then drainValueDelta off delta sa' (if a_end a then vd else <[a_d a := delta]> vd)
      else (sa, vd)
  | [] => ([], vd)
  end.

Fixpoint valueDeltaLoop (rels : list Relocation) (i : nat) (deltas : list Z)
    (sa : list SymbolAnchor) (delta : Z) (vd : gmap SymId Z)
    : Outcome (list SymbolAnchor * Z * gmap SymId Z) :=
  match rels with
  | [] => mret (sa, delta, vd)
  | r :: rels' =>
      let '(sa', vd') := drainValueDelta (r_offset r) delta sa vd in
      d ← of_option (deltas !! i);
      valueDeltaLoop rels' (S i) deltas sa' d vd'
  end.

Definition restValueDelta (delta : Z) (sa : list SymbolAnchor) (vd : gmap SymId Z)
    : gmap SymId Z :=
  foldl (fun vd a => if a_end a then vd else <[a_d a := delta]> vd) vd sa.

(** The body of the two anchor loops of the second part: [delta] is a
    [uint32_t], the symbol fields and the map's values are [uint64_t]. *)
Definition adjustAnchor (delta : Z) (vd : gmap SymId Z) (a : SymbolAnchor) (syms : SymTab)
    : Outcome SymTab :=
  if a_end a
  then mret (alter (fun d => set_size (u64 (a_offset a - delta - d_value d)) d) (a_d a) syms)
  else
    prev ← of_option (vd !! a_d a);
    mret (alter (fun d => set_value (u64 (d_value d - u64 (delta - prev))) d) (a_d a) syms).

Fixpoint drainAnchors (off delta : Z) (vd : gmap SymId Z) (sa : list SymbolAnchor)
    (syms : SymTab) : Outcome (list SymbolAnchor * SymTab) :=
  match sa with
  | a :: sa' =>
      if a_offset a <=? off
      then syms' ← adjustAnchor delta vd a syms; drainAnchors off delta vd sa' syms'
      else mret (sa, syms)
  | [] => mret ([], syms)
  end.

Fixpoint restAnchors (delta : Z) (vd : gmap SymId Z) (sa : list SymbolAnchor)
    (syms : SymTab) : Outcome SymTab :=
  match sa with
  | a :: sa' => syms' ← adjustAnchor delta vd a syms; restAnchors delta vd sa' syms'
  | [] => mret syms
  end.

Definition followedByRelax (sec : InputSection) (i : nat) : bool :=
  match relocations sec !! S i with
  | Some r' => is_RELAX (r_type r')
  | None => false
  end.

(** The [switch] of the second loop: the aux data and [remove].  The
    [assert] of the R_RISCV_ALIGN case is that of a build with assertions:
    when it fails the run ends there. *)
Definition relaxReloc (syms : SymTab) (sec : InputSection) (aux : RISCVRelaxAux)
    (i : nat) (loc : Z) (r : Relocation) : Outcome (RISCVRelaxAux * Z) :=
  match r_type r with
  | R_RISCV_ALIGN =>
      let nextLoc := u64 (loc + r_addend r) in
      let align := PowerOf2Ceil (u64 (r_addend r + 2)) in
      let remove := u32 (nextLoc - Z.land (u64 (loc + align - 1)) (u64 (- align))) in
      if 0 <=? s32 remove then mret (aux, remove)
      else Stop (AssertionFailed "R_RISCV_ALIGN needs expanding the content")
  | R_RISCV_CALL | R_RISCV_CALL_PLT | R_RISCV_CHERI_CCALL =>
      if followedByRelax sec i then relaxCall syms sec aux i loc r else mret (aux, 0)
  | R_RISCV_CHERIOT_COMPARTMENT_HI | R_RISCV_CHERIOT_COMPARTMENT_LO_I
  | R_RISCV_CHERIOT_COMPARTMENT_LO_S =>
      if followedByRelax sec i then relaxCGP syms sec aux i loc r else mret (aux, 0)
  | _ => mret (aux, 0)
  end.

Record RelaxState := mkRelaxState {
  rs_aux : RISCVRelaxAux;
  rs_syms : SymTab;
  rs_sa : list SymbolAnchor;
  rs_delta : Z;
  rs_changed : bool
}.

(** One round of the second loop, for relocation [r] of index [i]. *)
Definition relaxStep (secAddr : Z) (sec : InputSection) (vd : gmap SymId Z)
    (i : nat) (r : Relocation) (s : RelaxState) : Outcome RelaxState :=
  let loc := u64 (secAddr + r_offset r - rs_delta s) in
  cur ← of_option (relocDeltas (rs_aux s) !! i);
  '(aux, remove) ← relaxReloc (rs_syms s) sec (rs_aux s) i loc r;
  '(sa, syms) ← drainAnchors (r_offset r) (rs_delta s) vd (rs_sa s) (rs_syms s);
  let delta := u32 (rs_delta s + remove) in
  if negb (delta =? cur)
  then mret (mkRelaxState (set_relocDeltas i delta aux) syms sa delta true)
  else mret (mkRelaxState aux syms sa delta (rs_changed s)).

Fixpoint relaxLoop (secAddr : Z) (sec : InputSection) (vd : gmap SymId Z)
    (rels : list Relocation) (i : nat) (s : RelaxState) : Outcome RelaxState :=
  match rels with
  | [] => mret s
  | r :: rels' =>
      s' ← relaxStep secAddr sec vd i r s;
      relaxLoop secAddr sec vd rels' (S i) s'
  end.

(** [relax] up to, and without, the final size check: the section with its
    relocations as rewritten in pass 0, the state the second loop and the
    last anchor loop leave. *)
Definition relaxPass (secAddr : Z) (relocsOf : SecId -> option (list Relocation))
    (sec : InputSection) (syms : SymTab) (pass : Z)
    : Outcome (InputSection * RelaxState) :=
  aux ← of_option (relaxAux sec);
  '(sec, changed) ← (if pass =? 0 then rewriteCheriotLowRelocs syms relocsOf sec
                      else mret (sec, false));
  '(sa, delta, vd) ← valueDeltaLoop (relocations sec) 0 (relocDeltas aux) (anchors aux) 0 ∅;
  let vd := restValueDelta delta sa vd in
  let aux := mkRISCVRelaxAux (anchors aux) (relocDeltas aux)
               (replicate (length (relocations sec)) R_RISCV_NONE) [] in
  s ← relaxLoop secAddr sec vd (relocations sec) 0
        (mkRelaxState aux syms (anchors aux) 0 changed);
  syms' ← restAnchors (rs_delta s) vd (rs_sa s) (rs_syms s);
  mret (sec, mkRelaxState (rs_aux s) syms' [] (rs_delta s) (rs_changed s)).

Definition relax (secAddr : Z) (relocsOf : SecId -> option (list Relocation))
    (sec : InputSection) (syms : SymTab) (pass : Z)
    : Outcome (bool * InputSection * SymTab) :=
  '(sec, s) ← relaxPass secAddr relocsOf sec syms pass;
  if negb (isUInt 16 (rs_delta s))
  then Stop (FatalError "section size decrease is too large")
  else
    mret (rs_changed s,
          mkInputSection (sec_flags sec) (relocations sec) (rawData sec)
            (Some (rs_aux s)) (rs_delta s),
          rs_syms s).

(** *** relaxOnce *)

Definition relaxSection (pass : Z) (acc : bool * LinkState) (sid : SecId)
    : Outcome (bool * LinkState) :=
  let '(changed, st) := acc in
  sec ← of_option (sections st !! sid);
  '(c, sec', syms') ← relax (sectionVA sid)
                        (fun s => relocations <$> sections st !! s) sec (symtab st) pass;
  mret (changed || c,
        mkLinkState (objectFiles st) (outputSections st)
          (<[sid := sec']> (sections st)) syms').

Fixpoint relaxSections (pass : Z) (sids : list SecId) (acc : bool * LinkState)
    : Outcome (bool * LinkState) :=
  match sids with
  | [] => mret acc
  | sid :: sids' => acc' ← relaxSection pass acc sid; relaxSections pass sids' acc'
  end.

Definition relaxOnce (st : LinkState) (pass : Z) : Outcome (bool * LinkState) :=
  if relocatable config then mret (false, st)
  else
    let st := if pass =? 0 then initSymbolAnchors st else st in
    relaxSections pass (exec_sections st) (false, st).

End Relax.

(** ** The compartment export table (RISCVAsmPrinter.cpp, lines 1249-1348) *)

Module AsmPrinter.

Inductive CallingConv := CHERI_CCallee | CHERI_LibCall | OtherCC.

(** What the printer reads of an IR function and of its machine function. *)
Record Function := mkFunction {
  fn_name : string;
  fn_interrupt_state : option string;
  fn_cheri_compartment : string;
  fn_callingConv : CallingConv;
  fn_hasExternalLinkage : bool
}.

Definition MCPhysReg := Z.

Record MachineFunction := mkMachineFunction {
  mf_function : Function;
  mf_name : string;
  mf_liveins : list MCPhysReg;
  mf_stackSize : Z
}.

Record CompartmentExport := mkCompartmentExport {
  CompartmentName : string;
  Fn : Function;
  FnSym : string;
  LiveIns : Z;
  forceLocal : bool;
  stackSize : Z
}.

Inductive SymbolAttr := MCSA_ELF_TypeObject | MCSA_Global.

(** The calls made on the output streamer. *)
Inductive Directive :=
| SwitchSection (name : string) (type flags : Z)
| EmitSymbolAttribute (sym : string) (a : SymbolAttr)
| EmitValueToAlignment (n : Z)
| EmitLabel (sym : string)
| EmitLabelDifference (hi lo : string) (size : Z)
| EmitIntValue (v : Z) (size : Z)
| EmitELFSize (sym : string) (size : Z).

Definition SHT_PROGBITS := 1.
Definition SHF_ALLOC := 0x2.
Definition SHF_GNU_RETAIN := 0x200000.

(** Modelled from the spec: the bytes a data directive of the streamer
    (llvm/MC) puts into the section, "2 bytes: fnSym -
    __compartment_pcc_start (ELF label-difference, 2-byte)" and "1 byte"
    for each integer value: the low [size] bytes, little-endian.  [addr]
    gives the address each label ends up with. *)
Definition directive_bytes (addr : string -> Z) (d : Directive) : list byte :=
  match d with
  | EmitLabelDifference hi lo size => le_split (Z.to_nat size) (addr hi - addr lo)
  | EmitIntValue v size => le_split (Z.to_nat size) v
  | _ => []
  end.

Definition record_bytes (addr : string -> Z) (ds : list Directive) : list byte :=
  concat (map (directive_bytes addr) ds).

Section Printer.

(** Register numbers of the generated register file, and
    [TRI->isSubRegister(RegA, RegB)]. *)
Variables C10 C11 C12 C13 C14 C15 C5 : MCPhysReg.
Variable isSubRegister : MCPhysReg -> MCPhysReg -> bool.
(** [getImportExportTableName(compartment, function, cc, IsImport)]. *)
Variable getImportExportTableName : string -> string -> CallingConv -> bool -> string.

Definition ArgGPCRsE : list MCPhysReg := [C10; C11; C12; C13; C14; C15; C5].

(** The inner loop of [countUsedArgRegisters]: [i + 1] for the first
    argument register, from index [i] on, that [li] is or is part of. *)
Fixpoint firstArgReg (regs : list MCPhysReg) (i : Z) (li : MCPhysReg) : option Z :=
  match regs with
  | [] => None
  | a :: regs' =>
      if (a =? li) || isSubRegister a li then Some (i + 1)
      else firstArgReg regs' (i + 1) li
  end.

Definition countUsedArgRegisters (liveins : list MCPhysReg) : Z :=
  fold_left (fun NumArgRegs li =>
               match firstArgReg ArgGPCRsE 0 li with
               | Some k => Z.max NumArgRegs k
               | None => NumArgRegs
               end) liveins 0.

Definition interruptFlagOf (F : Function) : Z :=
  match fn_interrupt_state F with
  | Some v =>
      if String.eqb v "enabled" then Z.shiftl 1 3
      else if String.eqb v "disabled" then Z.shiftl 2 3
      else 0
  | None => 0
  end.

(** The part of [runOnMachineFunction] that records an export: the new
    value of [CompartmentEntries]. *)
Definition runOnMachineFunction (CompartmentEntries : list CompartmentExport)
    (MF : MachineFunction) : list CompartmentExport :=
  let F := mf_function MF in
  let interruptFlag := interruptFlagOf F in
  match fn_callingConv F with
  | CHERI_CCallee =>
      CompartmentEntries ++
        [mkCompartmentExport (fn_cheri_compartment F) F (mf_name MF)
           (countUsedArgRegisters (mf_liveins MF) + interruptFlag) false
           (u32 (mf_stackSize MF))]
  | CHERI_LibCall =>
      CompartmentEntries ++
        [mkCompartmentExport "libcalls" F (mf_name MF)
           (countUsedArgRegisters (mf_liveins MF) + interruptFlag) false 0]
  | OtherCC =>
      if negb (interruptFlag =? 0)
      then CompartmentEntries ++
             [mkCompartmentExport (fn_cheri_compartment F) F (mf_name MF)
                (countUsedArgRegisters (mf_liveins MF) + interruptFlag) true 0]
      else CompartmentEntries
  end.

(** The body of the loop over [CompartmentEntries] in [emitEndOfAsmFile]. *)
Definition emitExport (Entry : CompartmentExport) : list Directive :=
  let ExportName :=
    getImportExportTableName (CompartmentName Entry) (fn_name (Fn Entry))
      (fn_callingConv (Fn Entry)) false in
  let stackSize := u32 (stackSize Entry + 7) / 8 in
  [EmitSymbolAttribute ExportName MCSA_ELF_TypeObject] ++
  (if fn_hasExternalLinkage (Fn Entry) && negb (forceLocal Entry)
   then [EmitSymbolAttribute ExportName MCSA_Global] else []) ++
  [EmitValueToAlignment 4;
   EmitLabel ExportName;
   EmitLabelDifference (FnSym Entry) "__compartment_pcc_start" 2;
   EmitIntValue (Z.min 255 stackSize) 1;
   EmitIntValue (LiveIns Entry) 1;
   EmitELFSize ExportName 4].

(** The export half of [emitEndOfAsmFile]. *)
Definition emitCompartmentExports (CompartmentEntries : list CompartmentExport)
    : list Directive :=
  match CompartmentEntries with
  | [] => []
  | _ =>
      SwitchSection ".compartment_exports" SHT_PROGBITS (Z.lor SHF_ALLOC SHF_GNU_RETAIN)
        :: concat (map emitExport CompartmentEntries)
  end.

End Printer.

End AsmPrinter.

(** ** Vocabulary of the properties, and the concrete inputs of the examples *)

(** The configuration of a plain RV32 link, used for concrete runs. *)
Definition rv32_config : Config := mkConfig false false true false false 0 4 8.
Definition never_pcc : option nat -> SymId -> bool := fun _ _ => false.

(** The flag fields [calcEFlags] looks at: the RVC bit it accumulates and the
    four fields it compares. *)
Definition EF_RISCV_examined : Z :=
  Z.lor EF_RISCV_RVC
    (Z.lor EF_RISCV_FLOAT_ABI
       (Z.lor EF_RISCV_RVE (Z.lor EF_RISCV_CHERIABI EF_RISCV_CAP_MODE))).

(** Vocabulary for the closed form of [calcEFlags]. *)
Definition has_rvc (f : InputFile) : bool := nonzero (Z.land (getEFlags f) EF_RISCV_RVC).

(** [f] agrees with [target] on the four compared fields. *)
Definition agrees (target : Z) (f : InputFile) : bool :=
  negb (eflags_mismatch EF_RISCV_FLOAT_ABI (getEFlags f) target) &&
  negb (eflags_mismatch EF_RISCV_RVE (getEFlags f) target) &&
  negb (eflags_mismatch EF_RISCV_CHERIABI (getEFlags f) target) &&
  negb (eflags_mismatch EF_RISCV_CAP_MODE (getEFlags f) target).

Definition with_rvc (b : bool) (target : Z) : Z :=
  if b then Z.lor target EF_RISCV_RVC else target.

(** Three objects that differ in a flag outside those fields (bit 4, the
    psABI's TSO flag). *)
Definition obj_tso : InputFile := mkInputFile 0%nat "a.o" 0x10 [].
Definition obj_plain1 : InputFile := mkInputFile 1%nat "b.o" 0 [].
Definition obj_plain2 : InputFile := mkInputFile 2%nat "c.o" 0 [].

(** The eight instruction words of the lazy-binding PLT header, for the
    pointer load [ptrload], the displacement [offset] from the PLT to
    .got.plt, the shift and the pointer size. *)
Definition plt_header_words (ptrload offset shift ptrsize : Z) : list Z :=
  [ utype Op.AUIPC Reg.X_T2 (hi20 offset);
    rtype Op.SUB Reg.X_T1 Reg.X_T1 Reg.X_T3;
    itype ptrload Reg.X_T3 Reg.X_T2 (lo12 offset);
    itype Op.ADDI Reg.X_T1 Reg.X_T1 (u32 (- pltHeaderSize - 12));
    itype Op.ADDI Reg.X_T0 Reg.X_T2 (lo12 offset);
    itype Op.SRLI Reg.X_T1 Reg.X_T1 shift;
    itype ptrload Reg.X_T0 Reg.X_T0 ptrsize;
    itype Op.JALR 0 Reg.X_T3 0 ].

Definition nop : Z := itype Op.ADDI 0 0 0.

(** A PLT section of 40 bytes of [0xaa], its header written at offset 4. *)
Definition plt_filler : buffer := replicate 40 Byte.xaa.
Definition plt_rv32 : buffer := writePltHeader rv32_config 0x2000 0x1000 plt_filler 4.

(** A register file for concrete runs of the printer: the capability
    argument registers are numbered as their index, nothing is a
    sub-register, and export names are built by concatenation. *)
Definition example_isSubRegister : AsmPrinter.MCPhysReg -> AsmPrinter.MCPhysReg -> bool :=
  fun _ _ => false.
Definition example_tableName (compartment fn : string) (cc : AsmPrinter.CallingConv)
    (isImport : bool) : string :=
  ((if isImport then "__import_" else "__export_") ++ compartment ++ "_" ++ fn)%string.

(** A compartment entry point with interrupts enabled, one argument in
    [C10] and a 20-byte frame. *)
Definition example_entry_point : AsmPrinter.MachineFunction :=
  AsmPrinter.mkMachineFunction
    (AsmPrinter.mkFunction "f" (Some "enabled"%string) "comp" AsmPrinter.CHERI_CCallee true)
    "f" [10] 20.

Definition example_runOnMachineFunction :=
  AsmPrinter.runOnMachineFunction 10 11 12 13 14 15 5 example_isSubRegister.
Definition example_emitExport :=
  AsmPrinter.emitExport example_tableName.

(** Vocabulary for the call relaxation: the call kinds, the kinds a relaxed
    call turns into, and the displacement [relaxCall] computes. *)
Definition is_call (t : RelType) : Prop :=
  t = R_RISCV_CALL \/ t = R_RISCV_CALL_PLT \/ t = R_RISCV_CHERI_CCALL.

Definition rvc_jump_for (t : RelType) : RelType :=
  match t with
  | R_RISCV_CHERI_CCALL => R_RISCV_CHERI_RVC_CJUMP
  | _ => R_RISCV_RVC_JUMP
  end.

Definition jal_for (t : RelType) : RelType :=
  match t with
  | R_RISCV_CHERI_CCALL => R_RISCV_CHERI_CJAL
  | _ => R_RISCV_JAL
  end.

Definition call_displacement (getVA : SymTab -> SymId -> Z) (getPltVA : SymId -> Z)
    (syms : SymTab) (r : Relocation) (loc : Z) : Z :=
  s64 (u64 ((match r_expr r with
             | R_PLT_PC => getPltVA (r_sym r)
             | _ => getVA syms (r_sym r)
             end) + r_addend r) - loc).

(** The aux data after a rewrite: relocation [i] gets kind [t], the word [w]
    is appended to [writes]. *)
Definition rewritten (i : nat) (t : RelType) (w : Z) (aux : RISCVRelaxAux) : RISCVRelaxAux :=
  mkRISCVRelaxAux (anchors aux) (relocDeltas aux) (<[i := t]> (relocTypes aux))
    (writes aux ++ [w]).

(** Scenario S3: [auipc t0, 0; jalr x0, t0, 0] with a CALL and its RELAX
    hint at offset 0, in a link with RVC, the target 8 bytes ahead. *)
Definition rvc_config : Config := mkConfig false false true false false EF_RISCV_RVC 4 8.
Definition call_section : InputSection :=
  mkInputSection SHF_EXECINSTR
    [mkRelocation R_PLT_PC R_RISCV_CALL 0 0 0%nat;
     mkRelocation R_RELAX_HINT R_RISCV_RELAX 0 0 0%nat]
    (le_split 4 0x00000297 ++ le_split 4 0x00028067)
    (Some (mkRISCVRelaxAux [] [0; 0] [R_RISCV_NONE; R_RISCV_NONE] []))
    0.
Definition target_at_8 : SymTab -> SymId -> Z := fun _ _ => 8.
Definition no_cgp : SymTab -> SymId -> Z := fun _ _ => 0.

(** A link of one object with one text section: [caller] (8 bytes, the
    relaxable call of S3 to [callee]) and [callee] (4 bytes, a [ret]). *)
Definition sym_caller : SymId := 0%nat.
Definition sym_callee : SymId := 1%nat.
Definition example_section : InputSection :=
  mkInputSection SHF_EXECINSTR
    [mkRelocation R_PC R_RISCV_CALL 0 0 sym_callee;
     mkRelocation R_RELAX_HINT R_RISCV_RELAX 0 0 sym_callee]
    (le_split 4 0x00000297 ++ le_split 4 0x00028067 ++ le_split 4 0x00008067)
    None 0.
Definition example_symtab : SymTab :=
  <[sym_caller := mkDefined 0%nat (Some 0%nat) 0 8]>
    (<[sym_callee := mkDefined 0%nat (Some 0%nat) 8 4]> ∅).
Definition example_link : LinkState :=
  mkLinkState [mkInputFile 0%nat "a.o" EF_RISCV_RVC [sym_caller; sym_callee]]
    [mkOutputSection SHF_EXECINSTR [0%nat]]
    (<[0%nat := example_section]> ∅)
    example_symtab.
(** Addresses in that link: the section is at 0, so a symbol's address is
    its current value; nothing has a PLT entry. *)
Definition example_getVA : SymTab -> SymId -> Z :=
  fun syms s => default 0 (d_value <$> syms !! s).
Definition example_getPltVA : SymId -> Z := fun _ => 0.
Definition example_sectionVA : SecId -> Z := fun _ => 0.
Definition example_relaxOnce (config : Config) :=
  relaxOnce config never_pcc example_getVA example_getPltVA no_cgp no_cgp example_sectionVA.

(** The same link with [-r]: a relocatable output. *)
Definition relocatable_config : Config :=
  mkConfig false false true true false EF_RISCV_RVC 4 8.

(** Vocabulary for a relaxation pass.

    [deltaAt offs deltas prev off] is the cumulative delta in force at
    offset [off] of a section whose relocations have the offsets [offs] and
    deltas [deltas]: the delta of the last relocation before the first one
    that is not below [off], and [prev] when there is none before it. *)
Fixpoint deltaAt (offs : list Z) (deltas : list Z) (prev : Z) (off : Z) : Z :=
  match offs, deltas with
  | o :: offs', d :: deltas' => if off <=? o then prev else deltaAt offs' deltas' d off
  | _, _ => prev
  end.

(** Anchors in the order of their offsets, as [initSymbolAnchors] leaves
    them. *)
Definition anchors_sorted (sa : list SymbolAnchor) : Prop :=
  StronglySorted (fun a b => a_offset a <= a_offset b) sa.

(** The anchors of section [sid], if it has aux data, are sorted. *)
Definition sorted_at (secs : gmap SecId InputSection) (sid : SecId) : Prop :=
  forall sec aux, secs !! sid = Some sec -> relaxAux sec = Some aux ->
                  anchors_sorted (anchors aux).

(** The order [llvm::sort] is given in [initSymbolAnchors], as a relation:
    [a] is not after [b] by (offset, end). *)
Definition anchor_le (a b : SymbolAnchor) : Prop :=
  a_offset a < a_offset b \/
  (a_offset a = a_offset b /\ (a_end a = false \/ a_end b = true)).

(** The first anchor left by a drain, if any, lies above [off]. *)
Definition starts_above (off : Z) (sa : list SymbolAnchor) : Prop :=
  match sa with
  | a :: _ => off < a_offset a
  | [] => True
  end.

(** What a rewrite may touch: kinds and writes, never deltas or anchors. *)
Definition same_deltas (aux aux1 : RISCVRelaxAux) : Prop :=
  relocDeltas aux1 = relocDeltas aux /\ anchors aux1 = anchors aux.

(** The anchor loops with the delta of each anchor given by a function of
    its offset: the first records start deltas, the second adjusts symbols. *)
Definition recordDeltas (delta : Z -> Z) (vd : gmap SymId Z) (sa : list SymbolAnchor)
    : gmap SymId Z :=
  foldl (fun vd a => if a_end a then vd else <[a_d a := delta (a_offset a)]> vd) vd sa.

Fixpoint adjustAll (delta : Z -> Z) (vd : gmap SymId Z) (sa : list SymbolAnchor)
    (syms : SymTab) : Outcome SymTab :=
  match sa with
  | [] => mret syms
  | a :: sa' =>
      syms' ← adjustAnchor (delta (a_offset a)) vd a syms;
      adjustAll delta vd sa' syms'
  end.

Definition sum_list (l : list Z) : Z := foldr Z.add 0 l.

(** The bytes removed at each relocation of the second loop of [relax],
    run from relocation [i] in state [s]. *)
Section PassRemoves.

Variable config : Config.
Variable isPCCRelative : option nat -> SymId -> bool.
Variable getVA : SymTab -> SymId -> Z.
Variable getPltVA : SymId -> Z.
Variable getBiasedCGPOffset : SymTab -> SymId -> Z.
Variable getBiasedCGPOffsetLo12 : SymTab -> SymId -> Z.

Fixpoint loopRemoves (secAddr : Z) (sec : InputSection) (vd : gmap SymId Z)
    (rels : list Relocation) (i : nat) (s : RelaxState) : Outcome (list Z) :=
  match rels with
  | [] => mret []
  | r :: rels' =>
      '(_, remove) ← relaxReloc config isPCCRelative getVA getPltVA getBiasedCGPOffset
                       getBiasedCGPOffsetLo12 (rs_syms s) sec (rs_aux s) i
                       (u64 (secAddr + r_offset r - rs_delta s)) r;
      s' ← relaxStep config isPCCRelative getVA getPltVA getBiasedCGPOffset
             getBiasedCGPOffsetLo12 secAddr sec vd i r s;
      rest ← loopRemoves secAddr sec vd rels' (S i) s';
      mret (remove :: rest)
  end.

(** The same for a whole pass over [sec], set up as [relax] sets it up. *)
Definition passRemoves (secAddr : Z) (relocsOf : SecId -> option (list Relocation))
    (sec : InputSection) (syms : SymTab) (pass : Z) : Outcome (list Z) :=
  aux ← of_option (relaxAux sec);
  '(sec, changed) ← (if pass =? 0
                      then rewriteCheriotLowRelocs isPCCRelative syms relocsOf sec
                      else mret (sec, false));
  '(sa, delta, vd) ← valueDeltaLoop (relocations sec) 0 (relocDeltas aux) (anchors aux) 0 ∅;
  let vd := restValueDelta delta sa vd in
  let aux := mkRISCVRelaxAux (anchors aux) (relocDeltas aux)
               (replicate (length (relocations sec)) R_RISCV_NONE) [] in
  loopRemoves secAddr sec vd (relocations sec) 0
    (mkRelaxState aux syms (anchors aux) 0 changed).

End PassRemoves.

(** The example link after [initSymbolAnchors], and its text section. *)
Definition example_link0 : LinkState :=
  initSymbolAnchors example_link.
Definition example_section0 : InputSection :=
  default example_section (sections example_link0 !! 0%nat).
Definition example_aux0 : RISCVRelaxAux :=
  default (mkRISCVRelaxAux [] [] [] []) (relaxAux example_section0).
Definition example_relocsOf (st : LinkState) : SecId -> option (list Relocation) :=
  fun s => relocations <$> sections st !! s.
Definition example_relax :=
  relax rvc_config never_pcc example_getVA example_getPltVA no_cgp no_cgp
    0 (example_relocsOf example_link0) example_section0 example_symtab 0.
Definition example_relaxPass :=
  relaxPass rvc_config never_pcc example_getVA example_getPltVA no_cgp no_cgp
    0 (example_relocsOf example_link0) example_section0 example_symtab 0.
Definition example_passRemoves :=
  passRemoves rvc_config never_pcc example_getVA example_getPltVA no_cgp no_cgp
    0 (example_relocsOf example_link0) example_section0 example_symtab 0.
Definition example_relax_result : bool * InputSection * SymTab :=
  match example_relax with
  | Done x => x
  | Stop _ => (false, example_section0, example_symtab)
  end.
Definition example_pass_result : InputSection * RelaxState :=
  match example_relaxPass with
  | Done x => x
  | Stop _ => (example_section0, mkRelaxState example_aux0 example_symtab [] 0 false)
  end.

(** A section of an object built without RVC in a link whose merged flags
    have RVC: the call is relaxed to a 2-byte [c.j], after which the
    8-byte alignment (addend 4, as 4-byte NOPs give) cannot be kept. *)
Definition mixed_section : InputSection :=
  mkInputSection SHF_EXECINSTR
    [mkRelocation R_PC R_RISCV_CALL 0 0 sym_callee;
     mkRelocation R_RELAX_HINT R_RISCV_RELAX 0 0 sym_callee;
     mkRelocation R_RELAX_HINT R_RISCV_ALIGN 8 4 sym_callee]
    (le_split 4 0x00000297 ++ le_split 4 0x00028067 ++ le_split 4 0x00000013 ++
     le_split 4 0x00008067)
    (Some (mkRISCVRelaxAux [] [0; 0; 0] [R_RISCV_NONE; R_RISCV_NONE; R_RISCV_NONE] []))
    0.

(** ** The rest of the target: description, addends, GOT and PLT entries,
    relocation kinds (RISCV.cpp, lines 95-129, 137-139, 184-227, 272-375) *)

#[global] Instance RelType_eq_dec : EqDecision RelType.
Proof. solve_decision. Defined.

Module Target.

(** The fields of [TargetInfo] that the constructor [RISCV::RISCV()] sets. *)
Record TargetInfo := mkTargetInfo {
  copyRel : RelType;
  noneRel : RelType;
  pltRel : RelType;
  relativeRel : RelType;
  iRelativeRel : RelType;
  sizeRel : RelType;
  cheriCapRel : RelType;
  cheriCapCallRel : RelType;
  symbolicRel : RelType;
  tlsModuleIndexRel : RelType;
  tlsOffsetRel : RelType;
  tlsGotRel : RelType;
  gotRel : RelType;
  absPointerRel : RelType;
  gotBaseSymInGotPlt : bool;
  gotHeaderEntriesNum : Z;
  gotPltHeaderEntriesNum : Z;
  pltHeaderSize : Z;
  pltEntrySize : Z;
  ipltEntrySize : Z
}.

Definition RISCV (config : Config) : TargetInfo :=
  let symbolicRel := if is64 config then R_RISCV_64 else R_RISCV_32 in
  mkTargetInfo
    R_RISCV_COPY R_RISCV_NONE R_RISCV_JUMP_SLOT R_RISCV_RELATIVE R_RISCV_IRELATIVE
    R_RISCV_CHERI_SIZE R_RISCV_CHERI_CAPABILITY R_RISCV_CHERI_CAPABILITY
    symbolicRel
    (if is64 config then R_RISCV_TLS_DTPMOD64 else R_RISCV_TLS_DTPMOD32)
    (if is64 config then R_RISCV_TLS_DTPREL64 else R_RISCV_TLS_DTPREL32)
    (if is64 config then R_RISCV_TLS_TPREL64 else R_RISCV_TLS_TPREL32)
    symbolicRel symbolicRel
    false 1 2
    32 16 16.

End Target.

Definition getCapabilitySize (config : Config) : Z := if is64 config then 16 else 8.

(** [internalLinkerError] reports and the function returns 0. *)
Definition getImplicitAddend (config : Config) (buf : buffer) (loc : nat) (type : RelType)
    : Outcome (Z * list Diag) :=
  match type with
  | R_RISCV_32 | R_RISCV_TLS_DTPMOD32 | R_RISCV_TLS_DTPREL32 =>
      w ← load 4 buf loc; mret (SignExtend64 32 w, [])
  | R_RISCV_64 => w ← load 8 buf loc; mret (s64 w, [])
  | R_RISCV_RELATIVE | R_RISCV_IRELATIVE =>
      w ← (if is64 config then load 8 buf loc else load 4 buf loc); mret (s64 w, [])
  | R_RISCV_NONE | R_RISCV_JUMP_SLOT => mret (0, [])
  | _ => mret (0, [Error "internal linker error: cannot read addend for relocation"])
  end.

(** [dynamicVA] is [mainPart->dynamic->getVA()], [pltVA] is
    [in.plt->getVA()], [symVA] is [s.getVA()]. *)
Definition writeGotHeader (config : Config) (dynamicVA : Z) (buf : buffer) (loc : nat)
    : Outcome buffer :=
  if is64 config then store 8 buf loc dynamicVA else store 4 buf loc dynamicVA.

Definition writeGotPlt (config : Config) (pltVA : Z) (buf : buffer) (loc : nat)
    : Outcome buffer :=
  if is64 config then store 8 buf loc pltVA else store 4 buf loc pltVA.

Definition writeIgotPlt (config : Config) (symVA : Z) (buf : buffer) (loc : nat)
    : Outcome buffer :=
  if writeAddends config
  then (if is64 config then store 8 buf loc symVA else store 4 buf loc symVA)
  else mret buf.

(** [capTableVA] is [sym.getCapTableVA(in.plt, 0)], [gotPltVA] is
    [sym.getGotPltVA()]. *)
Definition writePlt (config : Config) (capTableVA gotPltVA : Z) (buf : buffer) (loc : nat)
    (pltEntryAddr : Z) : Outcome buffer :=
  let ptrload := if isCheriAbi config
                 then (if is64 config then Op.CLC_128 else Op.CLC_64)
                 else (if is64 config then Op.LD else Op.LW) in
  let entryva := u32 (if isCheriAbi config then capTableVA else gotPltVA) in
  let offset := u32 (entryva - pltEntryAddr) in
  buf ← store 4 buf (loc + 0) (utype Op.AUIPC Reg.X_T3 (hi20 offset));
  buf ← store 4 buf (loc + 4) (itype ptrload Reg.X_T3 Reg.X_T3 (lo12 offset));
  buf ← store 4 buf (loc + 8) (itype Op.JALR Reg.X_T1 Reg.X_T3 0);
  store 4 buf (loc + 12) (itype Op.ADDI 0 0 0).

Definition getDynRel (target : Target.TargetInfo) (type : RelType) : RelType :=
  if bool_decide (type = Target.symbolicRel target) then type else R_RISCV_NONE.

(** The result of [getRelExpr]: the expression, whether
    [config->hasStaticTlsModel] was set, and what was reported. *)
Record RelExprResult := mkRelExprResult {
  re_expr : RelExpr;
  re_hasStaticTlsModel : bool;
  re_diags : list Diag
}.

Definition getRelExpr (config : Config) (isPCCRelative : option nat -> SymId -> bool)
    (type : RelType) (s : SymId) (loc : nat) : RelExprResult :=
  let ret e := mkRelExprResult e false [] in
  match type with
  | R_RISCV_NONE => ret R_NONE
  | R_RISCV_32 | R_RISCV_64 | R_RISCV_HI20 | R_RISCV_LO12_I | R_RISCV_LO12_S
  | R_RISCV_RVC_LUI => ret R_ABS
  | R_RISCV_ADD8 | R_RISCV_ADD16 | R_RISCV_ADD32 | R_RISCV_ADD64
  | R_RISCV_SET6 | R_RISCV_SET8 | R_RISCV_SET16 | R_RISCV_SET32
  | R_RISCV_SUB6 | R_RISCV_SUB8 | R_RISCV_SUB16 | R_RISCV_SUB32 | R_RISCV_SUB64 =>
      ret R_RISCV_ADD
  | R_RISCV_JAL | R_RISCV_CHERI_CJAL | R_RISCV_BRANCH | R_RISCV_PCREL_HI20
  | R_RISCV_RVC_BRANCH | R_RISCV_RVC_JUMP | R_RISCV_CHERI_RVC_CJUMP
  | R_RISCV_32_PCREL => ret R_PC
  | R_RISCV_CALL | R_RISCV_CALL_PLT | R_RISCV_CHERI_CCALL => ret R_PLT_PC
  | R_RISCV_GOT_HI20 => ret R_GOT_PC
  | R_RISCV_PCREL_LO12_I | R_RISCV_PCREL_LO12_S => ret R_RISCV_PC_INDIRECT
  | R_RISCV_TLS_GD_HI20 => ret R_TLSGD_PC
  | R_RISCV_TLS_GOT_HI20 => mkRelExprResult R_GOT_PC true []
  | R_RISCV_TPREL_HI20 | R_RISCV_TPREL_LO12_I | R_RISCV_TPREL_LO12_S => ret R_TPREL
  | R_RISCV_TPREL_ADD | R_RISCV_CHERI_TPREL_CINCOFFSET => ret R_NONE
  | R_RISCV_ALIGN => ret R_RELAX_HINT
  | R_RISCV_CHERI_CAPABILITY => ret R_CHERI_CAPABILITY
  | R_RISCV_CHERI_CAPTAB_PCREL_HI20 => ret R_CHERI_CAPABILITY_TABLE_ENTRY_PC
  | R_RISCV_CHERI_TLS_IE_CAPTAB_PCREL_HI20 => ret R_CHERI_CAPABILITY_TABLE_TLSIE_ENTRY_PC
  | R_RISCV_CHERI_TLS_GD_CAPTAB_PCREL_HI20 => ret R_CHERI_CAPABILITY_TABLE_TLSGD_ENTRY_PC
  | R_RISCV_CHERIOT_COMPARTMENT_HI =>
      ret (if isPCCRelative (Some loc) s then R_PC else R_CHERIOT_COMPARTMENT_CGPREL_HI)
  | R_RISCV_CHERIOT_COMPARTMENT_LO_I => ret R_CHERIOT_COMPARTMENT_CGPREL_LO_I
  | R_RISCV_CHERIOT_COMPARTMENT_LO_S => ret R_CHERIOT_COMPARTMENT_CGPREL_LO_S
  | R_RISCV_CHERIOT_COMPARTMENT_SIZE => ret R_CHERIOT_COMPARTMENT_SIZE
  | R_RISCV_RELAX => ret (if relax_enabled config then R_RELAX_HINT else R_NONE)
  | _ => mkRelExprResult R_NONE false [Error "unknown relocation against symbol"]
  end.

(** ** cheriRequiredAlignment (RISCV.cpp, lines 630-641) *)

Definition cheriRequiredAlignment (size : Z) : Z :=
  let mantissaWidth := 9 in
  let mantissaWidthMinusOneMask := u64 (Z.shiftl 1 (mantissaWidth - 1) - 1) in
  let msbIdxPlusOne := 64 - countLeadingZeros size in
  let e := Z.max (msbIdxPlusOne - mantissaWidth) 0 in
  let e := if Z.land (Z.shiftr size (e + 1)) mantissaWidthMinusOneMask
              =? mantissaWidthMinusOneMask
           then e + 1 else e in
  u64 (Z.shiftl 1 e).

(** ** riscvFinalizeRelax (RISCV.cpp, lines 957-1055) *)

Definition is_NONE (t : RelType) : bool :=
  match t with R_RISCV_NONE => true | _ => false end.

(** [memcpy(dst + p, src + offset, size)]: copying from or to bytes outside
    the buffers has no defined behaviour. *)
Definition memcpy (dst : buffer) (p : Z) (src : buffer) (offset size : Z) : Outcome buffer :=
  if (0 <=? p) && (p + size <=? Z.of_nat (length dst)) &&
     (0 <=? offset) && (0 <=? size) && (offset + size <=? Z.of_nat (length src))
  then mret (take (Z.to_nat p) dst ++
             take (Z.to_nat size) (drop (Z.to_nat offset) src) ++
             drop (Z.to_nat (p + size)) dst)
  else Stop InvalidAccess.

(** A write through the pointer [buf + p]. *)
Definition storeAt (n : nat) (buf : buffer) (p : Z) (v : Z) : Outcome buffer :=
  if 0 <=? p then store n buf (Z.to_nat p) v else Stop InvalidAccess.

(** [for (; j + 4 <= skip; j += 4) write32le(p + j, 0x00000013)]: the
    buffer and the final [j].  The loop runs at most [skip / 4] times;
    [fuel] bounds it. *)
Fixpoint nopLoop (fuel : nat) (buf : buffer) (p j skip : Z) : Outcome (buffer * Z) :=
  if j + 4 <=? skip
  then match fuel with
       | O => Stop InvalidAccess
       | S fuel' =>
           buf' ← storeAt 4 buf (p + j) 0x00000013;
           nopLoop fuel' buf' p (j + 4) skip
       end
  else mret (buf, j).

(** The state of the first loop over the relocations: the new buffer, the
    write pointer [p] as an index into it, [offset] into the old contents,
    [delta] and [writesIdx]. *)
Record Cursor := mkCursor {
  c_buf : buffer;
  c_p : Z;
  c_offset : Z;
  c_delta : Z;
  c_writesIdx : nat
}.

Definition is_ALIGN (t : RelType) : bool :=
  match t with R_RISCV_ALIGN => true | _ => false end.

(** The [R_RISCV_ALIGN] branch: the NOP sequence is rewritten when the
    removed bytes or the addend are not a multiple of 4.  The result is the
    buffer and [skip]. *)
Definition rewriteNops (buf : buffer) (p : Z) (r : Relocation) (remove : Z)
    : Outcome (buffer * Z) :=
  if negb (remove mod 4 =? 0) || negb (Z.rem (r_addend r) 4 =? 0)
  then
    let skip := s64 (r_addend r - remove) in
    '(buf, j) ← nopLoop (Z.to_nat skip) buf p 0 skip;
    if negb (j =? skip)
    then
      if j + 2 =? skip
      then buf ← storeAt 2 buf (p + j) 0x0001; mret (buf, skip)
      else Stop (AssertionFailed "j + 2 == skip")
    else mret (buf, skip)
  else mret (buf, 0).

(** The [switch (newType)] branch: the buffer, [skip] and [writesIdx]. *)
Definition spliceWrite (aux : RISCVRelaxAux) (buf : buffer) (p : Z) (newType : RelType)
    (writesIdx : nat) : Outcome (buffer * Z * nat) :=
  match newType with
  | R_RISCV_NONE | R_RISCV_RELAX => mret (buf, 0, writesIdx)
  | R_RISCV_RVC_JUMP | R_RISCV_CHERI_RVC_CJUMP =>
      w ← of_option (writes aux !! writesIdx);
      buf ← storeAt 2 buf p w;
      mret (buf, 2, S writesIdx)
  | R_RISCV_JAL | R_RISCV_CHERI_CJAL
  | R_RISCV_CHERIOT_COMPARTMENT_LO_I | R_RISCV_CHERIOT_COMPARTMENT_LO_S =>
      w ← of_option (writes aux !! writesIdx);
      buf ← storeAt 4 buf p w;
      mret (buf, 4, S writesIdx)
  | _ => Stop (AssertionFailed "unsupported type")
  end.

(** One round of that loop, for relocation [r] of index [i]. *)
Definition finalizeStep (old : buffer) (aux : RISCVRelaxAux) (i : nat) (r : Relocation)
    (s : Cursor) : Outcome Cursor :=
  d ← of_option (relocDeltas aux !! i);
  t ← of_option (relocTypes aux !! i);
  let remove := u32 (d - c_delta s) in
  let delta := d in
  if (remove =? 0) && is_NONE t
  then mret (mkCursor (c_buf s) (c_p s) (c_offset s) delta (c_writesIdx s))
  else
    let size := u64 (r_offset r - c_offset s) in
    buf ← memcpy (c_buf s) (c_p s) old (c_offset s) size;
    let p := c_p s + size in
    '(buf, skip, writesIdx) ←
      (if is_ALIGN (r_type r)
       then '(buf, skip) ← rewriteNops buf p r remove; mret (buf, skip, c_writesIdx s)
       else spliceWrite aux buf p t (c_writesIdx s));
    mret (mkCursor buf (p + skip) (u64 (r_offset r + skip + remove)) delta writesIdx).

Fixpoint finalizeLoop (old : buffer) (aux : RISCVRelaxAux) (rels : list Relocation)
    (i : nat) (s : Cursor) : Outcome Cursor :=
  match rels with
  | [] => mret s
  | r :: rels' => s' ← finalizeStep old aux i r s; finalizeLoop old aux rels' (S i) s'
  end.

(** What the second loop does to one relocation. *)
Definition rebase (delta : Z) (t : RelType) (r : Relocation) : Relocation :=
  mkRelocation (r_expr r) (if is_NONE t then r_type r else t)
    (u64 (r_offset r - delta)) (r_addend r) (r_sym r).

(** The second loop over the relocations [rels], which are those from
    index [i] on.  The inner [fix] is the [do ... while]: it rewrites the
    relocation [r] of index [i] and goes on while the next one has the
    offset [cur]; then [delta] becomes [relocDeltas[i - 1]] for the
    relocation after the group. *)
Fixpoint rebaseLoop (aux : RISCVRelaxAux) (i : nat) (delta : Z) (rels : list Relocation)
    {struct rels} : Outcome (list Relocation) :=
  match rels with
  | [] => mret []
  | r :: rest =>
      let cur := r_offset r in
      (fix group (i : nat) (r : Relocation) (rest : list Relocation) {struct rest}
         : Outcome (list Relocation) :=
         t ← of_option (relocTypes aux !! i);
         let r' := rebase delta t r in
         match rest with
         | r2 :: rest2 =>
             if r_offset r2 =? cur
             then tail ← group (S i) r2 rest2; mret (r' :: tail)
             else
               d ← of_option (relocDeltas aux !! i);
               tail ← rebaseLoop aux (S i) d rest;
               mret (r' :: tail)
         | [] =>
             _ ← of_option (relocDeltas aux !! i);
             mret [r']
         end) i r rest
  end.

Section Finalize.

(** [bAlloc.Allocate<uint8_t>(n)]: [n] bytes whose contents the allocator
    leaves open. *)
Variable Allocate : nat -> buffer.

(** The body of the loop over the input sections. *)
Definition finalizeSection (sec : InputSection) : Outcome InputSection :=
  aux ← of_option (relaxAux sec);
  match relocDeltas aux with
  | [] => mret sec
  | _ =>
      let rels := relocations sec in
      let old := rawData sec in
      match rels with
      | [] => Stop InvalidAccess
      | _ =>
          last ← of_option (relocDeltas aux !! (length rels - 1)%nat);
          let newSize := u64 (Z.of_nat (length old) - last) in
          s ← finalizeLoop old aux rels 0
                (mkCursor (Allocate (Z.to_nat newSize)) 0 0 0 0%nat);
          buf ← memcpy (c_buf s) (c_p s) old (c_offset s)
                  (u64 (Z.of_nat (length old) - c_offset s));
          rels' ← rebaseLoop aux 0 0 rels;
          mret (mkInputSection (sec_flags sec) rels' buf (Some aux) 0)
      end
  end.

Fixpoint finalizeSections (sids : list SecId) (st : LinkState) : Outcome LinkState :=
  match sids with
  | [] => mret st
  | sid :: sids' =>
      sec ← of_option (sections st !! sid);
      sec' ← finalizeSection sec;
      finalizeSections sids'
        (mkLinkState (objectFiles st) (outputSections st)
           (<[sid := sec']> (sections st)) (symtab st))
  end.

Definition riscvFinalizeRelax (st : LinkState) : Outcome LinkState :=
  finalizeSections (exec_sections st) st.

End Finalize.

(** ** Vocabulary of the further properties *)

(** The number of bytes at the relocated location that a relocation of
    kind [t] may rewrite. *)
Definition patched_width (t : RelType) : nat :=
  match t with
  | R_RISCV_64 | R_RISCV_ADD64 | R_RISCV_SUB64 | R_RISCV_TLS_DTPREL64
  | R_RISCV_CALL | R_RISCV_CALL_PLT | R_RISCV_CHERI_CCALL => 8
  | R_RISCV_RVC_BRANCH | R_RISCV_RVC_JUMP | R_RISCV_CHERI_RVC_CJUMP | R_RISCV_RVC_LUI
  | R_RISCV_ADD16 | R_RISCV_SUB16 | R_RISCV_SET16 => 2
  | R_RISCV_ADD8 | R_RISCV_SUB8 | R_RISCV_SUB6 | R_RISCV_SET6 | R_RISCV_SET8 => 1
  | R_RISCV_RELAX => 0
  | _ => 4
  end.

(** [buf'] is [buf] outside the [n] bytes at [loc]. *)
Definition same_outside (loc n : nat) (buf buf' : buffer) : Prop :=
  length buf' = length buf /\
  forall i : nat, (i < loc \/ loc + n <= i)%nat -> buf' !! i = buf !! i.

(** Bits [hi..lo] of an instruction word. *)
Definition insn_bits (w hi lo : Z) : Z := Z.land (Z.shiftr w lo) (2 ^ (hi - lo + 1) - 1).

(** The offset a [jal] word encodes (J-type): imm[20|10:1|11|19:12] in
    bits 31..12, sign-extended from 21 bits. *)
Definition J_imm (w : Z) : Z :=
  SignExtend64 21
    (Z.shiftl (insn_bits w 31 31) 20 + Z.shiftl (insn_bits w 19 12) 12 +
     Z.shiftl (insn_bits w 20 20) 11 + Z.shiftl (insn_bits w 30 21) 1).

(** The offset a conditional branch encodes (B-type): imm[12|10:5] in bits
    31..25 and imm[4:1|11] in bits 11..7, sign-extended from 13 bits. *)
Definition B_imm (w : Z) : Z :=
  SignExtend64 13
    (Z.shiftl (insn_bits w 31 31) 12 + Z.shiftl (insn_bits w 7 7) 11 +
     Z.shiftl (insn_bits w 30 25) 5 + Z.shiftl (insn_bits w 11 8) 1).

(** The offset [c.j] and [c.jal] encode (CJ-type):
    imm[11|4|9:8|10|6|7|3:1|5] in bits 12..2, sign-extended from 12 bits. *)
Definition CJ_imm (w : Z) : Z :=
  SignExtend64 12
    (Z.shiftl (insn_bits w 12 12) 11 + Z.shiftl (insn_bits w 8 8) 10 +
     Z.shiftl (insn_bits w 10 9) 8 + Z.shiftl (insn_bits w 6 6) 7 +
     Z.shiftl (insn_bits w 7 7) 6 + Z.shiftl (insn_bits w 2 2) 5 +
     Z.shiftl (insn_bits w 11 11) 4 + Z.shiftl (insn_bits w 5 3) 1).

(** The offset [c.beqz] and [c.bnez] encode (CB-type): imm[8|4:3] in bits
    12..10 and imm[7:6|2:1|5] in bits 6..2, sign-extended from 9 bits. *)
Definition CB_imm (w : Z) : Z :=
  SignExtend64 9
    (Z.shiftl (insn_bits w 12 12) 8 + Z.shiftl (insn_bits w 6 5) 6 +
     Z.shiftl (insn_bits w 2 2) 5 + Z.shiftl (insn_bits w 11 10) 3 +
     Z.shiftl (insn_bits w 4 3) 1).

(** The relocation kinds that [relocate] treats as the upper 20 bits, and
    as the lower 12 bits in an I-type or an S-type instruction. *)
Definition is_hi20 (t : RelType) : bool :=
  match t with
  | R_RISCV_CHERI_CAPTAB_PCREL_HI20 | R_RISCV_CHERI_TLS_IE_CAPTAB_PCREL_HI20
  | R_RISCV_CHERI_TLS_GD_CAPTAB_PCREL_HI20 | R_RISCV_GOT_HI20
  | R_RISCV_PCREL_HI20 | R_RISCV_TLS_GD_HI20 | R_RISCV_TLS_GOT_HI20
  | R_RISCV_TPREL_HI20 | R_RISCV_HI20 => true
  | _ => false
  end.
Definition is_lo12_i (t : RelType) : bool :=
  match t with
  | R_RISCV_PCREL_LO12_I | R_RISCV_TPREL_LO12_I | R_RISCV_LO12_I => true
  | _ => false
  end.
Definition is_lo12_s (t : RelType) : bool :=
  match t with
  | R_RISCV_PCREL_LO12_S | R_RISCV_TPREL_LO12_S | R_RISCV_LO12_S => true
  | _ => false
  end.

(** The immediates of the U, I and S instruction formats: bits 31..12 in
    place; bits 31..20; bits 31..25 and 11..7. *)
Definition U_imm (w : Z) : Z := Z.shiftl (insn_bits w 31 12) 12.
Definition I_imm (w : Z) : Z := SignExtend64 12 (insn_bits w 31 20).
Definition S_imm (w : Z) : Z :=
  SignExtend64 12 (Z.shiftl (insn_bits w 31 25) 5 + insn_bits w 11 7).

(** The width in bytes of a matching pair of an addition and a subtraction
    relocation. *)
Definition add_sub_width (a s : RelType) : option nat :=
  match a, s with
  | R_RISCV_ADD8, R_RISCV_SUB8 => Some 1%nat
  | R_RISCV_ADD16, R_RISCV_SUB16 => Some 2%nat
  | R_RISCV_ADD32, R_RISCV_SUB32 => Some 4%nat
  | R_RISCV_ADD64, R_RISCV_SUB64 => Some 8%nat
  | _, _ => None
  end.

(** The immediate of the CI format ([c.li], [c.lui]): bit 12 and bits
    6..2, sign-extended from 6 bits. *)
Definition CI_imm (w : Z) : Z :=
  SignExtend64 6 (Z.shiftl (insn_bits w 12 12) 5 + insn_bits w 6 2).

(** The four fields of the ELF header flags that [calcEFlags] compares. *)
Definition abi_fields : list Z :=
  [EF_RISCV_FLOAT_ABI; EF_RISCV_RVE; EF_RISCV_CHERIABI; EF_RISCV_CAP_MODE].

(** The padding [riscvFinalizeRelax] leaves at an [R_RISCV_ALIGN] whose NOP
    sequence it rewrites: 4-byte [nop]s and, for two bytes left over, one
    [c.nop]. *)
Definition nop_fill (skip : Z) : buffer :=
  concat (replicate (Z.to_nat (skip / 4)) (le_split 4 0x00000013)) ++
  (if skip mod 4 =? 2 then le_split 2 0x0001 else []).

(** ** RISCVTargetMachine.cpp *)

Module TargetMachine.

(** What [getSubtargetImpl] reads of an IR function: three string
    attributes, each of which may be missing, and the "target-abi" flag of
    its module when that is a metadata string. *)
Record Function := mkFunction {
  target_cpu : option string;
  tune_cpu : option string;
  target_features : option string;
  module_target_abi : option string
}.

(** A subtarget, as the arguments its constructor was given. *)
Record RISCVSubtarget := mkRISCVSubtarget {
  st_CPU : string;
  st_TuneCPU : string;
  st_FS : string;
  st_ABIName : string
}.

Section Subtargets.

(** The code generation options, of which [getSubtargetImpl] reads the ABI
    name; [resetTargetOptions(F)] and [RISCVABI::getTargetABI] are the
    library's. *)
Variable TargetOptions : Type.
Variable getABIName : TargetOptions -> string.
Variable resetTargetOptions : Function -> TargetOptions -> TargetOptions.
Variable isKnownABI : string -> bool.

(** The members of the target machine that the function reads or writes:
    [SubtargetMap] is keyed by a string, and a null entry is no entry. *)
Record State := mkState {
  TargetCPU : string;
  TargetFS : string;
  Options : TargetOptions;
  SubtargetMap : gmap string RISCVSubtarget
}.

Definition subtargetKey (tm : State) (F : Function) : string :=
  let CPU := default (TargetCPU tm) (target_cpu F) in
  let TuneCPU := default CPU (tune_cpu F) in
  let FS := default (TargetFS tm) (target_features F) in
  ((CPU ++ TuneCPU) ++ FS)%string.

Definition getSubtargetImpl (F : Function) (tm : State) : Outcome (RISCVSubtarget * State) :=
  let CPU := default (TargetCPU tm) (target_cpu F) in
  let TuneCPU := default CPU (tune_cpu F) in
  let FS := default (TargetFS tm) (target_features F) in
  let Key := ((CPU ++ TuneCPU) ++ FS)%string in
  match SubtargetMap tm !! Key with
  | Some ST => mret (ST, tm)
  | None =>
      let options := resetTargetOptions F (Options tm) in
      let ABIName := getABIName options in
      ABIName ← match module_target_abi F with
                | Some ModuleTargetABI =>
                    if isKnownABI ABIName && negb (String.eqb ModuleTargetABI ABIName)
                    then Stop (FatalError "-target-abi option != target-abi module flag")
                    else mret ModuleTargetABI
                | None => mret ABIName
                end;
      let ST := mkRISCVSubtarget CPU TuneCPU FS ABIName in
      mret (ST, mkState (TargetCPU tm) (TargetFS tm) options (<[Key := ST]> (SubtargetMap tm)))
  end.

End Subtargets.

Section AddrSpaces.

(** [isCheriPointer(AS, nullptr)] of llvm/IR/Cheri.h. *)
Variable isCheriPointer : Z -> bool.

Definition isNoopAddrSpaceCast (SrcAS DstAS : Z) : bool :=
  let SrcIsCheri := isCheriPointer SrcAS in
  let DestIsCheri := isCheriPointer DstAS in
  if (SrcIsCheri || DestIsCheri) && negb (Bool.eqb SrcIsCheri DestIsCheri)
  then false
  else true.

End AddrSpaces.

End TargetMachine.

(** ** Concrete inputs for runs of the relocation and finalize code *)

Definition always_pcc : option nat -> SymId -> bool := fun _ _ => true.
Definition zero_fill : nat -> buffer := fun n => replicate n Byte.x00.

(** A relocation of kind [t] at offset 0 against symbol 0. *)
Definition example_reloc (t : RelType) : Relocation := mkRelocation R_ABS t 0 0 0%nat.

(** [jal x0, 0] followed by a byte that is not part of it. *)
Definition example_jal_buffer : buffer := le_split 4 0x0000006f ++ [Byte.xff].
(** [lui x0, 0; addi x0, x0, 0; sb x0, 0(x0)]. *)
Definition example_hilo_buffer : buffer :=
  le_split 4 0x00000037 ++ le_split 4 0x00000013 ++ le_split 4 0x00000023.
(** [auipc ra, 0; jalr ra, 0(ra)]. *)
Definition example_call_buffer : buffer := le_split 4 0x00000097 ++ le_split 4 0x000080e7.

(** The section of scenario S3 after a pass relaxed its call to [c.j]: six
    bytes go, and the 2-byte jump is queued. *)
Definition relaxed_call_section : InputSection :=
  mkInputSection SHF_EXECINSTR
    [mkRelocation R_PLT_PC R_RISCV_CALL 0 0 0%nat;
     mkRelocation R_RELAX_HINT R_RISCV_RELAX 0 0 0%nat]
    (le_split 4 0x00000297 ++ le_split 4 0x00028067)
    (Some (mkRISCVRelaxAux [] [6; 6] [R_RISCV_RVC_JUMP; R_RISCV_NONE] [0xa001]))
    6.
Definition finalized_call_section : InputSection :=
  mkInputSection SHF_EXECINSTR
    [mkRelocation R_PLT_PC R_RISCV_RVC_JUMP 0 0 0%nat;
     mkRelocation R_RELAX_HINT R_RISCV_RELAX 0 0 0%nat]
    (le_split 2 0xa001)
    (Some (mkRISCVRelaxAux [] [6; 6] [R_RISCV_RVC_JUMP; R_RISCV_NONE] [0xa001]))
    0.

(** Six bytes of padding ([nop; c.nop]) before a [ret], of which an
    alignment pass removed two. *)
Definition aligned_section : InputSection :=
  mkInputSection SHF_EXECINSTR
    [mkRelocation R_RELAX_HINT R_RISCV_ALIGN 0 6 0%nat]
    (le_split 4 0x00000013 ++ le_split 2 0x0001 ++ le_split 4 0x00008067)
    (Some (mkRISCVRelaxAux [] [2] [R_RISCV_NONE] []))
    2.

(** Two functions whose CPU and tuning attributes differ and concatenate
    to the same key, in a target machine with no subtarget yet. *)
Definition example_fn_a_bc : TargetMachine.Function :=
  TargetMachine.mkFunction (Some "a"%string) (Some "bc"%string) None None.
Definition example_fn_ab_c : TargetMachine.Function :=
  TargetMachine.mkFunction (Some "ab"%string) (Some "c"%string) None None.
Definition example_subtarget : TargetMachine.RISCVSubtarget :=
  TargetMachine.mkRISCVSubtarget "a" "bc" "" "ilp32".
Definition example_tm : TargetMachine.State string :=
  TargetMachine.mkState string "generic" "" "ilp32" ∅.
Definition example_tm_cached : TargetMachine.State string :=
  TargetMachine.mkState string "generic" "" "ilp32"
    (<["abc"%string := example_subtarget]> ∅).
Definition example_getSubtargetImpl :=
  TargetMachine.getSubtargetImpl string (fun o => o) (fun _ o => o) (fun _ => true).

(** A plain RV64 link, and a section of it with three alignment directives
    whose padding a pass cuts by 2^31 - 2, 2^31 - 2 and 4 bytes: 2^32 bytes
    in all.  The pass does not read the contents. *)
Definition rv64_config : Config := mkConfig true false true false false 0 8 16.
Definition wrap_section : InputSection :=
  mkInputSection SHF_EXECINSTR
    [mkRelocation R_RELAX_HINT R_RISCV_ALIGN 0 2147483646 0%nat;
     mkRelocation R_RELAX_HINT R_RISCV_ALIGN 2147483646 2147483646 0%nat;
     mkRelocation R_RELAX_HINT R_RISCV_ALIGN 4294967298 6 0%nat]
    []
    (Some (mkRISCVRelaxAux [] [0; 0; 0] [R_RISCV_NONE; R_RISCV_NONE; R_RISCV_NONE] []))
    0.
Definition wrap_relax :=
  relax rv64_config never_pcc example_getVA example_getPltVA no_cgp no_cgp
    0 (fun _ => None) wrap_section ∅ 1.
Definition wrap_passRemoves :=
  passRemoves rv64_config never_pcc example_getVA example_getPltVA no_cgp no_cgp
    0 (fun _ => None) wrap_section ∅ 1.

(** A compartment global addressed from code: [auicgp] with a
    COMPARTMENT_HI against the global (symbol 2, not PCC-relative) and a
    load whose COMPARTMENT_LO_I is against the label of the [auicgp]
    (symbol 1, in the text section 0 at offset 0, so PCC-relative). *)
Definition label_is_pcc : option nat -> SymId -> bool := fun _ s => Nat.eqb s 1.
Definition cgp_pair_section : InputSection :=
  mkInputSection SHF_EXECINSTR
    [mkRelocation R_CHERIOT_COMPARTMENT_CGPREL_HI R_RISCV_CHERIOT_COMPARTMENT_HI 0 8 2%nat;
     mkRelocation R_CHERIOT_COMPARTMENT_CGPREL_LO_I R_RISCV_CHERIOT_COMPARTMENT_LO_I 4 0 1%nat]
    (le_split 4 0x0000057b ++ le_split 4 0x00052503)
    None 0.
Definition cgp_pair_rewritten : InputSection :=
  mkInputSection SHF_EXECINSTR
    [mkRelocation R_CHERIOT_COMPARTMENT_CGPREL_HI R_RISCV_CHERIOT_COMPARTMENT_HI 0 8 2%nat;
     mkRelocation R_CHERIOT_COMPARTMENT_CGPREL_LO_I R_RISCV_CHERIOT_COMPARTMENT_LO_I 4 8 2%nat]
    (le_split 4 0x0000057b ++ le_split 4 0x00052503)
    None 0.
Definition cgp_pair_symtab : SymTab :=
  <[1%nat := mkDefined 0%nat (Some 0%nat) 0 0]> ∅.
Definition cgp_pair_relocsOf : SecId -> option (list Relocation) :=
  fun s => if Nat.eqb s 0 then Some (relocations cgp_pair_section) else None.

(** * Properties *)

(** ** The biased hi20/lo12 split *)

Section HiLo.

Lemma lo12_mod (u : Z) : lo12 u = u mod 4096.
Proof. unfold lo12. change 4095 with (Z.ones 12). now rewrite Z.land_ones. Qed.

Lemma hi20_div (u : Z) : hi20 u = ((u + 2048) mod 4294967296) / 4096.
Proof. unfold hi20, u32, trunc. now rewrite Z.shiftr_div_pow2. Qed.

(** The exact integer the two halves add up to: [u], up to a multiple of
    [2^32] that only appears when [u + 0x800] wraps. *)
Lemma hi_lo_sum (u : Z) :
  0 <= u < 2 ^ 32 ->
  SignExtend64 12 (lo12 u) + Z.shiftl (hi20 u) 12 =
  if u + 2048 <? 2 ^ 32 then u else u - 2 ^ 32.
Proof.
  intros Hu. rewrite Z.shiftl_mul_pow2 by lia.
  rewrite hi20_div, lo12_mod. unfold SignExtend64.
  change (2 ^ 12) with 4096. change (2 ^ (12 - 1)) with 2048.
  change (2 ^ 32) with 4294967296 in *.
  rewrite Z.mod_mod by lia.
  destruct (Z.ltb_spec (u mod 4096) 2048), (Z.ltb_spec (u + 2048) 4294967296);
    Z.div_mod_to_equations; lia.
Qed.

(** The low half the LO12_I and LO12_S cases of [relocate] compute in 64
    bits, [val - (hi << 12)], has the twelve low bits [lo12] gives. *)
Lemma relocate_lo_is_lo12 (val : Z) :
  Z.land (u64 (val - Z.shiftl (Z.shiftr (u64 (val + 0x800)) 12) 12)) 0xFFF = lo12 val.
Proof.
  rewrite lo12_mod. change 0xFFF with (Z.ones 12). rewrite Z.land_ones by lia.
  rewrite Z.shiftl_mul_pow2, Z.shiftr_div_pow2 by lia.
  unfold u64, trunc. change (2 ^ 12) with 4096.
  change (2 ^ 64) with 18446744073709551616.
  Z.div_mod_to_equations. lia.
Qed.

End HiLo.

(** C4. For every 32-bit signed [v], the sign-extended [lo12] plus
    [hi20 << 12] is [v] again in 32-bit arithmetic: the sum, read as a
    signed 32-bit integer, equals [v]; read as an unsigned one it equals the
    bit pattern of [v]. *)
Theorem hi_lo_round_trip (v : Z) :
  - 2 ^ 31 <= v < 2 ^ 31 ->
  let u := u32 v in
  s32 (SignExtend64 12 (lo12 u) + Z.shiftl (hi20 u) 12) = v /\
  u32 (SignExtend64 12 (lo12 u) + Z.shiftl (hi20 u) 12) = u.
Proof.
  intros Hv u.
  assert (Hu : 0 <= u < 2 ^ 32) by (apply Z.mod_pos_bound; lia).
  rewrite (hi_lo_sum u Hu).
  unfold s32, SignExtend64, u32, trunc in *. subst u.
  change (2 ^ 32) with 4294967296 in *.
  change (2 ^ (32 - 1)) with 2147483648. change (2 ^ 31) with 2147483648 in *.
  destruct (Z.ltb_spec (v mod 4294967296 + 2048) 4294967296); split;
    try match goal with |- context [?a <? ?b] => destruct (Z.ltb_spec a b) end;
    Z.div_mod_to_equations; lia.
Qed.

Lemma hi_lo_round_trip_witness :
  s32 (SignExtend64 12 (lo12 (u32 (-1))) + Z.shiftl (hi20 (u32 (-1))) 12) = -1 /\
  u32 (SignExtend64 12 (lo12 (u32 (-1))) + Z.shiftl (hi20 (u32 (-1))) 12) = u32 (-1).
Proof. apply (hi_lo_round_trip (-1)). lia. Defined.

(** ** Applying relocations *)

Section RelocateFacts.

Variable config : Config.
Variable isPCCRelative : option nat -> SymId -> bool.

Lemma readle_Some_bound (n : nat) (buf : buffer) (loc : nat) (w : Z) :
  readle n buf loc = Some w -> (loc + n <= length buf)%nat.
Proof.
  unfold readle. destruct (Nat.leb_spec (loc + n) (length buf)); [auto | discriminate].
Qed.

Lemma load_store (n : nat) (buf : buffer) (loc : nat) (w v : Z) :
  readle n buf loc = Some w ->
  load n buf loc = Done w /\ store n buf loc v = Done (writele n buf loc v).
Proof.
  intros H. pose proof (readle_Some_bound _ _ _ _ H) as Hb. split.
  - unfold load. now rewrite H.
  - unfold store. destruct (Nat.leb_spec (loc + n) (length buf)); [reflexivity | lia].
Qed.

(** What the BRANCH case does to a word it can read, for any value. *)
Lemma relocate_branch (buf : buffer) (loc : nat) (rel : Relocation) (w val : Z) :
  r_type rel = R_RISCV_BRANCH ->
  read32le buf loc = Some w ->
  relocate config isPCCRelative buf loc rel val =
  Done (write32le buf loc
          (Z.lor (Z.land w 0x1FFF07F)
             (Z.lor (Z.lor (Z.lor (u32 (Z.shiftl (extractBits val 12 12) 31))
                                  (u32 (Z.shiftl (extractBits val 10 5) 25)))
                           (u32 (Z.shiftl (extractBits val 4 1) 8)))
                    (u32 (Z.shiftl (extractBits val 11 11) 7)))),
        checkInt loc (Z.shiftr (s64 val) 1) 12 ++ checkAlignment loc val 2).
Proof.
  intros Ht Hr. unfold relocate. rewrite Ht.
  destruct (load_store 4 buf loc w
    (Z.lor (Z.land w 0x1FFF07F)
       (Z.lor (Z.lor (Z.lor (u32 (Z.shiftl (extractBits val 12 12) 31))
                            (u32 (Z.shiftl (extractBits val 10 5) 25)))
                     (u32 (Z.shiftl (extractBits val 4 1) 8)))
              (u32 (Z.shiftl (extractBits val 11 11) 7)))) Hr) as [Hl Hs].
  rewrite Hl. cbn [mbind outcome_bind obind]. rewrite Hs. reflexivity.
Qed.

(** What the JAL and CJAL case does to a word it can read, for any value. *)
Lemma relocate_jal (buf : buffer) (loc : nat) (rel : Relocation) (w val : Z) :
  r_type rel = R_RISCV_JAL \/ r_type rel = R_RISCV_CHERI_CJAL ->
  read32le buf loc = Some w ->
  relocate config isPCCRelative buf loc rel val =
  Done (write32le buf loc
          (Z.lor (Z.land w 0xFFF)
             (Z.lor (Z.lor (Z.lor (u32 (Z.shiftl (extractBits val 20 20) 31))
                                  (u32 (Z.shiftl (extractBits val 10 1) 21)))
                           (u32 (Z.shiftl (extractBits val 11 11) 20)))
                    (u32 (Z.shiftl (extractBits val 19 12) 12)))),
        checkInt loc (Z.shiftr (s64 val) 1) 20 ++ checkAlignment loc val 2).
Proof.
  intros Ht Hr. unfold relocate.
  destruct (load_store 4 buf loc w
    (Z.lor (Z.land w 0xFFF)
       (Z.lor (Z.lor (Z.lor (u32 (Z.shiftl (extractBits val 20 20) 31))
                            (u32 (Z.shiftl (extractBits val 10 1) 21)))
                     (u32 (Z.shiftl (extractBits val 11 11) 20)))
              (u32 (Z.shiftl (extractBits val 19 12) 12)))) Hr) as [Hl Hs].
  destruct Ht as [-> | ->]; rewrite Hl; cbn [mbind outcome_bind obind];
    rewrite Hs; reflexivity.
Qed.

(** The B-type immediate fields lie outside the mask [0x1FFF07F]: those
    bits of the word survive the BRANCH case for every value. *)
Tactic Notation "field_cases" constr(x) constr(bound) integer(k) :=
  let m := fresh "m" in
  let Hm := fresh "Hm" in
  assert (exists m : nat, x = Z.of_nat m /\ (m < bound)%nat) as (m & -> & Hm)
    by (exists (Z.to_nat x); lia);
  do k (destruct m as [|m]; [reflexivity|]); lia.

Ltac field_range :=
  unfold extractBits, u32, trunc;
  match goal with
  | |- context [Z.land ?v (2 ^ ?k - 1)] =>
      change (2 ^ k - 1) with (Z.ones k); rewrite (Z.land_ones v k) by lia
  end;
  rewrite Z.shiftr_div_pow2 by lia;
  Z.div_mod_to_equations; lia.

Lemma branch_fields_range (val : Z) :
  0 <= extractBits val 12 12 < 2 /\ 0 <= extractBits val 10 5 < 64 /\
  0 <= extractBits val 4 1 < 16 /\ 0 <= extractBits val 11 11 < 2.
Proof.
  repeat split.
  all: try (assert (H : 0 <= extractBits val 12 12 < 2) by field_range; lia).
  all: try (assert (H : 0 <= extractBits val 10 5 < 64) by field_range; lia).
  all: try (assert (H : 0 <= extractBits val 4 1 < 16) by field_range; lia).
  all: assert (H : 0 <= extractBits val 11 11 < 2) by field_range; lia.
Qed.

Lemma imm12_outside_mask (x : Z) :
  0 <= x < 2 -> Z.land (u32 (Z.shiftl x 31)) 0x1FFF07F = 0.
Proof. intros H. field_cases x 2%nat 2. Qed.

Lemma imm10_5_outside_mask (x : Z) :
  0 <= x < 64 -> Z.land (u32 (Z.shiftl x 25)) 0x1FFF07F = 0.
Proof. intros H. field_cases x 64%nat 64. Qed.

Lemma imm4_1_outside_mask (x : Z) :
  0 <= x < 16 -> Z.land (u32 (Z.shiftl x 8)) 0x1FFF07F = 0.
Proof. intros H. field_cases x 16%nat 16. Qed.

Lemma imm11_outside_mask (x : Z) :
  0 <= x < 2 -> Z.land (u32 (Z.shiftl x 7)) 0x1FFF07F = 0.
Proof. intros H. field_cases x 2%nat 2. Qed.

Lemma branch_preserves_mask (w val : Z) :
  Z.land
    (Z.lor (Z.land w 0x1FFF07F)
       (Z.lor (Z.lor (Z.lor (u32 (Z.shiftl (extractBits val 12 12) 31))
                            (u32 (Z.shiftl (extractBits val 10 5) 25)))
                     (u32 (Z.shiftl (extractBits val 4 1) 8)))
              (u32 (Z.shiftl (extractBits val 11 11) 7))))
    0x1FFF07F
  = Z.land w 0x1FFF07F.
Proof.
  destruct (branch_fields_range val) as (H12 & H10 & H4 & H11).
  rewrite !Z.land_lor_distr_l.
  rewrite (imm12_outside_mask _ H12), (imm10_5_outside_mask _ H10),
    (imm4_1_outside_mask _ H4), (imm11_outside_mask _ H11).
  rewrite !Z.lor_0_r, <- Z.land_assoc, Z.land_diag. reflexivity.
Qed.

End RelocateFacts.


(** C5, as stated, fails: on [beq x1, x2, .] a BRANCH of +252 writes
    [0x0E208E63]; [0x0C208E63] would be a branch of +220. *)
Lemma branch_252_is_not_0C208E63 :
  exists buf',
    relocate rv32_config never_pcc (le_split 4 0x00208063) 0
      (mkRelocation R_PC R_RISCV_BRANCH 0 0 0%nat) 252 = Done (buf', []) /\
    read32le buf' 0 = Some 0x0E208E63 /\
    read32le buf' 0 <> Some 0x0C208E63.
Proof.
  eexists. split; [vm_compute; reflexivity|]. split; [vm_compute; reflexivity|].
  vm_compute. discriminate.
Qed.

(** C5, amended. A BRANCH relocation with value +252 on the word
    [0x00208063] passes both checks (no diagnostic: 252 is even and 126 fits
    12 signed bits) and writes [0x0E208E63]; whatever the value, the bits
    under the mask [0x1FFF07F] (opcode, funct3, rs1, rs2) are those of the
    old word. *)
Theorem branch_in_range_S1 (config : Config) (isPCCRelative : option nat -> SymId -> bool)
    (buf : buffer) (loc : nat) (rel : Relocation) :
  r_type rel = R_RISCV_BRANCH ->
  read32le buf loc = Some 0x00208063 ->
  relocate config isPCCRelative buf loc rel 252 =
    Done (write32le buf loc 0x0E208E63, []) /\
  Z.land 252 1 = 0 /\ isInt 12 (252 / 2) = true /\
  (forall val, exists insn diags,
     relocate config isPCCRelative buf loc rel val = Done (write32le buf loc insn, diags) /\
     Z.land insn 0x1FFF07F = Z.land 0x00208063 0x1FFF07F).
Proof.
  intros Ht Hr. split; [|split; [reflexivity|split; [reflexivity|]]].
  - rewrite (relocate_branch config isPCCRelative buf loc rel _ 252 Ht Hr).
    reflexivity.
  - intros val. eexists _, _. split.
    + apply (relocate_branch config isPCCRelative buf loc rel _ val Ht Hr).
    + apply branch_preserves_mask.
Qed.

Lemma branch_in_range_S1_witness :
  relocate rv32_config never_pcc (le_split 4 0x00208063) 0
    (mkRelocation R_PC R_RISCV_BRANCH 0 0 0%nat) 252 =
    Done (write32le (le_split 4 0x00208063) 0 0x0E208E63, []).
Proof.
  apply (branch_in_range_S1 rv32_config never_pcc (le_split 4 0x00208063) 0%nat
           (mkRelocation R_PC R_RISCV_BRANCH 0 0 0%nat)); reflexivity.
Defined.

(** C6, as stated, fails: a JAL of +0x100001 reports the range error (and
    the misalignment) and then writes the word all the same; [jal x0, .]
    becomes [0x8000006f]. *)
Lemma jal_out_of_range_still_writes :
  exists buf',
    relocate rv32_config never_pcc (le_split 4 0x0000006f) 0
      (mkRelocation R_PC R_RISCV_JAL 0 0 0%nat) 0x100001 =
      Done (buf', [RangeError 0 0x80000 20; AlignmentError 0 0x100001 2]) /\
    read32le buf' 0 = Some 0x8000006f /\
    buf' <> le_split 4 0x0000006f.
Proof.
  eexists. split; [vm_compute; reflexivity|]. split; [vm_compute; reflexivity|].
  vm_compute. discriminate.
Qed.

(** C6, amended. A JAL (or CJAL) relocation with displacement +0x100001
    reports a range error anchored at the relocation location (the halved
    value 0x80000 does not fit 20 signed bits), then an alignment error (the
    value is odd), and goes on to write: the word at the location keeps its
    low 12 bits and receives the scattered immediate, here bit 31. *)
Theorem jal_out_of_range_S2 (config : Config) (isPCCRelative : option nat -> SymId -> bool)
    (buf : buffer) (loc : nat) (rel : Relocation) (w : Z) :
  r_type rel = R_RISCV_JAL \/ r_type rel = R_RISCV_CHERI_CJAL ->
  read32le buf loc = Some w ->
  relocate config isPCCRelative buf loc rel 0x100001 =
    Done (write32le buf loc (Z.lor (Z.land w 0xFFF) 0x80000000),
          [RangeError loc 0x80000 20; AlignmentError loc 0x100001 2]).
Proof.
  intros Ht Hr.
  rewrite (relocate_jal config isPCCRelative buf loc rel w _ Ht Hr).
  reflexivity.
Qed.

Lemma jal_out_of_range_S2_witness :
  relocate rv32_config never_pcc (le_split 4 0x0000006f) 0
    (mkRelocation R_PC R_RISCV_JAL 0 0 0%nat) 0x100001 =
    Done (write32le (le_split 4 0x0000006f) 0 (Z.lor (Z.land 0x0000006f 0xFFF) 0x80000000),
          [RangeError 0%nat 0x80000 20; AlignmentError 0%nat 0x100001 2]).
Proof.
  apply (jal_out_of_range_S2 rv32_config never_pcc (le_split 4 0x0000006f) 0%nat
           (mkRelocation R_PC R_RISCV_JAL 0 0 0%nat) 0x0000006f);
    [left; reflexivity | reflexivity].
Defined.

(** ** Merging the ELF header flags *)

Section EFlags.

Lemma land_lor_rvc (t m : Z) :
  Z.land EF_RISCV_RVC m = 0 -> Z.land (Z.lor t EF_RISCV_RVC) m = Z.land t m.
Proof. intros H. now rewrite Z.land_lor_distr_l, H, Z.lor_0_r. Qed.

Lemma mismatch_with_rvc (m e t : Z) (b : bool) :
  Z.land EF_RISCV_RVC m = 0 ->
  eflags_mismatch m e (with_rvc b t) = eflags_mismatch m e t.
Proof.
  intros H. destruct b; [|reflexivity]. unfold eflags_mismatch, with_rvc.
  now rewrite land_lor_rvc.
Qed.

Lemma agrees_with_rvc (t : Z) (b : bool) (f : InputFile) :
  agrees (with_rvc b t) f = agrees t f.
Proof. unfold agrees. now rewrite !mismatch_with_rvc by reflexivity. Qed.

Lemma with_rvc_orb (a b : bool) (t : Z) :
  with_rvc b (with_rvc a t) = with_rvc (a || b) t.
Proof.
  destruct a, b; cbn; try reflexivity.
  now rewrite <- Z.lor_assoc, Z.lor_diag.
Qed.

Lemma step_spec (t : Z) (errs : list Diag) (f : InputFile) :
  fst (calcEFlags_step (t, errs) f) = with_rvc (has_rvc f) t /\
  (snd (calcEFlags_step (t, errs) f) = [] <-> errs = [] /\ agrees t f = true).
Proof.
  unfold calcEFlags_step. fold (has_rvc f).
  change (if has_rvc f then Z.lor t EF_RISCV_RVC else t) with (with_rvc (has_rvc f) t).
  cbn [fst snd]. split; [reflexivity|].
  rewrite !mismatch_with_rvc by reflexivity. unfold agrees.
  destruct (eflags_mismatch EF_RISCV_FLOAT_ABI (getEFlags f) t),
           (eflags_mismatch EF_RISCV_RVE (getEFlags f) t),
           (eflags_mismatch EF_RISCV_CHERIABI (getEFlags f) t),
           (eflags_mismatch EF_RISCV_CAP_MODE (getEFlags f) t);
    cbn; rewrite ?app_nil_r; split;
    try (intros [-> _]; reflexivity);
    try (intros [_ ?]; discriminate);
    try (intros H; apply app_eq_nil in H; destruct H; discriminate);
    intros ->; split; reflexivity.
Qed.

Lemma fold_spec (l : list InputFile) (t : Z) (errs : list Diag) :
  fst (fold_left calcEFlags_step l (t, errs)) = with_rvc (existsb has_rvc l) t /\
  (snd (fold_left calcEFlags_step l (t, errs)) = [] <->
   errs = [] /\ forallb (agrees t) l = true).
Proof.
  revert t errs. induction l as [|f l IH]; intros t errs; cbn [fold_left existsb forallb].
  - cbn. intuition.
  - destruct (calcEFlags_step (t, errs) f) as [t' errs'] eqn:E.
    pose proof (step_spec t errs f) as [Hf Hs]. rewrite E in Hf, Hs. cbn in Hf, Hs.
    destruct (IH t' errs') as [IHf IHs]. split.
    + rewrite IHf, Hf. apply with_rvc_orb.
    + rewrite IHs, Hs, Hf. rewrite andb_true_iff.
      assert (forallb (agrees (with_rvc (has_rvc f) t)) l = forallb (agrees t) l) as ->.
      { clear. induction l; cbn; [reflexivity|]. now rewrite agrees_with_rvc, IHl. }
      tauto.
Qed.

(** The merged flags of a non-empty list, in closed form, and when no error
    is reported. *)
Lemma calcEFlags_spec (f : InputFile) (l : list InputFile) :
  fst (calcEFlags (f :: l)) = with_rvc (existsb has_rvc (f :: l)) (getEFlags f) /\
  (snd (calcEFlags (f :: l)) = [] <-> forallb (agrees (getEFlags f)) (f :: l) = true).
Proof.
  unfold calcEFlags. destruct (fold_spec (f :: l) (getEFlags f) []) as [H1 H2].
  split; [exact H1|]. rewrite H2. tauto.
Qed.

Lemma agrees_fields (t : Z) (f : InputFile) :
  agrees t f = true ->
  Z.land (getEFlags f) EF_RISCV_FLOAT_ABI = Z.land t EF_RISCV_FLOAT_ABI /\
  Z.land (getEFlags f) EF_RISCV_RVE = Z.land t EF_RISCV_RVE /\
  Z.land (getEFlags f) EF_RISCV_CHERIABI = Z.land t EF_RISCV_CHERIABI /\
  Z.land (getEFlags f) EF_RISCV_CAP_MODE = Z.land t EF_RISCV_CAP_MODE.
Proof.
  unfold agrees, eflags_mismatch. rewrite !andb_true_iff, !negb_true_iff, !negb_false_iff.
  rewrite !Z.eqb_eq. tauto.
Qed.

Lemma existsb_Permutation {A} (p : A -> bool) (l l' : list A) :
  Permutation l l' -> existsb p l = existsb p l'.
Proof.
  intros HP. apply eq_true_iff_eq. rewrite !existsb_exists.
  split; intros (x & Hx & Hp); exists x; split; auto.
  - now apply (Permutation_in _ HP).
  - now apply (Permutation_in _ (Permutation_sym HP)).
Qed.

(** Two error-free orders of the same objects agree on every examined
    field; the other bits of each result are those of its first object. *)
Lemma calcEFlags_orders (l1 l2 : list InputFile) :
  Permutation l1 l2 ->
  snd (calcEFlags l1) = [] -> snd (calcEFlags l2) = [] ->
  Z.land (fst (calcEFlags l1)) EF_RISCV_examined =
  Z.land (fst (calcEFlags l2)) EF_RISCV_examined.
Proof.
  intros HP H1 H2.
  destruct l1 as [|f1 r1].
  { apply Permutation_nil in HP. now subst. }
  destruct l2 as [|f2 r2].
  { apply Permutation_sym, Permutation_nil in HP. discriminate. }
  destruct (calcEFlags_spec f1 r1) as [F1 E1], (calcEFlags_spec f2 r2) as [F2 E2].
  rewrite F1, F2. apply E1 in H1. apply E2 in H2. clear F1 F2 E1 E2.
  rewrite <- (existsb_Permutation has_rvc _ _ HP).
  assert (Hin : In f2 (f1 :: r1))
    by (apply (Permutation_in _ (Permutation_sym HP)); now left).
  rewrite forallb_forall in H1.
  pose proof (agrees_fields _ _ (H1 f2 Hin)) as (a1 & a2 & a3 & a4).
  assert (Hrvc : Z.land (with_rvc (existsb has_rvc (f1 :: r1)) (getEFlags f1)) EF_RISCV_RVC =
                 Z.land (with_rvc (existsb has_rvc (f1 :: r1)) (getEFlags f2)) EF_RISCV_RVC).
  { destruct (existsb has_rvc (f1 :: r1)) eqn:Ex; cbn [with_rvc].
    - rewrite !Z.land_lor_distr_l. change (Z.land EF_RISCV_RVC EF_RISCV_RVC) with 1.
      change EF_RISCV_RVC with 1.
      rewrite !(Z.lor_comm _ 1).
      assert (forall x, Z.lor 1 (Z.land x 1) = 1) as Hx.
      { intros x. change 1 with (Z.ones 1) at 2. rewrite Z.land_ones by lia.
        assert (x mod 2 ^ 1 = 0 \/ x mod 2 ^ 1 = 1) as [-> | ->]
          by (change (2 ^ 1) with 2; Z.div_mod_to_equations; lia); reflexivity. }
      now rewrite !Hx.
    - assert (forall f, In f (f1 :: r1) -> Z.land (getEFlags f) EF_RISCV_RVC = 0) as Hz.
      { intros f Hf. destruct (Z.eqb_spec (Z.land (getEFlags f) EF_RISCV_RVC) 0) as [|Hne]; [assumption|].
        assert (existsb has_rvc (f1 :: r1) = true); [|congruence].
        apply existsb_exists. exists f. split; [assumption|].
        unfold has_rvc, nonzero. now apply negb_true_iff, Z.eqb_neq. }
      rewrite (Hz f1), (Hz f2); auto. now left. }
  assert (Hfld : forall b x m, Z.land EF_RISCV_RVC m = 0 ->
                   Z.land (with_rvc b x) m = Z.land x m).
  { intros [] x m Hm; cbn [with_rvc]; [now apply land_lor_rvc | reflexivity]. }
  unfold EF_RISCV_examined. rewrite !Z.land_lor_distr_r.
  rewrite Hrvc.
  rewrite !(Hfld _ _ EF_RISCV_FLOAT_ABI), !(Hfld _ _ EF_RISCV_RVE),
    !(Hfld _ _ EF_RISCV_CHERIABI), !(Hfld _ _ EF_RISCV_CAP_MODE) by reflexivity.
  now rewrite a1, a2, a3, a4.
Qed.

End EFlags.

(** C7, as stated, fails: the merged value starts from the flags of the
    first object and nothing but RVC is ever added, so a bit outside the
    examined fields survives only when its object comes first. *)
Lemma eflags_order_matters :
  Permutation [obj_tso; obj_plain1; obj_plain2] [obj_plain1; obj_tso; obj_plain2] /\
  snd (calcEFlags [obj_tso; obj_plain1; obj_plain2]) = [] /\
  snd (calcEFlags [obj_plain1; obj_tso; obj_plain2]) = [] /\
  fst (calcEFlags [obj_tso; obj_plain1; obj_plain2]) = 0x10 /\
  fst (calcEFlags [obj_plain1; obj_tso; obj_plain2]) = 0 /\
  fst (calcEFlags [obj_tso; obj_plain1; obj_plain2]) <>
  fst (calcEFlags [obj_plain1; obj_tso; obj_plain2]).
Proof.
  split; [apply perm_swap|]. repeat split; try reflexivity. vm_compute. discriminate.
Qed.

(** C7, amended. For any three input objects A, B, C, merging them in any
    two orders that report no error yields merged flags that agree on every
    field [calcEFlags] examines (RVC, FLOAT_ABI, RVE, CHERIABI, CAP_MODE);
    the remaining bits of a result are those of the object merged first. *)
Theorem eflags_order_independent_on_examined_fields (A B C : InputFile)
    (l1 l2 : list InputFile) :
  Permutation [A; B; C] l1 -> Permutation [A; B; C] l2 ->
  snd (calcEFlags l1) = [] -> snd (calcEFlags l2) = [] ->
  Z.land (fst (calcEFlags l1)) EF_RISCV_examined =
  Z.land (fst (calcEFlags l2)) EF_RISCV_examined /\
  Z.land (fst (calcEFlags l1)) (Z.lnot EF_RISCV_examined) =
  Z.land (getEFlags (hd A l1)) (Z.lnot EF_RISCV_examined).
Proof.
  intros P1 P2 E1 E2. split.
  - apply calcEFlags_orders; [|assumption|assumption].
    now rewrite <- P1, <- P2.
  - destruct l1 as [|f r]; [apply Permutation_sym, Permutation_nil in P1; discriminate|].
    destruct (calcEFlags_spec f r) as [F _]. rewrite F. cbn [hd].
    destruct (existsb has_rvc (f :: r)); cbn [with_rvc]; [|reflexivity].
    rewrite Z.land_lor_distr_l.
    change (Z.land EF_RISCV_RVC (Z.lnot EF_RISCV_examined)) with 0.
    apply Z.lor_0_r.
Qed.

Lemma eflags_order_independent_witness :
  Z.land (fst (calcEFlags [obj_tso; obj_plain1; obj_plain2])) EF_RISCV_examined =
  Z.land (fst (calcEFlags [obj_plain1; obj_tso; obj_plain2])) EF_RISCV_examined /\
  Z.land (fst (calcEFlags [obj_tso; obj_plain1; obj_plain2])) (Z.lnot EF_RISCV_examined) =
  Z.land (getEFlags (hd obj_tso [obj_tso; obj_plain1; obj_plain2])) (Z.lnot EF_RISCV_examined).
Proof.
  apply (eflags_order_independent_on_examined_fields obj_tso obj_plain1 obj_plain2
           [obj_tso; obj_plain1; obj_plain2] [obj_plain1; obj_tso; obj_plain2]).
  - apply Permutation_refl.
  - apply perm_swap.
  - reflexivity.
  - reflexivity.
Defined.

(** ** The PLT header *)

Section Buffers.

Lemma length_le_split (n : nat) (v : Z) : length (le_split n v) = n.
Proof. revert v. induction n; intros v; cbn; [reflexivity | now rewrite IHn]. Qed.

Lemma length_writele (n : nat) (buf : buffer) (loc : nat) (v : Z) :
  length (writele n buf loc v) = length buf.
Proof.
  unfold writele. destruct (Nat.leb_spec (loc + n) (length buf)); [|reflexivity].
  rewrite !length_app, length_take, length_le_split, length_drop. lia.
Qed.

(** A write that falls inside the middle part of a buffer is a write to
    that part. *)
Lemma writele_mid (n : nat) (pre mid post : buffer) (k : nat) (v : Z) :
  (k + n <= length mid)%nat ->
  writele n (pre ++ mid ++ post) (length pre + k) v = pre ++ writele n mid k v ++ post.
Proof.
  intros Hk. unfold writele.
  destruct (Nat.leb_spec (length pre + k + n) (length (pre ++ mid ++ post))) as [_|Hn];
    [|rewrite !length_app in Hn; lia].
  destruct (Nat.leb_spec (k + n) (length mid)) as [_|]; [|lia].
  rewrite take_app_add', take_app_le by lia.
  replace (length pre + k + n)%nat with (length pre + (k + n))%nat by lia.
  rewrite drop_app_add', drop_app_le by lia.
  now rewrite <- !app_assoc.
Qed.

End Buffers.

(** In a link that is not CHERI ABI the shift is 2 or 1, never 0. *)
Lemma plt_shift_non_cheri (config : Config) :
  isCheriAbi config = false ->
  plt_shift config = (if is64 config then 1 else 2).
Proof. intros H. unfold plt_shift. rewrite H. now destruct (is64 config). Qed.

(** C8, as stated, fails: with shift = 2 the header still ends with the
    [jalr]; no [nop] is written, neither as the last of the eight words nor
    after them. *)
Lemma plt_header_without_nop :
  isCheriAbi rv32_config = false /\
  plt_shift rv32_config = 2 /\
  read32le plt_rv32 (4 + 28) = Some (itype Op.JALR 0 Reg.X_T3 0) /\
  read32le plt_rv32 (4 + 28) <> Some nop /\
  drop (4 + 32) plt_rv32 = drop (4 + 32) plt_filler /\
  read32le plt_rv32 (4 + 32) <> Some nop.
Proof.
  repeat split; try (vm_compute; reflexivity); vm_compute; discriminate.
Qed.

(** C8, amended. The non-CHERI-ABI PLT header is 32 bytes holding exactly
    eight instructions: auipc t2, sub t1, a pointer-load of t3, addi t1,
    addi t0, srli t1 by shift, a pointer-load of t0, and jalr x0,t3, where
    shift = 2 - is64 is never 0 and equals log2(pltEntrySize/ptrSize) for
    the pointer sizes 4 and 8; nothing follows the jalr (the nop is written
    only when shift == 0, in place of the srli, which does not occur here). *)
Theorem plt_header_non_cheri (config : Config) (gotPltVA pltVA : Z)
    (pre old post : buffer) :
  isCheriAbi config = false ->
  length old = 32%nat ->
  let shift := if is64 config then 1 else 2 in
  writePltHeader config gotPltVA pltVA (pre ++ old ++ post) (length pre) =
    pre ++
    concat (map (le_split 4)
              (plt_header_words (if is64 config then Op.LD else Op.LW)
                 (u32 (gotPltVA - pltVA)) shift (wordsize config))) ++
    post /\
  plt_shift config = shift /\ shift <> 0 /\
  (wordsize config = (if is64 config then 8 else 4) ->
   shift = Z.log2 (pltEntrySize / wordsize config)).
Proof.
  intros Hc Hlen shift. split; [|split; [|split]].
  - unfold writePltHeader. rewrite (plt_shift_non_cheri config Hc), Hc.
    fold shift.
    assert (Hs : (shift =? 0) = false) by (subst shift; now destruct (is64 config)).
    rewrite Hs. cbn [negb]. unfold write32le.
    rewrite Nat.sub_0_r, Nat.sub_0_r.
    repeat (rewrite writele_mid by (rewrite ?length_writele; lia)).
    f_equal. f_equal.
    do 33 (destruct old as [|? old]; try discriminate Hlen).
    reflexivity.
  - now apply plt_shift_non_cheri.
  - subst shift. now destruct (is64 config).
  - intros ->. subst shift. now destruct (is64 config).
Qed.

Lemma plt_header_non_cheri_witness :
  let shift := if is64 rv32_config then 1 else 2 in
  writePltHeader rv32_config 0x2000 0x1000
    (replicate 4 Byte.xaa ++ replicate 32 Byte.xaa ++ replicate 4 Byte.xaa)
    (length (replicate 4 Byte.xaa)) =
    replicate 4 Byte.xaa ++
    concat (map (le_split 4)
              (plt_header_words (if is64 rv32_config then Op.LD else Op.LW)
                 (u32 (0x2000 - 0x1000)) shift (wordsize rv32_config))) ++
    replicate 4 Byte.xaa /\
  plt_shift rv32_config = shift /\ shift <> 0 /\
  (wordsize rv32_config = (if is64 rv32_config then 8 else 4) ->
   shift = Z.log2 (pltEntrySize / wordsize rv32_config)).
Proof.
  apply (plt_header_non_cheri rv32_config 0x2000 0x1000
           (replicate 4 Byte.xaa) (replicate 32 Byte.xaa) (replicate 4 Byte.xaa));
    reflexivity.
Defined.

(** ** Compartment export records *)

Module ExportTable.
Import AsmPrinter.

Section Records.

Variables C10 C11 C12 C13 C14 C15 C5 : MCPhysReg.
Variable isSubRegister : MCPhysReg -> MCPhysReg -> bool.
Variable getImportExportTableName : string -> string -> CallingConv -> bool -> string.

Let count := countUsedArgRegisters C10 C11 C12 C13 C14 C15 C5 isSubRegister.
Let run := runOnMachineFunction C10 C11 C12 C13 C14 C15 C5 isSubRegister.
Let emit := emitExport getImportExportTableName.

Lemma firstArgReg_bound (regs : list MCPhysReg) (i : Z) (li : MCPhysReg) (k : Z) :
  firstArgReg isSubRegister regs i li = Some k ->
  i + 1 <= k <= i + Z.of_nat (length regs).
Proof.
  revert i. induction regs as [|a regs IH]; intros i; cbn [firstArgReg length].
  - discriminate.
  - destruct ((a =? li) || isSubRegister a li).
    + intros [= <-]. lia.
    + intros H. apply IH in H. lia.
Qed.

(** At most the seven argument registers are counted. *)
Lemma countUsedArgRegisters_bound (liveins : list MCPhysReg) :
  0 <= count liveins <= 7.
Proof.
  subst count. unfold countUsedArgRegisters.
  assert (H : forall l acc, 0 <= acc <= 7 ->
            0 <= fold_left (fun NumArgRegs li =>
                   match firstArgReg isSubRegister (ArgGPCRsE C10 C11 C12 C13 C14 C15 C5) 0 li with
                   | Some k => Z.max NumArgRegs k
                   | None => NumArgRegs
                   end) l acc <= 7).
  { induction l as [|li l IH]; intros acc Hacc; cbn [fold_left]; [assumption|].
    apply IH.
    destruct (firstArgReg isSubRegister (ArgGPCRsE C10 C11 C12 C13 C14 C15 C5) 0 li) as [k|] eqn:E;
      [|assumption].
    apply firstArgReg_bound in E. cbn in E. lia. }
  apply H. lia.
Qed.

Lemma interruptFlagOf_cases (F : Function) :
  (interruptFlagOf F = 0 /\ fn_interrupt_state F <> Some "enabled"%string /\
   fn_interrupt_state F <> Some "disabled"%string) \/
  (interruptFlagOf F = 8 /\ fn_interrupt_state F = Some "enabled"%string) \/
  (interruptFlagOf F = 16 /\ fn_interrupt_state F = Some "disabled"%string).
Proof.
  unfold interruptFlagOf. destruct (fn_interrupt_state F) as [v|].
  - destruct (String.eqb_spec v "enabled") as [->|Hn1]; [right; left; now split|].
    destruct (String.eqb_spec v "disabled") as [->|Hn2]; [right; right; now split|].
    left. repeat split; congruence.
  - left. repeat split; discriminate.
Qed.

(** The sum the printer stores is the bitwise packing of the two fields. *)
Lemma used_plus_flag (used flag : Z) :
  0 <= used <= 7 -> flag = 0 \/ flag = 8 \/ flag = 16 ->
  used + flag = Z.lor used flag.
Proof.
  intros Hu Hf.
  assert (used = 0 \/ used = 1 \/ used = 2 \/ used = 3 \/ used = 4 \/ used = 5 \/
          used = 6 \/ used = 7) as Hc by lia.
  destruct Hf as [-> | [-> | ->]];
    repeat (destruct Hc as [-> | Hc]; [reflexivity|]); subst; reflexivity.
Qed.

(** Every entry [runOnMachineFunction] records carries the function's
    symbol, the count plus the flag, and a stack size of 32 bits. *)
Lemma run_entry (entries : list CompartmentExport) (MF : MachineFunction)
    (e : CompartmentExport) :
  run entries MF = entries ++ [e] ->
  FnSym e = mf_name MF /\
  LiveIns e = count (mf_liveins MF) + interruptFlagOf (mf_function MF) /\
  Fn e = mf_function MF /\
  0 <= stackSize e < 2 ^ 32.
Proof.
  subst run count. unfold runOnMachineFunction.
  assert (Hu : forall x, 0 <= u32 x < 2 ^ 32) by (intros; apply Z.mod_pos_bound; lia).
  destruct (fn_callingConv (mf_function MF)).
  - intros H. apply app_inv_head in H. injection H as <-. cbn. auto.
  - intros H. apply app_inv_head in H. injection H as <-. cbn. repeat split; lia.
  - destruct (negb (interruptFlagOf (mf_function MF) =? 0)).
    + intros H. apply app_inv_head in H. injection H as <-. cbn. repeat split; lia.
    + intros H. rewrite <- (app_nil_r entries) in H at 1.
      apply app_inv_head in H. discriminate.
Qed.

End Records.

End ExportTable.

(** C9, as stated, fails: the flag is already shifted when it is added to
    the register count; it is not shifted a second time.  For an entry point
    with interrupts enabled and one argument register the last byte is
    [1 + 8 = 9], not [1 | (8 << 3) = 65]. *)
Lemma export_flag_is_not_shifted_again :
  exists e,
    example_runOnMachineFunction [] example_entry_point = [e] /\
    AsmPrinter.interruptFlagOf (AsmPrinter.mf_function example_entry_point) = Z.shiftl 1 3 /\
    AsmPrinter.LiveIns e = 9 /\
    In (AsmPrinter.EmitIntValue 9 1) (example_emitExport e) /\
    ~ In (AsmPrinter.EmitIntValue (Z.lor 1 (Z.shiftl (Z.shiftl 1 3) 3)) 1)
         (example_emitExport e) /\
    AsmPrinter.record_bytes (fun _ => 0) (example_emitExport e) =
      [Byte.x00; Byte.x00; Byte.x03; Byte.x09].
Proof.
  eexists. split; [reflexivity|]. repeat split; try reflexivity.
  - vm_compute. tauto.
  - vm_compute. intros H. repeat (destruct H as [H|H]; [discriminate H|]). exact H.
Qed.

(** C9, amended. Every record emitted into .compartment_exports is aligned
    to 4 and is 4 bytes: 2 bytes holding the label difference fnSym -
    __compartment_pcc_start, 1 byte holding min(255, ceil(stackSize/8)) (for
    a stack size of at most 2^32 - 8), and 1 byte holding the packed value
    usedArgRegs | interruptFlag, where usedArgRegs is at most 7 and
    interruptFlag is 0, 1<<3 or 2<<3 for unspecified, enabled or disabled;
    the flag is not shifted again. *)
Theorem export_record_layout
    (C10 C11 C12 C13 C14 C15 C5 : AsmPrinter.MCPhysReg)
    (isSubRegister : AsmPrinter.MCPhysReg -> AsmPrinter.MCPhysReg -> bool)
    (getImportExportTableName : string -> string -> AsmPrinter.CallingConv -> bool -> string)
    (entries : list AsmPrinter.CompartmentExport) (MF : AsmPrinter.MachineFunction)
    (e : AsmPrinter.CompartmentExport) (addr : string -> Z) :
  AsmPrinter.runOnMachineFunction C10 C11 C12 C13 C14 C15 C5 isSubRegister entries MF
    = entries ++ [e] ->
  AsmPrinter.stackSize e <= 2 ^ 32 - 8 ->
  let used := AsmPrinter.countUsedArgRegisters C10 C11 C12 C13 C14 C15 C5 isSubRegister
                (AsmPrinter.mf_liveins MF) in
  let flag := AsmPrinter.interruptFlagOf (AsmPrinter.mf_function MF) in
  exists attrs name c,
    AsmPrinter.emitExport getImportExportTableName e =
      attrs ++
      [AsmPrinter.EmitValueToAlignment 4;
       AsmPrinter.EmitLabel name;
       AsmPrinter.EmitLabelDifference (AsmPrinter.mf_name MF) "__compartment_pcc_start" 2;
       AsmPrinter.EmitIntValue (Z.min 255 c) 1;
       AsmPrinter.EmitIntValue (Z.lor used flag) 1;
       AsmPrinter.EmitELFSize name 4] /\
    Forall (fun d => exists a, d = AsmPrinter.EmitSymbolAttribute name a) attrs /\
    8 * (c - 1) < AsmPrinter.stackSize e <= 8 * c /\
    0 <= used <= 7 /\
    ((flag = 0 /\
      AsmPrinter.fn_interrupt_state (AsmPrinter.mf_function MF) <> Some "enabled"%string /\
      AsmPrinter.fn_interrupt_state (AsmPrinter.mf_function MF) <> Some "disabled"%string) \/
     (flag = Z.shiftl 1 3 /\
      AsmPrinter.fn_interrupt_state (AsmPrinter.mf_function MF) = Some "enabled"%string) \/
     (flag = Z.shiftl 2 3 /\
      AsmPrinter.fn_interrupt_state (AsmPrinter.mf_function MF) = Some "disabled"%string)) /\
    AsmPrinter.record_bytes addr (AsmPrinter.emitExport getImportExportTableName e) =
      le_split 2 (addr (AsmPrinter.mf_name MF) - addr "__compartment_pcc_start"%string) ++
      [byte_of_Z (Z.min 255 c); byte_of_Z (Z.lor used flag)] /\
    length (AsmPrinter.record_bytes addr (AsmPrinter.emitExport getImportExportTableName e))
      = 4%nat.
Proof.
  intros Hrun Hstack used flag.
  destruct (ExportTable.run_entry _ _ _ _ _ _ _ _ _ _ _ Hrun) as (Hsym & Hlive & Hfn & Hsz).
  pose proof (ExportTable.countUsedArgRegisters_bound C10 C11 C12 C13 C14 C15 C5
                isSubRegister (AsmPrinter.mf_liveins MF)) as Hused.
  pose proof (ExportTable.interruptFlagOf_cases (AsmPrinter.mf_function MF)) as Hflag.
  fold used in Hused, Hlive. fold flag in Hflag, Hlive.
  assert (Hpack : AsmPrinter.LiveIns e = Z.lor used flag).
  { rewrite Hlive. apply ExportTable.used_plus_flag; [assumption|].
    destruct Hflag as [[? _] | [[? _] | [? _]]]; auto. }
  assert (Hu32 : u32 (AsmPrinter.stackSize e + 7) = AsmPrinter.stackSize e + 7).
  { apply Z.mod_small. change (2 ^ 32) with 4294967296 in *. lia. }
  set (name := getImportExportTableName (AsmPrinter.CompartmentName e)
                 (AsmPrinter.fn_name (AsmPrinter.Fn e))
                 (AsmPrinter.fn_callingConv (AsmPrinter.Fn e)) false).
  exists ([AsmPrinter.EmitSymbolAttribute name AsmPrinter.MCSA_ELF_TypeObject] ++
          (if AsmPrinter.fn_hasExternalLinkage (AsmPrinter.Fn e) && negb (AsmPrinter.forceLocal e)
           then [AsmPrinter.EmitSymbolAttribute name AsmPrinter.MCSA_Global] else [])),
         name, ((AsmPrinter.stackSize e + 7) / 8).
  assert (Hemit : AsmPrinter.emitExport getImportExportTableName e =
    ([AsmPrinter.EmitSymbolAttribute name AsmPrinter.MCSA_ELF_TypeObject] ++
     (if AsmPrinter.fn_hasExternalLinkage (AsmPrinter.Fn e) && negb (AsmPrinter.forceLocal e)
      then [AsmPrinter.EmitSymbolAttribute name AsmPrinter.MCSA_Global] else [])) ++
    [AsmPrinter.EmitValueToAlignment 4;
     AsmPrinter.EmitLabel name;
     AsmPrinter.EmitLabelDifference (AsmPrinter.mf_name MF) "__compartment_pcc_start" 2;
     AsmPrinter.EmitIntValue (Z.min 255 ((AsmPrinter.stackSize e + 7) / 8)) 1;
     AsmPrinter.EmitIntValue (Z.lor used flag) 1;
     AsmPrinter.EmitELFSize name 4]).
  { unfold AsmPrinter.emitExport. fold name. rewrite Hu32, Hpack, Hsym.
    now rewrite <- app_assoc. }
  assert (Hbytes : AsmPrinter.record_bytes addr (AsmPrinter.emitExport getImportExportTableName e) =
      le_split 2 (addr (AsmPrinter.mf_name MF) - addr "__compartment_pcc_start"%string) ++
      [byte_of_Z (Z.min 255 ((AsmPrinter.stackSize e + 7) / 8)); byte_of_Z (Z.lor used flag)]).
  { rewrite Hemit. unfold AsmPrinter.record_bytes.
    destruct (AsmPrinter.fn_hasExternalLinkage (AsmPrinter.Fn e) && negb (AsmPrinter.forceLocal e));
      reflexivity. }
  split; [exact Hemit|]. split; [|split; [|split; [|split; [|split]]]].
  - destruct (AsmPrinter.fn_hasExternalLinkage (AsmPrinter.Fn e) && negb (AsmPrinter.forceLocal e));
      repeat constructor; eexists; reflexivity.
  - Z.div_mod_to_equations. lia.
  - exact Hused.
  - exact Hflag.
  - exact Hbytes.
  - rewrite Hbytes. reflexivity.
Qed.

Lemma export_record_layout_witness :
  exists attrs name c,
    example_emitExport
      (AsmPrinter.mkCompartmentExport "comp"
         (AsmPrinter.mf_function example_entry_point) "f" 9 false 20) =
      attrs ++
      [AsmPrinter.EmitValueToAlignment 4;
       AsmPrinter.EmitLabel name;
       AsmPrinter.EmitLabelDifference "f" "__compartment_pcc_start" 2;
       AsmPrinter.EmitIntValue (Z.min 255 c) 1;
       AsmPrinter.EmitIntValue (Z.lor 1 8) 1;
       AsmPrinter.EmitELFSize name 4] /\
    8 * (c - 1) < 20 <= 8 * c.
Proof.
  destruct (export_record_layout 10 11 12 13 14 15 5 example_isSubRegister
              example_tableName [] example_entry_point
              (AsmPrinter.mkCompartmentExport "comp"
                 (AsmPrinter.mf_function example_entry_point) "f" 9 false 20)
              (fun _ => 0) eq_refl ltac:(cbn; lia))
    as (attrs & name & c & H1 & _ & H3 & _).
  exists attrs, name, c. split; [exact H1 | exact H3].
Defined.

(** ** Relaxing a call *)

Section LittleEndian.

Lemma Z_of_byte_range (b : byte) : 0 <= Z_of_byte b < 256.
Proof.
  unfold Z_of_byte. pose proof (Byte.to_N_bounded b). lia.
Qed.

Lemma le_combine_app (l1 l2 : list byte) :
  le_combine (l1 ++ l2) = le_combine l1 + 256 ^ Z.of_nat (length l1) * le_combine l2.
Proof.
  induction l1 as [|b l1 IH]; cbn [app le_combine length].
  - rewrite Z.pow_0_r. lia.
  - rewrite IH, Nat2Z.inj_succ, Z.pow_succ_r by lia. ring.
Qed.

Lemma le_combine_range (l : list byte) :
  0 <= le_combine l < 256 ^ Z.of_nat (length l).
Proof.
  induction l as [|b l IH]; cbn [le_combine length].
  - rewrite Z.pow_0_r. lia.
  - rewrite Nat2Z.inj_succ, Z.pow_succ_r by lia.
    pose proof (Z_of_byte_range b). lia.
Qed.

Lemma read32le_range (buf : buffer) (loc : nat) (w : Z) :
  read32le buf loc = Some w -> 0 <= w < 2 ^ 32.
Proof.
  unfold read32le, readle.
  destruct (Nat.leb_spec (loc + 4) (length buf)) as [Hb|]; [|discriminate].
  intros [= <-].
  pose proof (le_combine_range (take 4 (drop loc buf))) as H.
  rewrite length_take, length_drop in H.
  replace (4 `min` (length buf - loc))%nat with 4%nat in H by lia. exact H.
Qed.

(** A 64-bit little-endian read is the two 32-bit words at its place. *)
Lemma read64le_pair (buf : buffer) (loc : nat) (lo hi : Z) :
  read32le buf loc = Some lo -> read32le buf (loc + 4) = Some hi ->
  read64le buf loc = Some (lo + 2 ^ 32 * hi).
Proof.
  unfold read32le, read64le, readle.
  destruct (Nat.leb_spec (loc + 4) (length buf)) as [H1|]; [|discriminate].
  destruct (Nat.leb_spec (loc + 4 + 4) (length buf)) as [H2|]; [|discriminate].
  destruct (Nat.leb_spec (loc + 8) (length buf)) as [_|]; [|lia].
  intros [= <-] [= <-]. f_equal.
  change 8%nat with (4 + 4)%nat.
  rewrite <- (take_take_drop (drop loc buf) 4 4), le_combine_app, drop_drop.
  rewrite length_take, length_drop.
  replace (4 `min` (length buf - loc))%nat with 4%nat by lia. reflexivity.
Qed.

(** Bits 39..43 of the pair are the [rd] field, bits 7..11, of its second
    word. *)
Lemma extractBits_rd (lo hi : Z) :
  0 <= lo < 2 ^ 32 -> 0 <= hi < 2 ^ 32 ->
  extractBits (lo + 2 ^ 32 * hi) (32 + 11) (32 + 7) = Z.land (Z.shiftr hi 7) 31.
Proof.
  intros Hlo Hhi. unfold extractBits, u32, trunc.
  change (2 ^ (32 + 11 + 1) - 1) with (Z.ones 44). change 31 with (Z.ones 5).
  rewrite !Z.land_ones, !Z.shiftr_div_pow2 by lia.
  change (2 ^ 44) with 17592186044416. change (2 ^ (32 + 7)) with 549755813888.
  change (2 ^ 32) with 4294967296 in *. change (2 ^ 7) with 128. change (2 ^ 5) with 32.
  Z.div_mod_to_equations. lia.
Qed.

Lemma isInt_spec (N x : Z) :
  isInt N x = true <-> - 2 ^ (N - 1) <= x < 2 ^ (N - 1).
Proof. unfold isInt. rewrite andb_true_iff, Z.leb_le, Z.ltb_lt. tauto. Qed.

End LittleEndian.

Section RelaxCall.

Variable config : Config.
Variable isPCCRelative : option nat -> SymId -> bool.
Variable getVA : SymTab -> SymId -> Z.
Variable getPltVA : SymId -> Z.
Variable getBiasedCGPOffset : SymTab -> SymId -> Z.
Variable getBiasedCGPOffsetLo12 : SymTab -> SymId -> Z.

Lemma push_write_rewritten (i : nat) (t : RelType) (w : Z) (aux : RISCVRelaxAux) :
  0 <= w < 2 ^ 32 ->
  push_write w (set_relocTypes i t aux) = rewritten i t w aux.
Proof.
  intros Hw. unfold push_write, set_relocTypes, rewritten. cbn.
  unfold u32, trunc. now rewrite Z.mod_small.
Qed.

Lemma jal_word_range (x : Z) :
  0 <= Z.lor 0x6f (Z.shiftl (Z.land x 31) 7) < 2 ^ 32.
Proof.
  change 31 with (Z.ones 5). rewrite Z.land_ones by lia.
  assert (H : 0 <= x mod 2 ^ 5 < 32) by (apply Z.mod_pos_bound; lia).
  set (rd := x mod 2 ^ 5) in *.
  assert (Hc : exists n : nat, rd = Z.of_nat n /\ (n < 32)%nat)
    by (exists (Z.to_nat rd); lia).
  destruct Hc as (n & -> & Hn).
  do 32 (destruct n as [|n]; [cbv; split; [discriminate | reflexivity]|]). lia.
Qed.

(** [relaxCall] on a pair it can read, with [rd] taken from the second
    word. *)
Lemma relaxCall_on_pair (syms : SymTab) (sec : InputSection) (aux : RISCVRelaxAux)
    (i : nat) (loc : Z) (r : Relocation) (auipc jalr : Z) :
  read32le (rawData sec) (Z.to_nat (r_offset r)) = Some auipc ->
  read32le (rawData sec) (Z.to_nat (r_offset r) + 4) = Some jalr ->
  let rd := Z.land (Z.shiftr jalr 7) 31 in
  let disp := call_displacement getVA getPltVA syms r loc in
  let rvc := nonzero (Z.land (eflags config) EF_RISCV_RVC) in
  relaxCall config getVA getPltVA syms sec aux i loc r =
  Done (if rvc && isInt 12 disp && (rd =? 0)
        then (rewritten i (rvc_jump_for (r_type r)) 0xa001 aux, 6)
        else if rvc && isInt 12 disp && (rd =? Reg.X_RA) && negb (is64 config)
        then (rewritten i (rvc_jump_for (r_type r)) 0x2001 aux, 6)
        else if isInt 21 disp
        then (rewritten i (jal_for (r_type r)) (Z.lor 0x6f (Z.shiftl rd 7)) aux, 4)
        else (aux, 0)).
Proof.
  intros Ha Hj rd disp rvc. unfold relaxCall.
  pose proof (read64le_pair _ _ _ _ Ha Hj) as Hp.
  unfold load. unfold read64le in Hp. rewrite Hp. cbn [of_option mbind outcome_bind obind].
  rewrite (extractBits_rd auipc jalr (read32le_range _ _ _ Ha) (read32le_range _ _ _ Hj)).
  fold rd. fold (call_displacement getVA getPltVA syms r loc). fold disp. fold rvc.
  fold (rvc_jump_for (r_type r)). fold (jal_for (r_type r)).
  rewrite !push_write_rewritten by (first [apply jal_word_range | cbv; split; congruence]).
  destruct (rvc && isInt 12 disp && (rd =? 0)); [reflexivity|].
  destruct (rvc && isInt 12 disp && (rd =? Reg.X_RA) && negb (is64 config)); [reflexivity|].
  destruct (isInt 21 disp); reflexivity.
Qed.

End RelaxCall.

(** C3. For a CALL, CALL_PLT or CHERI_CCALL auipc+jalr pair immediately
    followed by a RELAX hint, with [rd] the register field of the jalr and
    [disp] the displacement to the target: if the compressed extension is
    enabled, [disp] fits 12 signed bits and [rd] is 0, the word 0xa001 (c.j)
    is pushed, the kind becomes RVC_JUMP (CHERI_RVC_CJUMP for a CCALL) and 6
    bytes are removed; else if compressed, [disp] fits 12 bits, [rd] is x1
    and the target is 32-bit, 0x2001 (c.jal) is pushed and 6 removed; else if
    [disp] fits 21 signed bits, 0x6f | (rd << 7) (jal) is pushed, the kind
    becomes JAL (CHERI_CJAL) and 4 are removed; otherwise nothing changes. *)
Theorem relax_call_cases
    (config : Config) (isPCCRelative : option nat -> SymId -> bool)
    (getVA : SymTab -> SymId -> Z) (getPltVA : SymId -> Z)
    (getBiasedCGPOffset getBiasedCGPOffsetLo12 : SymTab -> SymId -> Z)
    (syms : SymTab) (sec : InputSection) (aux : RISCVRelaxAux)
    (i : nat) (loc : Z) (r : Relocation) (auipc jalr : Z) :
  is_call (r_type r) ->
  followedByRelax sec i = true ->
  read32le (rawData sec) (Z.to_nat (r_offset r)) = Some auipc ->
  read32le (rawData sec) (Z.to_nat (r_offset r) + 4) = Some jalr ->
  let rd := Z.land (Z.shiftr jalr 7) 31 in
  let disp := call_displacement getVA getPltVA syms r loc in
  let compressed := Z.land (eflags config) EF_RISCV_RVC <> 0 in
  let fits n := - 2 ^ (n - 1) <= disp < 2 ^ (n - 1) in
  let out := relaxReloc config isPCCRelative getVA getPltVA getBiasedCGPOffset
               getBiasedCGPOffsetLo12 syms sec aux i loc r in
  (compressed /\ fits 12 /\ rd = 0 ->
   out = Done (rewritten i (rvc_jump_for (r_type r)) 0xa001 aux, 6)) /\
  (compressed /\ fits 12 /\ rd = Reg.X_RA /\ is64 config = false ->
   out = Done (rewritten i (rvc_jump_for (r_type r)) 0x2001 aux, 6)) /\
  (~ (compressed /\ fits 12 /\ rd = 0) ->
   ~ (compressed /\ fits 12 /\ rd = Reg.X_RA /\ is64 config = false) ->
   fits 21 ->
   out = Done (rewritten i (jal_for (r_type r)) (Z.lor 0x6f (Z.shiftl rd 7)) aux, 4)) /\
  (~ (compressed /\ fits 12 /\ rd = 0) ->
   ~ (compressed /\ fits 12 /\ rd = Reg.X_RA /\ is64 config = false) ->
   ~ fits 21 ->
   out = Done (aux, 0)).
Proof.
  intros Hcall Hnext Ha Hj rd disp compressed fits out.
  assert (Hout : out = relaxCall config getVA getPltVA syms sec aux i loc r).
  { subst out. unfold relaxReloc. rewrite Hnext.
    destruct Hcall as [-> | [-> | ->]]; reflexivity. }
  rewrite Hout, (relaxCall_on_pair config getVA getPltVA syms sec aux i loc r auipc jalr Ha Hj).
  fold rd. fold disp.
  assert (Hrvc : nonzero (Z.land (eflags config) EF_RISCV_RVC) = true <-> compressed).
  { unfold nonzero, compressed. rewrite negb_true_iff, Z.eqb_neq. tauto. }
  assert (H12 : isInt 12 disp = true <-> fits 12) by apply isInt_spec.
  assert (H21 : isInt 21 disp = true <-> fits 21) by apply isInt_spec.
  assert (Hcj : nonzero (Z.land (eflags config) EF_RISCV_RVC) && isInt 12 disp && (rd =? 0) = true
                <-> compressed /\ fits 12 /\ rd = 0).
  { rewrite !andb_true_iff, Z.eqb_eq. tauto. }
  assert (Hcjal : nonzero (Z.land (eflags config) EF_RISCV_RVC) && isInt 12 disp &&
                  (rd =? Reg.X_RA) && negb (is64 config) = true
                <-> compressed /\ fits 12 /\ rd = Reg.X_RA /\ is64 config = false).
  { rewrite !andb_true_iff, Z.eqb_eq, negb_true_iff. tauto. }
  destruct (nonzero (Z.land (eflags config) EF_RISCV_RVC) && isInt 12 disp && (rd =? 0)).
  - pose proof (proj1 Hcj eq_refl) as E1'. repeat split; intros; try reflexivity; try tauto.
    destruct E1' as (_ & _ & E0). destruct H as (_ & _ & E & _).
    rewrite E0 in E. discriminate E.
  - assert (N1 : ~ (compressed /\ fits 12 /\ rd = 0))
      by (intros p; apply Hcj in p; discriminate p).
    destruct (nonzero (Z.land (eflags config) EF_RISCV_RVC) && isInt 12 disp &&
              (rd =? Reg.X_RA) && negb (is64 config)).
    + pose proof (proj1 Hcjal eq_refl) as E2'.
      repeat split; intros; try reflexivity; tauto.
    + assert (N2 : ~ (compressed /\ fits 12 /\ rd = Reg.X_RA /\ is64 config = false))
        by (intros p; apply Hcjal in p; discriminate p).
      destruct (isInt 21 disp).
      * pose proof (proj1 H21 eq_refl) as E3'.
        repeat split; intros; try reflexivity; tauto.
      * assert (N3 : ~ fits 21) by (intros p; apply H21 in p; discriminate p).
        repeat split; intros; try reflexivity; tauto.
Qed.

Lemma relax_call_cases_witness :
  relaxReloc rvc_config never_pcc target_at_8 (fun _ => 8) no_cgp no_cgp
    ∅ call_section (mkRISCVRelaxAux [] [0; 0] [R_RISCV_NONE; R_RISCV_NONE] [])
    0 0 (mkRelocation R_PLT_PC R_RISCV_CALL 0 0 0%nat) =
  Done (rewritten 0 R_RISCV_RVC_JUMP 0xa001
          (mkRISCVRelaxAux [] [0; 0] [R_RISCV_NONE; R_RISCV_NONE] []), 6).
Proof.
  apply (relax_call_cases rvc_config never_pcc target_at_8 (fun _ => 8) no_cgp no_cgp
           ∅ call_section (mkRISCVRelaxAux [] [0; 0] [R_RISCV_NONE; R_RISCV_NONE] [])
           0%nat 0 (mkRelocation R_PLT_PC R_RISCV_CALL 0 0 0%nat)
           0x00000297 0x00028067).
  - left. reflexivity.
  - reflexivity.
  - reflexivity.
  - reflexivity.
  - split; [discriminate|]. split; [cbv; split; [discriminate | reflexivity] | reflexivity].
Defined.

(** ** relaxOnce under [-r] *)

(** In a link that relaxes, pass 0 on the example does install the anchors
    and shrink the section: the state changes and the pass reports it. *)
Example relaxOnce_example_changes :
  exists st, example_relaxOnce rvc_config example_link 0 = Done (true, st) /\
             st <> example_link /\
             (bytesDropped <$> sections st !! 0%nat) = Some 6.
Proof.
  eexists. split; [vm_compute; reflexivity|]. split; [|reflexivity].
  intros H. apply (f_equal (fun s => bytesDropped <$> sections s !! 0%nat)) in H.
  vm_compute in H. discriminate H.
Qed.

(** C10. For every pass number, when the configuration flag [relocatable]
    is set, [relaxOnce] returns false at once: no anchors are initialised,
    no section is relaxed, and the whole link state (sections, aux data,
    symbols) is what it was. *)
Theorem relaxOnce_relocatable
    (config : Config) (isPCCRelative : option nat -> SymId -> bool)
    (getVA : SymTab -> SymId -> Z) (getPltVA : SymId -> Z)
    (getBiasedCGPOffset getBiasedCGPOffsetLo12 : SymTab -> SymId -> Z)
    (sectionVA : SecId -> Z) (st : LinkState) (pass : Z) :
  relocatable config = true ->
  relaxOnce config isPCCRelative getVA getPltVA getBiasedCGPOffset
    getBiasedCGPOffsetLo12 sectionVA st pass = Done (false, st).
Proof.
  intros H. unfold relaxOnce. rewrite H. reflexivity.
Qed.

Lemma relaxOnce_relocatable_witness :
  example_relaxOnce relocatable_config example_link 0 = Done (false, example_link).
Proof.
  apply (relaxOnce_relocatable relocatable_config never_pcc example_getVA
           example_getPltVA no_cgp no_cgp example_sectionVA example_link 0).
  reflexivity.
Defined.

(** ** A relaxation pass: deltas, anchors and symbols *)

Section AnchorLoops.

(** *** The two anchor loops, anchor by anchor *)

Lemma recordDeltas_app (delta : Z -> Z) (vd : gmap SymId Z) (l1 l2 : list SymbolAnchor) :
  recordDeltas delta vd (l1 ++ l2) = recordDeltas delta (recordDeltas delta vd l1) l2.
Proof. unfold recordDeltas. apply foldl_app. Qed.

Lemma recordDeltas_ext (d1 d2 : Z -> Z) (vd : gmap SymId Z) (sa : list SymbolAnchor) :
  Forall (fun a => d1 (a_offset a) = d2 (a_offset a)) sa ->
  recordDeltas d1 vd sa = recordDeltas d2 vd sa.
Proof.
  intros H. revert vd. induction H as [|a sa Ha _ IH]; intros vd; [reflexivity|].
  cbn. rewrite Ha. apply IH.
Qed.

Lemma adjustAll_app (delta : Z -> Z) (vd : gmap SymId Z) (l1 l2 : list SymbolAnchor)
    (syms : SymTab) :
  adjustAll delta vd (l1 ++ l2) syms =
  (syms' ← adjustAll delta vd l1 syms; adjustAll delta vd l2 syms').
Proof.
  revert syms. induction l1 as [|a l1 IH]; intros syms; cbn; [reflexivity|].
  destruct (adjustAnchor (delta (a_offset a)) vd a syms) as [syms1|f]; cbn; [apply IH | reflexivity].
Qed.

Lemma adjustAll_ext (d1 d2 : Z -> Z) (vd : gmap SymId Z) (sa : list SymbolAnchor)
    (syms : SymTab) :
  Forall (fun a => d1 (a_offset a) = d2 (a_offset a)) sa ->
  adjustAll d1 vd sa syms = adjustAll d2 vd sa syms.
Proof.
  intros H. revert syms. induction H as [|a sa Ha _ IH]; intros syms; [reflexivity|].
  cbn. rewrite Ha.
  destruct (adjustAnchor (d2 (a_offset a)) vd a syms); cbn; [apply IH | reflexivity].
Qed.

Lemma restValueDelta_recordDeltas (delta : Z) (sa : list SymbolAnchor) (vd : gmap SymId Z) :
  restValueDelta delta sa vd = recordDeltas (fun _ => delta) vd sa.
Proof. reflexivity. Qed.

Lemma restAnchors_adjustAll (delta : Z) (vd : gmap SymId Z) (sa : list SymbolAnchor)
    (syms : SymTab) :
  restAnchors delta vd sa syms = adjustAll (fun _ => delta) vd sa syms.
Proof.
  revert syms. induction sa as [|a sa IH]; intros syms; cbn; [reflexivity|].
  destruct (adjustAnchor delta vd a syms); cbn; [apply IH | reflexivity].
Qed.

Lemma sorted_app_r (l1 l2 : list SymbolAnchor) :
  anchors_sorted (l1 ++ l2) -> anchors_sorted l2.
Proof.
  unfold anchors_sorted. induction l1 as [|a l1 IH]; cbn; [auto|].
  intros H. inversion H; subst. auto.
Qed.

Lemma sorted_above (off : Z) (sa : list SymbolAnchor) :
  anchors_sorted sa -> starts_above off sa ->
  Forall (fun a => off < a_offset a) sa.
Proof.
  intros Hs Ha. destruct sa as [|a sa]; [constructor|].
  cbn in Ha. inversion Hs as [|? ? _ Hall]; subst.
  constructor; [assumption|].
  eapply Forall_impl; [exact Hall|]. cbn. intros b Hb. lia.
Qed.

Lemma drainValueDelta_spec (off delta : Z) (sa : list SymbolAnchor) (vd : gmap SymId Z) :
  exists drained,
    sa = drained ++ fst (drainValueDelta off delta sa vd) /\
    Forall (fun a => a_offset a <= off) drained /\
    snd (drainValueDelta off delta sa vd) = recordDeltas (fun _ => delta) vd drained /\
    starts_above off (fst (drainValueDelta off delta sa vd)).
Proof.
  revert vd. induction sa as [|a sa IH]; intros vd; cbn [drainValueDelta].
  - exists []. repeat split; constructor.
  - destruct (Z.leb_spec (a_offset a) off) as [Hle|Hgt].
    + destruct (IH (if a_end a then vd else <[a_d a := delta]> vd))
        as (dr & Hsa & Hall & Hvd & Habove).
      exists (a :: dr). repeat split.
      * cbn. now rewrite <- Hsa.
      * now constructor.
      * exact Hvd.
      * exact Habove.
    + exists []. repeat split; [constructor | exact Hgt].
Qed.

Lemma drainAnchors_spec (off delta : Z) (vd : gmap SymId Z) (sa sa' : list SymbolAnchor)
    (syms syms' : SymTab) :
  drainAnchors off delta vd sa syms = Done (sa', syms') ->
  exists drained,
    sa = drained ++ sa' /\
    Forall (fun a => a_offset a <= off) drained /\
    adjustAll (fun _ => delta) vd drained syms = Done syms' /\
    starts_above off sa'.
Proof.
  revert syms. induction sa as [|a sa IH]; intros syms; cbn [drainAnchors].
  - intros [= <- <-]. exists []. repeat split; constructor.
  - destruct (Z.leb_spec (a_offset a) off) as [Hle|Hgt].
    + destruct (adjustAnchor delta vd a syms) as [syms1|f] eqn:E; cbn; [|discriminate].
      intros H. destruct (IH _ H) as (dr & Hsa & Hall & Hadj & Habove).
      exists (a :: dr). repeat split.
      * cbn. now rewrite <- Hsa.
      * now constructor.
      * cbn. rewrite E. exact Hadj.
      * exact Habove.
    + intros [= <- <-]. exists []. repeat split; [constructor | exact Hgt].
Qed.

(** On anchors at or below the first offset the delta is [prev]; above it,
    it is the delta of the remaining relocations. *)
Lemma deltaAt_below (o : Z) (offs : list Z) (d : Z) (deltas : list Z) (prev : Z)
    (sa : list SymbolAnchor) :
  Forall (fun a => a_offset a <= o) sa ->
  Forall (fun a => (fun _ => prev) (a_offset a) =
                   deltaAt (o :: offs) (d :: deltas) prev (a_offset a)) sa.
Proof.
  intros H. eapply Forall_impl; [exact H|]. cbn. intros a Ha.
  destruct (Z.leb_spec (a_offset a) o); [reflexivity | lia].
Qed.

Lemma deltaAt_above (o : Z) (offs : list Z) (d : Z) (deltas : list Z) (prev : Z)
    (sa : list SymbolAnchor) :
  Forall (fun a => o < a_offset a) sa ->
  Forall (fun a => deltaAt offs deltas d (a_offset a) =
                   deltaAt (o :: offs) (d :: deltas) prev (a_offset a)) sa.
Proof.
  intros H. eapply Forall_impl; [exact H|]. cbn. intros a Ha.
  destruct (Z.leb_spec (a_offset a) o); [lia | reflexivity].
Qed.

(** The first loop of [relax] records, for every start anchor, the delta
    the old array has at its offset. *)
Lemma valueDeltaLoop_spec (rels : list Relocation) (i : nat) (deltas : list Z)
    (sa sa' : list SymbolAnchor) (delta delta' : Z) (vd vd' : gmap SymId Z) :
  valueDeltaLoop rels i deltas sa delta vd = Done (sa', delta', vd') ->
  anchors_sorted sa ->
  restValueDelta delta' sa' vd' =
  recordDeltas (deltaAt (map r_offset rels) (drop i deltas) delta) vd sa.
Proof.
  revert i sa delta vd. induction rels as [|r rels IH]; intros i sa delta vd; cbn [valueDeltaLoop].
  - intros [= <- <- <-] _. rewrite restValueDelta_recordDeltas.
    apply recordDeltas_ext, Forall_forall. reflexivity.
  - destruct (drainValueDelta_spec (r_offset r) delta sa vd) as (dr & Hsa & Hall & Hvd & Habove).
    destruct (drainValueDelta (r_offset r) delta sa vd) as [sa1 vd1]. cbn [fst snd] in *.
    destruct (deltas !! i) as [d|] eqn:Ed; cbn; [|discriminate].
    intros Hloop Hsorted. subst sa.
    rewrite (IH _ _ _ _ Hloop (sorted_app_r _ _ Hsorted)).
    rewrite (drop_S _ _ _ Ed). cbn [map].
    rewrite recordDeltas_app, Hvd.
    rewrite (recordDeltas_ext _ _ vd dr
               (deltaAt_below (r_offset r) (map r_offset rels) d (drop (S i) deltas) delta dr Hall)).
    apply recordDeltas_ext, deltaAt_above, sorted_above; [|assumption].
    eapply sorted_app_r; eassumption.
Qed.

End AnchorLoops.

Section SecondLoop.

Variable config : Config.
Variable isPCCRelative : option nat -> SymId -> bool.
Variable getVA : SymTab -> SymId -> Z.
Variable getPltVA : SymId -> Z.
Variable getBiasedCGPOffset : SymTab -> SymId -> Z.
Variable getBiasedCGPOffsetLo12 : SymTab -> SymId -> Z.

#[local] Abbreviation relaxReloc' :=
  (relaxReloc config isPCCRelative getVA getPltVA getBiasedCGPOffset getBiasedCGPOffsetLo12).
#[local] Abbreviation relaxStep' :=
  (relaxStep config isPCCRelative getVA getPltVA getBiasedCGPOffset getBiasedCGPOffsetLo12).
#[local] Abbreviation relaxLoop' :=
  (relaxLoop config isPCCRelative getVA getPltVA getBiasedCGPOffset getBiasedCGPOffsetLo12).
#[local] Abbreviation loopRemoves' :=
  (loopRemoves config isPCCRelative getVA getPltVA getBiasedCGPOffset getBiasedCGPOffsetLo12).

Lemma relaxCall_inv (syms : SymTab) (sec : InputSection) (aux aux1 : RISCVRelaxAux)
    (i : nat) (loc : Z) (r : Relocation) (remove : Z) :
  relaxCall config getVA getPltVA syms sec aux i loc r = Done (aux1, remove) ->
  same_deltas aux aux1 /\ 0 <= remove < 2 ^ 31.
Proof.
  unfold relaxCall, same_deltas.
  destruct (load 8 (rawData sec) (Z.to_nat (r_offset r))) as [p|]; cbn; [|discriminate].
  repeat match goal with
         | |- context [if ?b then _ else _] => destruct b
         end;
    intros [= <- <-]; cbn; repeat split; lia.
Qed.

Lemma relaxCGP_inv (syms : SymTab) (sec : InputSection) (aux aux1 : RISCVRelaxAux)
    (i : nat) (loc : Z) (r : Relocation) (remove : Z) :
  relaxCGP isPCCRelative getBiasedCGPOffset getBiasedCGPOffsetLo12 syms sec aux i loc r
    = Done (aux1, remove) ->
  same_deltas aux aux1 /\ 0 <= remove < 2 ^ 31.
Proof.
  unfold relaxCGP, same_deltas.
  destruct (isPCCRelative None (r_sym r)); [intros [= <- <-]; repeat split; lia|].
  destruct (negb _); [intros [= <- <-]; repeat split; lia|].
  destruct (load 4 (rawData sec) (Z.to_nat (r_offset r))) as [p|]; cbn; [|discriminate].
  destruct (r_type r); intros [= <- <-]; cbn; repeat split; lia.
Qed.

Lemma relaxReloc_inv (syms : SymTab) (sec : InputSection) (aux aux1 : RISCVRelaxAux)
    (i : nat) (loc : Z) (r : Relocation) (remove : Z) :
  relaxReloc' syms sec aux i loc r = Done (aux1, remove) ->
  same_deltas aux aux1 /\ 0 <= remove < 2 ^ 31.
Proof.
  unfold relaxReloc.
  destruct (r_type r) eqn:Et;
    try (intros [= <- <-]; unfold same_deltas; repeat split; lia);
    try (destruct (followedByRelax sec i);
         [first [apply relaxCall_inv | apply relaxCGP_inv]
         | intros [= <- <-]; unfold same_deltas; repeat split; lia]).
  (* R_RISCV_ALIGN *)
  set (remove' := u32 _).
  destruct (Z.leb_spec 0 (s32 remove')) as [Hs|]; [|discriminate].
  intros [= <- <-]. split; [split; reflexivity|].
  assert (Hr : 0 <= remove' < 2 ^ 32) by (apply Z.mod_pos_bound; lia).
  unfold s32, SignExtend64 in Hs. rewrite (Z.mod_small remove') in Hs by exact Hr.
  change (2 ^ (32 - 1)) with (2 ^ 31) in Hs.
  destruct (Z.ltb_spec remove' (2 ^ 31)); lia.
Qed.

(** One round of the second loop, taken apart. *)
Lemma relaxStep_inv (secAddr : Z) (sec : InputSection) (vd : gmap SymId Z)
    (i : nat) (r : Relocation) (s s' : RelaxState) :
  relaxStep' secAddr sec vd i r s = Done s' ->
  exists aux1 remove,
    relaxReloc' (rs_syms s) sec (rs_aux s) i (u64 (secAddr + r_offset r - rs_delta s)) r
      = Done (aux1, remove) /\
    0 <= remove < 2 ^ 31 /\
    drainAnchors (r_offset r) (rs_delta s) vd (rs_sa s) (rs_syms s)
      = Done (rs_sa s', rs_syms s') /\
    rs_delta s' = u32 (rs_delta s + remove) /\
    (i < length (relocDeltas (rs_aux s)))%nat /\
    relocDeltas (rs_aux s') = <[i := rs_delta s']> (relocDeltas (rs_aux s)) /\
    anchors (rs_aux s') = anchors (rs_aux s).
Proof.
  unfold relaxStep.
  destruct (relocDeltas (rs_aux s) !! i) as [cur|] eqn:Ecur; cbn; [|discriminate].
  destruct (relaxReloc _ _ _ _ _ _ _ _ _ _ _ _) as [[aux1 remove]|] eqn:Er; cbn; [|discriminate].
  destruct (drainAnchors _ _ _ _ _) as [[sa1 syms1]|] eqn:Ed; cbn; [|discriminate].
  destruct (relaxReloc_inv _ _ _ _ _ _ _ _ Er) as ((Hd & Ha) & Hrem).
  pose proof (lookup_lt_Some _ _ _ Ecur) as Hlen.
  destruct (Z.eqb_spec (u32 (rs_delta s + remove)) cur) as [Heq|Hne]; cbn;
    intros [= <-]; exists aux1, remove; cbn; repeat split; try assumption; try lia.
  - rewrite Hd, Heq. symmetry. now apply list_insert_id.
  - now rewrite Hd.
Qed.

(** The array of deltas below the index the loop starts from is left
    alone, and the anchors are. *)
Lemma relaxLoop_frame (secAddr : Z) (sec : InputSection) (vd : gmap SymId Z)
    (rels : list Relocation) (i : nat) (s s' : RelaxState) :
  relaxLoop' secAddr sec vd rels i s = Done s' ->
  (forall j, (j < i)%nat -> relocDeltas (rs_aux s') !! j = relocDeltas (rs_aux s) !! j) /\
  length (relocDeltas (rs_aux s')) = length (relocDeltas (rs_aux s)) /\
  anchors (rs_aux s') = anchors (rs_aux s).
Proof.
  revert i s. induction rels as [|r rels IH]; intros i s; cbn [relaxLoop].
  - intros [= <-]. split; [reflexivity|]. split; reflexivity.
  - destruct (relaxStep' secAddr sec vd i r s) as [s1|] eqn:Es; cbn; [|discriminate].
    intros Hloop.
    destruct (relaxStep_inv _ _ _ _ _ _ _ Es) as (aux1 & remove & _ & _ & _ & _ & Hlen & Hd & Ha).
    destruct (IH _ _ Hloop) as (Hfr & Hl & Han).
    rewrite Hd, length_insert in *. repeat split.
    + intros j Hj. rewrite Hfr by lia. apply list_lookup_insert_ne. lia.
    + exact Hl.
    + congruence.
Qed.

(** After a round, the delta it left is the entry of its relocation, then
    and at the end of the loop. *)
Lemma relaxLoop_head (secAddr : Z) (sec : InputSection) (vd : gmap SymId Z)
    (r : Relocation) (rels : list Relocation) (i : nat) (s s1 s' : RelaxState) :
  relaxStep' secAddr sec vd i r s = Done s1 ->
  relaxLoop' secAddr sec vd rels (S i) s1 = Done s' ->
  drop i (relocDeltas (rs_aux s')) = rs_delta s1 :: drop (S i) (relocDeltas (rs_aux s')).
Proof.
  intros Es Hloop.
  destruct (relaxStep_inv _ _ _ _ _ _ _ Es) as (aux1 & remove & _ & _ & _ & _ & Hlen & Hd & _).
  destruct (relaxLoop_frame _ _ _ _ _ _ _ Hloop) as (Hfr & _).
  apply drop_S. rewrite Hfr by lia. rewrite Hd. now apply list_lookup_insert_eq.
Qed.

(** The second loop and the last anchor loop adjust every anchor once, in
    order, with the delta the new array has at the anchor's offset. *)
Lemma relaxLoop_anchors (secAddr : Z) (sec : InputSection) (vd : gmap SymId Z)
    (rels : list Relocation) (i : nat) (s s' : RelaxState) (symsF : SymTab) :
  relaxLoop' secAddr sec vd rels i s = Done s' ->
  anchors_sorted (rs_sa s) ->
  restAnchors (rs_delta s') vd (rs_sa s') (rs_syms s') = Done symsF ->
  adjustAll (deltaAt (map r_offset rels) (drop i (relocDeltas (rs_aux s'))) (rs_delta s))
    vd (rs_sa s) (rs_syms s) = Done symsF.
Proof.
  revert i s. induction rels as [|r rels IH]; intros i s; cbn [relaxLoop].
  - intros [= <-] _ Hrest. rewrite restAnchors_adjustAll in Hrest. rewrite <- Hrest.
    apply adjustAll_ext, Forall_forall. reflexivity.
  - destruct (relaxStep' secAddr sec vd i r s) as [s1|] eqn:Es; cbn; [|discriminate].
    intros Hloop Hsorted Hrest.
    destruct (relaxStep_inv _ _ _ _ _ _ _ Es) as (aux1 & remove & _ & _ & Hdrain & _).
    destruct (drainAnchors_spec _ _ _ _ _ _ _ Hdrain) as (dr & Hsa & Hall & Hadj & Habove).
    rewrite Hsa in Hsorted |- *.
    pose proof (sorted_app_r _ _ Hsorted) as Hsorted1.
    rewrite (relaxLoop_head _ _ _ _ _ _ _ _ _ Es Hloop).
    rewrite adjustAll_app.
    rewrite (adjustAll_ext _ (fun _ => rs_delta s) vd dr (rs_syms s)).
    2:{ eapply Forall_impl; [exact Hall|]. cbn. intros a Ha.
        destruct (Z.leb_spec (a_offset a) (r_offset r)); [reflexivity | lia]. }
    rewrite Hadj.
    change (adjustAll
              (deltaAt (map r_offset (r :: rels))
                 (rs_delta s1 :: drop (S i) (relocDeltas (rs_aux s'))) (rs_delta s))
              vd (rs_sa s1) (rs_syms s1) = Done symsF).
    rewrite (adjustAll_ext _ (deltaAt (map r_offset rels)
                                (drop (S i) (relocDeltas (rs_aux s'))) (rs_delta s1))
               vd (rs_sa s1) (rs_syms s1)).
    2:{ eapply Forall_impl; [exact (sorted_above _ _ Hsorted1 Habove)|]. cbn. intros a Ha.
        destruct (Z.leb_spec (a_offset a) (r_offset r)); [lia | reflexivity]. }
    now apply IH.
Qed.

Lemma sum_list_cons (x : Z) (l : list Z) : sum_list (x :: l) = x + sum_list l.
Proof. reflexivity. Qed.

Lemma sum_list_nonneg (l : list Z) :
  Forall (fun x => 0 <= x < 2 ^ 31) l -> 0 <= sum_list l.
Proof. unfold sum_list. induction 1; cbn; lia. Qed.

(** The deltas the second loop writes are the running sums of the bytes it
    removes, as long as the 32-bit counter does not wrap. *)
Lemma relaxLoop_deltas (secAddr : Z) (sec : InputSection) (vd : gmap SymId Z)
    (rels : list Relocation) (i : nat) (s s' : RelaxState) :
  relaxLoop' secAddr sec vd rels i s = Done s' ->
  exists removes,
    loopRemoves' secAddr sec vd rels i s = Done removes /\
    length removes = length rels /\
    Forall (fun x => 0 <= x < 2 ^ 31) removes /\
    (0 <= rs_delta s -> rs_delta s + sum_list removes < 2 ^ 32 ->
     rs_delta s' = rs_delta s + sum_list removes /\
     forall k, (k < length rels)%nat ->
       relocDeltas (rs_aux s') !! (i + k)%nat =
       Some (rs_delta s + sum_list (take (S k) removes))).
Proof.
  revert i s. induction rels as [|r rels IH]; intros i s; cbn [relaxLoop loopRemoves].
  - intros [= <-]. exists []. repeat split; cbn; try constructor; try lia.
  - destruct (relaxStep' secAddr sec vd i r s) as [s1|] eqn:Es;
      cbn [mbind outcome_bind obind]; [|discriminate].
    intros Hloop.
    destruct (relaxStep_inv _ _ _ _ _ _ _ Es)
      as (aux1 & remove & Hr & Hrem & _ & Hdelta & Hlen & Hd & _).
    destruct (IH _ _ Hloop) as (removes & Hrs & Hlr & Hall & Hsum).
    exists (remove :: removes).
    split; [rewrite Hr; cbn [mbind outcome_bind obind]; rewrite Hrs; reflexivity|].
    split; [cbn [length]; lia|]. split; [now constructor|].
    intros H0 Hlt. pose proof (sum_list_nonneg _ Hall) as Hnn.
    rewrite sum_list_cons in *.
    assert (Hd1 : rs_delta s1 = rs_delta s + remove).
    { rewrite Hdelta. apply Z.mod_small.
      change (2 ^ 32) with 4294967296 in *. change (2 ^ 31) with 2147483648 in *. lia. }
    destruct Hsum as (Hfin & Hk); [lia | lia |].
    split; [lia|].
    intros [|k] Hklt.
    + rewrite Nat.add_0_r.
      pose proof (relaxLoop_head _ _ _ _ _ _ _ _ _ Es Hloop) as Hh.
      apply (f_equal (fun l => l !! 0%nat)) in Hh. rewrite lookup_drop, Nat.add_0_r in Hh.
      rewrite Hh. cbn [lookup list_lookup take]. rewrite sum_list_cons. cbn.
      f_equal. rewrite take_0. unfold sum_list. cbn. lia.
    + replace (i + S k)%nat with (S i + k)%nat by lia.
      rewrite Hk by (cbn in Hklt; lia).
      f_equal. change (take (S (S k)) (remove :: removes)) with (remove :: take (S k) removes).
      rewrite sum_list_cons. lia.
Qed.

End SecondLoop.

(** *** The sort of [initSymbolAnchors] *)

Section SortedAnchors.

Lemma anchor_lt_false (a b : SymbolAnchor) : anchor_lt b a = false -> anchor_le a b.
Proof.
  unfold anchor_lt, anchor_le. rewrite orb_false_iff, andb_false_iff, andb_false_iff.
  rewrite Z.ltb_ge, Z.eqb_neq, negb_false_iff.
  intros [H1 H2]. destruct (a_end a), (a_end b); intuition (try discriminate; lia).
Qed.

Lemma anchor_lt_true (a b : SymbolAnchor) : anchor_lt b a = true -> anchor_le b a.
Proof.
  unfold anchor_lt, anchor_le. rewrite orb_true_iff, !andb_true_iff, Z.ltb_lt, Z.eqb_eq,
    negb_true_iff.
  intuition.
Qed.

Lemma anchor_le_trans (a b c : SymbolAnchor) : anchor_le a b -> anchor_le b c -> anchor_le a c.
Proof.
  unfold anchor_le. destruct (a_end a), (a_end b), (a_end c);
    intuition (try discriminate; try lia; auto).
  all: try (left; lia).
  all: right; split; [lia | auto].
Qed.

Lemma insertAnchor_Forall (P : SymbolAnchor -> Prop) (a : SymbolAnchor) (l : list SymbolAnchor) :
  P a -> Forall P l -> Forall P (insertAnchor a l).
Proof.
  intros Ha H. induction H as [|b l Hb Hl IH]; cbn [insertAnchor].
  - now repeat constructor.
  - destruct (anchor_lt b a); repeat constructor; assumption.
Qed.

Lemma insertAnchor_sorted (a : SymbolAnchor) (l : list SymbolAnchor) :
  StronglySorted anchor_le l -> StronglySorted anchor_le (insertAnchor a l).
Proof.
  induction 1 as [|b l Hs IH Hall]; cbn [insertAnchor].
  - repeat constructor.
  - destruct (anchor_lt b a) eqn:E.
    + constructor; [exact IH|].
      apply insertAnchor_Forall; [now apply anchor_lt_true | exact Hall].
    + apply anchor_lt_false in E.
      constructor; [now constructor|]. constructor; [exact E|].
      eapply Forall_impl; [exact Hall|]. intros c Hc. eapply anchor_le_trans; eassumption.
Qed.

(** The anchors are sorted by (offset, end) after the sort, so by offset,
    and a start anchor is never behind an end anchor of the same offset. *)
Lemma sortAnchors_sorted (l : list SymbolAnchor) : StronglySorted anchor_le (sortAnchors l).
Proof.
  unfold sortAnchors. induction l as [|a l IH]; cbn [foldr]; [constructor|].
  now apply insertAnchor_sorted.
Qed.

Lemma sortAnchors_anchors_sorted (l : list SymbolAnchor) : anchors_sorted (sortAnchors l).
Proof.
  unfold anchors_sorted.
  pose proof (sortAnchors_sorted l) as H.
  induction H as [|a sa _ IH Hall]; constructor; [exact IH|].
  eapply Forall_impl; [exact Hall|]. unfold anchor_le. intros b Hb. lia.
Qed.

Lemma insertAnchor_Permutation (a : SymbolAnchor) (l : list SymbolAnchor) :
  Permutation (a :: l) (insertAnchor a l).
Proof.
  induction l as [|b l IH]; cbn [insertAnchor]; [reflexivity|].
  destruct (anchor_lt b a); [|reflexivity].
  rewrite perm_swap. now constructor.
Qed.

Lemma sortAnchors_Permutation (l : list SymbolAnchor) : Permutation l (sortAnchors l).
Proof.
  unfold sortAnchors. induction l as [|a l IH]; cbn [foldr]; [constructor|].
  rewrite <- insertAnchor_Permutation. now constructor.
Qed.

End SortedAnchors.

(** *** The anchors [initSymbolAnchors] leaves are sorted *)

Section InitSorted.

Lemma sort_pass_sorted (l : list SecId) (secs : gmap SecId InputSection) (sid : SecId) :
  sid ∈ l \/ sorted_at secs sid ->
  sorted_at (foldl (fun secs sid => alter (onAnchors sortAnchors) sid secs) secs l) sid.
Proof.
  revert secs. induction l as [|s l IH]; intros secs H; cbn [foldl].
  - destruct H as [H|H]; [now apply elem_of_nil in H | exact H].
  - apply IH. destruct (decide (s = sid)) as [->|Hne].
    + right. intros sec aux. rewrite lookup_alter_eq.
      destruct (secs !! sid) as [sec0|]; cbn; [|discriminate].
      intros [= <-]. unfold onAnchors. destruct (relaxAux sec0) as [aux0|] eqn:E; cbn.
      * intros [= <-]. cbn. apply sortAnchors_anchors_sorted.
      * rewrite E. discriminate.
    + destruct H as [H|H].
      * left. apply elem_of_cons in H as [->|H]; [congruence | exact H].
      * right. intros sec aux. rewrite lookup_alter_ne by exact Hne. apply H.
Qed.

(** Every executable section comes out of [initSymbolAnchors] with its
    anchors in the order of their offsets. *)
Lemma initSymbolAnchors_sorted (st : LinkState) (sid : SecId) (sec : InputSection)
    (aux : RISCVRelaxAux) :
  sid ∈ exec_sections st ->
  sections (initSymbolAnchors st) !! sid = Some sec ->
  relaxAux sec = Some aux ->
  anchors_sorted (anchors aux).
Proof.
  intros Hin. unfold initSymbolAnchors. cbn [sections].
  apply sort_pass_sorted. now left.
Qed.

End InitSorted.

(** *** One symbol through the anchor loops *)

Section OneSymbol.

Lemma bind_Done {A B} (m : Outcome A) (k : A -> Outcome B) (b : B) :
  m ≫= k = Done b -> exists a, m = Done a /\ k a = Done b.
Proof. destruct m as [a|f]; cbn; [eauto | discriminate]. Qed.

Lemma recordDeltas_other (delta : Z -> Z) (vd : gmap SymId Z) (sa : list SymbolAnchor)
    (d : SymId) :
  Forall (fun a => a_d a <> d \/ a_end a = true) sa ->
  recordDeltas delta vd sa !! d = vd !! d.
Proof.
  intros H. unfold recordDeltas. revert vd.
  induction H as [|a sa Ha _ IH]; intros vd; [reflexivity|].
  cbn. rewrite IH. destruct (a_end a) eqn:E; [reflexivity|].
  destruct Ha as [Ha|Ha]; [|discriminate]. now apply lookup_insert_ne.
Qed.

Lemma recordDeltas_start (delta : Z -> Z) (vd : gmap SymId Z) (l1 l2 : list SymbolAnchor)
    (off : Z) (d : SymId) :
  Forall (fun a => a_d a <> d \/ a_end a = true) l2 ->
  recordDeltas delta vd (l1 ++ mkSymbolAnchor off d false :: l2) !! d = Some (delta off).
Proof.
  intros H. rewrite recordDeltas_app. cbn.
  change (foldl _ ?v l2) with (recordDeltas delta v l2).
  rewrite (recordDeltas_other _ _ _ _ H). apply lookup_insert_eq.
Qed.

Lemma adjustAnchor_other (delta : Z) (vd : gmap SymId Z) (a : SymbolAnchor)
    (syms syms' : SymTab) (d : SymId) :
  a_d a <> d -> adjustAnchor delta vd a syms = Done syms' -> syms' !! d = syms !! d.
Proof.
  intros Hne. unfold adjustAnchor. destruct (a_end a).
  - intros [= <-]. now apply lookup_alter_ne.
  - destruct (vd !! a_d a); cbn; [|discriminate].
    intros [= <-]. now apply lookup_alter_ne.
Qed.

Lemma adjustAll_other (delta : Z -> Z) (vd : gmap SymId Z) (sa : list SymbolAnchor)
    (syms syms' : SymTab) (d : SymId) :
  Forall (fun a => a_d a <> d) sa ->
  adjustAll delta vd sa syms = Done syms' -> syms' !! d = syms !! d.
Proof.
  intros H. revert syms. induction H as [|a sa Ha _ IH]; intros syms; cbn [adjustAll].
  - now intros [= <-].
  - intros Hb. apply bind_Done in Hb as (syms1 & H1 & H2).
    rewrite (IH _ H2). eapply adjustAnchor_other; eassumption.
Qed.

(** A symbol with one start and one end anchor, the start first: its new
    value and size after all anchors were adjusted. *)
Lemma adjustAll_symbol (delta : Z -> Z) (vd : gmap SymId Z)
    (l1 l2 l3 : list SymbolAnchor) (off_s off_e prev : Z) (d : SymId) (def : Defined)
    (syms syms' : SymTab) :
  Forall (fun a => a_d a <> d) (l1 ++ l2 ++ l3) ->
  vd !! d = Some prev ->
  syms !! d = Some def ->
  adjustAll delta vd
    (l1 ++ mkSymbolAnchor off_s d false :: l2 ++ mkSymbolAnchor off_e d true :: l3) syms
    = Done syms' ->
  let value' := u64 (d_value def - u64 (delta off_s - prev)) in
  syms' !! d =
    Some (mkDefined (d_file def) (d_section def) value'
            (u64 (off_e - delta off_e - value'))).
Proof.
  intros Hall Hvd Hd Hadj value'.
  apply Forall_app in Hall as [H1 Hall]. apply Forall_app in Hall as [H2 H3].
  rewrite adjustAll_app in Hadj. apply bind_Done in Hadj as (s1 & E1 & Hadj).
  cbn [adjustAll] in Hadj. apply bind_Done in Hadj as (s2 & E2 & Hadj).
  rewrite adjustAll_app in Hadj. apply bind_Done in Hadj as (s3 & E3 & Hadj).
  cbn [adjustAll] in Hadj. apply bind_Done in Hadj as (s4 & E4 & E5).
  pose proof (adjustAll_other _ _ _ _ _ d H1 E1) as L1.
  pose proof (adjustAll_other _ _ _ _ _ d H2 E3) as L3.
  pose proof (adjustAll_other _ _ _ _ _ d H3 E5) as L5.
  unfold adjustAnchor in E2, E4. cbn in E2, E4. rewrite Hvd in E2. cbn in E2.
  injection E2 as <-. injection E4 as <-.
  rewrite L5, lookup_alter_eq, L3, lookup_alter_eq, L1, Hd. reflexivity.
Qed.

Lemma u64_sub_sub (a b c : Z) : u64 (u64 (a - b) - u64 (c - b)) = u64 (a - c).
Proof.
  unfold u64, trunc. rewrite Zminus_mod_idemp_l, Zminus_mod_idemp_r. f_equal. lia.
Qed.

Lemma u64_size (ov os de ds : Z) :
  u64 (u64 (ov + os) - de - u64 (ov - ds)) = u64 (os - (de - ds)).
Proof.
  unfold u64, trunc.
  rewrite Zminus_mod_idemp_r.
  replace (((ov + os) mod 2 ^ 64 - de - (ov - ds))) with ((ov + os) mod 2 ^ 64 - (de + (ov - ds))) by lia.
  rewrite Zminus_mod_idemp_l. f_equal. lia.
Qed.

Lemma deltaAt_zeros (offs : list Z) (n : nat) (off : Z) :
  deltaAt offs (replicate n 0) 0 off = 0.
Proof.
  revert n. induction offs as [|o offs IH]; intros [|n]; cbn; try reflexivity.
  destruct (off <=? o); [reflexivity | apply IH].
Qed.

End OneSymbol.

(** *** The pass as a whole *)

Section Pass.

Variable config : Config.
Variable isPCCRelative : option nat -> SymId -> bool.
Variable getVA : SymTab -> SymId -> Z.
Variable getPltVA : SymId -> Z.
Variable getBiasedCGPOffset : SymTab -> SymId -> Z.
Variable getBiasedCGPOffsetLo12 : SymTab -> SymId -> Z.

#[local] Abbreviation relaxLoop_ :=
  (relaxLoop config isPCCRelative getVA getPltVA getBiasedCGPOffset getBiasedCGPOffsetLo12).
#[local] Abbreviation loopRemoves_ :=
  (loopRemoves config isPCCRelative getVA getPltVA getBiasedCGPOffset getBiasedCGPOffsetLo12).
#[local] Abbreviation relaxPass_ :=
  (relaxPass config isPCCRelative getVA getPltVA getBiasedCGPOffset getBiasedCGPOffsetLo12).
#[local] Abbreviation passRemoves_ :=
  (passRemoves config isPCCRelative getVA getPltVA getBiasedCGPOffset getBiasedCGPOffsetLo12).
#[local] Abbreviation relax_ :=
  (relax config isPCCRelative getVA getPltVA getBiasedCGPOffset getBiasedCGPOffsetLo12).

(** The pre-pass rewrites targets, never offsets or kinds. *)
Lemma rewriteLowReloc_offset (syms : SymTab) (relocsOf : SecId -> option (list Relocation))
    (r r' : Relocation) (m : bool) :
  rewriteLowReloc isPCCRelative syms relocsOf r = Done (r', m) ->
  r_offset r' = r_offset r.
Proof.
  unfold rewriteLowReloc.
  destruct (r_type r); try (now intros [= <- <-]).
  destruct (isPCCRelative None (r_sym r)); [|now intros [= <- <-]].
  destruct (syms !! r_sym r) as [d|]; [|discriminate].
  destruct (d_section d) as [sid|]; [|discriminate].
  destruct (relocsOf sid) as [rels|]; cbn; [|discriminate].
  destruct (find _ rels) as [t|]; [|discriminate].
  destruct (isPCCRelative None (r_sym t)); now intros [= <- <-].
Qed.

Lemma rewriteCheriotLowRelocs_offsets (syms : SymTab)
    (relocsOf : SecId -> option (list Relocation)) (sec sec1 : InputSection) (m : bool) :
  rewriteCheriotLowRelocs isPCCRelative syms relocsOf sec = Done (sec1, m) ->
  map r_offset (relocations sec1) = map r_offset (relocations sec) /\
  relaxAux sec1 = relaxAux sec /\ sec_flags sec1 = sec_flags sec /\
  rawData sec1 = rawData sec.
Proof.
  unfold rewriteCheriotLowRelocs.
  assert (H : forall rels rels' m',
            rewriteCheriotLowRelocs_loop isPCCRelative syms relocsOf rels = Done (rels', m') ->
            map r_offset rels' = map r_offset rels).
  { induction rels as [|r rels IH]; intros rels' m'; cbn [rewriteCheriotLowRelocs_loop].
    - now intros [= <- <-].
    - intros Hb. apply bind_Done in Hb as ([r1 m1] & E1 & Hb).
      apply bind_Done in Hb as ([rest m2] & E2 & Hb). injection Hb as <- <-.
      cbn. now rewrite (IH _ _ E2), (rewriteLowReloc_offset _ _ _ _ _ E1). }
  intros Hb. apply bind_Done in Hb as ([rels m1] & E & Hb). injection Hb as <- <-.
  cbn. repeat split. eapply H; eassumption.
Qed.

(** [relaxPass], taken apart. *)
Lemma relaxPass_inv (secAddr : Z) (relocsOf : SecId -> option (list Relocation))
    (sec sec1 : InputSection) (syms : SymTab) (pass : Z) (sF : RelaxState) :
  relaxPass_ secAddr relocsOf sec syms pass = Done (sec1, sF) ->
  exists aux changed sa1 delta1 vd1 s,
    relaxAux sec = Some aux /\
    map r_offset (relocations sec1) = map r_offset (relocations sec) /\
    sec_flags sec1 = sec_flags sec /\ rawData sec1 = rawData sec /\
    valueDeltaLoop (relocations sec1) 0 (relocDeltas aux) (anchors aux) 0 ∅
      = Done (sa1, delta1, vd1) /\
    relaxLoop_ secAddr sec1 (restValueDelta delta1 sa1 vd1) (relocations sec1) 0
      (mkRelaxState
         (mkRISCVRelaxAux (anchors aux) (relocDeltas aux)
            (replicate (length (relocations sec1)) R_RISCV_NONE) [])
         syms (anchors aux) 0 changed) = Done s /\
    restAnchors (rs_delta s) (restValueDelta delta1 sa1 vd1) (rs_sa s) (rs_syms s)
      = Done (rs_syms sF) /\
    rs_aux sF = rs_aux s /\ rs_delta sF = rs_delta s /\ rs_changed sF = rs_changed s /\
    passRemoves_ secAddr relocsOf sec syms pass =
      loopRemoves_ secAddr sec1 (restValueDelta delta1 sa1 vd1) (relocations sec1) 0
        (mkRelaxState
           (mkRISCVRelaxAux (anchors aux) (relocDeltas aux)
              (replicate (length (relocations sec1)) R_RISCV_NONE) [])
           syms (anchors aux) 0 changed).
Proof.
  unfold relaxPass, passRemoves.
  destruct (relaxAux sec) as [aux|] eqn:Eaux; cbn [of_option mbind outcome_bind obind];
    [|discriminate].
  intros Hb. apply bind_Done in Hb as ([sec0 changed] & Epre & Hb).
  assert (Hsec0 : map r_offset (relocations sec0) = map r_offset (relocations sec) /\
                  sec_flags sec0 = sec_flags sec /\ rawData sec0 = rawData sec).
  { destruct (pass =? 0).
    - apply rewriteCheriotLowRelocs_offsets in Epre. tauto.
    - injection Epre as <- _. auto. }
  rewrite Epre. cbn [mbind outcome_bind obind].
  apply bind_Done in Hb as ([[sa1 delta1] vd1] & Evd & Hb).
  rewrite Evd. cbn [mbind outcome_bind obind].
  apply bind_Done in Hb as (s & Eloop & Hb).
  apply bind_Done in Hb as (symsF & Erest & Hb).
  injection Hb as <- <-. cbn.
  exists aux, changed, sa1, delta1, vd1, s.
  destruct Hsec0 as (? & ? & ?). repeat split; assumption.
Qed.

Lemma relax_inv (secAddr : Z) (relocsOf : SecId -> option (list Relocation))
    (sec sec' : InputSection) (syms syms' : SymTab) (pass : Z) (changed : bool) :
  relax_ secAddr relocsOf sec syms pass = Done (changed, sec', syms') ->
  exists sec1 sF,
    relaxPass_ secAddr relocsOf sec syms pass = Done (sec1, sF) /\
    relocations sec' = relocations sec1 /\
    relaxAux sec' = Some (rs_aux sF) /\
    bytesDropped sec' = rs_delta sF /\
    syms' = rs_syms sF /\ changed = rs_changed sF /\
    rs_delta sF < 2 ^ 16.
Proof.
  unfold relax. intros Hb. apply bind_Done in Hb as ([sec1 sF] & Ep & Hb).
  unfold isUInt in Hb. destruct (Z.ltb_spec (rs_delta sF) (2 ^ 16)); cbn in Hb; [|discriminate].
  injection Hb as <- <- <-. exists sec1, sF. cbn. repeat split; assumption.
Qed.

End Pass.

(** *** A symbol across a pass *)

(** A symbol that stands in the relation [value = old_value - delta at its
    start anchor] to the deltas of the section before a pass stands in it to
    the new deltas after the pass, and its size follows. *)
Lemma relax_keeps_symbol_relation
    (config : Config) (isPCCRelative : option nat -> SymId -> bool)
    (getVA : SymTab -> SymId -> Z) (getPltVA : SymId -> Z)
    (getBiasedCGPOffset getBiasedCGPOffsetLo12 : SymTab -> SymId -> Z)
    (secAddr : Z) (relocsOf : SecId -> option (list Relocation))
    (sec sec' : InputSection) (syms syms' : SymTab) (pass : Z) (changed : bool)
    (aux : RISCVRelaxAux) (d : SymId) (def : Defined) (old_value old_size : Z)
    (l1 l2 l3 : list SymbolAnchor) :
  relax config isPCCRelative getVA getPltVA getBiasedCGPOffset getBiasedCGPOffsetLo12
    secAddr relocsOf sec syms pass = Done (changed, sec', syms') ->
  relaxAux sec = Some aux ->
  anchors_sorted (anchors aux) ->
  anchors aux =
    l1 ++ mkSymbolAnchor old_value d false ::
    l2 ++ mkSymbolAnchor (u64 (old_value + old_size)) d true :: l3 ->
  Forall (fun a => a_d a <> d) (l1 ++ l2 ++ l3) ->
  syms !! d = Some def ->
  d_value def =
    u64 (old_value - deltaAt (map r_offset (relocations sec)) (relocDeltas aux) 0 old_value) ->
  exists aux' def',
    relaxAux sec' = Some aux' /\
    syms' !! d = Some def' /\
    let Δ := deltaAt (map r_offset (relocations sec')) (relocDeltas aux') 0 in
    let Δstart := Δ old_value in
    let Δend := Δ (u64 (old_value + old_size)) in
    d_value def' = u64 (old_value - Δstart) /\
    d_size def' = u64 (old_size - (Δend - Δstart)) /\
    anchors aux' = anchors aux /\
    map r_offset (relocations sec') = map r_offset (relocations sec).
Proof.
  intros Hrelax Haux Hsorted Hanch Hother Hd Hval.
  destruct (relax_inv _ _ _ _ _ _ _ _ _ _ _ _ _ _ Hrelax)
    as (sec1 & sF & Hpass & Hrels & Haux' & _ & -> & _ & _).
  destruct (relaxPass_inv _ _ _ _ _ _ _ _ _ _ _ _ _ Hpass)
    as (aux0 & ch & sa1 & delta1 & vd1 & s & Haux0 & Hoffs & _ & _ & Hvd & Hloop & Hrest
        & Hauxs & _).
  rewrite Haux in Haux0. injection Haux0 as <-.
  exists (rs_aux sF), (mkDefined (d_file def) (d_section def)
            (u64 (d_value def -
                  u64 (deltaAt (map r_offset (relocations sec1))
                         (relocDeltas (rs_aux s)) 0 old_value -
                       deltaAt (map r_offset (relocations sec1))
                         (relocDeltas aux) 0 old_value)))
            (u64 (u64 (old_value + old_size) -
                  deltaAt (map r_offset (relocations sec1))
                    (relocDeltas (rs_aux s)) 0 (u64 (old_value + old_size)) -
                  u64 (d_value def -
                       u64 (deltaAt (map r_offset (relocations sec1))
                              (relocDeltas (rs_aux s)) 0 old_value -
                            deltaAt (map r_offset (relocations sec1))
                              (relocDeltas aux) 0 old_value))))).
  pose proof (valueDeltaLoop_spec _ _ _ _ _ _ _ _ _ Hvd Hsorted) as Hrec.
  rewrite drop_0 in Hrec.
  pose proof (relaxLoop_anchors _ _ _ _ _ _ _ _ _ _ _ _ _ _ Hloop Hsorted Hrest) as Hadj.
  cbn [rs_sa rs_syms rs_delta] in Hadj. rewrite drop_0 in Hadj.
  destruct (relaxLoop_frame _ _ _ _ _ _ _ _ _ _ _ _ _ Hloop) as (_ & _ & Hanchors).
  cbn [rs_aux anchors] in Hanchors.
  assert (Hprev : restValueDelta delta1 sa1 vd1 !! d =
                  Some (deltaAt (map r_offset (relocations sec1)) (relocDeltas aux) 0 old_value)).
  { rewrite Hrec, Hanch. apply recordDeltas_start.
    apply Forall_app in Hother as [_ Hother]. apply Forall_app in Hother as [H2 H3].
    apply Forall_app. split; [|constructor; [now right|]];
      (eapply Forall_impl; [eassumption|]; intros; now left). }
  rewrite Hanch in Hadj.
  pose proof (adjustAll_symbol _ _ _ _ _ _ _ _ _ _ _ _ Hother Hprev Hd Hadj) as Hsym.
  cbn zeta in Hsym.
  split; [exact Haux'|]. split; [exact Hsym|].
  rewrite Hrels, Hauxs. cbn [d_value d_size].
  split; [|split; [|split]].
  - rewrite Hval, <- Hoffs. apply u64_sub_sub.
  - rewrite Hval, <- Hoffs, u64_sub_sub. apply u64_size.
  - exact Hanchors.
  - exact Hoffs.
Qed.

(** After [initSymbolAnchors] all deltas are 0 and the anchors hold the
    symbol's own value and size: the first pass takes the symbol from these
    to [value - Δstart] and [size - (Δend - Δstart)]. *)
Lemma symbol_after_first_pass
    (config : Config) (isPCCRelative : option nat -> SymId -> bool)
    (getVA : SymTab -> SymId -> Z) (getPltVA : SymId -> Z)
    (getBiasedCGPOffset getBiasedCGPOffsetLo12 : SymTab -> SymId -> Z)
    (secAddr : Z) (relocsOf : SecId -> option (list Relocation))
    (sec sec' : InputSection) (syms syms' : SymTab) (pass : Z) (changed : bool)
    (aux : RISCVRelaxAux) (d : SymId) (def : Defined) (n : nat)
    (l1 l2 l3 : list SymbolAnchor) :
  relax config isPCCRelative getVA getPltVA getBiasedCGPOffset getBiasedCGPOffsetLo12
    secAddr relocsOf sec syms pass = Done (changed, sec', syms') ->
  relaxAux sec = Some aux ->
  relocDeltas aux = replicate n 0 ->
  anchors_sorted (anchors aux) ->
  anchors aux =
    l1 ++ mkSymbolAnchor (d_value def) d false ::
    l2 ++ mkSymbolAnchor (u64 (d_value def + d_size def)) d true :: l3 ->
  Forall (fun a => a_d a <> d) (l1 ++ l2 ++ l3) ->
  syms !! d = Some def ->
  0 <= d_value def < 2 ^ 64 ->
  exists aux' def',
    relaxAux sec' = Some aux' /\
    syms' !! d = Some def' /\
    let Δ := deltaAt (map r_offset (relocations sec')) (relocDeltas aux') 0 in
    d_value def' = u64 (d_value def - Δ (d_value def)) /\
    d_size def' =
      u64 (d_size def - (Δ (u64 (d_value def + d_size def)) - Δ (d_value def))).
Proof.
  intros Hrelax Haux Hzero Hsorted Hanch Hother Hd Hrange.
  destruct (relax_keeps_symbol_relation config isPCCRelative getVA getPltVA
              getBiasedCGPOffset getBiasedCGPOffsetLo12 secAddr relocsOf sec sec' syms syms'
              pass changed aux d def (d_value def) (d_size def) l1 l2 l3
              Hrelax Haux Hsorted Hanch Hother Hd)
    as (aux' & def' & H1 & H2 & H3 & H4 & _).
  - rewrite Hzero, deltaAt_zeros, Z.sub_0_r. unfold u64, trunc.
    symmetry. now apply Z.mod_small.
  - exists aux', def'. repeat split; assumption.
Qed.

(** C1. For every defined text symbol of a section undergoing relaxation,
    with the value and size it had when its anchors were recorded
    ([old_value], [old_size]): after a relaxation pass its value is
    [old_value - Δstart] and its size is [old_size - (Δend - Δstart)], in
    64-bit arithmetic, where [Δstart] and [Δend] are the cumulative deltas
    the pass leaves at its start and end anchors.  The symbol has its two
    anchors, the start one first, in the sorted anchor list, and enters the
    pass as the previous pass (or [initSymbolAnchors], whose deltas are all
    0) left it; it leaves the pass in the same relation to the new deltas. *)
Theorem symbol_value_and_size_after_pass
    (config : Config) (isPCCRelative : option nat -> SymId -> bool)
    (getVA : SymTab -> SymId -> Z) (getPltVA : SymId -> Z)
    (getBiasedCGPOffset getBiasedCGPOffsetLo12 : SymTab -> SymId -> Z)
    (secAddr : Z) (relocsOf : SecId -> option (list Relocation))
    (sec sec' : InputSection) (syms syms' : SymTab) (pass : Z) (changed : bool)
    (aux : RISCVRelaxAux) (d : SymId) (def : Defined) (old_value old_size : Z)
    (l1 l2 l3 : list SymbolAnchor) :
  relax config isPCCRelative getVA getPltVA getBiasedCGPOffset getBiasedCGPOffsetLo12
    secAddr relocsOf sec syms pass = Done (changed, sec', syms') ->
  relaxAux sec = Some aux ->
  anchors_sorted (anchors aux) ->
  anchors aux =
    l1 ++ mkSymbolAnchor old_value d false ::
    l2 ++ mkSymbolAnchor (u64 (old_value + old_size)) d true :: l3 ->
  Forall (fun a => a_d a <> d) (l1 ++ l2 ++ l3) ->
  syms !! d = Some def ->
  d_value def =
    u64 (old_value - deltaAt (map r_offset (relocations sec)) (relocDeltas aux) 0 old_value) ->
  exists aux' def',
    relaxAux sec' = Some aux' /\
    syms' !! d = Some def' /\
    let Δ := deltaAt (map r_offset (relocations sec')) (relocDeltas aux') 0 in
    let Δstart := Δ old_value in
    let Δend := Δ (u64 (old_value + old_size)) in
    d_value def' = u64 (old_value - Δstart) /\
    d_size def' = u64 (old_size - (Δend - Δstart)) /\
    anchors aux' = anchors aux /\
    map r_offset (relocations sec') = map r_offset (relocations sec).
Proof.
  exact (relax_keeps_symbol_relation config isPCCRelative getVA getPltVA
           getBiasedCGPOffset getBiasedCGPOffsetLo12 secAddr relocsOf sec sec' syms syms'
           pass changed aux d def old_value old_size l1 l2 l3).
Qed.

Lemma symbol_value_and_size_witness :
  exists def',
    example_relax_result.2 !! sym_callee = Some def' /\
    d_value def' = 8 - 6 /\ d_size def' = 4 - (6 - 6).
Proof.
  destruct (symbol_value_and_size_after_pass rvc_config never_pcc example_getVA
              example_getPltVA no_cgp no_cgp 0 (example_relocsOf example_link0)
              example_section0 example_relax_result.1.2 example_symtab
              example_relax_result.2 0 example_relax_result.1.1
              example_aux0 sym_callee (mkDefined 0%nat (Some 0%nat) 8 4) 8 4
              [mkSymbolAnchor 0 sym_caller false] [mkSymbolAnchor 8 sym_caller true] [])
    as (aux' & def' & H1 & H2 & H3 & H4 & _).
  - vm_compute. reflexivity.
  - vm_compute. reflexivity.
  - vm_compute. repeat constructor; discriminate.
  - vm_compute. reflexivity.
  - repeat constructor; discriminate.
  - vm_compute. reflexivity.
  - vm_compute. reflexivity.
  - vm_compute in H1. injection H1 as <-.
    exists def'. split; [exact H2|]. split.
    + rewrite H3. vm_compute. reflexivity.
    + rewrite H4. vm_compute. reflexivity.
Defined.

Lemma sum_take_mono (l : list Z) (i j : nat) :
  Forall (fun x => 0 <= x < 2 ^ 31) l -> (i <= j)%nat ->
  sum_list (take i l) <= sum_list (take j l).
Proof.
  intros H. revert i j. induction H as [|x l Hx Hl IH]; intros i j Hij.
  - rewrite !take_nil. lia.
  - destruct i as [|i], j as [|j]; cbn [take]; rewrite ?sum_list_cons; try lia.
    + change (sum_list []) with 0.
      pose proof (sum_list_nonneg (take j l) (Forall_take _ _ _ Hl)). lia.
    + specialize (IH i j). lia.
Qed.

Lemma sum_take_all (l : list Z) (n : nat) :
  (length l <= n)%nat -> sum_list (take n l) = sum_list l.
Proof. intros H. now rewrite take_ge. Qed.

(** C2, as stated, fails: the counter of removed bytes has 32 bits.  In a
    section where three alignments lose 2^31 - 2, 2^31 - 2 and 4 bytes of
    padding, [relocDeltas] ends as [2147483646; 4294967292; 0], which
    decreases; its final value and [bytesDropped] are 0 while 2^32 bytes
    were removed; and the pass returns, with no fatal error, although the
    section shrinks by more than 65535 bytes. *)
Lemma relocDeltas_wrap_around :
  wrap_passRemoves = Done [2147483646; 2147483646; 4] /\
  sum_list [2147483646; 2147483646; 4] = 2 ^ 32 /\
  exists sec',
    wrap_relax = Done (true, sec', ∅) /\
    (relocDeltas <$> relaxAux sec') = Some [2147483646; 4294967292; 0] /\
    bytesDropped sec' = 0.
Proof.
  split; [vm_compute; reflexivity|]. split; [reflexivity|].
  eexists. split; [vm_compute; reflexivity|]. split; reflexivity.
Qed.

(** C2, amended. During a relaxation pass over a section in which no
    alignment needs bytes added (what the source asserts at every
    R_RISCV_ALIGN, so that the pass reaches the size check) and in which
    less than 2^32 bytes are removed in all, the array [relocDeltas] is
    non-decreasing, its final value is the total of the bytes removed at
    the relocations of the section and is what [bytesDropped] records, and
    a total above 65535 ends the link with a fatal error. *)
Theorem reloc_deltas_monotone_and_total
    (config : Config) (isPCCRelative : option nat -> SymId -> bool)
    (getVA : SymTab -> SymId -> Z) (getPltVA : SymId -> Z)
    (getBiasedCGPOffset getBiasedCGPOffsetLo12 : SymTab -> SymId -> Z)
    (secAddr : Z) (relocsOf : SecId -> option (list Relocation))
    (sec sec1 : InputSection) (syms : SymTab) (pass : Z) (s : RelaxState) :
  relaxPass config isPCCRelative getVA getPltVA getBiasedCGPOffset getBiasedCGPOffsetLo12
    secAddr relocsOf sec syms pass = Done (sec1, s) ->
  exists removes,
    passRemoves config isPCCRelative getVA getPltVA getBiasedCGPOffset
      getBiasedCGPOffsetLo12 secAddr relocsOf sec syms pass = Done removes /\
    length removes = length (relocations sec1) /\
    Forall (fun x => 0 <= x < 2 ^ 31) removes /\
    (sum_list removes < 2 ^ 32 ->
     let deltas := relocDeltas (rs_aux s) in
     let n := length (relocations sec1) in
     let result := relax config isPCCRelative getVA getPltVA getBiasedCGPOffset
                     getBiasedCGPOffsetLo12 secAddr relocsOf sec syms pass in
     (forall i j di dj, (i <= j < n)%nat ->
        deltas !! i = Some di -> deltas !! j = Some dj -> di <= dj) /\
     (forall k, (k < n)%nat -> deltas !! k = Some (sum_list (take (S k) removes))) /\
     (forall k, n = S k -> deltas !! k = Some (sum_list removes)) /\
     rs_delta s = sum_list removes /\
     (sum_list removes <= 65535 ->
      exists sec', result = Done (rs_changed s, sec', rs_syms s) /\
                   bytesDropped sec' = sum_list removes /\
                   relaxAux sec' = Some (rs_aux s)) /\
     (65535 < sum_list removes ->
      result = Stop (FatalError "section size decrease is too large"))).
Proof.
  intros Hpass.
  destruct (relaxPass_inv _ _ _ _ _ _ _ _ _ _ _ _ _ Hpass)
    as (aux0 & ch & sa1 & delta1 & vd1 & s0 & Haux0 & Hoffs & _ & _ & Hvd & Hloop & Hrest
        & Hauxs & Hdelta & Hch & Hrem).
  destruct (relaxLoop_deltas _ _ _ _ _ _ _ _ _ _ _ _ _ Hloop)
    as (removes & Hrs & Hlen & Hall & Hsum).
  exists removes. rewrite Hrem.
  split; [exact Hrs|]. split; [exact Hlen|]. split; [exact Hall|].
  intros Hlt deltas n result. cbn [rs_delta] in Hsum.
  destruct Hsum as (Hfin & Hk); [lia | lia |].
  rewrite Z.add_0_l in Hfin.
  assert (Hk' : forall k, (k < n)%nat -> deltas !! k = Some (sum_list (take (S k) removes))).
  { intros k Hkn. subst deltas. rewrite Hauxs.
    specialize (Hk k Hkn). now rewrite Z.add_0_l in Hk. }
  assert (Hdel : rs_delta s = sum_list removes) by congruence.
  split; [|split; [|split; [|split; [|split]]]].
  - intros i j di dj Hij Hi Hj.
    rewrite (Hk' i) in Hi by lia. rewrite (Hk' j) in Hj by lia.
    injection Hi as <-. injection Hj as <-.
    apply sum_take_mono; [assumption | lia].
  - exact Hk'.
  - intros k Hn. rewrite (Hk' k) by lia. f_equal. apply sum_take_all. lia.
  - exact Hdel.
  - intros Hsmall. subst result. unfold relax. rewrite Hpass.
    cbn [mbind outcome_bind obind]. unfold isUInt.
    destruct (Z.ltb_spec (rs_delta s) (2 ^ 16)) as [_|Hge];
      [|change (2 ^ 16) with 65536 in Hge; lia].
    cbn [negb]. eexists. split; [reflexivity|]. cbn. split; [exact Hdel | reflexivity].
  - intros Hbig. subst result. unfold relax. rewrite Hpass.
    cbn [mbind outcome_bind obind]. unfold isUInt.
    destruct (Z.ltb_spec (rs_delta s) (2 ^ 16)) as [Hl|_];
      [change (2 ^ 16) with 65536 in Hl; lia|].
    reflexivity.
Qed.

Lemma reloc_deltas_monotone_and_total_witness :
  example_passRemoves = Done [6; 0] /\
  relocDeltas (rs_aux example_pass_result.2) = [6; 6] /\
  rs_delta example_pass_result.2 = 6 + 0 /\
  bytesDropped example_relax_result.1.2 = 6.
Proof.
  destruct (reloc_deltas_monotone_and_total rvc_config never_pcc example_getVA
              example_getPltVA no_cgp no_cgp 0 (example_relocsOf example_link0)
              example_section0 example_pass_result.1 example_symtab 0
              example_pass_result.2)
    as (removes & H1 & H2 & H3 & H4).
  - vm_compute. reflexivity.
  - assert (Hr : removes = [6; 0]).
    { change (example_passRemoves = Done removes) in H1. vm_compute in H1.
      now injection H1 as <-. }
    subst removes.
    destruct H4 as (_ & _ & _ & H5 & _); [vm_compute; reflexivity|].
    split; [reflexivity|]. split; [reflexivity|]. split; [exact H5 | reflexivity].
Defined.

(** A pass may stop at the source's assertion instead: in a section built
    without RVC, once the call before it became a 2-byte [c.j], the
    alignment would need bytes added. *)
Example align_after_compressed_call_asserts :
  relaxPass rvc_config never_pcc example_getVA example_getPltVA no_cgp no_cgp
    0 (fun _ => None) mixed_section example_symtab 1
  = Stop (AssertionFailed "R_RISCV_ALIGN needs expanding the content").
Proof. vm_compute. reflexivity. Qed.

(** ** What a relocation leaves alone *)

Section Frame.

Variable config : Config.
Variable isPCCRelative : option nat -> SymId -> bool.

Lemma same_outside_refl (loc n : nat) (buf : buffer) : same_outside loc n buf buf.
Proof. split; [reflexivity | now intros]. Qed.

Lemma same_outside_trans (loc n loc1 n1 loc2 n2 : nat) (b1 b2 b3 : buffer) :
  (loc <= loc1)%nat -> (loc1 + n1 <= loc + n)%nat ->
  (loc <= loc2)%nat -> (loc2 + n2 <= loc + n)%nat ->
  same_outside loc1 n1 b1 b2 -> same_outside loc2 n2 b2 b3 -> same_outside loc n b1 b3.
Proof.
  intros ? ? ? ? [L1 H1] [L2 H2]. split; [congruence|].
  intros i Hi. rewrite H2, H1 by lia. reflexivity.
Qed.

Lemma store_same_outside (n : nat) (buf buf' : buffer) (loc : nat) (v : Z) :
  store n buf loc v = Done buf' -> same_outside loc n buf buf'.
Proof.
  unfold store. destruct (Nat.leb_spec (loc + n) (length buf)) as [Hle|]; [|discriminate].
  intros [= <-]. split; [apply length_writele|].
  intros i Hi. unfold writele, buffer in *.
  destruct (Nat.leb_spec (loc + n) (length buf)) as [_|]; [|lia].
  destruct Hi as [Hi|Hi].
  - rewrite lookup_app_l by (rewrite length_take; lia).
    now rewrite lookup_take_lt by lia.
  - rewrite lookup_app_r by (rewrite length_take; lia).
    rewrite length_take, Nat.min_l by lia.
    rewrite lookup_app_r by (rewrite length_le_split; lia).
    rewrite length_le_split, lookup_drop. f_equal. lia.
Qed.

Ltac frame_step :=
  match goal with
  | H : (_ ≫= _) = Done _ |- _ => apply bind_Done in H as (? & ? & H)
  | H : (let '(_, _) := ?x in _) = Done _ |- _ => destruct x
  | H : store _ _ _ _ = Done _ |- _ => apply store_same_outside in H
  | H : (if ?c then _ else _) = Done _ |- _ => destruct c
  | H : Stop _ = Done _ |- _ => discriminate H
  | H : mret _ = Done _ |- _ => injection H as <- <-
  | H : Done _ = Done _ |- _ => injection H as <- <-
  end.

Lemma relocate_hi20_same_outside (bits : Z) (buf buf' : buffer) (loc : nat) (val : Z)
    (d : list Diag) :
  relocate_hi20 bits buf loc val = Done (buf', d) -> same_outside loc 4 buf buf'.
Proof. unfold relocate_hi20. intros H. repeat frame_step. assumption. Qed.

Lemma relocate_lo12_i_same_outside (buf buf' : buffer) (loc : nat) (val : Z)
    (d : list Diag) :
  relocate_lo12_i buf loc val = Done (buf', d) -> same_outside loc 4 buf buf'.
Proof. unfold relocate_lo12_i. intros H. repeat frame_step. assumption. Qed.

(** X1. A relocation that is applied changes nothing but the bytes of its own
    instruction or data word: the buffer keeps its length, and every byte
    outside the [patched_width] bytes at the relocated location (8 for a
    call pair or a 64-bit word, 4, 2, 1, or none for RELAX) is as before. *)
Theorem relocate_writes_only_patched_bytes (buf buf' : buffer) (loc : nat)
    (rel : Relocation) (val : Z) (d : list Diag) :
  relocate config isPCCRelative buf loc rel val = Done (buf', d) ->
  length buf' = length buf /\
  forall i : nat, (i < loc \/ loc + patched_width (r_type rel) <= i)%nat ->
                  buf' !! i = buf !! i.
Proof.
  intros H. change (same_outside loc (patched_width (r_type rel)) buf buf').
  revert H.
  unfold relocate. intros H.
  destruct (r_type rel); cbn [patched_width].
  all: lazymatch type of H with
       | Stop _ = Done _ => discriminate H
       | relocate_hi20 _ _ _ _ = _ => apply relocate_hi20_same_outside in H; exact H
       | relocate_lo12_i _ _ _ = _ => apply relocate_lo12_i_same_outside in H; exact H
       | _ => idtac
       end.
  all: try (repeat frame_step; try assumption; try apply same_outside_refl).
  all: try (match goal with
       | H1 : relocate_hi20 _ _ _ _ = _, H2 : relocate_lo12_i _ _ _ = _ |- _ =>
           apply relocate_hi20_same_outside in H1;
           apply relocate_lo12_i_same_outside in H2;
           eapply (same_outside_trans loc 8 loc 4 (loc + 4) 4); [lia..|exact H1|exact H2]
       end).
Qed.

End Frame.

Lemma relocate_writes_only_patched_bytes_witness :
  length (write32le example_jal_buffer 0 0x0080006f) = length example_jal_buffer /\
  forall i : nat, (i < 0 \/ 0 + patched_width R_RISCV_JAL <= i)%nat ->
                  write32le example_jal_buffer 0 0x0080006f !! i = example_jal_buffer !! i.
Proof.
  apply (relocate_writes_only_patched_bytes rv32_config never_pcc example_jal_buffer
           (write32le example_jal_buffer 0 0x0080006f) 0
           (example_reloc R_RISCV_JAL) 8 []).
  vm_compute. reflexivity.
Defined.

(** ** Branch and jump offsets, decoded *)

(** ** Bit fields as quotients and remainders *)

Section BitFields.

Lemma land_low_mask (v k : Z) : 0 <= k -> Z.land v (2 ^ k - 1) = v mod 2 ^ k.
Proof.
  intros Hk. replace (2 ^ k - 1) with (Z.ones k) by (rewrite Z.ones_equiv; lia).
  now apply Z.land_ones.
Qed.

Lemma extractBits_div (v b e : Z) :
  0 <= e <= b -> b - e < 32 ->
  extractBits v b e = (v mod 2 ^ (b + 1)) / 2 ^ e.
Proof.
  intros He Hb. unfold extractBits, u32, trunc.
  rewrite land_low_mask, Z.shiftr_div_pow2 by lia.
  apply Z.mod_small.
  assert (0 < 2 ^ e) by (apply Z.pow_pos_nonneg; lia).
  assert (0 <= v mod 2 ^ (b + 1) < 2 ^ (b + 1)) by (apply Z.mod_pos_bound, Z.pow_pos_nonneg; lia).
  split; [apply Z.div_pos; lia|].
  apply Z.div_lt_upper_bound; [lia|].
  rewrite <- Z.pow_add_r by lia.
  apply Z.lt_le_trans with (2 ^ (b + 1)); [lia|].
  apply Z.pow_le_mono_r; lia.
Qed.

(** Bits that do not overlap add up. *)
Lemma lor_high_low (hi lo k : Z) :
  0 <= k -> 0 <= lo < 2 ^ k -> hi mod 2 ^ k = 0 ->
  Z.lor hi lo = hi + lo.
Proof.
  intros Hk Hlo Hhi. symmetry. apply Z.add_nocarry_lor.
  apply Z.bits_inj'. intros n Hn. rewrite Z.land_spec, Z.bits_0.
  destruct (Z.lt_ge_cases n k) as [Hlt|Hge].
  - assert (Z.testbit hi n = false) as ->; [|reflexivity].
    assert (Z.testbit (hi mod 2 ^ k) n = Z.testbit hi n) as <-
      by (apply Z.mod_pow2_bits_low; lia).
    rewrite Hhi. apply Z.bits_0.
  - assert (Z.testbit lo n = false) as ->; [|apply andb_false_r].
    destruct (Z.eq_dec lo 0) as [->|Hne]; [apply Z.bits_0|].
    apply Z.bits_above_log2; [lia|].
    apply Z.lt_le_trans with k; [|lia].
    apply Z.log2_lt_pow2; lia.
Qed.

Lemma lor_low_high (lo hi k : Z) :
  0 <= k -> 0 <= lo < 2 ^ k -> hi mod 2 ^ k = 0 ->
  Z.lor lo hi = lo + hi.
Proof. intros. rewrite Z.lor_comm, Z.add_comm. now apply (lor_high_low hi lo k). Qed.

End BitFields.

(** Closed powers of two, evaluated, for linear arithmetic. *)
Ltac pow2_consts :=
  repeat match goal with
         | |- context [Z.pow 2 (Zpos ?k)] =>
             let v := eval vm_compute in (Z.pow 2 (Zpos k)) in
             change (Z.pow 2 (Zpos k)) with v in *
         | H : context [Z.pow 2 (Zpos ?k)] |- _ =>
             let v := eval vm_compute in (Z.pow 2 (Zpos k)) in
             change (Z.pow 2 (Zpos k)) with v in *
         end.
Ltac zify_fields := pow2_consts; Z.div_mod_to_equations; lia.

Section Decode.

Variable config : Config.
Variable isPCCRelative : option nat -> SymId -> bool.

Lemma insn_bits_div (w hi lo : Z) :
  0 <= lo <= hi -> insn_bits w hi lo = (w / 2 ^ lo) mod 2 ^ (hi - lo + 1).
Proof.
  intros H. unfold insn_bits. now rewrite land_low_mask, Z.shiftr_div_pow2 by lia.
Qed.

Lemma u32_small (x : Z) : 0 <= x < 2 ^ 32 -> u32 x = x.
Proof. intros H. unfold u32, trunc. now apply Z.mod_small. Qed.

Lemma jal_word (w val : Z) :
  0 <= w < 2 ^ 32 ->
  let f20 := (val mod 2 ^ 21) / 2 ^ 20 in
  let f10_1 := (val mod 2 ^ 11) / 2 ^ 1 in
  let f11 := (val mod 2 ^ 12) / 2 ^ 11 in
  let f19_12 := (val mod 2 ^ 20) / 2 ^ 12 in
  Z.lor (Z.land w 0xFFF)
    (Z.lor (Z.lor (Z.lor (u32 (Z.shiftl (extractBits val 20 20) 31))
                         (u32 (Z.shiftl (extractBits val 10 1) 21)))
                  (u32 (Z.shiftl (extractBits val 11 11) 20)))
           (u32 (Z.shiftl (extractBits val 19 12) 12)))
  = w mod 2 ^ 12 + f20 * 2 ^ 31 + f10_1 * 2 ^ 21 + f11 * 2 ^ 20 + f19_12 * 2 ^ 12.
Proof.
  intros Hw f20 f10_1 f11 f19_12.
  assert (extractBits val 20 20 = f20) as -> by (apply extractBits_div; lia).
  assert (extractBits val 10 1 = f10_1) as -> by (apply extractBits_div; lia).
  assert (extractBits val 11 11 = f11) as -> by (apply extractBits_div; lia).
  assert (extractBits val 19 12 = f19_12) as -> by (apply extractBits_div; lia).
  assert (0 <= f20 < 2) by (subst f20; zify_fields).
  assert (0 <= f10_1 < 2 ^ 10) by (subst f10_1; zify_fields).
  assert (0 <= f11 < 2) by (subst f11; zify_fields).
  assert (0 <= f19_12 < 2 ^ 8) by (subst f19_12; zify_fields).
  clearbody f20 f10_1 f11 f19_12.
  rewrite !Z.shiftl_mul_pow2 by lia.
  rewrite !u32_small by (pow2_consts; lia).
  change 0xFFF with (2 ^ 12 - 1). rewrite land_low_mask by lia.
  assert (0 <= w mod 2 ^ 12 < 2 ^ 12) by (apply Z.mod_pos_bound; lia).
  rewrite (lor_high_low (f20 * 2 ^ 31) _ 31) by zify_fields.
  rewrite (lor_high_low (f20 * 2 ^ 31 + _) _ 21) by zify_fields.
  rewrite (lor_high_low (f20 * 2 ^ 31 + _ + _) _ 20) by zify_fields.
  rewrite (lor_low_high _ _ 12) by zify_fields.
  lia.
Qed.

Lemma s64_cases (val : Z) :
  0 <= val < 2 ^ 64 ->
  (val < 2 ^ 63 /\ s64 val = val) \/ (2 ^ 63 <= val /\ s64 val = val - 2 ^ 64).
Proof.
  intros H. unfold s64, SignExtend64. rewrite Z.mod_small by lia.
  change (64 - 1) with 63.
  destruct (Z.ltb_spec val (2 ^ 63)); [left | right]; split; lia.
Qed.

Lemma checkInt_ok (loc : nat) (v n : Z) :
  - 2 ^ (n - 1) <= v < 2 ^ (n - 1) -> checkInt loc v n = [].
Proof. intros H. unfold checkInt. now rewrite (proj2 (isInt_spec n v) H). Qed.

Lemma checkAlignment_2_ok (loc : nat) (v : Z) : v mod 2 = 0 -> checkAlignment loc v 2 = [].
Proof.
  intros H. unfold checkAlignment. change (2 - 1) with (2 ^ 1 - 1).
  rewrite land_low_mask by lia. change (2 ^ 1) with 2. now rewrite H.
Qed.

Lemma readle_writele (n : nat) (buf : buffer) (loc : nat) (v : Z) :
  (loc + n <= length buf)%nat ->
  readle n (writele n buf loc v) loc = Some (le_combine (le_split n v)).
Proof.
  intros Hle. unfold readle. rewrite length_writele.
  destruct (Nat.leb_spec (loc + n) (length buf)) as [_|]; [|lia].
  unfold writele. destruct (Nat.leb_spec (loc + n) (length buf)) as [_|]; [|lia].
  f_equal. f_equal.
  rewrite drop_app_length' by (rewrite length_take; lia).
  rewrite take_app_length' by (now rewrite length_le_split). reflexivity.
Qed.

Lemma Z_of_byte_of_Z (z : Z) : Z_of_byte (byte_of_Z z) = z mod 256.
Proof.
  unfold Z_of_byte, byte_of_Z.
  assert (0 <= z mod 256 < 256) as Hr by (apply Z.mod_pos_bound; lia).
  destruct (Byte.of_N (Z.to_N (z mod 256))) as [b|] eqn:E.
  - cbn. apply Byte.to_of_N in E. rewrite E. lia.
  - apply Byte.of_N_None_iff in E. lia.
Qed.

Lemma le_combine_split (n : nat) (v : Z) :
  le_combine (le_split n v) = v mod 256 ^ Z.of_nat n.
Proof.
  revert v. induction n as [|n IH]; intros v.
  - cbn. now rewrite Z.mod_1_r.
  - cbn [le_split le_combine]. rewrite IH, Z_of_byte_of_Z.
    rewrite Nat2Z.inj_succ, Z.pow_succ_r by lia.
    assert (0 < 256 ^ Z.of_nat n) by (apply Z.pow_pos_nonneg; lia).
    rewrite Z.rem_mul_r by lia. reflexivity.
Qed.

Lemma read32le_write32le (buf : buffer) (loc : nat) (v : Z) :
  (loc + 4 <= length buf)%nat ->
  read32le (write32le buf loc v) loc = Some (u32 v).
Proof.
  intros H. unfold read32le, write32le. rewrite readle_writele by exact H.
  now rewrite le_combine_split.
Qed.

(** The fields [relocate] scatters into a [jal] word are those of the
    low 21 bits of the value. *)
Lemma jal_fields (val : Z) :
  val mod 2 = 0 ->
  (val mod 2 ^ 21) / 2 ^ 20 * 2 ^ 20 + (val mod 2 ^ 20) / 2 ^ 12 * 2 ^ 12 +
  (val mod 2 ^ 12) / 2 ^ 11 * 2 ^ 11 + (val mod 2 ^ 11) / 2 ^ 1 * 2 ^ 1 = val mod 2 ^ 21.
Proof. intros H. zify_fields. Qed.

Lemma J_imm_of_fields (w0 f20 f10_1 f11 f19_12 : Z) :
  0 <= w0 < 2 ^ 12 -> 0 <= f20 < 2 -> 0 <= f10_1 < 2 ^ 10 -> 0 <= f11 < 2 ->
  0 <= f19_12 < 2 ^ 8 ->
  J_imm (w0 + f20 * 2 ^ 31 + f10_1 * 2 ^ 21 + f11 * 2 ^ 20 + f19_12 * 2 ^ 12) =
  SignExtend64 21 (f20 * 2 ^ 20 + f19_12 * 2 ^ 12 + f11 * 2 ^ 11 + f10_1 * 2 ^ 1).
Proof.
  intros. unfold J_imm. rewrite !insn_bits_div, !Z.shiftl_mul_pow2 by lia.
  f_equal.
  set (w := w0 + f20 * 2 ^ 31 + f10_1 * 2 ^ 21 + f11 * 2 ^ 20 + f19_12 * 2 ^ 12).
  assert ((w / 2 ^ 31) mod 2 ^ (31 - 31 + 1) = f20) as -> by (subst w; zify_fields).
  assert ((w / 2 ^ 12) mod 2 ^ (19 - 12 + 1) = f19_12) as -> by (subst w; zify_fields).
  assert ((w / 2 ^ 20) mod 2 ^ (20 - 20 + 1) = f11) as -> by (subst w; zify_fields).
  assert ((w / 2 ^ 21) mod 2 ^ (30 - 21 + 1) = f10_1) as -> by (subst w; zify_fields).
  reflexivity.
Qed.

Lemma SignExtend64_mod (B v : Z) : 0 < B -> SignExtend64 B (v mod 2 ^ B) = SignExtend64 B v.
Proof. intros H. unfold SignExtend64. now rewrite Z.mod_mod by (apply Z.pow_nonzero; lia). Qed.

Lemma SignExtend64_s64 (B val : Z) :
  0 < B <= 64 -> 0 <= val < 2 ^ 64 -> - 2 ^ (B - 1) <= s64 val < 2 ^ (B - 1) ->
  SignExtend64 B val = s64 val.
Proof.
  intros HB Hv Hr.
  assert (2 ^ 64 = 2 ^ B * 2 ^ (64 - B)) as E
    by (rewrite <- Z.pow_add_r by lia; f_equal; lia).
  assert (2 ^ B = 2 * 2 ^ (B - 1)) as E2
    by (rewrite <- Z.pow_succ_r by lia; f_equal; lia).
  assert (0 < 2 ^ (B - 1)) by (apply Z.pow_pos_nonneg; lia).
  assert (0 < 2 ^ (64 - B)) by (apply Z.pow_pos_nonneg; lia).
  unfold SignExtend64.
  destruct (s64_cases val Hv) as [[Hlt Es]|[Hge Es]]; rewrite Es in *.
  - rewrite Z.mod_small by lia.
    destruct (Z.ltb_spec val (2 ^ (B - 1))); lia.
  - assert (val mod 2 ^ B = val - 2 ^ 64 + 2 ^ B) as ->.
    { symmetry. apply (Z.mod_unique _ _ (2 ^ (64 - B) - 1)); [left; lia|]. nia. }
    destruct (Z.ltb_spec (val - 2 ^ 64 + 2 ^ B) (2 ^ (B - 1))); lia.
Qed.

End Decode.

(** X2. A JAL or CJAL relocation whose value is even and within +-1 MiB
    reports nothing, keeps the low 12 bits (opcode and rd) of the word, and
    writes an immediate that decodes, by the J-type layout, to the value. *)
Theorem jal_offset_round_trip (config : Config) (isPCCRelative : option nat -> SymId -> bool)
    (buf : buffer) (loc : nat) (rel : Relocation) (w val : Z) :
  r_type rel = R_RISCV_JAL \/ r_type rel = R_RISCV_CHERI_CJAL ->
  read32le buf loc = Some w ->
  0 <= val < 2 ^ 64 ->
  - 2 ^ 20 <= s64 val < 2 ^ 20 ->
  val mod 2 = 0 ->
  exists w',
    relocate config isPCCRelative buf loc rel val = Done (write32le buf loc w', []) /\
    read32le (write32le buf loc w') loc = Some w' /\
    Z.land w' 0xFFF = Z.land w 0xFFF /\
    J_imm w' = s64 val.
Proof.
  intros Ht Hr Hv Hrange Heven.
  pose proof (read32le_range _ _ _ Hr) as Hw.
  pose proof (readle_Some_bound _ _ _ _ Hr) as Hlen.
  rewrite (relocate_jal config isPCCRelative _ _ _ _ _ Ht Hr).
  rewrite checkInt_ok, checkAlignment_2_ok; [|exact Heven|].
  2:{ rewrite Z.shiftr_div_pow2 by lia. clear - Hrange. zify_fields. }
  rewrite (jal_word w val Hw). cbn zeta.
  set (f20 := val mod 2 ^ 21 / 2 ^ 20). set (f10_1 := val mod 2 ^ 11 / 2 ^ 1).
  set (f11 := val mod 2 ^ 12 / 2 ^ 11). set (f19_12 := val mod 2 ^ 20 / 2 ^ 12).
  assert (0 <= w mod 2 ^ 12 < 2 ^ 12) by (apply Z.mod_pos_bound; lia).
  assert (0 <= f20 < 2) by (subst f20; zify_fields).
  assert (0 <= f10_1 < 2 ^ 10) by (subst f10_1; zify_fields).
  assert (0 <= f11 < 2) by (subst f11; zify_fields).
  assert (0 <= f19_12 < 2 ^ 8) by (subst f19_12; zify_fields).
  eexists. split; [reflexivity|]. split; [|split].
  - rewrite read32le_write32le by exact Hlen. f_equal. apply u32_small.
    clearbody f20 f10_1 f11 f19_12. pow2_consts. lia.
  - change 0xFFF with (2 ^ 12 - 1). rewrite !land_low_mask by lia.
    clearbody f20 f10_1 f11 f19_12. zify_fields.
  - rewrite J_imm_of_fields by assumption.
    subst f20 f10_1 f11 f19_12.
    replace (_ + _ + _ + _) with (val mod 2 ^ 21) by (symmetry; apply (jal_fields val Heven)).
    rewrite SignExtend64_mod by lia.
    apply SignExtend64_s64; [lia | exact Hv | exact Hrange].
Qed.

Lemma jal_offset_round_trip_witness :
  exists w',
    relocate rv32_config never_pcc example_jal_buffer 0 (example_reloc R_RISCV_JAL) 8 =
      Done (write32le example_jal_buffer 0 w', []) /\
    read32le (write32le example_jal_buffer 0 w') 0 = Some w' /\
    Z.land w' 0xFFF = Z.land 0x6f 0xFFF /\
    J_imm w' = s64 8.
Proof.
  apply (jal_offset_round_trip rv32_config never_pcc example_jal_buffer 0
           (example_reloc R_RISCV_JAL) 0x6f 8).
  - left. reflexivity.
  - reflexivity.
  - lia.
  - vm_compute. split; [discriminate | reflexivity].
  - reflexivity.
Defined.

Section Masks.

Lemma insn_bits_lor (a b hi lo : Z) :
  insn_bits (Z.lor a b) hi lo = Z.lor (insn_bits a hi lo) (insn_bits b hi lo).
Proof. unfold insn_bits. now rewrite Z.shiftr_lor, Z.land_lor_distr_l. Qed.

(** A field that the mask [M] leaves out is zero in [w & M]. *)
Lemma insn_bits_land_mask (w M hi lo : Z) :
  0 <= lo ->
  Z.land M (Z.shiftl (2 ^ (hi - lo + 1) - 1) lo) = 0 ->
  insn_bits (Z.land w M) hi lo = 0.
Proof.
  intros Hlo HM. unfold insn_bits. apply Z.bits_inj'. intros n Hn.
  rewrite Z.land_spec, Z.shiftr_spec, Z.land_spec, Z.bits_0 by lia.
  assert (Z.testbit (Z.land M (Z.shiftl (2 ^ (hi - lo + 1) - 1) lo)) (n + lo) = false) as Hb
    by (rewrite HM; apply Z.bits_0).
  rewrite Z.land_spec, Z.shiftl_spec in Hb by lia.
  replace (n + lo - lo) with n in Hb by lia.
  destruct (Z.testbit w (n + lo)), (Z.testbit M (n + lo)); cbn in *; congruence.
Qed.

(** A field placed where the mask [M] has no bit does not show in [M]. *)
Lemma field_outside_mask (f k n M : Z) :
  0 <= k -> 0 <= n -> 0 <= f < 2 ^ n ->
  Z.land M (Z.shiftl (2 ^ n - 1) k) = 0 ->
  Z.land (f * 2 ^ k) M = 0.
Proof.
  intros Hk Hn Hf HM. apply Z.bits_inj'. intros i Hi.
  rewrite Z.land_spec, Z.bits_0, <- Z.shiftl_mul_pow2 by lia.
  destruct (Z.lt_ge_cases i k) as [Hlt|Hge].
  { now rewrite Z.shiftl_spec_low by lia. }
  rewrite Z.shiftl_spec by lia.
  destruct (Z.lt_ge_cases (i - k) n) as [Hin|Hout].
  - assert (Z.testbit (Z.land M (Z.shiftl (2 ^ n - 1) k)) i = false) as Hb
      by (rewrite HM; apply Z.bits_0).
    rewrite Z.land_spec, Z.shiftl_spec in Hb by lia.
    replace (2 ^ n - 1) with (Z.ones n) in Hb by (rewrite Z.ones_equiv; lia).
    rewrite Z.ones_spec_low in Hb by lia.
    rewrite andb_true_r in Hb. rewrite Hb. apply andb_false_r.
  - assert (Z.testbit f (i - k) = false) as ->; [|reflexivity].
    destruct (Z.eq_dec f 0) as [->|Hne]; [apply Z.bits_0|].
    apply Z.bits_above_log2; [lia|].
    apply Z.lt_le_trans with n; [|lia]. apply Z.log2_lt_pow2; lia.
Qed.

Lemma land_lor_masked (w F M : Z) :
  Z.land F M = 0 -> Z.land (Z.lor (Z.land w M) F) M = Z.land w M.
Proof.
  intros HF. rewrite Z.land_lor_distr_l, HF, Z.lor_0_r.
  now rewrite <- Z.land_assoc, Z.land_diag.
Qed.

Lemma below_pow2_log2 (a n : Z) : 0 <= n -> 0 <= a -> (a < 2 ^ n <-> a = 0 \/ Z.log2 a < n).
Proof.
  intros Hn Ha. destruct (Z.eq_dec a 0) as [->|Hne].
  - split; [now left|]. intros _. apply Z.pow_pos_nonneg; lia.
  - rewrite <- Z.log2_lt_pow2 by lia. intuition lia.
Qed.

Lemma lor_range (a b n : Z) :
  0 <= n -> 0 <= a < 2 ^ n -> 0 <= b < 2 ^ n -> 0 <= Z.lor a b < 2 ^ n.
Proof.
  intros Hn Ha Hb. split; [apply Z.lor_nonneg; lia|].
  apply below_pow2_log2; [lia | apply Z.lor_nonneg; lia|].
  destruct (Z.eq_dec (Z.lor a b) 0) as [|Hne]; [now left | right].
  rewrite Z.log2_lor by lia.
  destruct (Z.eq_dec a 0) as [->|Ha0], (Z.eq_dec b 0) as [->|Hb0].
  - exfalso. apply Hne. reflexivity.
  - rewrite Z.max_r by (cbn; apply Z.log2_nonneg). apply Z.log2_lt_pow2; lia.
  - rewrite Z.max_l by (cbn; apply Z.log2_nonneg). apply Z.log2_lt_pow2; lia.
  - apply Z.max_lub_lt; apply Z.log2_lt_pow2; lia.
Qed.

Lemma land_range (a b n : Z) :
  0 <= n -> 0 <= a -> 0 <= b < 2 ^ n -> 0 <= Z.land a b < 2 ^ n.
Proof.
  intros Hn Ha Hb. split; [apply Z.land_nonneg; lia|].
  apply below_pow2_log2; [lia | apply Z.land_nonneg; lia|].
  destruct (Z.eq_dec (Z.land a b) 0) as [|Hne]; [now left | right].
  destruct (Z.eq_dec b 0) as [->|Hb0]; [rewrite Z.land_0_r in Hne; lia|].
  apply Z.le_lt_trans with (Z.min (Z.log2 a) (Z.log2 b)); [apply Z.log2_land; lia|].
  apply Z.le_lt_trans with (Z.log2 b); [apply Z.le_min_r|].
  apply Z.log2_lt_pow2; lia.
Qed.

End Masks.

Section DecodeBranch.

Variable config : Config.
Variable isPCCRelative : option nat -> SymId -> bool.

Lemma branch_word (val : Z) :
  let f12 := (val mod 2 ^ 13) / 2 ^ 12 in
  let f10_5 := (val mod 2 ^ 11) / 2 ^ 5 in
  let f4_1 := (val mod 2 ^ 5) / 2 ^ 1 in
  let f11 := (val mod 2 ^ 12) / 2 ^ 11 in
  Z.lor (Z.lor (Z.lor (u32 (Z.shiftl (extractBits val 12 12) 31))
                      (u32 (Z.shiftl (extractBits val 10 5) 25)))
               (u32 (Z.shiftl (extractBits val 4 1) 8)))
        (u32 (Z.shiftl (extractBits val 11 11) 7))
  = f12 * 2 ^ 31 + f10_5 * 2 ^ 25 + f4_1 * 2 ^ 8 + f11 * 2 ^ 7.
Proof.
  intros f12 f10_5 f4_1 f11.
  assert (extractBits val 12 12 = f12) as -> by (apply extractBits_div; lia).
  assert (extractBits val 10 5 = f10_5) as -> by (apply extractBits_div; lia).
  assert (extractBits val 4 1 = f4_1) as -> by (apply extractBits_div; lia).
  assert (extractBits val 11 11 = f11) as -> by (apply extractBits_div; lia).
  assert (0 <= f12 < 2) by (subst f12; zify_fields).
  assert (0 <= f10_5 < 2 ^ 6) by (subst f10_5; zify_fields).
  assert (0 <= f4_1 < 2 ^ 4) by (subst f4_1; zify_fields).
  assert (0 <= f11 < 2) by (subst f11; zify_fields).
  clearbody f12 f10_5 f4_1 f11.
  rewrite !Z.shiftl_mul_pow2 by lia.
  rewrite !u32_small by (pow2_consts; lia).
  rewrite (lor_high_low (f12 * 2 ^ 31) _ 31) by zify_fields.
  rewrite (lor_high_low (f12 * 2 ^ 31 + _) _ 25) by zify_fields.
  rewrite (lor_high_low (f12 * 2 ^ 31 + _ + _) _ 8) by zify_fields.
  reflexivity.
Qed.

Lemma branch_fields (val : Z) :
  val mod 2 = 0 ->
  (val mod 2 ^ 13) / 2 ^ 12 * 2 ^ 12 + (val mod 2 ^ 12) / 2 ^ 11 * 2 ^ 11 +
  (val mod 2 ^ 11) / 2 ^ 5 * 2 ^ 5 + (val mod 2 ^ 5) / 2 ^ 1 * 2 ^ 1 = val mod 2 ^ 13.
Proof. intros H. zify_fields. Qed.

Lemma B_imm_of_fields (w f12 f10_5 f4_1 f11 : Z) :
  0 <= f12 < 2 -> 0 <= f10_5 < 2 ^ 6 -> 0 <= f4_1 < 2 ^ 4 -> 0 <= f11 < 2 ->
  B_imm (Z.lor (Z.land w 0x1FFF07F)
           (f12 * 2 ^ 31 + f10_5 * 2 ^ 25 + f4_1 * 2 ^ 8 + f11 * 2 ^ 7)) =
  SignExtend64 13 (f12 * 2 ^ 12 + f11 * 2 ^ 11 + f10_5 * 2 ^ 5 + f4_1 * 2 ^ 1).
Proof.
  intros. unfold B_imm.
  rewrite !insn_bits_lor, !insn_bits_land_mask, !Z.lor_0_l by (lia || reflexivity).
  rewrite !insn_bits_div, !Z.shiftl_mul_pow2 by lia.
  f_equal.
  set (F := f12 * 2 ^ 31 + f10_5 * 2 ^ 25 + f4_1 * 2 ^ 8 + f11 * 2 ^ 7).
  assert ((F / 2 ^ 31) mod 2 ^ (31 - 31 + 1) = f12) as -> by (subst F; zify_fields).
  assert ((F / 2 ^ 7) mod 2 ^ (7 - 7 + 1) = f11) as -> by (subst F; zify_fields).
  assert ((F / 2 ^ 25) mod 2 ^ (30 - 25 + 1) = f10_5) as -> by (subst F; zify_fields).
  assert ((F / 2 ^ 8) mod 2 ^ (11 - 8 + 1) = f4_1) as -> by (subst F; zify_fields).
  reflexivity.
Qed.

End DecodeBranch.

(** X3. A BRANCH relocation whose value is even and within +-4 KiB reports
    nothing, keeps the bits under the mask [0x1FFF07F], and writes an
    immediate that decodes, by the B-type layout, to the value. *)
Theorem branch_offset_round_trip (config : Config)
    (isPCCRelative : option nat -> SymId -> bool)
    (buf : buffer) (loc : nat) (rel : Relocation) (w val : Z) :
  r_type rel = R_RISCV_BRANCH ->
  read32le buf loc = Some w ->
  0 <= val < 2 ^ 64 ->
  - 2 ^ 12 <= s64 val < 2 ^ 12 ->
  val mod 2 = 0 ->
  exists w',
    relocate config isPCCRelative buf loc rel val = Done (write32le buf loc w', []) /\
    read32le (write32le buf loc w') loc = Some w' /\
    Z.land w' 0x1FFF07F = Z.land w 0x1FFF07F /\
    B_imm w' = s64 val.
Proof.
  intros Ht Hr Hv Hrange Heven.
  pose proof (read32le_range _ _ _ Hr) as Hw.
  pose proof (readle_Some_bound _ _ _ _ Hr) as Hlen.
  rewrite (relocate_branch config isPCCRelative _ _ _ _ _ Ht Hr).
  rewrite checkInt_ok, checkAlignment_2_ok; [|exact Heven|].
  2:{ rewrite Z.shiftr_div_pow2 by lia. clear - Hrange. zify_fields. }
  eexists. split; [reflexivity|]. split; [|split].
  - rewrite read32le_write32le by exact Hlen. f_equal. apply u32_small.
    rewrite branch_word. cbn zeta.
    apply lor_range; [lia | apply land_range; pow2_consts; lia |].
    zify_fields.
  - apply branch_preserves_mask.
  - rewrite branch_word. cbn zeta.
    rewrite B_imm_of_fields by zify_fields.
    replace (_ + _ + _ + _) with (val mod 2 ^ 13) by (symmetry; apply (branch_fields val Heven)).
    rewrite SignExtend64_mod by lia.
    apply SignExtend64_s64; [lia | exact Hv | exact Hrange].
Qed.

Lemma branch_offset_round_trip_witness :
  exists w',
    relocate rv32_config never_pcc (le_split 4 0x00000063) 0 (example_reloc R_RISCV_BRANCH) 8 =
      Done (write32le (le_split 4 0x00000063) 0 w', []) /\
    read32le (write32le (le_split 4 0x00000063) 0 w') 0 = Some w' /\
    Z.land w' 0x1FFF07F = Z.land 0x63 0x1FFF07F /\
    B_imm w' = s64 8.
Proof.
  apply (branch_offset_round_trip rv32_config never_pcc (le_split 4 0x00000063) 0
           (example_reloc R_RISCV_BRANCH) 0x63 8).
  - reflexivity.
  - reflexivity.
  - lia.
  - vm_compute. split; [discriminate | reflexivity].
  - reflexivity.
Defined.

Section DecodeRVC.

Variable config : Config.
Variable isPCCRelative : option nat -> SymId -> bool.

Lemma load_ok (n : nat) (buf : buffer) (loc : nat) (w : Z) :
  readle n buf loc = Some w -> load n buf loc = Done w.
Proof. intros H. unfold load. now rewrite H. Qed.

Lemma store_ok (n : nat) (buf : buffer) (loc : nat) (v : Z) :
  (loc + n <= length buf)%nat -> store n buf loc v = Done (writele n buf loc v).
Proof.
  intros H. unfold store. destruct (Nat.leb_spec (loc + n) (length buf)); [reflexivity | lia].
Qed.

Lemma readle_range (n : nat) (buf : buffer) (loc : nat) (w : Z) :
  readle n buf loc = Some w -> 0 <= w < 256 ^ Z.of_nat n.
Proof.
  unfold readle. destruct (Nat.leb_spec (loc + n) (length buf)) as [Hle|]; [|discriminate].
  intros [= <-].
  pose proof (le_combine_range (take n (drop loc buf))) as Hr.
  rewrite length_take, length_drop, Nat.min_l in Hr by lia. exact Hr.
Qed.

Lemma readle_writele_small (n : nat) (buf : buffer) (loc : nat) (v : Z) :
  (loc + n <= length buf)%nat -> 0 <= v < 256 ^ Z.of_nat n ->
  readle n (writele n buf loc v) loc = Some v.
Proof.
  intros Hle Hv. rewrite readle_writele by exact Hle.
  now rewrite le_combine_split, Z.mod_small.
Qed.

Lemma u16_small (x : Z) : 0 <= x < 2 ^ 16 -> u16 x = x.
Proof. intros H. unfold u16, trunc. now apply Z.mod_small. Qed.

Lemma relocate_rvc_jump (buf : buffer) (loc : nat) (rel : Relocation) (w val : Z) :
  r_type rel = R_RISCV_RVC_JUMP \/ r_type rel = R_RISCV_CHERI_RVC_CJUMP ->
  read16le buf loc = Some w ->
  relocate config isPCCRelative buf loc rel val =
  Done (write16le buf loc
          (Z.lor (Z.land w 0xE003)
             (Z.lor (Z.lor (Z.lor (Z.lor (Z.lor (Z.lor (Z.lor
                (u16 (Z.shiftl (extractBits val 11 11) 12))
                (u16 (Z.shiftl (extractBits val 4 4) 11)))
                (u16 (Z.shiftl (extractBits val 9 8) 9)))
                (u16 (Z.shiftl (extractBits val 10 10) 8)))
                (u16 (Z.shiftl (extractBits val 6 6) 7)))
                (u16 (Z.shiftl (extractBits val 7 7) 6)))
                (u16 (Z.shiftl (extractBits val 3 1) 3)))
                (u16 (Z.shiftl (extractBits val 5 5) 2)))),
        checkInt loc (Z.shiftr (s64 val) 1) 11 ++ checkAlignment loc val 2).
Proof.
  intros Ht Hr. pose proof (readle_Some_bound _ _ _ _ Hr) as Hlen.
  unfold relocate.
  destruct Ht as [-> | ->]; rewrite (load_ok _ _ _ _ Hr); cbn [mbind outcome_bind obind];
    rewrite store_ok by exact Hlen; reflexivity.
Qed.

Lemma relocate_rvc_branch (buf : buffer) (loc : nat) (rel : Relocation) (w val : Z) :
  r_type rel = R_RISCV_RVC_BRANCH ->
  read16le buf loc = Some w ->
  relocate config isPCCRelative buf loc rel val =
  Done (write16le buf loc
          (Z.lor (Z.land w 0xE383)
             (Z.lor (Z.lor (Z.lor (Z.lor
                (u16 (Z.shiftl (extractBits val 8 8) 12))
                (u16 (Z.shiftl (extractBits val 4 3) 10)))
                (u16 (Z.shiftl (extractBits val 7 6) 5)))
                (u16 (Z.shiftl (extractBits val 2 1) 3)))
                (u16 (Z.shiftl (extractBits val 5 5) 2)))),
        checkInt loc (Z.shiftr (s64 val) 1) 8 ++ checkAlignment loc val 2).
Proof.
  intros Ht Hr. pose proof (readle_Some_bound _ _ _ _ Hr) as Hlen.
  unfold relocate. rewrite Ht, (load_ok _ _ _ _ Hr). cbn [mbind outcome_bind obind].
  rewrite store_ok by exact Hlen. reflexivity.
Qed.

Lemma rvc_jump_word (val : Z) :
  let f11 := (val mod 2 ^ 12) / 2 ^ 11 in
  let f4 := (val mod 2 ^ 5) / 2 ^ 4 in
  let f9_8 := (val mod 2 ^ 10) / 2 ^ 8 in
  let f10 := (val mod 2 ^ 11) / 2 ^ 10 in
  let f6 := (val mod 2 ^ 7) / 2 ^ 6 in
  let f7 := (val mod 2 ^ 8) / 2 ^ 7 in
  let f3_1 := (val mod 2 ^ 4) / 2 ^ 1 in
  let f5 := (val mod 2 ^ 6) / 2 ^ 5 in
  Z.lor (Z.lor (Z.lor (Z.lor (Z.lor (Z.lor (Z.lor
    (u16 (Z.shiftl (extractBits val 11 11) 12))
    (u16 (Z.shiftl (extractBits val 4 4) 11)))
    (u16 (Z.shiftl (extractBits val 9 8) 9)))
    (u16 (Z.shiftl (extractBits val 10 10) 8)))
    (u16 (Z.shiftl (extractBits val 6 6) 7)))
    (u16 (Z.shiftl (extractBits val 7 7) 6)))
    (u16 (Z.shiftl (extractBits val 3 1) 3)))
    (u16 (Z.shiftl (extractBits val 5 5) 2))
  = f11 * 2 ^ 12 + f4 * 2 ^ 11 + f9_8 * 2 ^ 9 + f10 * 2 ^ 8 + f6 * 2 ^ 7 + f7 * 2 ^ 6 +
    f3_1 * 2 ^ 3 + f5 * 2 ^ 2.
Proof.
  intros f11 f4 f9_8 f10 f6 f7 f3_1 f5.
  assert (extractBits val 11 11 = f11) as -> by (apply extractBits_div; lia).
  assert (extractBits val 4 4 = f4) as -> by (apply extractBits_div; lia).
  assert (extractBits val 9 8 = f9_8) as -> by (apply extractBits_div; lia).
  assert (extractBits val 10 10 = f10) as -> by (apply extractBits_div; lia).
  assert (extractBits val 6 6 = f6) as -> by (apply extractBits_div; lia).
  assert (extractBits val 7 7 = f7) as -> by (apply extractBits_div; lia).
  assert (extractBits val 3 1 = f3_1) as -> by (apply extractBits_div; lia).
  assert (extractBits val 5 5 = f5) as -> by (apply extractBits_div; lia).
  assert (0 <= f11 < 2) by (subst f11; zify_fields).
  assert (0 <= f4 < 2) by (subst f4; zify_fields).
  assert (0 <= f9_8 < 2 ^ 2) by (subst f9_8; zify_fields).
  assert (0 <= f10 < 2) by (subst f10; zify_fields).
  assert (0 <= f6 < 2) by (subst f6; zify_fields).
  assert (0 <= f7 < 2) by (subst f7; zify_fields).
  assert (0 <= f3_1 < 2 ^ 3) by (subst f3_1; zify_fields).
  assert (0 <= f5 < 2) by (subst f5; zify_fields).
  clearbody f11 f4 f9_8 f10 f6 f7 f3_1 f5.
  rewrite !Z.shiftl_mul_pow2 by lia.
  rewrite !u16_small by (pow2_consts; lia).
  rewrite (lor_high_low (f11 * 2 ^ 12) _ 12) by zify_fields.
  rewrite (lor_high_low (f11 * 2 ^ 12 + _) _ 11) by zify_fields.
  rewrite (lor_high_low (f11 * 2 ^ 12 + _ + _) _ 9) by zify_fields.
  rewrite (lor_high_low (f11 * 2 ^ 12 + _ + _ + _) _ 8) by zify_fields.
  rewrite (lor_high_low (f11 * 2 ^ 12 + _ + _ + _ + _) _ 7) by zify_fields.
  rewrite (lor_high_low (f11 * 2 ^ 12 + _ + _ + _ + _ + _) _ 6) by zify_fields.
  rewrite (lor_high_low (f11 * 2 ^ 12 + _ + _ + _ + _ + _ + _) _ 3) by zify_fields.
  reflexivity.
Qed.

Lemma rvc_jump_fields (val : Z) :
  val mod 2 = 0 ->
  (val mod 2 ^ 12) / 2 ^ 11 * 2 ^ 11 + (val mod 2 ^ 11) / 2 ^ 10 * 2 ^ 10 +
  (val mod 2 ^ 10) / 2 ^ 8 * 2 ^ 8 + (val mod 2 ^ 8) / 2 ^ 7 * 2 ^ 7 +
  (val mod 2 ^ 7) / 2 ^ 6 * 2 ^ 6 + (val mod 2 ^ 6) / 2 ^ 5 * 2 ^ 5 +
  (val mod 2 ^ 5) / 2 ^ 4 * 2 ^ 4 + (val mod 2 ^ 4) / 2 ^ 1 * 2 ^ 1 = val mod 2 ^ 12.
Proof. intros H. zify_fields. Qed.

Lemma CJ_imm_of_fields (w f11 f4 f9_8 f10 f6 f7 f3_1 f5 : Z) :
  0 <= f11 < 2 -> 0 <= f4 < 2 -> 0 <= f9_8 < 2 ^ 2 -> 0 <= f10 < 2 ->
  0 <= f6 < 2 -> 0 <= f7 < 2 -> 0 <= f3_1 < 2 ^ 3 -> 0 <= f5 < 2 ->
  CJ_imm (Z.lor (Z.land w 0xE003)
            (f11 * 2 ^ 12 + f4 * 2 ^ 11 + f9_8 * 2 ^ 9 + f10 * 2 ^ 8 + f6 * 2 ^ 7 +
             f7 * 2 ^ 6 + f3_1 * 2 ^ 3 + f5 * 2 ^ 2)) =
  SignExtend64 12
    (f11 * 2 ^ 11 + f10 * 2 ^ 10 + f9_8 * 2 ^ 8 + f7 * 2 ^ 7 + f6 * 2 ^ 6 + f5 * 2 ^ 5 +
     f4 * 2 ^ 4 + f3_1 * 2 ^ 1).
Proof.
  intros. unfold CJ_imm.
  rewrite !insn_bits_lor, !insn_bits_land_mask, !Z.lor_0_l by (lia || reflexivity).
  rewrite !insn_bits_div, !Z.shiftl_mul_pow2 by lia.
  f_equal.
  set (F := f11 * 2 ^ 12 + f4 * 2 ^ 11 + f9_8 * 2 ^ 9 + f10 * 2 ^ 8 + f6 * 2 ^ 7 +
            f7 * 2 ^ 6 + f3_1 * 2 ^ 3 + f5 * 2 ^ 2).
  assert ((F / 2 ^ 12) mod 2 ^ (12 - 12 + 1) = f11) as -> by (subst F; zify_fields).
  assert ((F / 2 ^ 8) mod 2 ^ (8 - 8 + 1) = f10) as -> by (subst F; zify_fields).
  assert ((F / 2 ^ 9) mod 2 ^ (10 - 9 + 1) = f9_8) as -> by (subst F; zify_fields).
  assert ((F / 2 ^ 6) mod 2 ^ (6 - 6 + 1) = f7) as -> by (subst F; zify_fields).
  assert ((F / 2 ^ 7) mod 2 ^ (7 - 7 + 1) = f6) as -> by (subst F; zify_fields).
  assert ((F / 2 ^ 2) mod 2 ^ (2 - 2 + 1) = f5) as -> by (subst F; zify_fields).
  assert ((F / 2 ^ 11) mod 2 ^ (11 - 11 + 1) = f4) as -> by (subst F; zify_fields).
  assert ((F / 2 ^ 3) mod 2 ^ (5 - 3 + 1) = f3_1) as -> by (subst F; zify_fields).
  lia.
Qed.

End DecodeRVC.

Section DecodeRVC2.

Variable config : Config.
Variable isPCCRelative : option nat -> SymId -> bool.

Lemma rvc_branch_word (val : Z) :
  let f8 := (val mod 2 ^ 9) / 2 ^ 8 in
  let f4_3 := (val mod 2 ^ 5) / 2 ^ 3 in
  let f7_6 := (val mod 2 ^ 8) / 2 ^ 6 in
  let f2_1 := (val mod 2 ^ 3) / 2 ^ 1 in
  let f5 := (val mod 2 ^ 6) / 2 ^ 5 in
  Z.lor (Z.lor (Z.lor (Z.lor
    (u16 (Z.shiftl (extractBits val 8 8) 12))
    (u16 (Z.shiftl (extractBits val 4 3) 10)))
    (u16 (Z.shiftl (extractBits val 7 6) 5)))
    (u16 (Z.shiftl (extractBits val 2 1) 3)))
    (u16 (Z.shiftl (extractBits val 5 5) 2))
  = f8 * 2 ^ 12 + f4_3 * 2 ^ 10 + f7_6 * 2 ^ 5 + f2_1 * 2 ^ 3 + f5 * 2 ^ 2.
Proof.
  intros f8 f4_3 f7_6 f2_1 f5.
  assert (extractBits val 8 8 = f8) as -> by (apply extractBits_div; lia).
  assert (extractBits val 4 3 = f4_3) as -> by (apply extractBits_div; lia).
  assert (extractBits val 7 6 = f7_6) as -> by (apply extractBits_div; lia).
  assert (extractBits val 2 1 = f2_1) as -> by (apply extractBits_div; lia).
  assert (extractBits val 5 5 = f5) as -> by (apply extractBits_div; lia).
  assert (0 <= f8 < 2) by (subst f8; zify_fields).
  assert (0 <= f4_3 < 2 ^ 2) by (subst f4_3; zify_fields).
  assert (0 <= f7_6 < 2 ^ 2) by (subst f7_6; zify_fields).
  assert (0 <= f2_1 < 2 ^ 2) by (subst f2_1; zify_fields).
  assert (0 <= f5 < 2) by (subst f5; zify_fields).
  clearbody f8 f4_3 f7_6 f2_1 f5.
  rewrite !Z.shiftl_mul_pow2 by lia.
  rewrite !u16_small by (pow2_consts; lia).
  rewrite (lor_high_low (f8 * 2 ^ 12) _ 12) by zify_fields.
  rewrite (lor_high_low (f8 * 2 ^ 12 + _) _ 10) by zify_fields.
  rewrite (lor_high_low (f8 * 2 ^ 12 + _ + _) _ 5) by zify_fields.
  rewrite (lor_high_low (f8 * 2 ^ 12 + _ + _ + _) _ 3) by zify_fields.
  reflexivity.
Qed.

Lemma rvc_branch_fields (val : Z) :
  val mod 2 = 0 ->
  (val mod 2 ^ 9) / 2 ^ 8 * 2 ^ 8 + (val mod 2 ^ 8) / 2 ^ 6 * 2 ^ 6 +
  (val mod 2 ^ 6) / 2 ^ 5 * 2 ^ 5 + (val mod 2 ^ 5) / 2 ^ 3 * 2 ^ 3 +
  (val mod 2 ^ 3) / 2 ^ 1 * 2 ^ 1 = val mod 2 ^ 9.
Proof. intros H. zify_fields. Qed.

Lemma CB_imm_of_fields (w f8 f4_3 f7_6 f2_1 f5 : Z) :
  0 <= f8 < 2 -> 0 <= f4_3 < 2 ^ 2 -> 0 <= f7_6 < 2 ^ 2 -> 0 <= f2_1 < 2 ^ 2 ->
  0 <= f5 < 2 ->
  CB_imm (Z.lor (Z.land w 0xE383)
            (f8 * 2 ^ 12 + f4_3 * 2 ^ 10 + f7_6 * 2 ^ 5 + f2_1 * 2 ^ 3 + f5 * 2 ^ 2)) =
  SignExtend64 9 (f8 * 2 ^ 8 + f7_6 * 2 ^ 6 + f5 * 2 ^ 5 + f4_3 * 2 ^ 3 + f2_1 * 2 ^ 1).
Proof.
  intros. unfold CB_imm.
  rewrite !insn_bits_lor, !insn_bits_land_mask, !Z.lor_0_l by (lia || reflexivity).
  rewrite !insn_bits_div, !Z.shiftl_mul_pow2 by lia.
  f_equal.
  set (F := f8 * 2 ^ 12 + f4_3 * 2 ^ 10 + f7_6 * 2 ^ 5 + f2_1 * 2 ^ 3 + f5 * 2 ^ 2).
  assert ((F / 2 ^ 12) mod 2 ^ (12 - 12 + 1) = f8) as -> by (subst F; zify_fields).
  assert ((F / 2 ^ 5) mod 2 ^ (6 - 5 + 1) = f7_6) as -> by (subst F; zify_fields).
  assert ((F / 2 ^ 2) mod 2 ^ (2 - 2 + 1) = f5) as -> by (subst F; zify_fields).
  assert ((F / 2 ^ 10) mod 2 ^ (11 - 10 + 1) = f4_3) as -> by (subst F; zify_fields).
  assert ((F / 2 ^ 3) mod 2 ^ (4 - 3 + 1) = f2_1) as -> by (subst F; zify_fields).
  lia.
Qed.

(** A sum of fields that all lie outside [M]. *)
Lemma land_add_outside (a b M k : Z) :
  0 <= k -> 0 <= b < 2 ^ k -> a mod 2 ^ k = 0 ->
  Z.land a M = 0 -> Z.land b M = 0 -> Z.land (a + b) M = 0.
Proof.
  intros Hk Hb Ha H1 H2. rewrite <- (lor_high_low a b k) by assumption.
  now rewrite Z.land_lor_distr_l, H1, H2.
Qed.

End DecodeRVC2.

(** X4. An RVC_JUMP or CHERI_RVC_CJUMP relocation whose value is even and
    within +-2 KiB reports nothing, keeps the bits under the mask [0xE003],
    and writes an immediate that decodes, by the CJ layout, to the value. *)
Theorem rvc_jump_offset_round_trip (config : Config)
    (isPCCRelative : option nat -> SymId -> bool)
    (buf : buffer) (loc : nat) (rel : Relocation) (w val : Z) :
  r_type rel = R_RISCV_RVC_JUMP \/ r_type rel = R_RISCV_CHERI_RVC_CJUMP ->
  read16le buf loc = Some w ->
  0 <= val < 2 ^ 64 ->
  - 2 ^ 11 <= s64 val < 2 ^ 11 ->
  val mod 2 = 0 ->
  exists w',
    relocate config isPCCRelative buf loc rel val = Done (write16le buf loc w', []) /\
    read16le (write16le buf loc w') loc = Some w' /\
    Z.land w' 0xE003 = Z.land w 0xE003 /\
    CJ_imm w' = s64 val.
Proof.
  intros Ht Hr Hv Hrange Heven.
  pose proof (readle_range _ _ _ _ Hr) as Hw.
  pose proof (readle_Some_bound _ _ _ _ Hr) as Hlen.
  rewrite (relocate_rvc_jump config isPCCRelative _ _ _ _ _ Ht Hr).
  rewrite checkInt_ok, checkAlignment_2_ok; [|exact Heven|].
  2:{ rewrite Z.shiftr_div_pow2 by lia. clear - Hrange. zify_fields. }
  rewrite rvc_jump_word. cbn zeta.
  set (f11 := val mod 2 ^ 12 / 2 ^ 11). set (f4 := val mod 2 ^ 5 / 2 ^ 4).
  set (f9_8 := val mod 2 ^ 10 / 2 ^ 8). set (f10 := val mod 2 ^ 11 / 2 ^ 10).
  set (f6 := val mod 2 ^ 7 / 2 ^ 6). set (f7 := val mod 2 ^ 8 / 2 ^ 7).
  set (f3_1 := val mod 2 ^ 4 / 2 ^ 1). set (f5 := val mod 2 ^ 6 / 2 ^ 5).
  assert (0 <= f11 < 2) by (subst f11; zify_fields).
  assert (0 <= f4 < 2) by (subst f4; zify_fields).
  assert (0 <= f9_8 < 2 ^ 2) by (subst f9_8; zify_fields).
  assert (0 <= f10 < 2) by (subst f10; zify_fields).
  assert (0 <= f6 < 2) by (subst f6; zify_fields).
  assert (0 <= f7 < 2) by (subst f7; zify_fields).
  assert (0 <= f3_1 < 2 ^ 3) by (subst f3_1; zify_fields).
  assert (0 <= f5 < 2) by (subst f5; zify_fields).
  eexists. split; [reflexivity|]. split; [|split].
  - apply readle_writele_small; [exact Hlen|].
    change (256 ^ Z.of_nat 2) with (2 ^ 16) in *.
    apply lor_range; [lia | apply land_range; pow2_consts; lia |].
    clearbody f11 f4 f9_8 f10 f6 f7 f3_1 f5. pow2_consts. lia.
  - apply land_lor_masked.
    clearbody f11 f4 f9_8 f10 f6 f7 f3_1 f5.
    apply land_add_outside with (k := 3); [lia | zify_fields | zify_fields | |].
    apply land_add_outside with (k := 6); [lia | zify_fields | zify_fields | |].
    apply land_add_outside with (k := 7); [lia | zify_fields | zify_fields | |].
    apply land_add_outside with (k := 8); [lia | zify_fields | zify_fields | |].
    apply land_add_outside with (k := 9); [lia | zify_fields | zify_fields | |].
    apply land_add_outside with (k := 11); [lia | zify_fields | zify_fields | |].
    apply land_add_outside with (k := 12); [lia | zify_fields | zify_fields | |].
    all: first [ apply (field_outside_mask _ _ 1); [lia | lia | pow2_consts; lia | reflexivity]
               | apply (field_outside_mask _ _ 2); [lia | lia | pow2_consts; lia | reflexivity]
               | apply (field_outside_mask _ _ 3); [lia | lia | pow2_consts; lia | reflexivity] ].
  - rewrite CJ_imm_of_fields by assumption.
    subst f11 f4 f9_8 f10 f6 f7 f3_1 f5.
    replace (_ + _ + _ + _ + _ + _ + _ + _) with (val mod 2 ^ 12)
      by (symmetry; apply (rvc_jump_fields val Heven)).
    rewrite SignExtend64_mod by lia.
    apply SignExtend64_s64; [lia | exact Hv | exact Hrange].
Qed.

Lemma rvc_jump_offset_round_trip_witness :
  exists w',
    relocate rv32_config never_pcc (le_split 2 0xa001) 0 (example_reloc R_RISCV_RVC_JUMP) 8 =
      Done (write16le (le_split 2 0xa001) 0 w', []) /\
    read16le (write16le (le_split 2 0xa001) 0 w') 0 = Some w' /\
    Z.land w' 0xE003 = Z.land 0xa001 0xE003 /\
    CJ_imm w' = s64 8.
Proof.
  apply (rvc_jump_offset_round_trip rv32_config never_pcc (le_split 2 0xa001) 0
           (example_reloc R_RISCV_RVC_JUMP) 0xa001 8).
  - left. reflexivity.
  - reflexivity.
  - lia.
  - vm_compute. split; [discriminate | reflexivity].
  - reflexivity.
Defined.

(** X5. An RVC_BRANCH relocation whose value is even and within +-256 bytes
    reports nothing, keeps the bits under the mask [0xE383], and writes an
    immediate that decodes, by the CB layout, to the value. *)
Theorem rvc_branch_offset_round_trip (config : Config)
    (isPCCRelative : option nat -> SymId -> bool)
    (buf : buffer) (loc : nat) (rel : Relocation) (w val : Z) :
  r_type rel = R_RISCV_RVC_BRANCH ->
  read16le buf loc = Some w ->
  0 <= val < 2 ^ 64 ->
  - 2 ^ 8 <= s64 val < 2 ^ 8 ->
  val mod 2 = 0 ->
  exists w',
    relocate config isPCCRelative buf loc rel val = Done (write16le buf loc w', []) /\
    read16le (write16le buf loc w') loc = Some w' /\
    Z.land w' 0xE383 = Z.land w 0xE383 /\
    CB_imm w' = s64 val.
Proof.
  intros Ht Hr Hv Hrange Heven.
  pose proof (readle_range _ _ _ _ Hr) as Hw.
  pose proof (readle_Some_bound _ _ _ _ Hr) as Hlen.
  rewrite (relocate_rvc_branch config isPCCRelative _ _ _ _ _ Ht Hr).
  rewrite checkInt_ok, checkAlignment_2_ok; [|exact Heven|].
  2:{ rewrite Z.shiftr_div_pow2 by lia. clear - Hrange. zify_fields. }
  rewrite rvc_branch_word. cbn zeta.
  set (f8 := val mod 2 ^ 9 / 2 ^ 8). set (f4_3 := val mod 2 ^ 5 / 2 ^ 3).
  set (f7_6 := val mod 2 ^ 8 / 2 ^ 6). set (f2_1 := val mod 2 ^ 3 / 2 ^ 1).
  set (f5 := val mod 2 ^ 6 / 2 ^ 5).
  assert (0 <= f8 < 2) by (subst f8; zify_fields).
  assert (0 <= f4_3 < 2 ^ 2) by (subst f4_3; zify_fields).
  assert (0 <= f7_6 < 2 ^ 2) by (subst f7_6; zify_fields).
  assert (0 <= f2_1 < 2 ^ 2) by (subst f2_1; zify_fields).
  assert (0 <= f5 < 2) by (subst f5; zify_fields).
  eexists. split; [reflexivity|]. split; [|split].
  - apply readle_writele_small; [exact Hlen|].
    change (256 ^ Z.of_nat 2) with (2 ^ 16) in *.
    apply lor_range; [lia | apply land_range; pow2_consts; lia |].
    clearbody f8 f4_3 f7_6 f2_1 f5. pow2_consts. lia.
  - apply land_lor_masked.
    clearbody f8 f4_3 f7_6 f2_1 f5.
    apply land_add_outside with (k := 3); [lia | zify_fields | zify_fields | |].
    apply land_add_outside with (k := 5); [lia | zify_fields | zify_fields | |].
    apply land_add_outside with (k := 7); [lia | zify_fields | zify_fields | |].
    apply land_add_outside with (k := 12); [lia | zify_fields | zify_fields | |].
    all: first [ apply (field_outside_mask _ _ 1); [lia | lia | pow2_consts; lia | reflexivity]
               | apply (field_outside_mask _ _ 2); [lia | lia | pow2_consts; lia | reflexivity] ].
  - rewrite CB_imm_of_fields by assumption.
    subst f8 f4_3 f7_6 f2_1 f5.
    replace (_ + _ + _ + _ + _) with (val mod 2 ^ 9)
      by (symmetry; apply (rvc_branch_fields val Heven)).
    rewrite SignExtend64_mod by lia.
    apply SignExtend64_s64; [lia | exact Hv | exact Hrange].
Qed.

Lemma rvc_branch_offset_round_trip_witness :
  exists w',
    relocate rv32_config never_pcc (le_split 2 0xc001) 0 (example_reloc R_RISCV_RVC_BRANCH) 8 =
      Done (write16le (le_split 2 0xc001) 0 w', []) /\
    read16le (write16le (le_split 2 0xc001) 0 w') 0 = Some w' /\
    Z.land w' 0xE383 = Z.land 0xc001 0xE383 /\
    CB_imm w' = s64 8.
Proof.
  apply (rvc_branch_offset_round_trip rv32_config never_pcc (le_split 2 0xc001) 0
           (example_reloc R_RISCV_RVC_BRANCH) 0xc001 8).
  - reflexivity.
  - reflexivity.
  - lia.
  - vm_compute. split; [discriminate | reflexivity].
  - reflexivity.
Defined.

(** ** Address halves, calls, and additions in place *)

Section HiLoWords.

Variable config : Config.
Variable isPCCRelative : option nat -> SymId -> bool.

Lemma relocate_hi20_run (bits : Z) (buf : buffer) (loc : nat) (w val : Z) :
  read32le buf loc = Some w ->
  relocate_hi20 bits buf loc val =
  Done (write32le buf loc (Z.lor (Z.land w 0xFFF) (Z.land (u64 (val + 0x800)) 0xFFFFF000)),
        checkInt loc (Z.shiftr (SignExtend64 bits (u64 (val + 0x800))) 12) 20).
Proof.
  intros Hr. pose proof (readle_Some_bound _ _ _ _ Hr) as Hlen.
  unfold relocate_hi20. rewrite (load_ok _ _ _ _ Hr). cbn [mbind outcome_bind obind].
  rewrite store_ok by exact Hlen. reflexivity.
Qed.

Lemma relocate_lo12_i_run (buf : buffer) (loc : nat) (w val : Z) :
  read32le buf loc = Some w ->
  relocate_lo12_i buf loc val =
  Done (write32le buf loc (Z.lor (Z.land w 0xFFFFF) (Z.shiftl (lo12 val) 20)), []).
Proof.
  intros Hr. pose proof (readle_Some_bound _ _ _ _ Hr) as Hlen.
  unfold relocate_lo12_i. rewrite (load_ok _ _ _ _ Hr). cbn [mbind outcome_bind obind].
  rewrite store_ok by exact Hlen. rewrite relocate_lo_is_lo12. reflexivity.
Qed.

Lemma lo_mod (val : Z) :
  u64 (val - Z.shiftl (Z.shiftr (u64 (val + 0x800)) 12) 12) mod 2 ^ 12 = val mod 2 ^ 12.
Proof.
  pose proof (relocate_lo_is_lo12 val) as H. rewrite lo12_mod in H.
  change 0xFFF with (2 ^ 12 - 1) in H. rewrite land_low_mask in H by lia. exact H.
Qed.

Lemma relocate_lo12_s_run (buf : buffer) (loc : nat) (rel : Relocation) (w val : Z) :
  is_lo12_s (r_type rel) = true ->
  read32le buf loc = Some w ->
  relocate config isPCCRelative buf loc rel val =
  Done (write32le buf loc
          (Z.lor (Z.lor (Z.land w 0x1FFF07F) ((val mod 2 ^ 12) / 2 ^ 5 * 2 ^ 25))
                 ((val mod 2 ^ 5) * 2 ^ 7)), []).
Proof.
  intros Ht Hr. pose proof (readle_Some_bound _ _ _ _ Hr) as Hlen.
  set (lo := u64 (val - Z.shiftl (Z.shiftr (u64 (val + 0x800)) 12) 12)).
  assert (extractBits lo 11 5 = (val mod 2 ^ 12) / 2 ^ 5) as E1.
  { rewrite extractBits_div by lia. change (11 + 1) with 12. subst lo. now rewrite lo_mod. }
  assert (extractBits lo 4 0 = val mod 2 ^ 5) as E2.
  { rewrite extractBits_div by lia. change (4 + 1) with 5. rewrite Z.div_1_r.
    assert (lo mod 2 ^ 5 = (lo mod 2 ^ 12) mod 2 ^ 5) as -> by zify_fields.
    subst lo. rewrite lo_mod. zify_fields. }
  assert (forall t, is_lo12_s t = true ->
            t = R_RISCV_PCREL_LO12_S \/ t = R_RISCV_TPREL_LO12_S \/ t = R_RISCV_LO12_S) as Hcases
    by (intros t; destruct t; cbn; intros; try discriminate; auto).
  unfold relocate. fold lo.
  destruct (Hcases _ Ht) as [-> | [-> | ->]];
    rewrite (load_ok _ _ _ _ Hr); cbn [mbind outcome_bind obind];
    rewrite store_ok by exact Hlen; rewrite E1, E2, !Z.shiftl_mul_pow2 by lia;
    rewrite !u32_small by zify_fields; reflexivity.
Qed.

Lemma land_upper_mask (x : Z) :
  Z.land x 0xFFFFF000 = (x mod 2 ^ 32) / 2 ^ 12 * 2 ^ 12.
Proof.
  change 0xFFFFF000 with (Z.shiftl (Z.ones 20) 12).
  assert (Z.land x (Z.shiftl (Z.ones 20) 12) =
          Z.shiftl (Z.land (Z.shiftr x 12) (Z.ones 20)) 12) as ->.
  { apply Z.bits_inj'. intros n Hn. rewrite Z.land_spec.
    destruct (Z.lt_ge_cases n 12).
    - rewrite !Z.shiftl_spec_low by lia. apply andb_false_r.
    - rewrite !Z.shiftl_spec, Z.land_spec, Z.shiftr_spec by lia.
      now replace (n - 12 + 12) with n by lia. }
  rewrite Z.land_ones, Z.shiftr_div_pow2, Z.shiftl_mul_pow2 by lia.
  f_equal. zify_fields.
Qed.

Lemma insn_bits_range (w hi lo : Z) : 0 <= lo <= hi -> 0 <= insn_bits w hi lo < 2 ^ (hi - lo + 1).
Proof.
  intros H. rewrite insn_bits_div by exact H. apply Z.mod_pos_bound, Z.pow_pos_nonneg; lia.
Qed.

Lemma U_imm_hi20 (w val : Z) :
  U_imm (Z.lor (Z.land w 0xFFF) (Z.land (u64 (val + 0x800)) 0xFFFFF000)) =
  ((val + 2048) mod 2 ^ 32) / 2 ^ 12 * 2 ^ 12.
Proof.
  unfold U_imm.
  rewrite insn_bits_lor, insn_bits_land_mask, Z.lor_0_l by (lia || reflexivity).
  rewrite land_upper_mask, insn_bits_div, Z.shiftl_mul_pow2 by lia.
  unfold u64, trunc. zify_fields.
Qed.

Lemma I_imm_lo12 (w val : Z) :
  I_imm (Z.lor (Z.land w 0xFFFFF) (Z.shiftl (lo12 val) 20)) = SignExtend64 12 (val mod 2 ^ 12).
Proof.
  unfold I_imm. f_equal.
  rewrite insn_bits_lor, insn_bits_land_mask, Z.lor_0_l by (lia || reflexivity).
  rewrite insn_bits_div, Z.shiftl_mul_pow2, lo12_mod by lia. zify_fields.
Qed.

Lemma S_imm_lo12 (w val : Z) :
  S_imm (Z.lor (Z.lor (Z.land w 0x1FFF07F) ((val mod 2 ^ 12) / 2 ^ 5 * 2 ^ 25))
               ((val mod 2 ^ 5) * 2 ^ 7)) = SignExtend64 12 (val mod 2 ^ 12).
Proof.
  unfold S_imm. f_equal.
  rewrite <- Z.lor_assoc.
  rewrite (lor_high_low (val mod 2 ^ 12 / 2 ^ 5 * 2 ^ 25) _ 12) by zify_fields.
  rewrite !insn_bits_lor, !insn_bits_land_mask, !Z.lor_0_l by (lia || reflexivity).
  rewrite !insn_bits_div, Z.shiftl_mul_pow2 by lia. zify_fields.
Qed.

(** The upper part and the sign-extended lower part add up to the value,
    in 32 bits. *)
Lemma upper_plus_lower (val : Z) :
  u32 (((val + 2048) mod 2 ^ 32) / 2 ^ 12 * 2 ^ 12 + SignExtend64 12 (val mod 2 ^ 12)) = u32 val.
Proof.
  unfold u32, trunc, SignExtend64.
  rewrite Z.mod_mod by (pow2_consts; lia). change (12 - 1) with 11.
  destruct (Z.ltb_spec (val mod 2 ^ 12) (2 ^ 11)); zify_fields.
Qed.

End HiLoWords.

Section Reads.

Lemma readle_outside (n loc n' loc' : nat) (buf buf' : buffer) :
  same_outside loc' n' buf buf' ->
  (loc + n <= loc' \/ loc' + n' <= loc)%nat ->
  readle n buf' loc = readle n buf loc.
Proof.
  intros [Hlen Hsame] Hdisj. unfold readle. rewrite Hlen.
  destruct (Nat.leb_spec (loc + n) (length buf)) as [Hle|]; [|reflexivity].
  f_equal. f_equal. unfold buffer in *. apply list_eq. intros i.
  destruct (Nat.lt_ge_cases i n) as [Hi|Hi].
  - rewrite !lookup_take_lt, !lookup_drop by lia. apply Hsame. lia.
  - rewrite !lookup_take_ge by lia. reflexivity.
Qed.

Lemma writele_same_outside (n : nat) (buf : buffer) (loc : nat) (v : Z) :
  same_outside loc n buf (writele n buf loc v).
Proof.
  destruct (Nat.leb_spec (loc + n) (length buf)) as [Hle|Hgt].
  - apply (store_same_outside n buf _ loc v). unfold store.
    destruct (Nat.leb_spec (loc + n) (length buf)); [reflexivity | lia].
  - unfold writele. destruct (Nat.leb_spec (loc + n) (length buf)); [lia|].
    apply same_outside_refl.
Qed.

End Reads.

(** X6. The three relocations of an absolute or PC-relative address, one of
    the HI20 family on a U-type word and one each of the LO12_I and LO12_S
    families, keep the other bits of their words; the upper immediate plus
    the sign-extended lower immediate is the value modulo 2^32, the S-type
    and the I-type lower immediates agree, and on RV32 the HI20 range
    check never fires. *)
Theorem hi20_lo12_reassemble (config : Config)
    (isPCCRelative : option nat -> SymId -> bool)
    (buf : buffer) (loc_hi loc_i loc_s : nat) (rel_hi rel_i rel_s : Relocation)
    (w_hi w_i w_s val : Z) :
  is_hi20 (r_type rel_hi) = true ->
  is_lo12_i (r_type rel_i) = true ->
  is_lo12_s (r_type rel_s) = true ->
  read32le buf loc_hi = Some w_hi ->
  read32le buf loc_i = Some w_i ->
  read32le buf loc_s = Some w_s ->
  exists h i s d,
    relocate config isPCCRelative buf loc_hi rel_hi val = Done (write32le buf loc_hi h, d) /\
    relocate config isPCCRelative buf loc_i rel_i val = Done (write32le buf loc_i i, []) /\
    relocate config isPCCRelative buf loc_s rel_s val = Done (write32le buf loc_s s, []) /\
    Z.land h 0xFFF = Z.land w_hi 0xFFF /\
    Z.land i 0xFFFFF = Z.land w_i 0xFFFFF /\
    Z.land s 0x1FFF07F = Z.land w_s 0x1FFF07F /\
    u32 (U_imm h + I_imm i) = u32 val /\
    S_imm s = I_imm i /\
    (wordsize config = 4 -> d = []).
Proof.
  intros Hth Hti Hts Hrh Hri Hrs.
  exists (Z.lor (Z.land w_hi 0xFFF) (Z.land (u64 (val + 0x800)) 0xFFFFF000)),
         (Z.lor (Z.land w_i 0xFFFFF) (Z.shiftl (lo12 val) 20)),
         (Z.lor (Z.lor (Z.land w_s 0x1FFF07F) ((val mod 2 ^ 12) / 2 ^ 5 * 2 ^ 25))
                ((val mod 2 ^ 5) * 2 ^ 7)),
         (checkInt loc_hi
            (Z.shiftr (SignExtend64 (wordsize config * 8) (u64 (val + 0x800))) 12) 20).
  split; [|split; [|split; [|split; [|split; [|split; [|split; [|split]]]]]]].
  - rewrite <- (relocate_hi20_run _ _ _ _ _ Hrh).
    unfold relocate. destruct (r_type rel_hi); try discriminate Hth; reflexivity.
  - rewrite <- (relocate_lo12_i_run _ _ _ _ Hri).
    unfold relocate. destruct (r_type rel_i); try discriminate Hti; reflexivity.
  - apply relocate_lo12_s_run; assumption.
  - apply land_lor_masked. rewrite <- Z.land_assoc.
    change (Z.land 0xFFFFF000 0xFFF) with 0. apply Z.land_0_r.
  - apply land_lor_masked. rewrite Z.shiftl_mul_pow2 by lia.
    apply (field_outside_mask _ _ 12); [lia | lia | | reflexivity].
    rewrite lo12_mod. zify_fields.
  - rewrite <- Z.lor_assoc. apply land_lor_masked.
    rewrite (lor_high_low (val mod 2 ^ 12 / 2 ^ 5 * 2 ^ 25) _ 12) by zify_fields.
    apply land_add_outside with (k := 12); [lia | zify_fields | zify_fields | |].
    + apply (field_outside_mask _ _ 7); [lia | lia | zify_fields | reflexivity].
    + apply (field_outside_mask _ _ 5); [lia | lia | zify_fields | reflexivity].
  - rewrite U_imm_hi20, I_imm_lo12. apply upper_plus_lower.
  - now rewrite S_imm_lo12, I_imm_lo12.
  - intros Hw. rewrite Hw. apply checkInt_ok.
    rewrite Z.shiftr_div_pow2 by lia. unfold SignExtend64.
    change (4 * 8 - 1) with 31. change (4 * 8) with 32.
    destruct (Z.ltb_spec (u64 (val + 2048) mod 2 ^ 32) (2 ^ 31)); zify_fields.
Qed.

Lemma hi20_lo12_reassemble_witness :
  exists h i s d,
    relocate rv32_config never_pcc example_hilo_buffer 0 (example_reloc R_RISCV_HI20) 0x12345 =
      Done (write32le example_hilo_buffer 0 h, d) /\
    relocate rv32_config never_pcc example_hilo_buffer 4 (example_reloc R_RISCV_LO12_I) 0x12345 =
      Done (write32le example_hilo_buffer 4 i, []) /\
    relocate rv32_config never_pcc example_hilo_buffer 8 (example_reloc R_RISCV_LO12_S) 0x12345 =
      Done (write32le example_hilo_buffer 8 s, []) /\
    Z.land h 0xFFF = Z.land 0x37 0xFFF /\
    Z.land i 0xFFFFF = Z.land 0x13 0xFFFFF /\
    Z.land s 0x1FFF07F = Z.land 0x23 0x1FFF07F /\
    u32 (U_imm h + I_imm i) = u32 0x12345 /\
    S_imm s = I_imm i /\
    (wordsize rv32_config = 4 -> d = []).
Proof.
  apply (hi20_lo12_reassemble rv32_config never_pcc example_hilo_buffer 0 4 8
           (example_reloc R_RISCV_HI20) (example_reloc R_RISCV_LO12_I)
           (example_reloc R_RISCV_LO12_S) 0x37 0x13 0x23 0x12345); reflexivity.
Defined.

(** X7. A CALL, CALL_PLT or CCALL relocation patches the [auipc] and the
    [jalr] so that upper plus lower immediate is the value modulo 2^32 and
    reports nothing when the upper part fits 20 signed bits; when it does
    not, the range error is reported and the buffer is left as it was.  On
    RV32 the upper part always fits. *)
Theorem call_reaches_target (config : Config)
    (isPCCRelative : option nat -> SymId -> bool)
    (buf : buffer) (loc : nat) (rel : Relocation) (auipc jalr val : Z) :
  is_call (r_type rel) ->
  read32le buf loc = Some auipc ->
  read32le buf (loc + 4) = Some jalr ->
  let hi := Z.shiftr (SignExtend64 (wordsize config * 8) (u64 (val + 0x800))) 12 in
  (isInt 20 hi = true ->
   exists w0 w1 buf',
     relocate config isPCCRelative buf loc rel val = Done (buf', []) /\
     read32le buf' loc = Some w0 /\ read32le buf' (loc + 4) = Some w1 /\
     Z.land w0 0xFFF = Z.land auipc 0xFFF /\
     Z.land w1 0xFFFFF = Z.land jalr 0xFFFFF /\
     u32 (U_imm w0 + I_imm w1) = u32 val) /\
  (isInt 20 hi = false ->
   relocate config isPCCRelative buf loc rel val = Done (buf, [RangeError loc hi 20])) /\
  (wordsize config = 4 -> isInt 20 hi = true).
Proof.
  intros Ht Hr0 Hr1 hi.
  pose proof (readle_Some_bound _ _ _ _ Hr0) as Hlen0.
  pose proof (readle_Some_bound _ _ _ _ Hr1) as Hlen1.
  pose proof (read32le_range _ _ _ Hr0) as Hw0.
  pose proof (read32le_range _ _ _ Hr1) as Hw1.
  assert (relocate config isPCCRelative buf loc rel val =
          if isInt 20 hi
          then '(buf1, d1) ← relocate_hi20 (wordsize config * 8) buf loc val;
               '(buf2, d2) ← relocate_lo12_i buf1 (loc + 4) val;
               mret (buf2, checkInt loc hi 20 ++ d1 ++ d2)
          else mret (buf, checkInt loc hi 20)) as Hrun
    by (unfold relocate; destruct Ht as [-> | [-> | ->]]; reflexivity).
  split; [|split].
  - intros Hin. rewrite Hrun, Hin.
    set (w0 := Z.lor (Z.land auipc 0xFFF) (Z.land (u64 (val + 0x800)) 0xFFFFF000)).
    set (w1 := Z.lor (Z.land jalr 0xFFFFF) (Z.shiftl (lo12 val) 20)).
    assert (0 <= w0 < 2 ^ 32) as Hr_w0.
    { apply lor_range; [lia | apply land_range; pow2_consts; lia |].
      apply land_range; [lia | unfold u64, trunc; zify_fields | pow2_consts; lia]. }
    assert (0 <= w1 < 2 ^ 32) as Hr_w1.
    { apply lor_range; [lia | apply land_range; pow2_consts; lia |].
      rewrite Z.shiftl_mul_pow2, lo12_mod by lia. zify_fields. }
    assert (read32le (write32le buf loc w0) (loc + 4) = Some jalr) as Hr1'.
    { unfold read32le, write32le.
      rewrite (readle_outside 4 (loc + 4) 4 loc buf) by (apply writele_same_outside || lia).
      exact Hr1. }
    exists w0, w1, (write32le (write32le buf loc w0) (loc + 4) w1).
    split; [|split; [|split; [|split; [|split]]]].
    + rewrite (relocate_hi20_run _ _ _ _ _ Hr0). cbn [mbind outcome_bind obind].
      fold w0. rewrite (relocate_lo12_i_run _ _ _ _ Hr1'). cbn [mbind outcome_bind obind].
      fold w1 hi. unfold checkInt. rewrite Hin. reflexivity.
    + unfold read32le, write32le.
      rewrite (readle_outside 4 loc 4 (loc + 4) (writele 4 buf loc w0))
        by (apply writele_same_outside || lia).
      apply readle_writele_small; [exact Hlen0 | exact Hr_w0].
    + apply readle_writele_small; [|exact Hr_w1].
      unfold write32le. rewrite length_writele. exact Hlen1.
    + subst w0. apply land_lor_masked. rewrite <- Z.land_assoc.
      change (Z.land 0xFFFFF000 0xFFF) with 0. apply Z.land_0_r.
    + subst w1. apply land_lor_masked. rewrite Z.shiftl_mul_pow2 by lia.
      apply (field_outside_mask _ _ 12); [lia | lia | | reflexivity].
      rewrite lo12_mod. zify_fields.
    + subst w0 w1. rewrite U_imm_hi20, I_imm_lo12. apply upper_plus_lower.
  - intros Hout. rewrite Hrun, Hout. unfold checkInt. rewrite Hout. reflexivity.
  - intros Hw. apply isInt_spec. subst hi. rewrite Hw.
    rewrite Z.shiftr_div_pow2 by lia. unfold SignExtend64.
    change (4 * 8 - 1) with 31. change (4 * 8) with 32.
    destruct (Z.ltb_spec (u64 (val + 2048) mod 2 ^ 32) (2 ^ 31)); zify_fields.
Qed.

Lemma call_reaches_target_witness :
  exists w0 w1 buf',
    relocate rv32_config never_pcc example_call_buffer 0 (example_reloc R_RISCV_CALL) 0x12345 =
      Done (buf', []) /\
    read32le buf' 0 = Some w0 /\ read32le buf' (0 + 4) = Some w1 /\
    Z.land w0 0xFFF = Z.land 0x97 0xFFF /\
    Z.land w1 0xFFFFF = Z.land 0x80e7 0xFFFFF /\
    u32 (U_imm w0 + I_imm w1) = u32 0x12345.
Proof.
  apply (call_reaches_target rv32_config never_pcc example_call_buffer 0
           (example_reloc R_RISCV_CALL) 0x97 0x80e7 0x12345).
  - left. reflexivity.
  - reflexivity.
  - reflexivity.
  - reflexivity.
Defined.

Section AddSub.

Variable config : Config.
Variable isPCCRelative : option nat -> SymId -> bool.

Lemma byte_of_Z_of_byte (b : byte) (x : Z) : byte_of_Z (Z_of_byte b + 256 * x) = b.
Proof.
  unfold byte_of_Z. pose proof (Z_of_byte_range b) as Hb.
  replace ((Z_of_byte b + 256 * x) mod 256) with (Z_of_byte b) by zify_fields.
  unfold Z_of_byte. now rewrite N2Z.id, Byte.of_to_N.
Qed.

Lemma le_split_combine (l : list byte) : le_split (length l) (le_combine l) = l.
Proof.
  induction l as [|b t IH]; [reflexivity|].
  cbn [length le_split le_combine]. rewrite byte_of_Z_of_byte. f_equal.
  pose proof (Z_of_byte_range b) as Hb.
  replace ((Z_of_byte b + 256 * le_combine t) / 256) with (le_combine t) by zify_fields.
  exact IH.
Qed.

Lemma le_split_mod (n : nat) (v : Z) : le_split n (v mod 256 ^ Z.of_nat n) = le_split n v.
Proof.
  rewrite <- le_combine_split.
  pose proof (le_split_combine (le_split n v)) as H.
  now rewrite length_le_split in H.
Qed.

Lemma le_split_congr (n : nat) (v v' : Z) :
  v mod 256 ^ Z.of_nat n = v' mod 256 ^ Z.of_nat n -> le_split n v = le_split n v'.
Proof. intros H. now rewrite <- (le_split_mod n v), H, le_split_mod. Qed.

Lemma writele_writele (n : nat) (buf : buffer) (loc : nat) (a b : Z) :
  writele n (writele n buf loc a) loc b = writele n buf loc b.
Proof.
  unfold writele at 1 3. rewrite length_writele.
  destruct (Nat.leb_spec (loc + n) (length buf)) as [Hle|Hgt].
  - unfold writele. destruct (Nat.leb_spec (loc + n) (length buf)) as [_|]; [|lia].
    rewrite take_app_length' by (rewrite length_take; lia).
    f_equal. f_equal.
    rewrite app_assoc.
    now rewrite drop_app_length' by (rewrite length_app, length_take, length_le_split; lia).
  - unfold writele. destruct (Nat.leb_spec (loc + n) (length buf)); [lia | reflexivity].
Qed.

Lemma writele_readle (n : nat) (buf : buffer) (loc : nat) (w : Z) :
  readle n buf loc = Some w -> writele n buf loc w = buf.
Proof.
  intros Hr. pose proof (readle_Some_bound _ _ _ _ Hr) as Hle.
  unfold readle in Hr. unfold writele.
  destruct (Nat.leb_spec (loc + n) (length buf)) as [_|]; [|lia].
  injection Hr as <-.
  pose proof (le_split_combine (take n (drop loc buf))) as H.
  rewrite length_take, length_drop, Nat.min_l in H by lia. rewrite H.
  rewrite <- drop_drop, take_drop. apply take_drop.
Qed.

(** Writing [w + val] and then, on what is read back, taking [val] away
    again gives the buffer back; and the other way round. *)
Lemma add_then_sub (n : nat) (buf : buffer) (loc : nat) (w val : Z) (sign : Z) :
  readle n buf loc = Some w ->
  exists w1,
    readle n (writele n buf loc (w + sign * val)) loc = Some w1 /\
    writele n (writele n buf loc (w + sign * val)) loc (w1 - sign * val) = buf.
Proof.
  intros Hr. pose proof (readle_Some_bound _ _ _ _ Hr) as Hle.
  eexists. split; [apply readle_writele; exact Hle|].
  rewrite writele_writele, le_combine_split.
  rewrite <- (writele_readle _ _ _ _ Hr) at 2.
  unfold writele. destruct (Nat.leb_spec (loc + n) (length buf)); [|reflexivity].
  f_equal. f_equal. apply le_split_congr.
  assert (0 < 256 ^ Z.of_nat n) by (apply Z.pow_pos_nonneg; lia).
  rewrite Zminus_mod_idemp_l. f_equal. lia.
Qed.

End AddSub.

Section AddSubPairs.

Variable config : Config.
Variable isPCCRelative : option nat -> SymId -> bool.

Lemma add_sub_width_cases (a s : RelType) (n : nat) :
  add_sub_width a s = Some n ->
  (a = R_RISCV_ADD8 /\ s = R_RISCV_SUB8 /\ n = 1%nat) \/
  (a = R_RISCV_ADD16 /\ s = R_RISCV_SUB16 /\ n = 2%nat) \/
  (a = R_RISCV_ADD32 /\ s = R_RISCV_SUB32 /\ n = 4%nat) \/
  (a = R_RISCV_ADD64 /\ s = R_RISCV_SUB64 /\ n = 8%nat).
Proof.
  destruct a; try discriminate; destruct s; try discriminate;
    intros [= <-]; auto 10.
Qed.

Lemma readle_in_bounds (n : nat) (buf : buffer) (loc : nat) :
  (loc + n <= length buf)%nat -> exists w, readle n buf loc = Some w.
Proof.
  intros H. unfold readle. destruct (Nat.leb_spec (loc + n) (length buf)); [eauto | lia].
Qed.

(** Adding and subtracting in place, as [relocate] does for a pair of
    kinds of width [n]. *)
Lemma relocate_add_sub (a s : RelType) (n : nat) (buf : buffer) (loc : nat)
    (rel : Relocation) (w val : Z) :
  add_sub_width a s = Some n ->
  readle n buf loc = Some w ->
  (r_type rel = a ->
   relocate config isPCCRelative buf loc rel val = Done (writele n buf loc (w + 1 * val), [])) /\
  (r_type rel = s ->
   relocate config isPCCRelative buf loc rel val = Done (writele n buf loc (w + -1 * val), [])).
Proof.
  intros Hw Hr. pose proof (readle_Some_bound _ _ _ _ Hr) as Hlen.
  replace (w + 1 * val) with (w + val) by lia.
  replace (w + -1 * val) with (w - val) by lia.
  destruct (add_sub_width_cases _ _ _ Hw) as [(-> & -> & ->)|[(-> & -> & ->)|[(-> & -> & ->)|(-> & -> & ->)]]];
    split; intros Ht; unfold relocate; rewrite Ht, (load_ok _ _ _ _ Hr);
    cbn [mbind outcome_bind obind]; rewrite store_ok by exact Hlen; reflexivity.
Qed.

End AddSubPairs.

(** X8. An ADDn relocation followed by the SUBn relocation of the same width
    and value at the same place, or the two the other way round, give the
    buffer back as it was, for n = 8, 16, 32 and 64. *)
Theorem add_sub_cancel (config : Config) (isPCCRelative : option nat -> SymId -> bool)
    (buf : buffer) (loc : nat) (ra rs : Relocation) (n : nat) (val : Z) :
  add_sub_width (r_type ra) (r_type rs) = Some n ->
  (loc + n <= length buf)%nat ->
  (exists buf1,
     relocate config isPCCRelative buf loc ra val = Done (buf1, []) /\
     relocate config isPCCRelative buf1 loc rs val = Done (buf, [])) /\
  (exists buf2,
     relocate config isPCCRelative buf loc rs val = Done (buf2, []) /\
     relocate config isPCCRelative buf2 loc ra val = Done (buf, [])).
Proof.
  intros Hw Hlen. destruct (readle_in_bounds n buf loc Hlen) as [w Hr].
  split.
  - destruct (add_then_sub n buf loc w val 1 Hr) as (w1 & Hr1 & Hback).
    exists (writele n buf loc (w + 1 * val)). split.
    + now apply (proj1 (relocate_add_sub config isPCCRelative _ _ _ _ _ ra _ _ Hw Hr)).
    + rewrite (proj2 (relocate_add_sub config isPCCRelative _ _ _ _ _ rs _ val Hw Hr1) eq_refl).
      replace (w1 + -1 * val) with (w1 - 1 * val) by lia. now rewrite Hback.
  - destruct (add_then_sub n buf loc w val (-1) Hr) as (w1 & Hr1 & Hback).
    exists (writele n buf loc (w + -1 * val)). split.
    + now apply (proj2 (relocate_add_sub config isPCCRelative _ _ _ _ _ rs _ _ Hw Hr)).
    + rewrite (proj1 (relocate_add_sub config isPCCRelative _ _ _ _ _ ra _ val Hw Hr1) eq_refl).
      replace (w1 + 1 * val) with (w1 - -1 * val) by lia. now rewrite Hback.
Qed.

Lemma add_sub_cancel_witness :
  (exists buf1,
     relocate rv32_config never_pcc (le_split 4 7) 0 (example_reloc R_RISCV_ADD32) 5 =
       Done (buf1, []) /\
     relocate rv32_config never_pcc buf1 0 (example_reloc R_RISCV_SUB32) 5 =
       Done (le_split 4 7, [])) /\
  (exists buf2,
     relocate rv32_config never_pcc (le_split 4 7) 0 (example_reloc R_RISCV_SUB32) 5 =
       Done (buf2, []) /\
     relocate rv32_config never_pcc buf2 0 (example_reloc R_RISCV_ADD32) 5 =
       Done (le_split 4 7, [])).
Proof.
  apply (add_sub_cancel rv32_config never_pcc (le_split 4 7) 0
           (example_reloc R_RISCV_ADD32) (example_reloc R_RISCV_SUB32) 4 5).
  - reflexivity.
  - vm_compute. lia.
Defined.

(** ** CHERIoT compartment relocations and [c.lui] *)

Section Compartment.

Variable config : Config.
Variable isPCCRelative : option nat -> SymId -> bool.

Lemma u32_land_ones (x : Z) : u32 x = Z.land x (Z.ones 32).
Proof. unfold u32, trunc. now rewrite Z.land_ones by lia. Qed.

Lemma u32_lor (a b : Z) : u32 (Z.lor a b) = Z.lor (u32 a) (u32 b).
Proof. rewrite !u32_land_ones. apply Z.land_lor_distr_l. Qed.

Lemma write32le_u32 (buf : buffer) (loc : nat) (v : Z) :
  write32le buf loc (u32 v) = write32le buf loc v.
Proof.
  unfold write32le, writele. destruct (Nat.leb _ _); [|reflexivity].
  f_equal. f_equal. apply (le_split_mod 4 v).
Qed.

(** [x & (((1 << n) - 1) << k)]: the field of [n] bits at position [k], in
    place. *)
Lemma land_field_mask (x k n : Z) :
  0 <= k -> 0 <= n ->
  Z.land x (Z.shiftl (Z.ones n) k) = (x / 2 ^ k) mod 2 ^ n * 2 ^ k.
Proof.
  intros Hk Hn.
  assert (Z.land x (Z.shiftl (Z.ones n) k) =
          Z.shiftl (Z.land (Z.shiftr x k) (Z.ones n)) k) as ->.
  { apply Z.bits_inj'. intros i Hi. rewrite Z.land_spec.
    destruct (Z.lt_ge_cases i k).
    - rewrite !Z.shiftl_spec_low by lia. apply andb_false_r.
    - rewrite !Z.shiftl_spec, Z.land_spec, Z.shiftr_spec by lia.
      now replace (i - k + k) with i by lia. }
  now rewrite Z.land_ones, Z.shiftr_div_pow2, Z.shiftl_mul_pow2 by lia.
Qed.

(** The value [relocate] puts into the immediate of a PCC-relative
    [R_RISCV_CHERIOT_COMPARTMENT_LO_I]. *)
Lemma compartment_lo_value (val : Z) :
  0 <= val < 2 ^ 64 ->
  let val' := if (0 <=? s64 val) || (Z.land val 0x7ff =? 0)
              then Z.land val 0x7ff
              else Z.lor (Z.land (u64 (-1)) (u64 (Z.lnot 0x7ff))) (Z.land val 0x7ff) in
  s64 val' = Z.rem (s64 val) 2048 /\ val' mod 2 ^ 12 = Z.rem (s64 val) 2048 mod 2 ^ 12.
Proof.
  intros Hv. cbn zeta.
  change 0x7ff with (2 ^ 11 - 1). rewrite !land_low_mask by lia.
  change (Z.land (u64 (-1)) (u64 (Z.lnot (2 ^ 11 - 1)))) with (2 ^ 64 - 2 ^ 11).
  assert (0 <= val mod 2 ^ 11 < 2 ^ 11) as Hlow by (apply Z.mod_pos_bound; lia).
  destruct (s64_cases val Hv) as [[Hlt Es]|[Hge Es]]; rewrite Es.
  - assert ((0 <=? val) = true) as -> by (apply Z.leb_le; lia). cbn [orb].
    assert (s64 (val mod 2 ^ 11) = val mod 2 ^ 11) as ->.
    { unfold s64, SignExtend64. rewrite Z.mod_small by (pow2_consts; lia).
      destruct (Z.ltb_spec (val mod 2 ^ 11) (2 ^ (64 - 1))); [reflexivity|].
      pow2_consts; lia. }
    rewrite Z.rem_mod_nonneg by lia. split; reflexivity.
  - assert ((0 <=? val - 2 ^ 64) = false) as -> by (apply Z.leb_gt; pow2_consts; lia).
    cbn [orb]. destruct (Z.eqb_spec (val mod 2 ^ 11) 0) as [E0|Hne].
    + rewrite E0. change (s64 0) with 0.
      assert (Z.rem (val - 2 ^ 64) 2048 = 0) as ->; [|split; reflexivity].
      pow2_consts. Z.to_euclidean_division_equations. lia.
    + rewrite (lor_high_low _ _ 11) by (try lia; reflexivity).
      assert (Z.rem (val - 2 ^ 64) 2048 = val mod 2 ^ 11 - 2 ^ 11) as ->
        by (pow2_consts; Z.to_euclidean_division_equations; lia).
      split.
      * unfold s64, SignExtend64. rewrite Z.mod_small by (pow2_consts; lia).
        destruct (Z.ltb_spec (2 ^ 64 - 2 ^ 11 + val mod 2 ^ 11) (2 ^ (64 - 1)));
          pow2_consts; lia.
      * zify_fields.
Qed.

End Compartment.

Section CompartmentHi.

Variable config : Config.
Variable isPCCRelative : option nat -> SymId -> bool.

Lemma s64_u64 (x : Z) : - 2 ^ 63 <= x < 2 ^ 63 -> s64 (u64 x) = x.
Proof.
  intros H. unfold s64, SignExtend64, u64, trunc.
  rewrite Z.mod_mod by (pow2_consts; lia). change (64 - 1) with 63.
  destruct (Z.ltb_spec (x mod 2 ^ 64) (2 ^ 63)); zify_fields.
Qed.

(** The value [relocate] puts into the immediate of a PCC-relative
    [R_RISCV_CHERIOT_COMPARTMENT_HI]: the quotient by 2048, rounded
    towards zero. *)
Lemma compartment_hi_value (val : Z) :
  0 <= val < 2 ^ 64 ->
  let val1 := if s64 val <? 0
              then Z.land (u64 (val + 0x7ff)) (u64 (Z.lnot 0x7ff)) else val in
  let val2 := u64 (Z.shiftr (s64 val1) 11) in
  s64 val2 = Z.quot (s64 val) 2048.
Proof.
  intros Hv. cbn zeta.
  change (u64 (Z.lnot 0x7ff)) with (Z.shiftl (Z.ones 53) 11).
  rewrite land_field_mask by lia.
  destruct (s64_cases val Hv) as [[Hlt Es]|[Hge Es]]; rewrite Es.
  - assert ((val <? 0) = false) as -> by (apply Z.ltb_ge; lia).
    rewrite Es, Z.shiftr_div_pow2 by lia.
    rewrite s64_u64 by zify_fields.
    pow2_consts. Z.to_euclidean_division_equations. lia.
  - assert ((val - 2 ^ 64 <? 0) = true) as -> by (apply Z.ltb_lt; lia).
    set (x := u64 (val + 2047) / 2 ^ 11 mod 2 ^ 53 * 2 ^ 11).
    assert ((x = 2 ^ 64 + 2048 * Z.quot (val - 2 ^ 64) 2048 /\
             - 2 ^ 52 <= Z.quot (val - 2 ^ 64) 2048 < 0) \/
            (x = 0 /\ Z.quot (val - 2 ^ 64) 2048 = 0)) as Hx.
    { subst x. unfold u64, trunc.
      destruct (Z.lt_ge_cases (val + 2047) (2 ^ 64)) as [Hs|Hs].
      - left. rewrite (Z.mod_small (val + 2047)) by lia.
        rewrite (Z.mod_small (_ / _)) by zify_fields.
        pow2_consts. Z.to_euclidean_division_equations. lia.
      - right.
        assert ((val + 2047) mod 2 ^ 64 = val + 2047 - 2 ^ 64) as ->
          by (symmetry; apply (Z.mod_unique _ _ 1); pow2_consts; lia).
        rewrite (Z.div_small (val + 2047 - 2 ^ 64)) by (pow2_consts; lia).
        split; [reflexivity|].
        apply Z.quot_small_iff; [lia|]. rewrite Z.abs_neq by lia. cbn. pow2_consts. lia. }
    rewrite Z.shiftr_div_pow2 by lia.
    destruct Hx as [[Hx Hq]|[Hx Hq]]; rewrite Hx.
    + assert (s64 (2 ^ 64 + 2048 * Z.quot (val - 2 ^ 64) 2048) =
              2048 * Z.quot (val - 2 ^ 64) 2048) as ->.
      { unfold s64, SignExtend64. change (64 - 1) with 63.
        assert ((2 ^ 64 + 2048 * Z.quot (val - 2 ^ 64) 2048) mod 2 ^ 64 =
                2 ^ 64 + 2048 * Z.quot (val - 2 ^ 64) 2048) as ->
          by (apply Z.mod_small; pow2_consts; lia).
        destruct (Z.ltb_spec (2 ^ 64 + 2048 * Z.quot (val - 2 ^ 64) 2048) (2 ^ 63));
          pow2_consts; lia. }
      rewrite Z.mul_comm, Z.div_mul by lia.
      apply s64_u64. pow2_consts. lia.
    + change (s64 0) with 0. rewrite Hq. reflexivity.
Qed.

End CompartmentHi.

(** X9. A PCC-relative CHERIOT_COMPARTMENT_LO_I relocation never reports a
    range error: it keeps the low 20 bits of the word and writes, as the
    I-type immediate, the remainder of the signed value by 2048 (the sign
    of the value). *)
Theorem compartment_lo_i_pcc_relative (config : Config)
    (isPCCRelative : option nat -> SymId -> bool)
    (buf : buffer) (loc : nat) (rel : Relocation) (w val : Z) :
  r_type rel = R_RISCV_CHERIOT_COMPARTMENT_LO_I ->
  isPCCRelative (Some loc) (r_sym rel) = true ->
  read32le buf loc = Some w ->
  0 <= val < 2 ^ 64 ->
  exists l,
    relocate config isPCCRelative buf loc rel val = Done (write32le buf loc l, []) /\
    read32le (write32le buf loc l) loc = Some l /\
    Z.land l 0xFFFFF = Z.land w 0xFFFFF /\
    I_imm l = Z.rem (s64 val) 2048.
Proof.
  intros Ht Hpcc Hr Hv.
  pose proof (read32le_range _ _ _ Hr) as Hw.
  pose proof (readle_Some_bound _ _ _ _ Hr) as Hlen.
  destruct (compartment_lo_value val Hv) as [Hs Hm].
  set (val' := if (0 <=? s64 val) || (Z.land val 0x7ff =? 0)
               then Z.land val 0x7ff
               else Z.lor (Z.land (u64 (-1)) (u64 (Z.lnot 0x7ff))) (Z.land val 0x7ff)) in *.
  assert (- 2048 < Z.rem (s64 val) 2048 < 2048) as Hrem
    by (Z.to_euclidean_division_equations; lia).
  set (l := Z.lor (Z.land w 0xFFFFF) ((val' mod 2 ^ 12) * 2 ^ 20)).
  assert (u32 (Z.lor (Z.land w 0x000fffff) (Z.shiftl val' 20)) = l) as Hl.
  { rewrite u32_lor. subst l. f_equal.
    - apply u32_small. apply land_range; pow2_consts; lia.
    - rewrite Z.shiftl_mul_pow2 by lia. unfold u32, trunc. zify_fields. }
  exists l. split; [|split; [|split]].
  - unfold relocate. rewrite Ht, Hpcc. fold val'.
    rewrite (load_ok _ _ _ _ Hr). cbn [mbind outcome_bind obind].
    rewrite store_ok by exact Hlen. cbn [mbind outcome_bind obind mret outcome_ret].
    fold write32le. rewrite <- write32le_u32, Hl.
    rewrite checkInt_ok by (rewrite Hs; pow2_consts; lia). reflexivity.
  - apply readle_writele_small; [exact Hlen|]. change (256 ^ Z.of_nat 4) with (2 ^ 32).
    subst l. apply lor_range; [lia | apply land_range; pow2_consts; lia | zify_fields].
  - subst l. apply land_lor_masked.
    apply (field_outside_mask _ _ 12); [lia | lia | zify_fields | reflexivity].
  - unfold I_imm. subst l.
    rewrite insn_bits_lor, insn_bits_land_mask, Z.lor_0_l by (lia || reflexivity).
    rewrite insn_bits_div by lia.
    replace ((val' mod 2 ^ 12 * 2 ^ 20 / 2 ^ 20) mod 2 ^ (31 - 20 + 1))
      with (Z.rem (s64 val) 2048 mod 2 ^ 12) by (rewrite <- Hm; zify_fields).
    rewrite SignExtend64_mod by lia.
    unfold SignExtend64. change (12 - 1) with 11.
    destruct (Z.ltb_spec (Z.rem (s64 val) 2048 mod 2 ^ 12) (2 ^ 11)); zify_fields.
Qed.

Lemma compartment_lo_i_pcc_relative_witness :
  exists l,
    relocate rv32_config always_pcc (le_split 4 0x13) 0
      (example_reloc R_RISCV_CHERIOT_COMPARTMENT_LO_I) (u64 (-5)) =
      Done (write32le (le_split 4 0x13) 0 l, []) /\
    read32le (write32le (le_split 4 0x13) 0 l) 0 = Some l /\
    Z.land l 0xFFFFF = Z.land 0x13 0xFFFFF /\
    I_imm l = Z.rem (s64 (u64 (-5))) 2048.
Proof.
  apply (compartment_lo_i_pcc_relative rv32_config always_pcc (le_split 4 0x13) 0
           (example_reloc R_RISCV_CHERIOT_COMPARTMENT_LO_I) 0x13 (u64 (-5))).
  - reflexivity.
  - reflexivity.
  - reflexivity.
  - vm_compute. split; [discriminate | reflexivity].
Defined.

(** X10. A PCC-relative CHERIOT_COMPARTMENT_HI relocation whose signed value
    is within +-2^30 sets the opcode to [auipcc], keeps rd, and writes as
    the 20-bit immediate the quotient of the value by 2048 rounded towards
    zero: with the remainder the LO_I relocation writes, this is the value.
    At most a warning about the old opcode is reported. *)
Theorem compartment_hi_pcc_relative (config : Config)
    (isPCCRelative : option nat -> SymId -> bool)
    (buf : buffer) (loc : nat) (rel : Relocation) (w val : Z) :
  r_type rel = R_RISCV_CHERIOT_COMPARTMENT_HI ->
  isPCCRelative (Some loc) (r_sym rel) = true ->
  read32le buf loc = Some w ->
  0 <= val < 2 ^ 64 ->
  - 2 ^ 30 <= s64 val < 2 ^ 30 ->
  exists h dw,
    relocate config isPCCRelative buf loc rel val = Done (write32le buf loc h, dw) /\
    read32le (write32le buf loc h) loc = Some h /\
    (dw = [] \/ exists msg, dw = [Warning msg]) /\
    Z.land h 0x7F = Op.AUIPCC /\
    Z.land h 0xF80 = Z.land w 0xF80 /\
    SignExtend64 20 (insn_bits h 31 12) = Z.quot (s64 val) 2048 /\
    SignExtend64 20 (insn_bits h 31 12) * 2048 + Z.rem (s64 val) 2048 = s64 val.
Proof.
  intros Ht Hpcc Hr Hv Hrange.
  pose proof (read32le_range _ _ _ Hr) as Hw.
  pose proof (readle_Some_bound _ _ _ _ Hr) as Hlen.
  pose proof (compartment_hi_value val Hv) as Hq. cbn zeta in Hq.
  set (val2 := u64 (Z.shiftr (s64 (if s64 val <? 0
                                   then Z.land (u64 (val + 0x7ff)) (u64 (Z.lnot 0x7ff))
                                   else val)) 11)) in *.
  assert (- 2 ^ 19 <= Z.quot (s64 val) 2048 < 2 ^ 19) as Hqr
    by (pow2_consts; Z.to_euclidean_division_equations; lia).
  assert (0 <= val2 < 2 ^ 64) as Hv2
    by (subst val2; unfold u64, trunc; apply Z.mod_pos_bound; pow2_consts; lia).
  assert (relocate config isPCCRelative buf loc rel val =
          Done (write32le buf loc (Z.lor (Z.lor (Z.land w 0x00000f80) (Z.shiftl val2 12))
                                     Op.AUIPCC),
                (if negb (Z.land w 0x7f =? Op.AUIPCC) && negb (Z.land w 0x7f =? Op.AUICGP)
                 then [Warning "R_RISCV_CHERIOT_COMPARTMENT_HI relocation applied to instruction with unexpected opcode"]
                 else []) ++ checkInt loc (s64 val2) 20)) as Hrun.
  { unfold relocate. rewrite Ht, Hpcc. fold val2.
    rewrite (load_ok _ _ _ _ Hr). cbn [mbind outcome_bind obind].
    rewrite store_ok by exact Hlen. reflexivity. }
  clearbody val2.
  assert (val2 mod 2 ^ 20 = Z.quot (s64 val) 2048 mod 2 ^ 20) as Hm.
  { rewrite <- Hq. destruct (s64_cases val2 Hv2) as [[_ ->]|[_ ->]]; zify_fields. }
  set (h := Z.lor (Z.lor (Z.land w 0xF80) ((val2 mod 2 ^ 20) * 2 ^ 12)) Op.AUIPCC).
  assert (u32 (Z.lor (Z.lor (Z.land w 0x00000f80) (Z.shiftl val2 12)) Op.AUIPCC) = h) as Hh.
  { rewrite !u32_lor. subst h. change (u32 Op.AUIPCC) with Op.AUIPCC. f_equal. f_equal.
    - apply u32_small. apply land_range; pow2_consts; lia.
    - rewrite Z.shiftl_mul_pow2 by lia. unfold u32, trunc. zify_fields. }
  assert (insn_bits h 31 12 = val2 mod 2 ^ 20) as Himm.
  { subst h. rewrite !insn_bits_lor, insn_bits_land_mask by (lia || reflexivity).
    change (insn_bits Op.AUIPCC 31 12) with 0. rewrite Z.lor_0_l, Z.lor_0_r.
    rewrite insn_bits_div by lia. zify_fields. }
  assert (SignExtend64 20 (insn_bits h 31 12) = Z.quot (s64 val) 2048) as Hsx.
  { rewrite Himm, Hm, SignExtend64_mod by lia.
    unfold SignExtend64. change (20 - 1) with 19.
    destruct (Z.ltb_spec (Z.quot (s64 val) 2048 mod 2 ^ 20) (2 ^ 19)); zify_fields. }
  exists h.
  eexists. split; [|split; [|split; [|split; [|split; [|split]]]]].
  - rewrite Hrun, <- write32le_u32, Hh. reflexivity.
  - apply readle_writele_small; [exact Hlen|]. change (256 ^ Z.of_nat 4) with (2 ^ 32).
    subst h. apply lor_range; [lia | | unfold Op.AUIPCC; pow2_consts; lia].
    apply lor_range; [lia | apply land_range; pow2_consts; lia | zify_fields].
  - rewrite checkInt_ok by (rewrite Hq; exact Hqr). rewrite app_nil_r.
    destruct (negb _ && negb _); [right; eauto | now left].
  - subst h. rewrite !Z.land_lor_distr_l, <- Z.land_assoc.
    change (Z.land 0xF80 0x7F) with 0. rewrite Z.land_0_r, Z.lor_0_l.
    rewrite (field_outside_mask _ _ 20) by (lia || zify_fields || reflexivity).
    reflexivity.
  - subst h. rewrite !Z.land_lor_distr_l, <- Z.land_assoc.
    change (Z.land 0xF80 0xF80) with 0xF80.
    rewrite (field_outside_mask _ _ 20) by (lia || zify_fields || reflexivity).
    change (Z.land Op.AUIPCC 0xF80) with 0. now rewrite !Z.lor_0_r.
  - exact Hsx.
  - rewrite Hsx. pose proof (Z.quot_rem' (s64 val) 2048). lia.
Qed.

Lemma compartment_hi_pcc_relative_witness :
  exists h dw,
    relocate rv32_config always_pcc (le_split 4 0x17) 0
      (example_reloc R_RISCV_CHERIOT_COMPARTMENT_HI) (u64 (-5000)) =
      Done (write32le (le_split 4 0x17) 0 h, dw) /\
    read32le (write32le (le_split 4 0x17) 0 h) 0 = Some h /\
    (dw = [] \/ exists msg, dw = [Warning msg]) /\
    Z.land h 0x7F = Op.AUIPCC /\
    Z.land h 0xF80 = Z.land 0x17 0xF80 /\
    SignExtend64 20 (insn_bits h 31 12) = Z.quot (s64 (u64 (-5000))) 2048 /\
    SignExtend64 20 (insn_bits h 31 12) * 2048 + Z.rem (s64 (u64 (-5000))) 2048 =
      s64 (u64 (-5000)).
Proof.
  apply (compartment_hi_pcc_relative rv32_config always_pcc (le_split 4 0x17) 0
           (example_reloc R_RISCV_CHERIOT_COMPARTMENT_HI) 0x17 (u64 (-5000))).
  - reflexivity.
  - reflexivity.
  - reflexivity.
  - vm_compute. split; [discriminate | reflexivity].
  - vm_compute. split; [discriminate | reflexivity].
Defined.

(** X11. An RVC_LUI relocation whose upper part fits 6 signed bits reports
    nothing and writes a word whose CI immediate is that upper part; an
    upper part of zero turns the instruction into [c.li rd, 0], any other
    keeps the bits under the mask [0xEF83]. *)
Theorem rvc_lui_immediate (config : Config)
    (isPCCRelative : option nat -> SymId -> bool)
    (buf : buffer) (loc : nat) (rel : Relocation) (w val : Z) :
  r_type rel = R_RISCV_RVC_LUI ->
  wordsize config = 4 \/ wordsize config = 8 ->
  read16le buf loc = Some w ->
  let imm := Z.shiftr (SignExtend64 (wordsize config * 8) (u64 (val + 0x800))) 12 in
  - 2 ^ 5 <= imm < 2 ^ 5 ->
  exists w',
    relocate config isPCCRelative buf loc rel val = Done (write16le buf loc w', []) /\
    read16le (write16le buf loc w') loc = Some w' /\
    CI_imm w' = imm /\
    (imm = 0 -> w' = Z.lor (Z.land w 0x0F83) 0x4000) /\
    (imm <> 0 -> Z.land w' 0xEF83 = Z.land w 0xEF83).
Proof.
  intros Ht Hws Hr imm Hrange.
  pose proof (readle_range _ _ _ _ Hr) as Hw. change (256 ^ Z.of_nat 2) with (2 ^ 16) in Hw.
  pose proof (readle_Some_bound _ _ _ _ Hr) as Hlen.
  set (x := u64 (val + 0x800)) in *.
  assert (0 <= x < 2 ^ 64) as Hx by (subst x; unfold u64, trunc; apply Z.mod_pos_bound; pow2_consts; lia).
  set (f17 := (x mod 2 ^ 18) / 2 ^ 17). set (f16_12 := (x mod 2 ^ 17) / 2 ^ 12).
  assert (extractBits x 17 17 = f17) as E17 by (apply extractBits_div; lia).
  assert (extractBits x 16 12 = f16_12) as E16 by (apply extractBits_div; lia).
  assert (0 <= f17 < 2) by (subst f17; zify_fields).
  assert (0 <= f16_12 < 2 ^ 5) by (subst f16_12; zify_fields).
  assert (imm mod 2 ^ 6 = f17 * 2 ^ 5 + f16_12) as Himm.
  { subst imm f17 f16_12. rewrite Z.shiftr_div_pow2 by lia. unfold SignExtend64.
    destruct Hws as [-> | ->].
    - change (4 * 8 - 1) with 31. change (4 * 8) with 32.
      destruct (Z.ltb_spec (x mod 2 ^ 32) (2 ^ 31)); zify_fields.
    - change (8 * 8 - 1) with 63. change (8 * 8) with 64.
      destruct (Z.ltb_spec (x mod 2 ^ 64) (2 ^ 63)); zify_fields. }
  assert (SignExtend64 6 (f17 * 2 ^ 5 + f16_12) = imm) as Hsx.
  { rewrite <- Himm, SignExtend64_mod by lia. unfold SignExtend64. change (6 - 1) with 5.
    destruct (Z.ltb_spec (imm mod 2 ^ 6) (2 ^ 5)); zify_fields. }
  assert (relocate config isPCCRelative buf loc rel val =
          Done (write16le buf loc
                  (if imm =? 0 then Z.lor (Z.land w 0x0F83) 0x4000
                   else Z.lor (Z.lor (Z.land w 0xEF83) (f17 * 2 ^ 12)) (f16_12 * 2 ^ 2)),
                [])) as Hrun.
  { unfold relocate. rewrite Ht. fold x. fold imm.
    rewrite (load_ok _ _ _ _ Hr). cbn [mbind outcome_bind obind].
    rewrite checkInt_ok by exact Hrange.
    destruct (imm =? 0).
    - rewrite store_ok by exact Hlen. reflexivity.
    - rewrite store_ok by exact Hlen. rewrite E17, E16, !Z.shiftl_mul_pow2 by lia.
      rewrite !u16_small by (pow2_consts; lia). reflexivity. }
  clearbody f17 f16_12 imm.
  eexists. split; [exact Hrun|].
  destruct (Z.eqb_spec imm 0) as [E0|Hne].
  - split; [|split; [|split]].
    + apply readle_writele_small; [exact Hlen|]. change (256 ^ Z.of_nat 2) with (2 ^ 16).
      apply lor_range; [lia | apply land_range; pow2_consts; lia | pow2_consts; lia].
    + unfold CI_imm. rewrite !insn_bits_lor, !insn_bits_land_mask by (lia || reflexivity).
      rewrite E0. reflexivity.
    + reflexivity.
    + intros Hc. contradiction.
  - split; [|split; [|split]].
    + apply readle_writele_small; [exact Hlen|]. change (256 ^ Z.of_nat 2) with (2 ^ 16).
      apply lor_range; [lia | | pow2_consts; lia].
      apply lor_range; [lia | apply land_range; pow2_consts; lia | pow2_consts; lia].
    + unfold CI_imm. rewrite <- Hsx. f_equal.
      rewrite <- Z.lor_assoc.
      rewrite (lor_high_low (f17 * 2 ^ 12) _ 12) by zify_fields.
      rewrite !insn_bits_lor, !insn_bits_land_mask, !Z.lor_0_l by (lia || reflexivity).
      rewrite !insn_bits_div, Z.shiftl_mul_pow2 by lia. zify_fields.
    + intros Hc. contradiction.
    + intros _. rewrite <- Z.lor_assoc. apply land_lor_masked.
      rewrite (lor_high_low (f17 * 2 ^ 12) _ 12) by zify_fields.
      apply land_add_outside with (k := 12); [lia | zify_fields | zify_fields | |].
      * apply (field_outside_mask _ _ 1); [lia | lia | pow2_consts; lia | reflexivity].
      * apply (field_outside_mask _ _ 5); [lia | lia | pow2_consts; lia | reflexivity].
Qed.

Lemma rvc_lui_immediate_witness :
  exists w',
    relocate rv32_config never_pcc (le_split 2 0x6081) 0 (example_reloc R_RISCV_RVC_LUI) 0x5000 =
      Done (write16le (le_split 2 0x6081) 0 w', []) /\
    read16le (write16le (le_split 2 0x6081) 0 w') 0 = Some w' /\
    CI_imm w' = 5 /\
    (5 = 0 -> w' = Z.lor (Z.land 0x6081 0x0F83) 0x4000) /\
    (5 <> 0 -> Z.land w' 0xEF83 = Z.land 0x6081 0xEF83).
Proof.
  apply (rvc_lui_immediate rv32_config never_pcc (le_split 2 0x6081) 0
           (example_reloc R_RISCV_RVC_LUI) 0x6081 0x5000).
  - reflexivity.
  - left. reflexivity.
  - reflexivity.
  - vm_compute. split; [discriminate | reflexivity].
Defined.

(** ** Implicit addends and the PLT *)

(** X12. What [relocate] stores for R_RISCV_32 and R_RISCV_64, [getImplicitAddend]
    reads back sign-extended from 32 and 64 bits; what [writeIgotPlt]
    stores when addends are written, it reads back for R_RISCV_IRELATIVE,
    zero-extended on RV32.  Without [writeAddends], [writeIgotPlt] writes
    nothing. *)
Theorem implicit_addend_reads_back (config : Config)
    (isPCCRelative : option nat -> SymId -> bool)
    (buf : buffer) (loc : nat) (rel32 rel64 : Relocation) (val : Z) :
  r_type rel32 = R_RISCV_32 ->
  r_type rel64 = R_RISCV_64 ->
  (loc + 8 <= length buf)%nat ->
  (exists buf',
     relocate config isPCCRelative buf loc rel32 val = Done (buf', []) /\
     getImplicitAddend config buf' loc R_RISCV_32 = Done (SignExtend64 32 val, [])) /\
  (exists buf',
     relocate config isPCCRelative buf loc rel64 val = Done (buf', []) /\
     getImplicitAddend config buf' loc R_RISCV_64 = Done (SignExtend64 64 val, [])) /\
  (exists buf',
     writeIgotPlt config val buf loc = Done buf' /\
     (writeAddends config = false -> buf' = buf) /\
     (writeAddends config = true ->
      getImplicitAddend config buf' loc R_RISCV_IRELATIVE =
        Done (if is64 config then SignExtend64 64 val else u32 val, []))).
Proof.
  intros H32 H64 Hlen.
  split; [|split].
  - exists (writele 4 buf loc val). split.
    + unfold relocate. rewrite H32, store_ok by lia. reflexivity.
    + unfold getImplicitAddend.
      rewrite (load_ok 4 _ loc _ (readle_writele 4 buf loc val ltac:(lia))).
      cbn [mbind outcome_bind obind]. rewrite le_combine_split.
      change (256 ^ Z.of_nat 4) with (2 ^ 32). now rewrite SignExtend64_mod by lia.
  - exists (writele 8 buf loc val). split.
    + unfold relocate. rewrite H64, store_ok by lia. reflexivity.
    + unfold getImplicitAddend.
      rewrite (load_ok 8 _ loc _ (readle_writele 8 buf loc val ltac:(lia))).
      cbn [mbind outcome_bind obind]. rewrite le_combine_split.
      change (256 ^ Z.of_nat 8) with (2 ^ 64). unfold s64. now rewrite SignExtend64_mod by lia.
  - unfold writeIgotPlt. destruct (writeAddends config).
    + destruct (is64 config) eqn:E64.
      * exists (writele 8 buf loc val). rewrite store_ok by lia.
        split; [reflexivity|]. split; [discriminate|]. intros _.
        unfold getImplicitAddend. rewrite E64.
        rewrite (load_ok 8 _ loc _ (readle_writele 8 buf loc val ltac:(lia))).
        cbn [mbind outcome_bind obind]. rewrite le_combine_split.
        change (256 ^ Z.of_nat 8) with (2 ^ 64). unfold s64.
        now rewrite SignExtend64_mod by lia.
      * exists (writele 4 buf loc val). rewrite store_ok by lia.
        split; [reflexivity|]. split; [discriminate|]. intros _.
        unfold getImplicitAddend. rewrite E64.
        rewrite (load_ok 4 _ loc _ (readle_writele 4 buf loc val ltac:(lia))).
        cbn [mbind outcome_bind obind]. rewrite le_combine_split.
        change (256 ^ Z.of_nat 4) with (2 ^ 32). unfold u32, trunc.
        assert (0 <= val mod 2 ^ 32 < 2 ^ 32) by (apply Z.mod_pos_bound; pow2_consts; lia).
        unfold s64, SignExtend64. change (64 - 1) with 63.
        rewrite (Z.mod_small (val mod 2 ^ 32)) by (pow2_consts; lia).
        destruct (Z.ltb_spec (val mod 2 ^ 32) (2 ^ 63)); [reflexivity|]. pow2_consts; lia.
    + exists buf. split; [reflexivity|]. split; [reflexivity | discriminate].
Qed.

Lemma implicit_addend_reads_back_witness :
  (exists buf',
     relocate rv32_config never_pcc (zero_fill 8) 0 (example_reloc R_RISCV_32) (u64 (-42)) =
       Done (buf', []) /\
     getImplicitAddend rv32_config buf' 0 R_RISCV_32 =
       Done (SignExtend64 32 (u64 (-42)), [])) /\
  (exists buf',
     relocate rv32_config never_pcc (zero_fill 8) 0 (example_reloc R_RISCV_64) (u64 (-42)) =
       Done (buf', []) /\
     getImplicitAddend rv32_config buf' 0 R_RISCV_64 =
       Done (SignExtend64 64 (u64 (-42)), [])) /\
  (exists buf',
     writeIgotPlt rv32_config (u64 (-42)) (zero_fill 8) 0 = Done buf' /\
     (writeAddends rv32_config = false -> buf' = zero_fill 8) /\
     (writeAddends rv32_config = true ->
      getImplicitAddend rv32_config buf' 0 R_RISCV_IRELATIVE =
        Done (if is64 rv32_config then SignExtend64 64 (u64 (-42)) else u32 (u64 (-42)), []))).
Proof.
  apply (implicit_addend_reads_back rv32_config never_pcc (zero_fill 8) 0
           (example_reloc R_RISCV_32) (example_reloc R_RISCV_64) (u64 (-42))).
  - reflexivity.
  - reflexivity.
  - vm_compute. lia.
Defined.

Section PltEntry.

Lemma U_imm_utype (op rd imm : Z) :
  0 <= op < 2 ^ 7 -> 0 <= rd < 2 ^ 5 -> 0 <= imm < 2 ^ 20 ->
  0 <= utype op rd imm < 2 ^ 32 /\
  U_imm (utype op rd imm) = imm * 2 ^ 12 /\
  Z.land (utype op rd imm) 0xFFF = utype op rd 0.
Proof.
  intros Hop Hrd Himm. unfold utype.
  rewrite !Z.shiftl_mul_pow2 by lia. rewrite Z.mul_0_l, Z.lor_0_r.
  rewrite (lor_low_high op _ 7) by zify_fields.
  rewrite (lor_low_high (op + _) _ 12) by zify_fields.
  rewrite !u32_small by zify_fields.
  split; [zify_fields|]. split.
  - unfold U_imm. rewrite insn_bits_div, Z.shiftl_mul_pow2 by lia. zify_fields.
  - change 0xFFF with (2 ^ 12 - 1). rewrite land_low_mask by lia. zify_fields.
Qed.

Lemma I_imm_itype (op rd rs1 imm : Z) :
  0 <= op < 2 ^ 15 -> op mod 2 ^ 12 < 2 ^ 7 -> 0 <= rd < 2 ^ 5 -> 0 <= rs1 < 2 ^ 5 ->
  0 <= imm < 2 ^ 12 ->
  0 <= itype op rd rs1 imm < 2 ^ 32 /\
  I_imm (itype op rd rs1 imm) = SignExtend64 12 imm /\
  Z.land (itype op rd rs1 imm) 0xFFFFF = itype op rd rs1 0.
Proof.
  intros Hop Hop' Hrd Hrs Himm. unfold itype.
  rewrite !Z.shiftl_mul_pow2 by lia. rewrite Z.mul_0_l, Z.lor_0_r.
  assert (Z.lor op (rd * 2 ^ 7) = op + rd * 2 ^ 7) as ->.
  { replace op with (op / 2 ^ 12 * 2 ^ 12 + op mod 2 ^ 12) at 1 by zify_fields.
    rewrite <- (lor_high_low (op / 2 ^ 12 * 2 ^ 12) (op mod 2 ^ 12) 12) by zify_fields.
    rewrite <- Z.lor_assoc.
    rewrite (lor_low_high (op mod 2 ^ 12) _ 7) by zify_fields.
    rewrite (lor_high_low (op / 2 ^ 12 * 2 ^ 12) _ 12) by zify_fields.
    zify_fields. }
  assert (Z.lor (op + rd * 2 ^ 7) (rs1 * 2 ^ 15) = op + rd * 2 ^ 7 + rs1 * 2 ^ 15) as ->
    by (apply (lor_low_high _ _ 15); zify_fields).
  rewrite (lor_low_high (op + _ + _) _ 20) by zify_fields.
  rewrite !u32_small by zify_fields.
  split; [zify_fields|]. split.
  - unfold I_imm. f_equal. rewrite insn_bits_div by lia. zify_fields.
  - change 0xFFFFF with (2 ^ 20 - 1). rewrite land_low_mask by lia. zify_fields.
Qed.

End PltEntry.

(** X13. [writePlt] overwrites exactly the 16 bytes of its entry with
    [auipc t3; l[w|d|c] t3, (t3); jalr t1, t3; nop]; the two immediates
    add up, from the address of the entry, to the address of the slot
    (the capability table entry under the CHERI ABI, else the .got.plt
    entry), modulo 2^32. *)
Theorem plt_entry_reaches_slot (config : Config) (capTableVA gotPltVA : Z)
    (pre old post : buffer) (pltEntryAddr : Z) :
  length old = 16%nat ->
  let entryva := if isCheriAbi config then capTableVA else gotPltVA in
  let ptrload := if isCheriAbi config
                 then (if is64 config then Op.CLC_128 else Op.CLC_64)
                 else (if is64 config then Op.LD else Op.LW) in
  exists auipc ld,
    writePlt config capTableVA gotPltVA (pre ++ old ++ post) (length pre) pltEntryAddr =
      Done (pre ++
            (le_split 4 auipc ++ le_split 4 ld ++
             le_split 4 (itype Op.JALR Reg.X_T1 Reg.X_T3 0) ++ le_split 4 nop) ++
            post) /\
    0 <= auipc < 2 ^ 32 /\ 0 <= ld < 2 ^ 32 /\
    Z.land auipc 0xFFF = utype Op.AUIPC Reg.X_T3 0 /\
    Z.land ld 0xFFFFF = itype ptrload Reg.X_T3 Reg.X_T3 0 /\
    u32 (pltEntryAddr + U_imm auipc + I_imm ld) = u32 entryva.
Proof.
  intros Hlen entryva ptrload.
  set (offset := u32 (u32 entryva - pltEntryAddr)).
  assert (0 <= offset < 2 ^ 32) as Hoff
    by (subst offset; unfold u32, trunc; apply Z.mod_pos_bound; pow2_consts; lia).
  assert (0 <= hi20 offset < 2 ^ 20) as Hhi
    by (rewrite hi20_div; clear; zify_fields).
  assert (0 <= lo12 offset < 2 ^ 12) as Hlo
    by (rewrite lo12_mod; clear; zify_fields).
  assert (0 <= ptrload < 2 ^ 15 /\ ptrload mod 2 ^ 12 < 2 ^ 7) as [Hp Hp']
    by (subst ptrload; destruct (isCheriAbi config), (is64 config); vm_compute; intuition congruence).
  destruct (U_imm_utype Op.AUIPC Reg.X_T3 (hi20 offset)) as (Ha & HU & Hamask);
    [vm_compute; intuition congruence | vm_compute; intuition congruence | exact Hhi |].
  destruct (I_imm_itype ptrload Reg.X_T3 Reg.X_T3 (lo12 offset)) as (Hl & HI & Hlmask);
    [exact Hp | exact Hp' | vm_compute; intuition congruence
     | vm_compute; intuition congruence | exact Hlo |].
  exists (utype Op.AUIPC Reg.X_T3 (hi20 offset)),
         (itype ptrload Reg.X_T3 Reg.X_T3 (lo12 offset)).
  split; [|split; [exact Ha | split; [exact Hl | split; [exact Hamask | split; [exact Hlmask|]]]]].
  - unfold writePlt. fold entryva ptrload offset.
    rewrite store_ok by (rewrite !length_app; lia). cbn [mbind outcome_bind obind].
    rewrite store_ok by (rewrite length_writele, !length_app; lia).
    cbn [mbind outcome_bind obind].
    rewrite store_ok by (rewrite !length_writele, !length_app; lia).
    cbn [mbind outcome_bind obind].
    rewrite store_ok by (rewrite !length_writele, !length_app; lia).
    f_equal.
    repeat (rewrite writele_mid by (rewrite ?length_writele; lia)).
    f_equal. f_equal.
    do 17 (destruct old as [|? old]; try discriminate Hlen).
    reflexivity.
  - rewrite HU, HI.
    pose proof (hi_lo_sum offset Hoff) as Hsum.
    rewrite Z.shiftl_mul_pow2 in Hsum by lia.
    replace (pltEntryAddr + hi20 offset * 2 ^ 12 + SignExtend64 12 (lo12 offset))
      with (pltEntryAddr + (SignExtend64 12 (lo12 offset) + hi20 offset * 2 ^ 12)) by lia.
    rewrite Hsum. subst offset. unfold u32, trunc in *.
    destruct (Z.ltb_spec ((entryva mod 2 ^ 32 - pltEntryAddr) mod 2 ^ 32 + 2048) (2 ^ 32));
      zify_fields.
Qed.

Lemma plt_entry_reaches_slot_witness :
  exists auipc ld,
    writePlt rv32_config 0 0x2000 ([] ++ zero_fill 16 ++ []) 0 0x1000 =
      Done ([] ++
            (le_split 4 auipc ++ le_split 4 ld ++
             le_split 4 (itype Op.JALR Reg.X_T1 Reg.X_T3 0) ++ le_split 4 nop) ++
            []) /\
    0 <= auipc < 2 ^ 32 /\ 0 <= ld < 2 ^ 32 /\
    Z.land auipc 0xFFF = utype Op.AUIPC Reg.X_T3 0 /\
    Z.land ld 0xFFFFF = itype Op.LW Reg.X_T3 Reg.X_T3 0 /\
    u32 (0x1000 + U_imm auipc + I_imm ld) = u32 0x2000.
Proof.
  apply (plt_entry_reaches_slot rv32_config 0 0x2000 [] (zero_fill 16) [] 0x1000).
  reflexivity.
Defined.

Section PltHeader.

(** The words of the lazy-binding header, as [writePltHeader] lays them
    out outside the CHERI ABI. *)
Lemma writePltHeader_words (config : Config) (gotPltVA pltVA : Z) (pre old post : buffer) :
  isCheriAbi config = false ->
  length old = 32%nat ->
  writePltHeader config gotPltVA pltVA (pre ++ old ++ post) (length pre) =
    pre ++
    concat (map (le_split 4)
              (plt_header_words (if is64 config then Op.LD else Op.LW)
                 (u32 (gotPltVA - pltVA)) (if is64 config then 1 else 2)
                 (wordsize config))) ++
    post.
Proof.
  intros Hc Hlen. unfold writePltHeader. rewrite (plt_shift_non_cheri config Hc), Hc.
  assert (Hs : ((if is64 config then 1 else 2) =? 0) = false) by (now destruct (is64 config)).
  rewrite Hs. cbn [negb]. unfold write32le.
  rewrite Nat.sub_0_r, Nat.sub_0_r.
  repeat (rewrite writele_mid by (rewrite ?length_writele; lia)).
  f_equal. f_equal.
  do 33 (destruct old as [|? old]; try discriminate Hlen).
  reflexivity.
Qed.

End PltHeader.

(** X14. [writePltHeader] overwrites exactly the 32 bytes of the header: with
    zeros under the CHERI ABI; otherwise with eight instructions of which
    the [auipc t2] and the load of [t3] address .got.plt from the PLT
    (modulo 2^32), the [addi t0] carrying the same low part. *)
Theorem plt_header_addresses_got_plt (config : Config) (gotPltVA pltVA : Z)
    (pre old post : buffer) :
  length old = 32%nat ->
  (isCheriAbi config = true ->
   writePltHeader config gotPltVA pltVA (pre ++ old ++ post) (length pre) =
     pre ++ replicate 32 Byte.x00 ++ post) /\
  (isCheriAbi config = false ->
   exists auipc sub ld_t3 addi_t1 addi_t0 srli ld_t0,
     writePltHeader config gotPltVA pltVA (pre ++ old ++ post) (length pre) =
       pre ++
       concat (map (le_split 4) [auipc; sub; ld_t3; addi_t1; addi_t0; srli; ld_t0;
                                 itype Op.JALR 0 Reg.X_T3 0]) ++
       post /\
     Z.land auipc 0xFFF = utype Op.AUIPC Reg.X_T2 0 /\
     Z.land ld_t3 0xFFFFF = itype (if is64 config then Op.LD else Op.LW) Reg.X_T3 Reg.X_T2 0 /\
     Z.land addi_t0 0xFFFFF = itype Op.ADDI Reg.X_T0 Reg.X_T2 0 /\
     u32 (pltVA + U_imm auipc + I_imm ld_t3) = u32 gotPltVA /\
     I_imm addi_t0 = I_imm ld_t3).
Proof.
  intros Hlen. split.
  - intros Hc. unfold writePltHeader, memset. rewrite Hc.
    change (Z.to_nat pltHeaderSize) with 32%nat.
    destruct (Nat.leb_spec (length pre + 32) (length (pre ++ old ++ post))) as [_|Hn];
      [|rewrite !length_app in Hn; lia].
    rewrite take_app_length. f_equal. f_equal.
    rewrite <- Hlen, app_assoc, drop_app_length'; [reflexivity|].
    now rewrite length_app.
  - intros Hc.
    set (offset := u32 (gotPltVA - pltVA)).
    assert (0 <= offset < 2 ^ 32) as Hoff
      by (subst offset; unfold u32, trunc; apply Z.mod_pos_bound; pow2_consts; lia).
    assert (0 <= hi20 offset < 2 ^ 20) as Hhi by (rewrite hi20_div; clear; zify_fields).
    assert (0 <= lo12 offset < 2 ^ 12) as Hlo by (rewrite lo12_mod; clear; zify_fields).
    set (ptrload := if is64 config then Op.LD else Op.LW).
    assert (0 <= ptrload < 2 ^ 15 /\ ptrload mod 2 ^ 12 < 2 ^ 7) as [Hp Hp']
      by (subst ptrload; destruct (is64 config); vm_compute; intuition congruence).
    destruct (U_imm_utype Op.AUIPC Reg.X_T2 (hi20 offset)) as (_ & HU & Hamask);
      [vm_compute; intuition congruence | vm_compute; intuition congruence | exact Hhi |].
    destruct (I_imm_itype ptrload Reg.X_T3 Reg.X_T2 (lo12 offset)) as (_ & HI & Hlmask);
      [exact Hp | exact Hp' | vm_compute; intuition congruence
       | vm_compute; intuition congruence | exact Hlo |].
    destruct (I_imm_itype Op.ADDI Reg.X_T0 Reg.X_T2 (lo12 offset)) as (_ & HI' & Hl'mask);
      [vm_compute; intuition congruence | vm_compute; reflexivity
       | vm_compute; intuition congruence | vm_compute; intuition congruence | exact Hlo |].
    do 7 eexists.
    split; [rewrite (writePltHeader_words config gotPltVA pltVA pre old post Hc Hlen);
            unfold plt_header_words; reflexivity|].
    fold offset ptrload.
    split; [exact Hamask | split; [exact Hlmask | split; [exact Hl'mask | split]]].
    + rewrite HU, HI.
      pose proof (hi_lo_sum offset Hoff) as Hsum.
      rewrite Z.shiftl_mul_pow2 in Hsum by lia.
      replace (pltVA + hi20 offset * 2 ^ 12 + SignExtend64 12 (lo12 offset))
        with (pltVA + (SignExtend64 12 (lo12 offset) + hi20 offset * 2 ^ 12)) by lia.
      rewrite Hsum. subst offset. unfold u32, trunc in *.
      destruct (Z.ltb_spec ((gotPltVA - pltVA) mod 2 ^ 32 + 2048) (2 ^ 32)); zify_fields.
    + now rewrite HI, HI'.
Qed.

Lemma plt_header_addresses_got_plt_witness :
  exists auipc sub ld_t3 addi_t1 addi_t0 srli ld_t0,
    writePltHeader rv32_config 0x2000 0x1000 ([] ++ zero_fill 32 ++ []) 0 =
      [] ++
      concat (map (le_split 4) [auipc; sub; ld_t3; addi_t1; addi_t0; srli; ld_t0;
                                itype Op.JALR 0 Reg.X_T3 0]) ++
      [] /\
    Z.land auipc 0xFFF = utype Op.AUIPC Reg.X_T2 0 /\
    Z.land ld_t3 0xFFFFF = itype Op.LW Reg.X_T3 Reg.X_T2 0 /\
    Z.land addi_t0 0xFFFFF = itype Op.ADDI Reg.X_T0 Reg.X_T2 0 /\
    u32 (0x1000 + U_imm auipc + I_imm ld_t3) = u32 0x2000 /\
    I_imm addi_t0 = I_imm ld_t3.
Proof.
  apply (plt_header_addresses_got_plt rv32_config 0x2000 0x1000 [] (zero_fill 32) []).
  - reflexivity.
  - reflexivity.
Defined.

(** ** Merged flags, capability alignment, and the kinds [relocate] knows *)

Section MergedFlags.

Lemma agrees_iff_fields (t : Z) (g : InputFile) :
  agrees t g = true <->
  forall m, In m abi_fields -> Z.land (getEFlags g) m = Z.land t m.
Proof.
  unfold agrees, eflags_mismatch, abi_fields.
  rewrite !andb_true_iff, !negb_true_iff, !negb_false_iff, !Z.eqb_eq.
  split.
  - intros (((H1 & H2) & H3) & H4) m [<-|[<-|[<-|[<-|[]]]]]; assumption.
  - intros H. repeat split; apply H; cbn; auto.
Qed.

Lemma calcEFlags_accepts (f : InputFile) (l : list InputFile) :
  snd (calcEFlags (f :: l)) = [] <->
  forall g m, In g (f :: l) -> In m abi_fields ->
              Z.land (getEFlags g) m = Z.land (getEFlags f) m.
Proof.
  rewrite (proj2 (calcEFlags_spec f l)), forallb_forall.
  split.
  - intros H g m Hg. now apply agrees_iff_fields, H.
  - intros H g Hg. apply agrees_iff_fields. intros m. now apply H.
Qed.

End MergedFlags.

(** X15. [calcEFlags] on a non-empty list of objects reports nothing exactly
    when every object agrees with the first on the float ABI, RVE,
    CheriABI and capability-mode fields; its result is the flags of the
    first object, with the RVC bit set when some object has it.  On no
    object the result is 0. *)
Theorem calcEFlags_closed_form (f : InputFile) (l : list InputFile) :
  (snd (calcEFlags (f :: l)) = [] <->
   forall g m, In g (f :: l) -> In m abi_fields ->
               Z.land (getEFlags g) m = Z.land (getEFlags f) m) /\
  fst (calcEFlags (f :: l)) =
    (if existsb (fun g => nonzero (Z.land (getEFlags g) EF_RISCV_RVC)) (f :: l)
     then Z.lor (getEFlags f) EF_RISCV_RVC else getEFlags f) /\
  calcEFlags [] = (0, []).
Proof.
  split; [apply calcEFlags_accepts|]. split; [|reflexivity].
  apply (proj1 (calcEFlags_spec f l)).
Qed.

(** X16. When [calcEFlags] accepted the objects and [config->eflags] holds its
    result, [calcIsCheriAbi] answers true exactly when every object has the
    CheriABI flag and false exactly when none has; it reports an error
    exactly when the configuration asks for the CHERI ABI and the objects
    do not have the flag. *)
Theorem cheri_abi_of_merged_flags (config : Config) (f : InputFile) (l : list InputFile) :
  snd (calcEFlags (f :: l)) = [] ->
  eflags config = fst (calcEFlags (f :: l)) ->
  let all_cheri := forall g, In g (f :: l) -> Z.land (getEFlags g) EF_RISCV_CHERIABI <> 0 in
  let none_cheri := forall g, In g (f :: l) -> Z.land (getEFlags g) EF_RISCV_CHERIABI = 0 in
  (fst (calcIsCheriAbi config (f :: l)) = true <-> all_cheri) /\
  (fst (calcIsCheriAbi config (f :: l)) = false <-> none_cheri) /\
  (snd (calcIsCheriAbi config (f :: l)) = [] <-> (isCheriAbi config = true -> all_cheri)).
Proof.
  intros Hok Hfl all_cheri none_cheri.
  pose proof (proj1 (calcEFlags_accepts f l) Hok) as Hag.
  assert (forall g, In g (f :: l) ->
            Z.land (getEFlags g) EF_RISCV_CHERIABI = Z.land (eflags config) EF_RISCV_CHERIABI)
    as Hbit.
  { intros g Hg. rewrite (Hag g EF_RISCV_CHERIABI Hg) by (cbn; auto).
    rewrite Hfl, (proj1 (calcEFlags_spec f l)).
    destruct (existsb has_rvc (f :: l)); cbn [with_rvc]; [|reflexivity].
    now rewrite land_lor_rvc by reflexivity. }
  assert (fst (calcIsCheriAbi config (f :: l)) =
          nonzero (Z.land (eflags config) EF_RISCV_CHERIABI)) as Hfst
    by (unfold calcIsCheriAbi; destruct (_ && _); reflexivity).
  assert (nonzero (Z.land (eflags config) EF_RISCV_CHERIABI) = true <-> all_cheri) as Hall.
  { unfold nonzero. rewrite negb_true_iff, Z.eqb_neq. subst all_cheri. split.
    - intros H g Hg. now rewrite (Hbit g Hg).
    - intros H. rewrite <- (Hbit f) by (now left). apply H. now left. }
  assert (nonzero (Z.land (eflags config) EF_RISCV_CHERIABI) = false <-> none_cheri) as Hnone.
  { unfold nonzero. rewrite negb_false_iff, Z.eqb_eq. subst none_cheri. split.
    - intros H g Hg. now rewrite (Hbit g Hg).
    - intros H. rewrite <- (Hbit f) by (now left). apply H. now left. }
  split; [now rewrite Hfst|]. split; [now rewrite Hfst|].
  rewrite <- Hall. unfold calcIsCheriAbi.
  destruct (isCheriAbi config), (nonzero (Z.land (eflags config) EF_RISCV_CHERIABI));
    cbn; split; intros H; try reflexivity; try discriminate; auto.
  discriminate (H eq_refl).
Qed.

Lemma cheri_abi_of_merged_flags_witness :
  (fst (calcIsCheriAbi rv32_config [obj_plain1; obj_plain2]) = true <->
   forall g, In g [obj_plain1; obj_plain2] -> Z.land (getEFlags g) EF_RISCV_CHERIABI <> 0) /\
  (fst (calcIsCheriAbi rv32_config [obj_plain1; obj_plain2]) = false <->
   forall g, In g [obj_plain1; obj_plain2] -> Z.land (getEFlags g) EF_RISCV_CHERIABI = 0) /\
  (snd (calcIsCheriAbi rv32_config [obj_plain1; obj_plain2]) = [] <->
   (isCheriAbi rv32_config = true ->
    forall g, In g [obj_plain1; obj_plain2] -> Z.land (getEFlags g) EF_RISCV_CHERIABI <> 0)).
Proof.
  apply (cheri_abi_of_merged_flags rv32_config obj_plain1 [obj_plain2]); reflexivity.
Defined.

Section CheriAlignment.

Lemma cheriRequiredAlignment_spec (size : Z) :
  0 <= size < 2 ^ 64 ->
  exists e, 0 <= e <= 56 /\ cheriRequiredAlignment size = 2 ^ e /\
            size < 510 * 2 ^ e /\ (e = 0 \/ 510 * 2 ^ (e - 1) <= size).
Proof.
  intros Hs.
  destruct (Z.eq_dec size 0) as [->|Hne].
  { exists 0. split; [lia|]. split; [reflexivity|]. split; [lia|now left]. }
  assert (0 < size) as Hpos by lia.
  destruct (Z.log2_spec size Hpos) as [Hlo Hhi].
  assert (0 <= Z.log2 size) as HL0 by apply Z.log2_nonneg.
  assert (Z.log2 size < 64) as HL1 by (apply Z.log2_lt_pow2; lia).
  unfold cheriRequiredAlignment, countLeadingZeros.
  destruct (Z.eqb_spec size 0) as [?|_]; [lia|].
  change (u64 (Z.shiftl 1 (9 - 1) - 1)) with (2 ^ 8 - 1).
  replace (64 - (63 - Z.log2 size) - 9) with (Z.log2 size - 8) by lia.
  set (L := Z.log2 size) in *.
  set (e0 := Z.max (L - 8) 0).
  assert (0 <= e0 <= 55) as He0 by lia.
  assert (size < 2 ^ (e0 + 9)) as Hup.
  { apply Z.lt_le_trans with (2 ^ Z.succ L); [exact Hhi|].
    apply Z.pow_le_mono_r; lia. }
  assert (e0 = 0 \/ (1 <= e0 /\ 2 ^ (e0 + 8) <= size)) as Hdown.
  { destruct (Z.le_gt_cases L 8); [left; lia|right].
    split; [lia|]. replace (e0 + 8) with L by lia. exact Hlo. }
  rewrite land_low_mask, Z.shiftr_div_pow2 by lia.
  assert (0 < 2 ^ e0) as HP by (apply Z.pow_pos_nonneg; lia).
  assert (2 ^ (e0 + 1) = 2 * 2 ^ e0) as E1 by (rewrite Z.pow_add_r by lia; lia).
  assert (2 ^ (e0 + 9) = 512 * 2 ^ e0) as E9
    by (rewrite Z.pow_add_r by lia; change (2 ^ 9) with 512; lia).
  assert (2 ^ (e0 + 8) = 256 * 2 ^ e0) as E8
    by (rewrite Z.pow_add_r by lia; change (2 ^ 8) with 256; lia).
  assert (1 <= e0 -> 2 ^ e0 = 2 * 2 ^ (e0 - 1)) as Em.
  { intros H. replace e0 with (e0 - 1 + 1) at 1 by lia.
    rewrite Z.pow_add_r by lia. lia. }
  rewrite E1 in *. rewrite E9 in Hup. rewrite E8 in Hdown.
  set (P := 2 ^ e0) in *.
  assert (0 <= size / (2 * P) < 256) as Hq.
  { split; [apply Z.div_pos; lia|]. apply Z.div_lt_upper_bound; lia. }
  rewrite (Z.mod_small _ (2 ^ 8)) by (change (2 ^ 8) with 256; lia).
  change (2 ^ 8 - 1) with 255.
  pose proof (Z.div_mod size (2 * P) ltac:(lia)) as Hdm.
  pose proof (Z.mod_pos_bound size (2 * P) ltac:(lia)) as Hr.
  destruct (Z.eqb_spec (size / (2 * P)) 255) as [Heq|Hneq].
  - exists (e0 + 1). split; [lia|]. split.
    + rewrite Z.shiftl_1_l. unfold u64, trunc. apply Z.mod_small.
      split; [apply Z.pow_nonneg; lia|]. apply Z.pow_lt_mono_r; lia.
    + rewrite E1. replace (e0 + 1 - 1) with e0 by lia. fold P.
      rewrite Heq in Hdm. split; [lia|right; lia].
  - exists e0. split; [lia|]. split.
    + rewrite Z.shiftl_1_l. unfold u64, trunc. apply Z.mod_small.
      split; [apply Z.pow_nonneg; lia|]. apply Z.pow_lt_mono_r; lia.
    + fold P. split; [nia|].
      destruct Hdown as [?|[H1 H2]]; [now left|right].
      specialize (Em H1). fold P in Em. lia.
Qed.

Lemma pow2_le_of_bounds (a b e e' : Z) :
  0 <= e -> 0 <= e' -> a <= b ->
  (e = 0 \/ 510 * 2 ^ (e - 1) <= a) -> b < 510 * 2 ^ e' -> 2 ^ e <= 2 ^ e'.
Proof.
  intros He He' Hab Hmin Hup.
  apply Z.pow_le_mono_r; [lia|].
  destruct Hmin as [->|Hmin]; [lia|].
  destruct (Z.le_gt_cases e e') as [?|Hgt]; [assumption|exfalso].
  assert (2 ^ e' <= 2 ^ (e - 1)) by (apply Z.pow_le_mono_r; lia).
  lia.
Qed.

End CheriAlignment.

(** X17. [cheriRequiredAlignment size] is the least power of two [2^e] with
    [size < 510 * 2^e], and so does not decrease when the size grows. *)
Theorem cheri_alignment_least_power_of_two (size : Z) :
  0 <= size < 2 ^ 64 ->
  (exists e, 0 <= e <= 56 /\ cheriRequiredAlignment size = 2 ^ e /\
             size < 510 * 2 ^ e /\ (e = 0 \/ 510 * 2 ^ (e - 1) <= size)) /\
  (forall size', size <= size' < 2 ^ 64 ->
                 cheriRequiredAlignment size <= cheriRequiredAlignment size').
Proof.
  intros Hs. split; [now apply cheriRequiredAlignment_spec|].
  intros size' Hs'.
  destruct (cheriRequiredAlignment_spec size Hs) as (e & He & -> & _ & Hmin).
  destruct (cheriRequiredAlignment_spec size' ltac:(lia)) as (e' & He' & -> & Hup & _).
  apply (pow2_le_of_bounds size size'); lia.
Qed.

Lemma cheri_alignment_least_power_of_two_witness :
  (exists e, 0 <= e <= 56 /\ cheriRequiredAlignment 1021 = 2 ^ e /\
             1021 < 510 * 2 ^ e /\ (e = 0 \/ 510 * 2 ^ (e - 1) <= 1021)) /\
  (forall size', 1021 <= size' < 2 ^ 64 ->
                 cheriRequiredAlignment 1021 <= cheriRequiredAlignment size').
Proof. apply (cheri_alignment_least_power_of_two 1021). lia. Defined.

Section Coverage.

Variable config : Config.
Variable isPCCRelative : option nat -> SymId -> bool.

Lemma load_in_bounds (n : nat) (buf : buffer) (loc : nat) :
  (loc + n <= length buf)%nat ->
  load n buf loc = Done (le_combine (take n (drop loc buf))).
Proof.
  intros H. unfold load, readle.
  destruct (Nat.leb_spec (loc + n) (length buf)); [reflexivity | lia].
Qed.

Lemma relocate_hi20_runs (bits : Z) (buf : buffer) (loc : nat) (val : Z) :
  (loc + 4 <= length buf)%nat ->
  exists buf' d, relocate_hi20 bits buf loc val = Done (buf', d) /\
                 length buf' = length buf.
Proof.
  intros H. unfold relocate_hi20.
  rewrite load_in_bounds by lia. cbn [mbind outcome_bind obind].
  rewrite store_ok by lia. cbn [mbind outcome_bind obind].
  eexists _, _. split; [reflexivity | apply length_writele].
Qed.

Lemma relocate_lo12_i_runs (buf : buffer) (loc : nat) (val : Z) :
  (loc + 4 <= length buf)%nat ->
  exists buf' d, relocate_lo12_i buf loc val = Done (buf', d) /\
                 length buf' = length buf.
Proof.
  intros H. unfold relocate_lo12_i.
  rewrite load_in_bounds by lia. cbn [mbind outcome_bind obind].
  rewrite store_ok by lia. cbn [mbind outcome_bind obind].
  eexists _, _. split; [reflexivity | apply length_writele].
Qed.

Ltac run_step H :=
  first [ rewrite (load_in_bounds 1) by lia
        | rewrite (load_in_bounds 2) by lia
        | rewrite (load_in_bounds 4) by lia
        | rewrite (load_in_bounds 8) by lia
        | rewrite (store_ok 1) by lia
        | rewrite (store_ok 2) by lia
        | rewrite (store_ok 4) by lia
        | rewrite (store_ok 8) by lia ];
  cbn [mbind outcome_bind obind mret outcome_ret].

Lemma relocate_runs (buf : buffer) (loc : nat) (rel : Relocation) (val : Z) (s : SymId) :
  (loc + 8 <= length buf)%nat ->
  re_diags (getRelExpr config isPCCRelative (r_type rel) s loc) = [] ->
  re_expr (getRelExpr config isPCCRelative (r_type rel) s loc) <> R_NONE ->
  re_expr (getRelExpr config isPCCRelative (r_type rel) s loc) <> R_RELAX_HINT ->
  re_expr (getRelExpr config isPCCRelative (r_type rel) s loc) <> R_CHERI_CAPABILITY ->
  exists buf' d, relocate config isPCCRelative buf loc rel val = Done (buf', d) /\
                 length buf' = length buf.
Proof.
  intros Hlen Hd Hn Hr Hc. unfold relocate.
  destruct (r_type rel); cbn in Hd, Hn, Hr, Hc;
    try discriminate Hd; try (exfalso; apply Hn; reflexivity);
    try (exfalso; apply Hr; reflexivity); try (exfalso; apply Hc; reflexivity).
  all: lazymatch goal with
       | |- exists _ _, relocate_hi20 _ _ _ _ = _ /\ _ => apply relocate_hi20_runs; lia
       | |- exists _ _, relocate_lo12_i _ _ _ = _ /\ _ => apply relocate_lo12_i_runs; lia
       | |- exists _ _, (if isInt 20 ?h then _ else _) = _ /\ _ =>
           destruct (isInt 20 h);
           [ destruct (relocate_hi20_runs (wordsize config * 8) buf loc val ltac:(lia))
               as (b1 & d1 & -> & L1);
             cbn [mbind outcome_bind obind];
             destruct (relocate_lo12_i_runs b1 (loc + 4) val ltac:(lia))
               as (b2 & d2 & -> & L2);
             cbn [mbind outcome_bind obind mret outcome_ret];
             eexists _, _; split; [reflexivity | congruence]
           | eexists _, _; split; reflexivity ]
       | _ => idtac
       end.
  all: repeat run_step idtac.
  all: repeat match goal with |- context [if ?c then _ else _] => destruct c end.
  all: eexists _, _; split; [reflexivity | try apply length_writele; reflexivity].
Qed.

End Coverage.

(** X18. Every relocation kind that [getRelExpr] accepts with an expression
    other than R_NONE, R_RELAX_HINT and R_CHERI_CAPABILITY is handled by
    [relocate]: with 8 bytes at the location it returns a buffer of the
    same length.  A kind [getRelExpr] reports as unknown gets R_NONE; only
    TLS_GOT_HI20 sets [hasStaticTlsModel]; ALIGN and CHERI_CAPABILITY are
    accepted by [getRelExpr] and reach the unreachable default of
    [relocate]. *)
Theorem accepted_relocations_are_applied (config : Config)
    (isPCCRelative : option nat -> SymId -> bool)
    (buf : buffer) (loc : nat) (rel : Relocation) (val : Z) (s : SymId) :
  (loc + 8 <= length buf)%nat ->
  let r := getRelExpr config isPCCRelative (r_type rel) s loc in
  (re_diags r = [] -> re_expr r <> R_NONE -> re_expr r <> R_RELAX_HINT ->
   re_expr r <> R_CHERI_CAPABILITY ->
   exists buf' d, relocate config isPCCRelative buf loc rel val = Done (buf', d) /\
                  length buf' = length buf) /\
  (re_diags r <> [] -> re_expr r = R_NONE) /\
  (re_hasStaticTlsModel r = true <-> r_type rel = R_RISCV_TLS_GOT_HI20) /\
  (r_type rel = R_RISCV_ALIGN \/ r_type rel = R_RISCV_CHERI_CAPABILITY ->
   re_diags r = [] /\
   relocate config isPCCRelative buf loc rel val = Stop (AssertionFailed "unknown relocation")).
Proof.
  intros Hlen r. split; [now apply relocate_runs|]. subst r.
  split; [|split].
  - destruct (r_type rel); cbn; intros H; try reflexivity; try (now destruct H).
    all: destruct (relax_enabled config); try reflexivity; now destruct H.
  - destruct (r_type rel); cbn; split; intros H; try reflexivity; discriminate H.
  - unfold relocate. intros [-> | ->]; split; reflexivity.
Qed.

Lemma accepted_relocations_are_applied_witness :
  exists buf' d,
    relocate rv32_config never_pcc (zero_fill 8) 0 (example_reloc R_RISCV_TLS_GOT_HI20) 8 =
      Done (buf', d) /\
    length buf' = length (zero_fill 8).
Proof.
  apply (accepted_relocations_are_applied rv32_config never_pcc (zero_fill 8) 0
           (example_reloc R_RISCV_TLS_GOT_HI20) 8 0%nat).
  - vm_compute. lia.
  - reflexivity.
  - discriminate.
  - discriminate.
  - discriminate.
Defined.

(** ** riscvFinalizeRelax *)

Section Rebase.

Lemma rebaseLoop_cons (aux : RISCVRelaxAux) (i : nat) (delta : Z) (r : Relocation)
    (rest : list Relocation) :
  rebaseLoop aux i delta (r :: rest) =
  t ← of_option (relocTypes aux !! i);
  match rest with
  | r2 :: _ =>
      if r_offset r2 =? r_offset r
      then tail ← rebaseLoop aux (S i) delta rest; mret (rebase delta t r :: tail)
      else d ← of_option (relocDeltas aux !! i);
           tail ← rebaseLoop aux (S i) d rest; mret (rebase delta t r :: tail)
  | [] => _ ← of_option (relocDeltas aux !! i); mret [rebase delta t r]
  end.
Proof.
  destruct rest as [|r2 rest2]; [reflexivity|].
  cbn [rebaseLoop].
  destruct (of_option (relocTypes aux !! i)) as [t|]; [|reflexivity].
  cbn [mbind outcome_bind obind].
  destruct (Z.eqb_spec (r_offset r2) (r_offset r)) as [E|_]; [|reflexivity].
  rewrite <- E. reflexivity.
Qed.

Lemma deltaAt_head (o : Z) (offs ds : list Z) (prev off : Z) :
  off <= o -> deltaAt (o :: offs) ds prev off = prev.
Proof.
  intros H. destruct ds as [|d ds]; [reflexivity|]. cbn [deltaAt].
  destruct (Z.leb_spec off o); [reflexivity | lia].
Qed.

Lemma deltaAt_skip (o d : Z) (offs ds : list Z) (prev off : Z) :
  o < off -> deltaAt (o :: offs) (d :: ds) prev off = deltaAt offs ds d off.
Proof.
  intros H. cbn [deltaAt]. destruct (Z.leb_spec off o); [lia | reflexivity].
Qed.

Lemma rebaseLoop_sorted (aux : RISCVRelaxAux) (rels : list Relocation) :
  forall (i : nat) (delta : Z),
  StronglySorted (fun a b => r_offset a <= r_offset b) rels ->
  (i + length rels <= length (relocTypes aux))%nat ->
  (i + length rels <= length (relocDeltas aux))%nat ->
  exists rels', rebaseLoop aux i delta rels = Done rels' /\
    length rels' = length rels /\
    forall (k : nat) (r : Relocation) (t : RelType),
      rels !! k = Some r -> relocTypes aux !! (i + k)%nat = Some t ->
      rels' !! k =
        Some (rebase (deltaAt (r_offset <$> rels) (drop i (relocDeltas aux)) delta
                        (r_offset r)) t r).
Proof.
  induction rels as [|r rest IH]; intros i delta Hs Lt Ld.
  - exists []. split; [reflexivity|]. split; [reflexivity|]. intros k r t H. discriminate H.
  - cbn [length] in Lt, Ld. rewrite rebaseLoop_cons.
    destruct (lookup_lt_is_Some_2 (relocTypes aux) i ltac:(lia)) as [t0 Ht0].
    destruct (lookup_lt_is_Some_2 (relocDeltas aux) i ltac:(lia)) as [d0 Hd0].
    assert (drop i (relocDeltas aux) = d0 :: drop (S i) (relocDeltas aux)) as Hdrop
      by (apply drop_S; exact Hd0).
    rewrite Ht0, Hd0. cbn [of_option mbind outcome_bind obind].
    apply StronglySorted_inv in Hs as [Hs Hall].
    assert (forall (k : nat) (r' : Relocation) (t : RelType),
              (r :: rest) !! 0%nat = Some r' -> relocTypes aux !! (i + 0)%nat = Some t ->
              Some (rebase delta t0 r) =
              Some (rebase (deltaAt (r_offset <$> r :: rest) (drop i (relocDeltas aux)) delta
                              (r_offset r')) t r')) as Hhead.
    { intros _ r' t [= <-]. rewrite Nat.add_0_r, Ht0. intros [= <-].
      cbn [fmap list_fmap]. rewrite deltaAt_head by lia. reflexivity. }
    destruct rest as [|r2 rest2].
    + eexists. split; [reflexivity|]. split; [reflexivity|].
      intros [|k] r' t Hr Ht; [now apply (Hhead 0%nat)|discriminate Hr].
    + assert (exists d1, drop (S i) (relocDeltas aux) = d1 :: drop (S (S i)) (relocDeltas aux))
        as [d1 Hdrop1].
      { destruct (lookup_lt_is_Some_2 (relocDeltas aux) (S i) ltac:(cbn [length] in Ld; lia))
          as [d1 Hd1].
        exists d1. apply drop_S. exact Hd1. }
      assert (r_offset r <= r_offset r2) as H12
        by (apply Forall_inv in Hall; exact Hall).
      destruct (Z.eqb_spec (r_offset r2) (r_offset r)) as [E|NE].
      * destruct (IH (S i) delta Hs ltac:(lia) ltac:(lia)) as (tail & -> & Hl & Hk).
        cbn [mbind outcome_bind obind mret outcome_ret].
        eexists. split; [reflexivity|]. split; [cbn [length] in *; lia|].
        intros [|k] r' t Hr Ht; [now apply (Hhead 0%nat)|].
        rewrite lookup_cons in Hr. rewrite lookup_cons.
        replace (i + S k)%nat with (S i + k)%nat in Ht by lia.
        rewrite (Hk k r' t Hr Ht). do 2 f_equal.
        assert (r_offset r2 <= r_offset r') as Hge.
        { destruct k as [|k]; [injection Hr as <-; lia|].
          apply StronglySorted_inv in Hs as [_ Hall2].
          exact (Forall_lookup_1 _ _ _ _ Hall2 Hr). }
        cbn [fmap list_fmap]. rewrite Hdrop, Hdrop1.
        destruct (Z.le_gt_cases (r_offset r') (r_offset r)).
        -- rewrite !deltaAt_head by lia. reflexivity.
        -- rewrite (deltaAt_skip (r_offset r)) by lia.
           rewrite !(deltaAt_skip (r_offset r2)) by lia. reflexivity.
      * destruct (IH (S i) d0 Hs ltac:(lia) ltac:(lia)) as (tail & -> & Hl & Hk).
        cbn [mbind outcome_bind obind mret outcome_ret].
        eexists. split; [reflexivity|]. split; [cbn [length] in *; lia|].
        intros [|k] r' t Hr Ht; [now apply (Hhead 0%nat)|].
        rewrite lookup_cons in Hr. rewrite lookup_cons.
        replace (i + S k)%nat with (S i + k)%nat in Ht by lia.
        rewrite (Hk k r' t Hr Ht). do 2 f_equal.
        assert (r_offset r2 <= r_offset r') as Hge.
        { destruct k as [|k]; [injection Hr as <-; lia|].
          apply StronglySorted_inv in Hs as [_ Hall2].
          exact (Forall_lookup_1 _ _ _ _ Hall2 Hr). }
        cbn [fmap list_fmap]. rewrite Hdrop.
        rewrite (deltaAt_skip (r_offset r)) by lia. reflexivity.
Qed.

End Rebase.

Section FinalizeLength.

Lemma memcpy_length (dst : buffer) (p : Z) (src : buffer) (offset size : Z) (buf : buffer) :
  memcpy dst p src offset size = Done buf -> length buf = length dst.
Proof.
  unfold memcpy.
  destruct (Z.leb_spec 0 p); [|discriminate].
  destruct (Z.leb_spec (p + size) (Z.of_nat (length dst))); [|discriminate].
  destruct (Z.leb_spec 0 offset); [|discriminate].
  destruct (Z.leb_spec 0 size); [|discriminate].
  destruct (Z.leb_spec (offset + size) (Z.of_nat (length src))); [|discriminate].
  cbn. intros [= <-]. unfold buffer in *.
  rewrite !length_app, !length_take, !length_drop. lia.
Qed.

Lemma storeAt_length (n : nat) (buf : buffer) (p v : Z) (buf' : buffer) :
  storeAt n buf p v = Done buf' -> length buf' = length buf.
Proof.
  unfold storeAt, store. destruct (0 <=? p); [|discriminate].
  destruct (Nat.leb _ _); [|discriminate]. intros [= <-]. apply length_writele.
Qed.

Lemma nopLoop_length (fuel : nat) (p skip : Z) :
  forall (buf : buffer) (j : Z) (buf' : buffer) (j' : Z),
  nopLoop fuel buf p j skip = Done (buf', j') -> length buf' = length buf.
Proof.
  induction fuel as [|fuel IH]; intros buf j buf' j'; cbn [nopLoop].
  - destruct (j + 4 <=? skip); [discriminate|]. now intros [= <- _].
  - destruct (j + 4 <=? skip); [|now intros [= <- _]].
    intros H. apply bind_Done in H as (b1 & H1 & H2).
    apply storeAt_length in H1. apply IH in H2. congruence.
Qed.

Lemma rewriteNops_length (buf : buffer) (p : Z) (r : Relocation) (remove : Z)
    (buf' : buffer) (skip : Z) :
  rewriteNops buf p r remove = Done (buf', skip) -> length buf' = length buf.
Proof.
  unfold rewriteNops. destruct (_ || _); [|now intros [= <- _]].
  intros H. apply bind_Done in H as ([b1 j] & H1 & H2).
  apply nopLoop_length in H1.
  destruct (negb (j =? _)); [|injection H2 as <- _; exact H1].
  destruct (j + 2 =? _); [|discriminate].
  apply bind_Done in H2 as (b2 & H2 & H3). apply storeAt_length in H2.
  injection H3 as <- _. congruence.
Qed.

Lemma spliceWrite_length (aux : RISCVRelaxAux) (buf : buffer) (p : Z) (t : RelType)
    (wi : nat) (buf' : buffer) (skip : Z) (wi' : nat) :
  spliceWrite aux buf p t wi = Done (buf', skip, wi') -> length buf' = length buf.
Proof.
  unfold spliceWrite. intros H.
  destruct t; try discriminate H; try (injection H as <- _ _; reflexivity).
  all: apply bind_Done in H as (w & _ & H); apply bind_Done in H as (b & H1 & H2);
       apply storeAt_length in H1; injection H2 as <- _ _; exact H1.
Qed.

Lemma finalizeStep_length (old : buffer) (aux : RISCVRelaxAux) (i : nat) (r : Relocation)
    (s s' : Cursor) :
  finalizeStep old aux i r s = Done s' -> length (c_buf s') = length (c_buf s).
Proof.
  unfold finalizeStep. intros H.
  apply bind_Done in H as (d & _ & H). apply bind_Done in H as (t & _ & H).
  destruct (_ && _); [injection H as <-; reflexivity|].
  apply bind_Done in H as (b1 & H1 & H). apply memcpy_length in H1.
  apply bind_Done in H as ([[b2 skip] wi] & H2 & H). injection H as <-. cbn [c_buf].
  destruct (is_ALIGN (r_type r)).
  - apply bind_Done in H2 as ([b3 sk] & H2 & H3). injection H3 as <- _ _.
    apply rewriteNops_length in H2. congruence.
  - apply spliceWrite_length in H2. congruence.
Qed.

Lemma finalizeLoop_length (old : buffer) (aux : RISCVRelaxAux) (rels : list Relocation) :
  forall (i : nat) (s s' : Cursor),
  finalizeLoop old aux rels i s = Done s' -> length (c_buf s') = length (c_buf s).
Proof.
  induction rels as [|r rels IH]; intros i s s'; cbn [finalizeLoop].
  - now intros [= <-].
  - intros H. apply bind_Done in H as (s1 & H1 & H2).
    apply finalizeStep_length in H1. apply IH in H2. congruence.
Qed.

End FinalizeLength.

Section FinalizeSection.

Variable Allocate : nat -> buffer.
Hypothesis Allocate_length : forall n, length (Allocate n) = n.

Lemma finalizeSection_unfold (sec : InputSection) (aux : RISCVRelaxAux) :
  relaxAux sec = Some aux -> relocDeltas aux <> [] -> relocations sec <> [] ->
  finalizeSection Allocate sec =
  (last ← of_option (relocDeltas aux !! (length (relocations sec) - 1)%nat);
   s ← finalizeLoop (rawData sec) aux (relocations sec) 0
         (mkCursor (Allocate (Z.to_nat (u64 (Z.of_nat (length (rawData sec)) - last))))
            0 0 0 0%nat);
   buf ← memcpy (c_buf s) (c_p s) (rawData sec) (c_offset s)
           (u64 (Z.of_nat (length (rawData sec)) - c_offset s));
   rels' ← rebaseLoop aux 0 0 (relocations sec);
   mret (mkInputSection (sec_flags sec) rels' buf (Some aux) 0)).
Proof.
  intros Haux Hd Hr. unfold finalizeSection. rewrite Haux.
  cbn [of_option mbind outcome_bind obind].
  destruct (relocDeltas aux); [contradiction|].
  destruct (relocations sec); [contradiction|]. reflexivity.
Qed.

(** What a run of [finalizeSection] that touches the section went through. *)
Lemma finalizeSection_inv (sec sec' : InputSection) (aux : RISCVRelaxAux) :
  relaxAux sec = Some aux -> relocDeltas aux <> [] ->
  finalizeSection Allocate sec = Done sec' ->
  exists last s buf rels',
    relocDeltas aux !! (length (relocations sec) - 1)%nat = Some last /\
    finalizeLoop (rawData sec) aux (relocations sec) 0
      (mkCursor (Allocate (Z.to_nat (u64 (Z.of_nat (length (rawData sec)) - last))))
         0 0 0 0%nat) = Done s /\
    memcpy (c_buf s) (c_p s) (rawData sec) (c_offset s)
      (u64 (Z.of_nat (length (rawData sec)) - c_offset s)) = Done buf /\
    rebaseLoop aux 0 0 (relocations sec) = Done rels' /\
    sec' = mkInputSection (sec_flags sec) rels' buf (Some aux) 0.
Proof.
  intros Haux Hne. unfold finalizeSection. rewrite Haux. cbn [of_option mbind outcome_bind obind].
  destruct (relocDeltas aux) as [|d0 ds] eqn:Hd; [contradiction|].
  destruct (relocations sec) as [|r0 rs] eqn:Hr; [discriminate|].
  intros H.
  apply bind_Done in H as (last & H1 & H).
  apply bind_Done in H as (s & H2 & H).
  apply bind_Done in H as (buf & H3 & H).
  apply bind_Done in H as (rels' & H4 & H).
  injection H as <-.
  destruct (_ !! _) as [l|] eqn:El; [|discriminate]. injection H1 as ->.
  exists last, s, buf, rels'. repeat split; assumption.
Qed.

Lemma rebaseLoop_length (aux : RISCVRelaxAux) (rels : list Relocation) :
  forall (i : nat) (delta : Z) (rels' : list Relocation),
  rebaseLoop aux i delta rels = Done rels' -> length rels' = length rels.
Proof.
  induction rels as [|r rest IH]; intros i delta rels'.
  - now intros [= <-].
  - rewrite rebaseLoop_cons. intros H.
    apply bind_Done in H as (t & _ & H).
    destruct rest as [|r2 rest2].
    + apply bind_Done in H as (? & _ & H). now injection H as <-.
    + destruct (_ =? _).
      * apply bind_Done in H as (tail & H1 & H). injection H as <-.
        apply IH in H1. cbn [length] in *. lia.
      * apply bind_Done in H as (d & _ & H).
        apply bind_Done in H as (tail & H1 & H). injection H as <-.
        apply IH in H1. cbn [length] in *. lia.
Qed.

(** X19. When [riscvFinalizeRelax] has rebuilt a section, its contents have
    the old size less the delta of the last relocation (in 64-bit
    arithmetic), it has as many relocations as before, its flags and aux
    data are the same, and [bytesDropped] is 0. *)
Theorem finalized_section_size (sec sec' : InputSection) (aux : RISCVRelaxAux) :
  relaxAux sec = Some aux -> relocDeltas aux <> [] ->
  finalizeSection Allocate sec = Done sec' ->
  exists last,
    relocDeltas aux !! (length (relocations sec) - 1)%nat = Some last /\
    length (rawData sec') = Z.to_nat (u64 (Z.of_nat (length (rawData sec)) - last)) /\
    length (relocations sec') = length (relocations sec) /\
    bytesDropped sec' = 0 /\ sec_flags sec' = sec_flags sec /\ relaxAux sec' = Some aux.
Proof.
  intros Haux Hne H.
  destruct (finalizeSection_inv sec sec' aux Haux Hne H)
    as (last & s & buf & rels' & Hl & Hloop & Hcpy & Hreb & ->).
  exists last. cbn. split; [exact Hl|].
  apply finalizeLoop_length in Hloop. apply memcpy_length in Hcpy.
  apply rebaseLoop_length in Hreb. cbn [c_buf] in Hloop.
  rewrite Allocate_length in Hloop. repeat split; congruence.
Qed.

(** X20. When [riscvFinalizeRelax] has rebuilt a section whose relocations are
    in the order of their offsets, every relocation has moved down by the
    delta of the last relocation at a lower offset (so relocations at one
    offset move together), and has the kind relaxation chose for it, if it
    chose one; expression, addend and symbol are the same. *)
Theorem finalized_relocation_offsets (sec sec' : InputSection) (aux : RISCVRelaxAux) :
  relaxAux sec = Some aux -> relocDeltas aux <> [] ->
  finalizeSection Allocate sec = Done sec' ->
  StronglySorted (fun a b => r_offset a <= r_offset b) (relocations sec) ->
  length (relocTypes aux) = length (relocations sec) ->
  length (relocDeltas aux) = length (relocations sec) ->
  forall (i : nat) (r : Relocation) (t : RelType),
    relocations sec !! i = Some r -> relocTypes aux !! i = Some t ->
    exists r', relocations sec' !! i = Some r' /\
      r_offset r' = u64 (r_offset r -
                         deltaAt (r_offset <$> relocations sec) (relocDeltas aux) 0
                           (r_offset r)) /\
      r_type r' = (if is_NONE t then r_type r else t) /\
      r_expr r' = r_expr r /\ r_addend r' = r_addend r /\ r_sym r' = r_sym r.
Proof.
  intros Haux Hne H Hs Lt Ld i r t Hr Ht.
  destruct (finalizeSection_inv sec sec' aux Haux Hne H)
    as (last & s & buf & rels' & _ & _ & _ & Hreb & ->).
  destruct (rebaseLoop_sorted aux (relocations sec) 0 0 Hs ltac:(lia) ltac:(lia))
    as (rels2 & Hreb2 & _ & Hk).
  rewrite Hreb in Hreb2. injection Hreb2 as <-.
  eexists. split; [exact (Hk i r t Hr Ht)|]. cbn. rewrite drop_0. repeat split.
Qed.

End FinalizeSection.

Lemma finalized_section_size_witness :
  exists last,
    [6; 6] !! (length (relocations relaxed_call_section) - 1)%nat = Some last /\
    length (rawData finalized_call_section) =
      Z.to_nat (u64 (Z.of_nat (length (rawData relaxed_call_section)) - last)) /\
    length (relocations finalized_call_section) = length (relocations relaxed_call_section) /\
    bytesDropped finalized_call_section = 0 /\
    sec_flags finalized_call_section = sec_flags relaxed_call_section /\
    relaxAux finalized_call_section =
      Some (mkRISCVRelaxAux [] [6; 6] [R_RISCV_RVC_JUMP; R_RISCV_NONE] [0xa001]).
Proof.
  apply (finalized_section_size zero_fill (fun n => length_replicate n Byte.x00)
           relaxed_call_section finalized_call_section
           (mkRISCVRelaxAux [] [6; 6] [R_RISCV_RVC_JUMP; R_RISCV_NONE] [0xa001])).
  - reflexivity.
  - discriminate.
  - vm_compute. reflexivity.
Defined.

Lemma finalized_relocation_offsets_witness :
  exists r', relocations finalized_call_section !! 1%nat = Some r' /\
    r_offset r' = u64 (0 - deltaAt [0; 0] [6; 6] 0 0) /\
    r_type r' = R_RISCV_RELAX /\
    r_expr r' = R_RELAX_HINT /\ r_addend r' = 0 /\ r_sym r' = 0%nat.
Proof.
  apply (finalized_relocation_offsets zero_fill relaxed_call_section finalized_call_section
           (mkRISCVRelaxAux [] [6; 6] [R_RISCV_RVC_JUMP; R_RISCV_NONE] [0xa001])
           eq_refl ltac:(discriminate) eq_refl
           ltac:(repeat constructor; cbn; lia) eq_refl eq_refl
           1%nat (mkRelocation R_RELAX_HINT R_RISCV_RELAX 0 0 0%nat) R_RISCV_NONE
           eq_refl eq_refl).
Defined.



Section FinalizeRuns.

Lemma u64_small (x : Z) : 0 <= x < 2 ^ 64 -> u64 x = x.
Proof. intros H. unfold u64, trunc. now apply Z.mod_small. Qed.

Lemma rebase_id (r : Relocation) :
  0 <= r_offset r < 2 ^ 64 -> rebase 0 R_RISCV_NONE r = r.
Proof.
  intros H. destruct r as [e t o a s]. unfold rebase. cbn in *.
  now rewrite Z.sub_0_r, u64_small.
Qed.

Lemma rebaseLoop_id (aux : RISCVRelaxAux) (rels : list Relocation) :
  forall i : nat,
  (forall k : nat, (k < length rels)%nat ->
     relocTypes aux !! (i + k)%nat = Some R_RISCV_NONE /\
     relocDeltas aux !! (i + k)%nat = Some 0) ->
  Forall (fun r => 0 <= r_offset r < 2 ^ 64) rels ->
  rebaseLoop aux i 0 rels = Done rels.
Proof.
  induction rels as [|r rest IH]; intros i Hk Hall; [reflexivity|].
  rewrite rebaseLoop_cons.
  destruct (Hk 0%nat ltac:(cbn; lia)) as [Ht Hd]. rewrite Nat.add_0_r in Ht, Hd.
  rewrite Ht, Hd. cbn [of_option mbind outcome_bind obind].
  apply Forall_cons in Hall as [Hr Hall].
  rewrite (rebase_id r Hr).
  assert (rebaseLoop aux (S i) 0 rest = Done rest) as IH'.
  { apply IH; [|exact Hall]. intros k Hlt.
    replace (S i + k)%nat with (i + S k)%nat by lia. apply Hk. cbn [length]. lia. }
  destruct rest as [|r2 rest2]; [reflexivity|].
  rewrite IH'. now destruct (_ =? _).
Qed.

(** Relocations that removed nothing and were not rewritten leave the
    cursor where it is. *)
Lemma finalizeLoop_skip (old : buffer) (aux : RISCVRelaxAux) (rels : list Relocation)
    (b : buffer) (p o d : Z) (w : nat) :
  forall i : nat,
  (forall k : nat, (k < length rels)%nat ->
     relocTypes aux !! (i + k)%nat = Some R_RISCV_NONE /\
     relocDeltas aux !! (i + k)%nat = Some d) ->
  finalizeLoop old aux rels i (mkCursor b p o d w) = Done (mkCursor b p o d w).
Proof.
  induction rels as [|r rest IH]; intros i Hk; [reflexivity|].
  cbn [finalizeLoop]. unfold finalizeStep.
  destruct (Hk 0%nat ltac:(cbn; lia)) as [Ht Hd]. rewrite Nat.add_0_r in Ht, Hd.
  rewrite Ht, Hd. cbn [of_option mbind outcome_bind obind c_delta].
  rewrite Z.sub_diag. change (u32 0 =? 0) with true. cbn [is_NONE andb].
  cbn [mret outcome_ret c_buf c_p c_offset c_writesIdx].
  apply IH. intros k Hlt.
  replace (S i + k)%nat with (i + S k)%nat by lia. apply Hk. cbn [length]. lia.
Qed.

(** Copying [y] over the middle of [a ++ b ++ c]. *)
Lemma memcpy_app (a b c x y z : buffer) :
  length b = length y ->
  memcpy (a ++ b ++ c) (Z.of_nat (length a)) (x ++ y ++ z) (Z.of_nat (length x))
    (Z.of_nat (length y)) = Done (a ++ y ++ c).
Proof.
  intros Hb. unfold memcpy, buffer in *. rewrite !length_app.
  destruct (Z.leb_spec 0 (Z.of_nat (length a))); [|lia].
  destruct (Z.leb_spec (Z.of_nat (length a) + Z.of_nat (length y))
              (Z.of_nat (length a + (length b + length c)))); [|lia].
  destruct (Z.leb_spec 0 (Z.of_nat (length x))); [|lia].
  destruct (Z.leb_spec 0 (Z.of_nat (length y))); [|lia].
  destruct (Z.leb_spec (Z.of_nat (length x) + Z.of_nat (length y))
              (Z.of_nat (length x + (length y + length z)))); [|lia].
  cbn [andb mret outcome_ret]. f_equal.
  rewrite <- Nat2Z.inj_add, !Nat2Z.id.
  rewrite take_app_length, drop_app_length, take_app_length.
  assert (drop (length a + length y) (a ++ b ++ c) = c) as ->; [|reflexivity].
  rewrite (assoc_L (++) a b c). apply drop_app_length'.
  rewrite length_app. lia.
Qed.

Lemma store_app (n : nat) (a b c : buffer) (v : Z) :
  length b = n ->
  store n (a ++ b ++ c) (length a) v = Done (a ++ le_split n v ++ c).
Proof.
  intros Hb. unfold store, writele, buffer in *. rewrite !length_app.
  destruct (Nat.leb_spec (length a + n) (length a + (length b + length c))); [|lia].
  f_equal. rewrite take_app_length.
  assert (drop (length a + n) (a ++ b ++ c) = c) as ->; [|reflexivity].
  rewrite (assoc_L (++) a b c). apply drop_app_length'.
  rewrite length_app. lia.
Qed.

End FinalizeRuns.

(** X21. [riscvFinalizeRelax] on a section in which relaxation removed nothing
    and rewrote nothing (all deltas 0, no new kinds) gives the section
    back, contents and relocations, with [bytesDropped] 0. *)
Theorem finalize_unrelaxed_section_unchanged (Allocate : nat -> buffer)
    (sec : InputSection) (aux : RISCVRelaxAux) :
  (forall n, length (Allocate n) = n) ->
  relaxAux sec = Some aux ->
  relocations sec <> [] ->
  relocDeltas aux = replicate (length (relocations sec)) 0 ->
  relocTypes aux = replicate (length (relocations sec)) R_RISCV_NONE ->
  Forall (fun r => 0 <= r_offset r < 2 ^ 64) (relocations sec) ->
  Z.of_nat (length (rawData sec)) < 2 ^ 64 ->
  finalizeSection Allocate sec =
    Done (mkInputSection (sec_flags sec) (relocations sec) (rawData sec) (Some aux) 0).
Proof.
  intros HA Haux Hne Hd Ht Hoff Hlen.
  assert (forall k : nat, (k < length (relocations sec))%nat ->
            relocTypes aux !! (0 + k)%nat = Some R_RISCV_NONE /\
            relocDeltas aux !! (0 + k)%nat = Some 0) as Hk.
  { intros k Hlt. rewrite Ht, Hd. cbn [Nat.add].
    split; apply lookup_replicate_2; exact Hlt. }
  unfold finalizeSection. rewrite Haux. cbn [of_option mbind outcome_bind obind].
  destruct (relocations sec) as [|r0 rs] eqn:Hr; [contradiction|].
  rewrite Hd at 1. cbn [replicate length].
  destruct (Hk (length (r0 :: rs) - 1)%nat ltac:(cbn [length]; lia)) as [_ Hl].
  cbn [Nat.add length] in Hl. rewrite Hl. cbn [of_option mbind outcome_bind obind].
  rewrite Z.sub_0_r, u64_small, Nat2Z.id by lia.
  rewrite (finalizeLoop_skip _ aux (r0 :: rs) _ 0 0 0 0%nat 0%nat Hk).
  cbn [mbind outcome_bind obind c_buf c_p c_offset].
  rewrite Z.sub_0_r, u64_small by lia.
  pose proof (memcpy_app [] (Allocate (length (rawData sec))) [] [] (rawData sec) []
                (HA _)) as Hm.
  cbn [app length] in Hm. rewrite !app_nil_r in Hm.
  change (Z.of_nat 0) with 0 in Hm. rewrite Hm.
  cbn [mbind outcome_bind obind].
  rewrite (rebaseLoop_id aux (r0 :: rs) 0%nat Hk Hoff). reflexivity.
Qed.

Lemma finalize_unrelaxed_section_unchanged_witness :
  finalizeSection zero_fill call_section =
    Done (mkInputSection (sec_flags call_section) (relocations call_section)
            (rawData call_section)
            (Some (mkRISCVRelaxAux [] [0; 0] [R_RISCV_NONE; R_RISCV_NONE] [])) 0).
Proof.
  apply (finalize_unrelaxed_section_unchanged zero_fill call_section
           (mkRISCVRelaxAux [] [0; 0] [R_RISCV_NONE; R_RISCV_NONE] [])).
  - intros n. apply length_replicate.
  - reflexivity.
  - discriminate.
  - reflexivity.
  - reflexivity.
  - repeat constructor; cbn; lia.
  - vm_compute. reflexivity.
Defined.

Section FinalizeSplice.

Lemma rebaseLoop_runs (aux : RISCVRelaxAux) (rels : list Relocation) :
  forall (i : nat) (delta : Z),
  (i + length rels <= length (relocTypes aux))%nat ->
  (i + length rels <= length (relocDeltas aux))%nat ->
  exists rels', rebaseLoop aux i delta rels = Done rels'.
Proof.
  induction rels as [|r rest IH]; intros i delta Lt Ld; [now exists []|].
  cbn [length] in Lt, Ld. rewrite rebaseLoop_cons.
  destruct (lookup_lt_is_Some_2 (relocTypes aux) i ltac:(lia)) as [t0 ->].
  destruct (lookup_lt_is_Some_2 (relocDeltas aux) i ltac:(lia)) as [d0 ->].
  cbn [of_option mbind outcome_bind obind].
  destruct rest as [|r2 rest2]; [eexists; reflexivity|].
  destruct (_ =? _).
  - destruct (IH (S i) delta ltac:(lia) ltac:(lia)) as [tail ->]. eexists; reflexivity.
  - destruct (IH (S i) d0 ltac:(lia) ltac:(lia)) as [tail ->]. eexists; reflexivity.
Qed.

Lemma finalizeLoop_app (old : buffer) (aux : RISCVRelaxAux) (l1 l2 : list Relocation) :
  forall (i : nat) (s : Cursor),
  finalizeLoop old aux (l1 ++ l2) i s =
  finalizeLoop old aux l1 i s ≫= finalizeLoop old aux l2 (i + length l1)%nat.
Proof.
  induction l1 as [|r l1 IH]; intros i s.
  - cbn. now rewrite Nat.add_0_r.
  - cbn [app finalizeLoop length].
    destruct (finalizeStep old aux i r s) as [s1|]; [|reflexivity].
    cbn [mbind outcome_bind obind]. rewrite IH.
    now replace (i + S (length l1))%nat with (S i + length l1)%nat by lia.
Qed.

(** The kinds a relaxed relocation is left with, and the number of bytes
    [riscvFinalizeRelax] writes for each. *)
Lemma spliceWrite_run (aux : RISCVRelaxAux) (buf : buffer) (p : Z) (t : RelType)
    (skip wi : nat) (w : Z) :
  ((t = R_RISCV_RVC_JUMP \/ t = R_RISCV_CHERI_RVC_CJUMP) /\ skip = 2%nat) \/
  ((t = R_RISCV_JAL \/ t = R_RISCV_CHERI_CJAL \/
    t = R_RISCV_CHERIOT_COMPARTMENT_LO_I \/ t = R_RISCV_CHERIOT_COMPARTMENT_LO_S) /\
   skip = 4%nat) ->
  writes aux !! wi = Some w ->
  spliceWrite aux buf p t wi =
  (buf' ← storeAt skip buf p w; mret (buf', Z.of_nat skip, S wi)) /\ is_NONE t = false.
Proof.
  intros Ht Hw. unfold spliceWrite.
  destruct Ht as [[[-> | ->] ->] | [[-> | [-> | [-> | ->]]] ->]]; rewrite Hw;
    split; reflexivity.
Qed.

(** A section in which one relocation, [c], removed bytes or was rewritten:
    those before it have delta 0, [c] and those after it have delta [d].
    [finalizeSection] copies the bytes before [c], runs the body of the
    loop for [c], and copies what is left. *)
Lemma finalize_one_active (Allocate : nat -> buffer) (sec : InputSection)
    (aux : RISCVRelaxAux) (before after : list Relocation) (c : Relocation) (t : RelType)
    (d : Z) (pre rest : buffer) :
  (forall n, length (Allocate n) = n) ->
  relaxAux sec = Some aux ->
  relocations sec = before ++ c :: after ->
  relocDeltas aux = replicate (length before) 0 ++ replicate (S (length after)) d ->
  relocTypes aux =
    replicate (length before) R_RISCV_NONE ++ t :: replicate (length after) R_RISCV_NONE ->
  (d =? 0) && is_NONE t = false ->
  0 <= d < 2 ^ 32 ->
  rawData sec = pre ++ rest ->
  r_offset c = Z.of_nat (length pre) ->
  d <= Z.of_nat (length rest) ->
  Z.of_nat (length (rawData sec)) < 2 ^ 64 ->
  finalizeSection Allocate sec =
  (x ← (if is_ALIGN (r_type c)
        then '(b, sk) ← rewriteNops
                          (pre ++ drop (length pre)
                                    (Allocate (length (rawData sec) - Z.to_nat d)%nat))
                          (Z.of_nat (length pre)) c d;
             mret (b, sk, 0%nat)
        else spliceWrite aux
               (pre ++ drop (length pre) (Allocate (length (rawData sec) - Z.to_nat d)%nat))
               (Z.of_nat (length pre)) t 0);
   buf' ← memcpy x.1.1 (Z.of_nat (length pre) + x.1.2) (rawData sec)
            (u64 (Z.of_nat (length pre) + x.1.2 + d))
            (u64 (Z.of_nat (length (rawData sec)) -
                  u64 (Z.of_nat (length pre) + x.1.2 + d)));
   rels' ← rebaseLoop aux 0 0 (relocations sec);
   mret (mkInputSection (sec_flags sec) rels' buf' (Some aux) 0)).
Proof.
  intros HA Haux Hrels Hds Hts Hact Hd Hold Hoff Hrest Hlen.
  assert (length (relocDeltas aux) = length (relocations sec)) as Ld
    by (rewrite Hds, Hrels, !length_app, !length_replicate; reflexivity).
  assert (forall k : nat, (k < length before)%nat ->
            relocTypes aux !! (0 + k)%nat = Some R_RISCV_NONE /\
            relocDeltas aux !! (0 + k)%nat = Some 0) as Hbefore.
  { intros k Hk. cbn [Nat.add]. rewrite Hts, Hds.
    rewrite !lookup_app_l by (rewrite length_replicate; lia).
    split; apply lookup_replicate_2; exact Hk. }
  assert (relocTypes aux !! length before = Some t) as Htc.
  { rewrite Hts, lookup_app_r by (rewrite length_replicate; lia).
    now rewrite length_replicate, Nat.sub_diag. }
  assert (forall k : nat, (k <= length after)%nat ->
            relocDeltas aux !! (length before + k)%nat = Some d) as Hdk.
  { intros k Hk. rewrite Hds, lookup_app_r by (rewrite length_replicate; lia).
    rewrite length_replicate. apply lookup_replicate_2. lia. }
  assert (forall k : nat, (k < length after)%nat ->
            relocTypes aux !! (S (length before) + k)%nat = Some R_RISCV_NONE /\
            relocDeltas aux !! (S (length before) + k)%nat = Some d) as Hafter.
  { intros k Hk. split.
    - rewrite Hts, lookup_app_r by (rewrite length_replicate; lia).
      rewrite length_replicate.
      replace (S (length before) + k - length before)%nat with (S k) by lia.
      cbn. apply lookup_replicate_2. exact Hk.
    - replace (S (length before) + k)%nat with (length before + S k)%nat by lia.
      apply Hdk. lia. }
  assert (relocDeltas aux !! (length (relocations sec) - 1)%nat = Some d) as Hlast.
  { rewrite Hrels, length_app. cbn [length].
    replace (length before + S (length after) - 1)%nat
      with (length before + length after)%nat by lia.
    apply Hdk. lia. }
  rewrite (finalizeSection_unfold Allocate sec aux Haux).
  2: { intros E. rewrite E, Hrels, length_app in Ld. cbn [length] in Ld. lia. }
  2: { rewrite Hrels. now destruct before. }
  rewrite Hlast. clear Hlast.
  cbn [of_option mbind outcome_bind obind].
  rewrite Hrels at 1.
  change (2 ^ 64) with 18446744073709551616 in *.
  change (2 ^ 32) with 4294967296 in *.
  assert (Z.of_nat (length (rawData sec)) =
          Z.of_nat (length pre) + Z.of_nat (length rest)) as Hsz.
  { rewrite Hold. unfold buffer in *. rewrite !length_app. lia. }
  assert (Z.to_nat (u64 (Z.of_nat (length (rawData sec)) - d)) =
          (length (rawData sec) - Z.to_nat d)%nat) as ->.
  { unfold u64, trunc. change (2 ^ 64) with 18446744073709551616.
    rewrite Z.mod_small; lia. }
  set (A := Allocate (length (rawData sec) - Z.to_nat d)%nat).
  assert (length A = (length (rawData sec) - Z.to_nat d)%nat) as LA by apply HA.
  rewrite finalizeLoop_app.
  rewrite (finalizeLoop_skip _ aux before _ 0 0 0 0%nat 0%nat Hbefore).
  cbn [mbind outcome_bind obind finalizeLoop Nat.add].
  unfold finalizeStep at 1.
  pose proof (Hdk 0%nat ltac:(lia)) as Hdc. rewrite Nat.add_0_r in Hdc.
  rewrite Hdc, Htc. cbn [of_option mbind outcome_bind obind c_delta c_buf c_p c_offset
                          c_writesIdx].
  rewrite !Z.sub_0_r, Hoff.
  assert (u64 (Z.of_nat (length pre)) = Z.of_nat (length pre)) as ->.
  { unfold u64, trunc. change (2 ^ 64) with 18446744073709551616.
    rewrite Z.mod_small; lia. }
  assert (u32 d = d) as ->.
  { unfold u32, trunc. change (2 ^ 32) with 4294967296. rewrite Z.mod_small; lia. }
  rewrite Hact.
  assert (A = take (length pre) A ++ drop (length pre) A ++ []) as EA
    by (now rewrite app_nil_r, take_drop).
  assert (length (take (length pre) A) = length pre) as L1
    by (unfold buffer in *; rewrite length_take; lia).
  rewrite EA at 1. rewrite Hold at 1.
  pose proof (memcpy_app [] (take (length pre) A) (drop (length pre) A ++ []) []
                pre rest L1) as Hm1.
  replace (pre ++ rest) with ([] ++ pre ++ rest ++ []) at 1
    by (now rewrite app_nil_r).
  assert (memcpy ([] ++ take (length pre) A ++ drop (length pre) A ++ []) 0
            ([] ++ pre ++ rest ++ []) 0 (Z.of_nat (length pre)) =
          Done (pre ++ drop (length pre) A)) as Hm.
  { pose proof (memcpy_app [] (take (length pre) A) (drop (length pre) A ++ []) []
                  pre (rest ++ []) L1) as H1.
    cbn [length] in H1. change (Z.of_nat 0) with 0 in H1. rewrite H1.
    cbn [app]. now rewrite app_nil_r. }
  cbn [app] in Hm |- *. rewrite Hm. clear Hm Hm1.
  cbn [mbind outcome_bind obind]. rewrite Z.add_0_l.
  match goal with
  | |- _ = ?body ≫= _ => destruct body as [[[buf skip] wi]|f]
  end; [|reflexivity].
  cbn [mbind outcome_bind obind mret outcome_ret fst snd].
  rewrite (finalizeLoop_skip _ aux after _ _ _ d wi _ Hafter).
  cbn [mbind outcome_bind obind c_buf c_p c_offset]. reflexivity.
Qed.

End FinalizeSplice.

(** X22. In a section where relaxation rewrote one relocation (to a 2-byte
    jump, or to a 4-byte jump or CHERIoT low part) and removed [d] bytes
    there, [riscvFinalizeRelax] gives the bytes before the relocation, the
    queued instruction word in 2 or 4 bytes, and the bytes that followed
    the replaced and removed ones; relocations before it (delta 0) and
    after it (delta [d]) change nothing. *)
Theorem finalize_splices_rewritten_instruction (Allocate : nat -> buffer)
    (sec : InputSection) (aux : RISCVRelaxAux)
    (before after : list Relocation) (c : Relocation) (t : RelType) (skip : nat)
    (d w : Z) (pre gone post : buffer) :
  (forall n, length (Allocate n) = n) ->
  relaxAux sec = Some aux ->
  relocations sec = before ++ c :: after ->
  relocDeltas aux = replicate (length before) 0 ++ replicate (S (length after)) d ->
  relocTypes aux =
    replicate (length before) R_RISCV_NONE ++ t :: replicate (length after) R_RISCV_NONE ->
  writes aux !! 0%nat = Some w ->
  r_type c <> R_RISCV_ALIGN ->
  ((t = R_RISCV_RVC_JUMP \/ t = R_RISCV_CHERI_RVC_CJUMP) /\ skip = 2%nat) \/
  ((t = R_RISCV_JAL \/ t = R_RISCV_CHERI_CJAL \/
    t = R_RISCV_CHERIOT_COMPARTMENT_LO_I \/ t = R_RISCV_CHERIOT_COMPARTMENT_LO_S) /\
   skip = 4%nat) ->
  0 <= d < 2 ^ 32 ->
  rawData sec = pre ++ gone ++ post ->
  r_offset c = Z.of_nat (length pre) ->
  Z.of_nat (length gone) = Z.of_nat skip + d ->
  Z.of_nat (length (rawData sec)) < 2 ^ 64 ->
  exists sec', finalizeSection Allocate sec = Done sec' /\
               rawData sec' = pre ++ le_split skip w ++ post /\
               length (relocations sec') = length (relocations sec).
Proof.
  intros HA Haux Hrels Hds Hts Hw Hal Ht Hd Hold Hoff Hgone Hlen.
  assert (length (relocDeltas aux) = length (relocations sec)) as Ld
    by (rewrite Hds, Hrels, !length_app, !length_replicate; reflexivity).
  assert (length (relocTypes aux) = length (relocations sec)) as Lt
    by (rewrite Hts, Hrels, !length_app; cbn [length]; rewrite !length_replicate; reflexivity).
  destruct (rebaseLoop_runs aux (relocations sec) 0 0 ltac:(lia) ltac:(lia)) as [rels' Hreb].
  exists (mkInputSection (sec_flags sec) rels' (pre ++ le_split skip w ++ post) (Some aux) 0).
  split; [|split; [reflexivity|exact (rebaseLoop_length aux _ 0%nat 0 rels' Hreb)]].
  destruct (spliceWrite_run aux
              (pre ++ drop (length pre) (Allocate (length (rawData sec) - Z.to_nat d)%nat))
              (Z.of_nat (length pre)) t skip 0%nat w Ht Hw) as [Hsw HtN].
  assert (Z.of_nat (length (rawData sec)) =
          Z.of_nat (length pre) + Z.of_nat skip + d + Z.of_nat (length post)) as Hsz.
  { rewrite Hold. unfold buffer in *. rewrite !length_app. lia. }
  rewrite (finalize_one_active Allocate sec aux before after c t d pre (gone ++ post)
             HA Haux Hrels Hds Hts).
  2: { rewrite HtN. apply andb_false_r. }
  2: exact Hd.
  2: exact Hold.
  2: exact Hoff.
  2: { unfold buffer in *. rewrite length_app. lia. }
  2: exact Hlen.
  assert (is_ALIGN (r_type c) = false) as ->
    by (destruct (r_type c); try reflexivity; now destruct Hal).
  rewrite Hsw, Hreb. clear Hsw.
  change (2 ^ 64) with 18446744073709551616 in *.
  change (2 ^ 32) with 4294967296 in *.
  set (A := Allocate (length (rawData sec) - Z.to_nat d)%nat).
  assert (length A = (length (rawData sec) - Z.to_nat d)%nat) as LA by apply HA.
  set (A2 := take skip (drop (length pre) A)).
  set (A3 := drop skip (drop (length pre) A)).
  assert (drop (length pre) A = A2 ++ A3) as -> by (subst A2 A3; now rewrite take_drop).
  assert (length A2 = skip) as L2
    by (subst A2; unfold buffer in *; rewrite length_take, length_drop; lia).
  assert (length A3 = length post) as L3
    by (subst A3; unfold buffer in *; rewrite !length_drop; lia).
  clearbody A2 A3.
  unfold storeAt.
  destruct (Z.leb_spec 0 (Z.of_nat (length pre))); [|lia].
  rewrite Nat2Z.id, (store_app skip pre A2 A3 w L2).
  cbn [mbind outcome_bind obind mret outcome_ret fst snd].
  rewrite Hold.
  assert (u64 (Z.of_nat (length pre) + Z.of_nat skip + d) =
          Z.of_nat (length (pre ++ gone))) as ->.
  { unfold u64, trunc, buffer in *. change (2 ^ 64) with 18446744073709551616.
    rewrite length_app, Z.mod_small; lia. }
  assert (u64 (Z.of_nat (length (pre ++ gone ++ post)) - Z.of_nat (length (pre ++ gone))) =
          Z.of_nat (length post)) as ->.
  { unfold u64, trunc, buffer in *. change (2 ^ 64) with 18446744073709551616.
    rewrite !length_app, Z.mod_small; lia. }
  assert (Z.of_nat (length pre) + Z.of_nat skip = Z.of_nat (length (pre ++ le_split skip w)))
    as -> by (unfold buffer in *; rewrite length_app, length_le_split; lia).
  pose proof (memcpy_app (pre ++ le_split skip w) A3 [] (pre ++ gone) post [] L3) as Hm2.
  rewrite !app_nil_r in Hm2.
  rewrite <- !(assoc_L (++)) in Hm2.
  rewrite Hm2. reflexivity.
Qed.

Lemma finalize_splices_rewritten_instruction_witness :
  exists sec', finalizeSection zero_fill relaxed_call_section = Done sec' /\
               rawData sec' = [] ++ le_split 2 0xa001 ++ [] /\
               length (relocations sec') = length (relocations relaxed_call_section).
Proof.
  apply (finalize_splices_rewritten_instruction zero_fill relaxed_call_section
           (mkRISCVRelaxAux [] [6; 6] [R_RISCV_RVC_JUMP; R_RISCV_NONE] [0xa001])
           [] [mkRelocation R_RELAX_HINT R_RISCV_RELAX 0 0 0%nat]
           (mkRelocation R_PLT_PC R_RISCV_CALL 0 0 0%nat) R_RISCV_RVC_JUMP 2%nat 6 0xa001
           [] (le_split 4 0x00000297 ++ le_split 4 0x00028067) []).
  - intros n. apply length_replicate.
  - reflexivity.
  - reflexivity.
  - reflexivity.
  - reflexivity.
  - reflexivity.
  - discriminate.
  - left. split; [left; reflexivity | reflexivity].
  - lia.
  - reflexivity.
  - reflexivity.
  - reflexivity.
  - vm_compute. reflexivity.
Defined.

Section FinalizeAlign.

Lemma nopLoop_run (p skip : Z) (n : nat) :
  forall (fuel : nat) (a b c : buffer) (j : Z),
  (n <= fuel)%nat ->
  Z.of_nat (length a) = p + j ->
  length b = (4 * n)%nat ->
  j + 4 * Z.of_nat n <= skip < j + 4 * Z.of_nat n + 4 ->
  nopLoop fuel (a ++ b ++ c) p j skip =
  Done (a ++ concat (replicate n (le_split 4 0x00000013)) ++ c, j + 4 * Z.of_nat n).
Proof.
  induction n as [|n IH]; intros fuel a b c j Hf Ha Hb Hs.
  - destruct b; [|discriminate Hb]. cbn [replicate concat app].
    replace (j + 4 * Z.of_nat 0) with j by lia.
    destruct fuel; cbn [nopLoop]; destruct (Z.leb_spec (j + 4) skip); try lia; reflexivity.
  - destruct fuel as [|fuel]; [lia|]. cbn [nopLoop].
    destruct (Z.leb_spec (j + 4) skip); [|lia].
    unfold storeAt. destruct (Z.leb_spec 0 (p + j)); [|lia].
    rewrite <- Ha, Nat2Z.id.
    assert (b = take 4 b ++ drop 4 b) as Eb by (now rewrite take_drop).
    rewrite Eb, <- (assoc_L (++)).
    rewrite (store_app 4 a (take 4 b) (drop 4 b ++ c) 0x00000013)
      by (unfold buffer in *; rewrite length_take; lia).
    cbn [mbind outcome_bind obind].
    rewrite (assoc_L (++) a (le_split 4 19)).
    rewrite (IH fuel (a ++ le_split 4 19) (drop 4 b) c (j + 4)).
    + cbn [replicate concat]. rewrite <- !(assoc_L (++)).
      do 2 f_equal. lia.
    + lia.
    + unfold buffer in *. rewrite length_app, length_le_split. lia.
    + unfold buffer in *. rewrite length_drop. lia.
    + lia.
Qed.

Lemma mod2_mod4 (x : Z) : x mod 2 = (x mod 4) mod 2.
Proof. Z.div_mod_to_equations. lia. Qed.

Lemma s64_small (x : Z) : - 2 ^ 63 <= x < 2 ^ 63 -> s64 x = x.
Proof.
  intros H. unfold s64, SignExtend64. change (64 - 1) with 63.
  change (2 ^ 64) with 18446744073709551616. change (2 ^ 63) with 9223372036854775808 in *.
  destruct (Z.ltb_spec (x mod 18446744073709551616) 9223372036854775808);
    Z.div_mod_to_equations; lia.
Qed.

(** The [R_RISCV_ALIGN] branch on a buffer with [skip] bytes at [p]. *)
Lemma rewriteNops_run (pre A2 A3 : buffer) (c : Relocation) (d : Z) :
  let skip := if (d mod 4 =? 0) && (Z.rem (r_addend c) 4 =? 0) then 0 else r_addend c - d in
  0 <= skip < 2 ^ 63 ->
  Z.of_nat (length A2) = skip ->
  rewriteNops (pre ++ A2 ++ A3) (Z.of_nat (length pre)) c d =
  if skip mod 2 =? 0 then Done (pre ++ nop_fill skip ++ A3, skip)
  else Stop (AssertionFailed "j + 2 == skip").
Proof.
  intros skip Hs HA2. unfold rewriteNops.
  rewrite <- negb_andb. subst skip.
  destruct ((d mod 4 =? 0) && (Z.rem (r_addend c) 4 =? 0)).
  { cbn [negb]. destruct A2; [|discriminate HA2]. reflexivity. }
  cbn [negb]. set (skip := r_addend c - d) in *.
  rewrite (s64_small skip) by lia.
  set (n := Z.to_nat (skip / 4)).
  assert (Z.of_nat n = skip / 4) as Hn by (subst n; rewrite Z2Nat.id; [reflexivity|apply Z.div_pos; lia]).
  pose proof (Z.div_mod skip 4 ltac:(lia)) as Hdm.
  pose proof (Z.mod_pos_bound skip 4 ltac:(lia)) as Hr.
  assert (A2 = take (4 * n) A2 ++ drop (4 * n) A2) as EA by (now rewrite take_drop).
  rewrite EA, <- (assoc_L (++)).
  rewrite (nopLoop_run (Z.of_nat (length pre)) skip n (Z.to_nat skip) pre
             (take (4 * n) A2) (drop (4 * n) A2 ++ A3) 0).
  2: { subst n. apply Z2Nat.inj_le; [apply Z.div_pos; lia|lia|]. lia. }
  2: lia.
  2: { unfold buffer in *. rewrite length_take. lia. }
  2: lia.
  cbn [mbind outcome_bind obind]. rewrite Z.add_0_l.
  assert (length (drop (4 * n) A2) = Z.to_nat (skip mod 4)) as Ldrop
    by (unfold buffer in *; rewrite length_drop; lia).
  rewrite (mod2_mod4 skip).
  unfold nop_fill. fold n.
  destruct (Z.eq_dec (skip mod 4) 0) as [E0|NE0].
  - rewrite E0 in *. cbn [Z.eqb Z.modulo Z.div_eucl].
    destruct (Z.eqb_spec (4 * Z.of_nat n) skip); [|lia]. cbn [negb mret outcome_ret].
    change (0 mod 2 =? 0) with true. cbn match.
    destruct (drop (4 * n) A2); [|discriminate Ldrop].
    do 2 f_equal. cbn [app]. now rewrite app_nil_r.
  - destruct (Z.eqb_spec (4 * Z.of_nat n) skip); [lia|]. cbn [negb].
    destruct (Z.eq_dec (skip mod 4) 2) as [E2|NE2].
    + rewrite E2 in *. change (2 mod 2 =? 0) with true. change (2 =? 2) with true. cbn match.
      destruct (Z.eqb_spec (4 * Z.of_nat n + 2) skip); [|lia].
      unfold storeAt. destruct (Z.leb_spec 0 (Z.of_nat (length pre) + 4 * Z.of_nat n)); [|lia].
      assert (Z.to_nat (Z.of_nat (length pre) + 4 * Z.of_nat n) =
              length (pre ++ concat (replicate n (le_split 4 19)))) as ->.
      { unfold buffer in *. rewrite length_app.
        assert (forall k, length (concat (replicate k (le_split 4 19))) = (4 * k)%nat) as Hj.
        { induction k as [|k IHk]; [reflexivity|].
          cbn [replicate concat]. rewrite length_app, IHk, length_le_split. lia. }
        rewrite Hj. lia. }
      rewrite (assoc_L (++) pre).
      rewrite (store_app 2 _ (drop (4 * n) A2) A3 1 Ldrop).
      cbn [mbind outcome_bind obind mret outcome_ret].
      now rewrite <- !(assoc_L (++)).
    + assert (skip mod 4 = 1 \/ skip mod 4 = 3) as [E|E] by lia; rewrite E.
      all: destruct (Z.eqb_spec (4 * Z.of_nat n + 2) skip); [lia|reflexivity].
Qed.

End FinalizeAlign.

(** X23. In a section where one R_RISCV_ALIGN relocation removed [d] bytes,
    [riscvFinalizeRelax] drops [d] bytes of padding when [d] and the
    addend are multiples of 4; otherwise it replaces the whole padding
    (addend bytes) by addend - d bytes of 4-byte [nop]s and, for two bytes
    left over, a [c.nop], and fails its assertion when an odd number of
    bytes is left. *)
Theorem finalize_align_rewrites_padding (Allocate : nat -> buffer)
    (sec : InputSection) (aux : RISCVRelaxAux)
    (before after : list Relocation) (c : Relocation) (d : Z) (pre gone post : buffer) :
  let skip := if (d mod 4 =? 0) && (Z.rem (r_addend c) 4 =? 0) then 0 else r_addend c - d in
  (forall n, length (Allocate n) = n) ->
  relaxAux sec = Some aux ->
  relocations sec = before ++ c :: after ->
  relocDeltas aux = replicate (length before) 0 ++ replicate (S (length after)) d ->
  relocTypes aux =
    replicate (length before) R_RISCV_NONE ++
    R_RISCV_NONE :: replicate (length after) R_RISCV_NONE ->
  r_type c = R_RISCV_ALIGN ->
  0 < d < 2 ^ 32 ->
  0 <= skip < 2 ^ 63 ->
  rawData sec = pre ++ gone ++ post ->
  r_offset c = Z.of_nat (length pre) ->
  Z.of_nat (length gone) = skip + d ->
  Z.of_nat (length (rawData sec)) < 2 ^ 64 ->
  (skip mod 2 = 0 ->
   exists sec', finalizeSection Allocate sec = Done sec' /\
                rawData sec' = pre ++ nop_fill skip ++ post) /\
  (skip mod 2 <> 0 ->
   finalizeSection Allocate sec = Stop (AssertionFailed "j + 2 == skip")).
Proof.
  intros skip HA Haux Hrels Hds Hts Hal Hd Hskip Hold Hoff Hgone Hlen.
  assert (length (relocDeltas aux) = length (relocations sec)) as Ld
    by (rewrite Hds, Hrels, !length_app, !length_replicate; reflexivity).
  assert (length (relocTypes aux) = length (relocations sec)) as Lt
    by (rewrite Hts, Hrels, !length_app; cbn [length]; rewrite !length_replicate; reflexivity).
  destruct (rebaseLoop_runs aux (relocations sec) 0 0 ltac:(lia) ltac:(lia)) as [rels' Hreb].
  assert (Z.of_nat (length (rawData sec)) =
          Z.of_nat (length pre) + skip + d + Z.of_nat (length post)) as Hsz.
  { rewrite Hold. unfold buffer in *. rewrite !length_app. lia. }
  rewrite (finalize_one_active Allocate sec aux before after c R_RISCV_NONE d pre
             (gone ++ post) HA Haux Hrels Hds Hts).
  2: { destruct (Z.eqb_spec d 0); [lia|reflexivity]. }
  2: lia.
  2: exact Hold.
  2: exact Hoff.
  2: { unfold buffer in *. rewrite length_app. lia. }
  2: exact Hlen.
  rewrite Hal. cbn [is_ALIGN].
  change (2 ^ 64) with 18446744073709551616 in *.
  change (2 ^ 32) with 4294967296 in *.
  change (2 ^ 63) with 9223372036854775808 in *.
  set (A := Allocate (length (rawData sec) - Z.to_nat d)%nat).
  assert (length A = (length (rawData sec) - Z.to_nat d)%nat) as LA by apply HA.
  set (A2 := take (Z.to_nat skip) (drop (length pre) A)).
  set (A3 := drop (Z.to_nat skip) (drop (length pre) A)).
  assert (drop (length pre) A = A2 ++ A3) as -> by (subst A2 A3; now rewrite take_drop).
  assert (Z.of_nat (length A2) = skip) as L2
    by (subst A2; unfold buffer in *; rewrite length_take, length_drop; lia).
  assert (length A3 = length post) as L3
    by (subst A3; unfold buffer in *; rewrite !length_drop; lia).
  clearbody A2 A3.
  rewrite (rewriteNops_run pre A2 A3 c d ltac:(exact Hskip) L2). fold skip.
  clearbody skip.
  split; intros Hpar.
  - rewrite Hpar. cbn [Z.eqb mbind outcome_bind obind mret outcome_ret fst snd].
    rewrite Hreb, Hold.
    assert (length (nop_fill skip) = Z.to_nat skip) as Lfill.
    { unfold nop_fill, buffer in *. rewrite length_app.
      assert (forall k, length (concat (replicate k (le_split 4 19))) = (4 * k)%nat) as Hj.
      { induction k as [|k IHk]; [reflexivity|].
        cbn [replicate concat]. rewrite length_app, IHk, length_le_split. lia. }
      rewrite Hj.
      pose proof (Z.div_mod skip 4 ltac:(lia)) as Hdm.
      pose proof (mod2_mod4 skip) as Hp.
      pose proof (Z.mod_pos_bound skip 4 ltac:(lia)) as Hr.
      assert (skip mod 4 = 0 \/ skip mod 4 = 2) as [E|E]
        by (revert Hp Hpar; clear; intros; Z.div_mod_to_equations; lia).
      all: rewrite E in *; cbn [Z.eqb Pos.eqb length le_split]; lia. }
    assert (u64 (Z.of_nat (length pre) + skip + d) = Z.of_nat (length (pre ++ gone))) as ->.
    { unfold u64, trunc, buffer in *. change (2 ^ 64) with 18446744073709551616.
      rewrite length_app, Z.mod_small; lia. }
    assert (u64 (Z.of_nat (length (pre ++ gone ++ post)) - Z.of_nat (length (pre ++ gone))) =
            Z.of_nat (length post)) as ->.
    { unfold u64, trunc, buffer in *. change (2 ^ 64) with 18446744073709551616.
      rewrite !length_app, Z.mod_small; lia. }
    assert (Z.of_nat (length pre) + skip = Z.of_nat (length (pre ++ nop_fill skip)))
      as -> by (unfold buffer in *; rewrite length_app, Lfill; lia).
    pose proof (memcpy_app (pre ++ nop_fill skip) A3 [] (pre ++ gone) post [] L3) as Hm2.
    rewrite !app_nil_r in Hm2.
    rewrite <- !(assoc_L (++)) in Hm2.
    rewrite Hm2. eexists. split; reflexivity.
  - destruct (Z.eqb_spec (skip mod 2) 0); [contradiction|]. reflexivity.
Qed.

Lemma finalize_align_rewrites_padding_witness :
  exists sec', finalizeSection zero_fill aligned_section = Done sec' /\
               rawData sec' = [] ++ nop_fill 4 ++ le_split 4 0x00008067.
Proof.
  apply (finalize_align_rewrites_padding zero_fill aligned_section
           (mkRISCVRelaxAux [] [2] [R_RISCV_NONE] [])
           [] [] (mkRelocation R_RELAX_HINT R_RISCV_ALIGN 0 6 0%nat) 2
           [] (le_split 4 0x00000013 ++ le_split 2 0x0001) (le_split 4 0x00008067)).
  - intros n. apply length_replicate.
  - reflexivity.
  - reflexivity.
  - reflexivity.
  - reflexivity.
  - reflexivity.
  - lia.
  - vm_compute. split; [discriminate | reflexivity].
  - reflexivity.
  - reflexivity.
  - reflexivity.
  - vm_compute. reflexivity.
  - reflexivity.
Defined.

(** ** More on a relaxation pass *)

Section RelaxCGP.

Lemma cgp_word (insn : Z) :
  0 <= insn < 2 ^ 32 ->
  let w := u32 (Z.lor (Z.land insn (u32 (Z.lnot (Z.shiftl 31 15)))) (Z.shiftl 3 15)) in
  insn_bits w 19 15 = 3 /\ Z.land w 0xFFF07FFF = Z.land insn 0xFFF07FFF /\ 0 <= w < 2 ^ 32.
Proof.
  intros Hi w.
  change (u32 (Z.lnot (Z.shiftl 31 15))) with 0xFFF07FFF in w.
  change (Z.shiftl 3 15) with 0x18000 in w.
  assert (0 <= Z.lor (Z.land insn 0xFFF07FFF) 0x18000 < 2 ^ 32) as Hr.
  { apply lor_range; [lia| |change (2 ^ 32) with 4294967296; lia].
    apply land_range; [lia|lia|change (2 ^ 32) with 4294967296; lia]. }
  assert (w = Z.lor (Z.land insn 0xFFF07FFF) 0x18000) as ->
    by (subst w; now apply u32_small).
  split; [|split; [|exact Hr]].
  - rewrite insn_bits_lor, insn_bits_land_mask by (try lia; reflexivity).
    reflexivity.
  - now apply land_lor_masked.
Qed.

End RelaxCGP.

(** X24. [relaxCGP] does nothing for a PCC-relative symbol or when the upper
    part of the CGP offset is not zero.  Otherwise it marks a
    COMPARTMENT_HI for removal (4 bytes, kind RELAX), and for a
    COMPARTMENT_LO_I or LO_S queues the instruction with rs1 set to [cgp]
    (register 3) and every other bit kept, removing nothing; both low
    kinds become COMPARTMENT_LO_I. *)
Theorem relaxCGP_retargets_to_cgp
    (isPCCRelative : option nat -> SymId -> bool)
    (getBiasedCGPOffset getBiasedCGPOffsetLo12 : SymTab -> SymId -> Z)
    (syms : SymTab) (sec : InputSection) (aux : RISCVRelaxAux)
    (i : nat) (loc : Z) (r : Relocation) :
  let run := relaxCGP isPCCRelative getBiasedCGPOffset getBiasedCGPOffsetLo12
               syms sec aux i loc r in
  let hival := u64 (getBiasedCGPOffset syms (r_sym r) -
                    getBiasedCGPOffsetLo12 syms (r_sym r)) in
  (isPCCRelative None (r_sym r) = true \/ hival <> 0 -> run = Done (aux, 0)) /\
  (isPCCRelative None (r_sym r) = false -> hival = 0 ->
   forall insn, read32le (rawData sec) (Z.to_nat (r_offset r)) = Some insn ->
   (r_type r = R_RISCV_CHERIOT_COMPARTMENT_HI ->
    run = Done (set_relocTypes i R_RISCV_RELAX aux, 4)) /\
   (r_type r = R_RISCV_CHERIOT_COMPARTMENT_LO_I \/
    r_type r = R_RISCV_CHERIOT_COMPARTMENT_LO_S ->
    exists w,
      run = Done (mkRISCVRelaxAux (anchors aux) (relocDeltas aux)
                    (<[i := R_RISCV_CHERIOT_COMPARTMENT_LO_I]> (relocTypes aux))
                    (writes aux ++ [w]), 0) /\
      insn_bits w 19 15 = 3 /\
      Z.land w 0xFFF07FFF = Z.land insn 0xFFF07FFF /\
      0 <= w < 2 ^ 32)).
Proof.
  intros run hival. subst run. unfold relaxCGP. fold hival. split.
  - intros [-> | Hne]; [reflexivity|].
    destruct (isPCCRelative None (r_sym r)); [reflexivity|].
    destruct (Z.eqb_spec hival 0); [contradiction|reflexivity].
  - intros -> -> insn Hread. cbn [Z.eqb negb].
    rewrite (load_ok 4 _ _ insn Hread). cbn [mbind outcome_bind obind].
    pose proof (read32le_range _ _ _ Hread) as Hi.
    split.
    + intros ->. reflexivity.
    + destruct (cgp_word insn Hi) as (H1 & H2 & H3).
      intros [-> | ->]; eexists; (split; [reflexivity|]); repeat split; assumption || apply H3.
Qed.

Section LowRelocs.

Variable isPCCRelative : option nat -> SymId -> bool.
Variable syms : SymTab.
Variable relocsOf : SecId -> option (list Relocation).

(** What the pre-pass does to one relocation: nothing, or it retargets a
    PCC-relative LO_I at the symbol and addend of a HI that is not. *)
Lemma rewriteLowReloc_cases (r r' : Relocation) (m : bool) :
  rewriteLowReloc isPCCRelative syms relocsOf r = Done (r', m) ->
  (m = false /\ r' = r) \/
  (m = true /\ r_type r = R_RISCV_CHERIOT_COMPARTMENT_LO_I /\
   isPCCRelative None (r_sym r) = true /\ isPCCRelative None (r_sym r') = false /\
   r_type r' = r_type r /\ r_offset r' = r_offset r /\ r_expr r' = r_expr r).
Proof.
  unfold rewriteLowReloc.
  destruct (r_type r) eqn:Et; try (intros [= <- <-]; now left).
  destruct (isPCCRelative None (r_sym r)) eqn:Ep; [|intros [= <- <-]; now left].
  destruct (syms !! r_sym r) as [d|]; [|discriminate].
  destruct (d_section d) as [sid|]; [|discriminate].
  destruct (relocsOf sid) as [rels|]; cbn; [|discriminate].
  destruct (find _ rels) as [t|]; [|discriminate].
  destruct (isPCCRelative None (r_sym t)) eqn:Ept; intros [= <- <-]; [now left|].
  right. cbn. repeat split; try assumption; reflexivity.
Qed.

Lemma rewriteLowReloc_again (r r' : Relocation) (m : bool) :
  rewriteLowReloc isPCCRelative syms relocsOf r = Done (r', m) ->
  rewriteLowReloc isPCCRelative syms relocsOf r' = Done (r', false).
Proof.
  intros H. destruct (rewriteLowReloc_cases r r' m H) as [[-> ->] | (_ & Et & _ & Ep & Et' & _)].
  - exact H.
  - unfold rewriteLowReloc. rewrite Et', Et, Ep. reflexivity.
Qed.

Lemma rewriteLoop_settles (rels : list Relocation) :
  forall (rels' : list Relocation) (m : bool),
  rewriteCheriotLowRelocs_loop isPCCRelative syms relocsOf rels = Done (rels', m) ->
  rewriteCheriotLowRelocs_loop isPCCRelative syms relocsOf rels' = Done (rels', false) /\
  (m = false <-> rels' = rels) /\
  Forall2 (fun r r' =>
             r' = r \/
             (r_type r = R_RISCV_CHERIOT_COMPARTMENT_LO_I /\
              isPCCRelative None (r_sym r) = true /\
              isPCCRelative None (r_sym r') = false /\
              r_type r' = r_type r /\ r_offset r' = r_offset r /\ r_expr r' = r_expr r))
          rels rels'.
Proof.
  induction rels as [|r rels IH]; intros rels' m; cbn [rewriteCheriotLowRelocs_loop].
  - intros [= <- <-]. split; [reflexivity|]. split; [tauto|constructor].
  - intros Hb. apply bind_Done in Hb as ([r1 m1] & E1 & Hb).
    apply bind_Done in Hb as ([rest m2] & E2 & Hb). injection Hb as <- <-.
    destruct (IH _ _ E2) as (IH1 & IH2 & IH3).
    split; [|split].
    + cbn [rewriteCheriotLowRelocs_loop].
      rewrite (rewriteLowReloc_again _ _ _ E1). cbn [mbind outcome_bind obind].
      rewrite IH1. reflexivity.
    + destruct (rewriteLowReloc_cases _ _ _ E1) as [[-> ->] | (-> & _ & Ep & Ep' & _)].
      * cbn [orb]. rewrite IH2. split; [now intros ->|now intros [= ->]].
      * cbn [orb]. split; [discriminate|]. intros [= -> _]. congruence.
    + constructor; [|exact IH3].
      destruct (rewriteLowReloc_cases _ _ _ E1) as [[_ ->] | (_ & H)]; [now left|now right].
Qed.

End LowRelocs.

(** X25. [rewriteCheriotLowRelocs] only retargets PCC-relative COMPARTMENT_LO_I
    relocations at a symbol that is not PCC-relative, keeping their kind,
    offset and expression; it returns false exactly when it changed
    nothing, and run again on its result it changes nothing. *)
Theorem rewriteCheriotLowRelocs_settles
    (isPCCRelative : option nat -> SymId -> bool) (syms : SymTab)
    (relocsOf : SecId -> option (list Relocation)) (sec sec1 : InputSection) (m : bool) :
  rewriteCheriotLowRelocs isPCCRelative syms relocsOf sec = Done (sec1, m) ->
  rewriteCheriotLowRelocs isPCCRelative syms relocsOf sec1 = Done (sec1, false) /\
  (m = false <-> sec1 = sec) /\
  Forall2 (fun r r' =>
             r' = r \/
             (r_type r = R_RISCV_CHERIOT_COMPARTMENT_LO_I /\
              isPCCRelative None (r_sym r) = true /\
              isPCCRelative None (r_sym r') = false /\
              r_type r' = r_type r /\ r_offset r' = r_offset r /\ r_expr r' = r_expr r))
          (relocations sec) (relocations sec1).
Proof.
  unfold rewriteCheriotLowRelocs. intros Hb.
  apply bind_Done in Hb as ([rels m1] & E & Hb). injection Hb as <- <-.
  destruct (rewriteLoop_settles isPCCRelative syms relocsOf _ _ _ E) as (H1 & H2 & H3).
  cbn [relocations sec_flags rawData relaxAux bytesDropped].
  rewrite H1. cbn [mbind outcome_bind obind]. split; [reflexivity|]. split; [|exact H3].
  rewrite H2. split.
  - intros ->. now destruct sec.
  - intros Heq. now rewrite <- Heq.
Qed.

Lemma rewriteCheriotLowRelocs_settles_witness :
  rewriteCheriotLowRelocs label_is_pcc cgp_pair_symtab cgp_pair_relocsOf cgp_pair_rewritten =
    Done (cgp_pair_rewritten, false) /\
  (true = false <-> cgp_pair_rewritten = cgp_pair_section) /\
  Forall2 (fun r r' =>
             r' = r \/
             (r_type r = R_RISCV_CHERIOT_COMPARTMENT_LO_I /\
              label_is_pcc None (r_sym r) = true /\
              label_is_pcc None (r_sym r') = false /\
              r_type r' = r_type r /\ r_offset r' = r_offset r /\ r_expr r' = r_expr r))
          (relocations cgp_pair_section) (relocations cgp_pair_rewritten).
Proof.
  apply (rewriteCheriotLowRelocs_settles label_is_pcc cgp_pair_symtab cgp_pair_relocsOf
           cgp_pair_section cgp_pair_rewritten true).
  vm_compute. reflexivity.
Defined.

Section ChangedFlag.

Variable config : Config.
Variable isPCCRelative : option nat -> SymId -> bool.
Variable getVA : SymTab -> SymId -> Z.
Variable getPltVA : SymId -> Z.
Variable getBiasedCGPOffset : SymTab -> SymId -> Z.
Variable getBiasedCGPOffsetLo12 : SymTab -> SymId -> Z.

#[local] Abbreviation relaxStep_ :=
  (relaxStep config isPCCRelative getVA getPltVA getBiasedCGPOffset getBiasedCGPOffsetLo12).
#[local] Abbreviation relaxLoop_ :=
  (relaxLoop config isPCCRelative getVA getPltVA getBiasedCGPOffset getBiasedCGPOffsetLo12).

Lemma relaxStep_changed (secAddr : Z) (sec : InputSection) (vd : gmap SymId Z)
    (i : nat) (r : Relocation) (s s' : RelaxState) :
  relaxStep_ secAddr sec vd i r s = Done s' ->
  exists cur,
    relocDeltas (rs_aux s) !! i = Some cur /\
    relocDeltas (rs_aux s') = <[i := rs_delta s']> (relocDeltas (rs_aux s)) /\
    rs_changed s' = (if rs_delta s' =? cur then rs_changed s else true).
Proof.
  unfold relaxStep.
  destruct (relocDeltas (rs_aux s) !! i) as [cur|] eqn:Ecur; cbn; [|discriminate].
  destruct (relaxReloc _ _ _ _ _ _ _ _ _ _ _ _) as [[aux1 remove]|] eqn:Er; cbn; [|discriminate].
  destruct (drainAnchors _ _ _ _ _) as [[sa1 syms1]|] eqn:Ed; cbn; [|discriminate].
  destruct (relaxReloc_inv _ _ _ _ _ _ _ _ _ _ _ _ _ _ Er) as ((Hd & _) & _).
  destruct (Z.eqb_spec (u32 (rs_delta s + remove)) cur) as [Heq|Hne]; cbn;
    intros [= <-]; exists cur; cbn; (split; [reflexivity|]).
  - rewrite Hd, Heq, Z.eqb_refl. split; [|reflexivity]. symmetry. now apply list_insert_id.
  - rewrite Hd. split; [reflexivity|].
    destruct (Z.eqb_spec (u32 (rs_delta s + remove)) cur); [contradiction|reflexivity].
Qed.

Lemma relaxLoop_changed (secAddr : Z) (sec : InputSection) (vd : gmap SymId Z)
    (rels : list Relocation) :
  forall (i : nat) (s s' : RelaxState),
  relaxLoop_ secAddr sec vd rels i s = Done s' ->
  (rs_changed s' = false <->
   rs_changed s = false /\ relocDeltas (rs_aux s') = relocDeltas (rs_aux s)).
Proof.
  induction rels as [|r rels IH]; intros i s s'; cbn [relaxLoop].
  - intros [= <-]. tauto.
  - destruct (relaxStep_ secAddr sec vd i r s) as [s1|] eqn:Es; cbn; [|discriminate].
    intros Hloop.
    destruct (relaxStep_changed _ _ _ _ _ _ _ Es) as (cur & Hcur & Hd & Hc).
    destruct (relaxLoop_frame _ _ _ _ _ _ _ _ _ _ _ _ _ Hloop) as (Hfr & _).
    rewrite (IH _ _ _ Hloop), Hc.
    destruct (Z.eqb_spec (rs_delta s1) cur) as [Heq|Hne].
    + rewrite Hd, Heq, list_insert_id by exact Hcur. tauto.
    + split; [intros [H _]; discriminate H|]. intros [_ Hsame]. exfalso.
      pose proof (Hfr i ltac:(lia)) as Hi.
      rewrite Hsame, Hd, Hcur in Hi.
      rewrite list_lookup_insert_eq in Hi by (eapply lookup_lt_Some; exact Hcur).
      congruence.
Qed.

End ChangedFlag.

(** X26. [relax] returns false exactly when the pass left the relocations of
    the section and the array of deltas as they were; the array keeps its
    length, and passes after the first never touch the relocations. *)
Theorem relax_unchanged_iff_fixed_point (config : Config)
    (isPCCRelative : option nat -> SymId -> bool)
    (getVA : SymTab -> SymId -> Z) (getPltVA : SymId -> Z)
    (getBiasedCGPOffset getBiasedCGPOffsetLo12 : SymTab -> SymId -> Z)
    (secAddr : Z) (relocsOf : SecId -> option (list Relocation))
    (sec sec' : InputSection) (syms syms' : SymTab) (pass : Z) (changed : bool) :
  relax config isPCCRelative getVA getPltVA getBiasedCGPOffset getBiasedCGPOffsetLo12
    secAddr relocsOf sec syms pass = Done (changed, sec', syms') ->
  exists aux aux',
    relaxAux sec = Some aux /\ relaxAux sec' = Some aux' /\
    length (relocDeltas aux') = length (relocDeltas aux) /\
    (changed = false <->
     relocations sec' = relocations sec /\ relocDeltas aux' = relocDeltas aux) /\
    (pass <> 0 -> relocations sec' = relocations sec).
Proof.
  unfold relax, relaxPass. intros Hb.
  apply bind_Done in Hb as ([sec1 sF] & Hp & Hb).
  destruct (isUInt 16 (rs_delta sF)); cbn in Hb; [|discriminate].
  injection Hb as <- <- <-.
  destruct (relaxAux sec) as [aux|] eqn:Eaux; cbn [of_option mbind outcome_bind obind] in Hp;
    [|discriminate].
  apply bind_Done in Hp as ([sec0 m0] & Epre & Hp).
  apply bind_Done in Hp as ([[sa1 delta1] vd1] & Evd & Hp).
  apply bind_Done in Hp as (s & Eloop & Hp).
  apply bind_Done in Hp as (symsF & Erest & Hp).
  injection Hp as <- <-. cbn [rs_aux rs_changed rs_delta relaxAux relocations].
  exists aux, (rs_aux s). split; [reflexivity|]. split; [reflexivity|].
  destruct (relaxLoop_frame _ _ _ _ _ _ _ _ _ _ _ _ _ Eloop) as (_ & Hlen & _).
  cbn [rs_aux relocDeltas] in Hlen. split; [exact Hlen|].
  pose proof (relaxLoop_changed _ _ _ _ _ _ _ _ _ _ _ _ _ Eloop) as Hch.
  cbn [rs_aux rs_changed relocDeltas] in Hch.
  assert ((m0 = false <-> relocations sec0 = relocations sec) /\
          (pass <> 0 -> relocations sec0 = relocations sec)) as [Hm Hpass].
  { destruct (Z.eqb_spec pass 0) as [->|Hne].
    - split; [|intros H; now destruct H].
      unfold rewriteCheriotLowRelocs in Epre.
      apply bind_Done in Epre as ([rels m1] & E & Epre). injection Epre as <- <-.
      cbn [relocations].
      exact (proj1 (proj2 (rewriteLoop_settles _ _ _ _ _ _ E))).
    - injection Epre as <- <-. split; [tauto|reflexivity]. }
  split; [|exact Hpass].
  rewrite Hch, Hm. tauto.
Qed.

Lemma relax_unchanged_iff_fixed_point_witness :
  exists aux aux',
    relaxAux example_section0 = Some aux /\
    relaxAux (snd (fst example_relax_result)) = Some aux' /\
    length (relocDeltas aux') = length (relocDeltas aux) /\
    (fst (fst example_relax_result) = false <->
     relocations (snd (fst example_relax_result)) = relocations example_section0 /\
     relocDeltas aux' = relocDeltas aux) /\
    (0 <> 0 -> relocations (snd (fst example_relax_result)) = relocations example_section0).
Proof.
  apply (relax_unchanged_iff_fixed_point rvc_config never_pcc example_getVA example_getPltVA
           no_cgp no_cgp 0 (example_relocsOf example_link0) example_section0
           (snd (fst example_relax_result)) example_symtab (snd example_relax_result) 0
           (fst (fst example_relax_result))).
  vm_compute. reflexivity.
Defined.

(** ** Argument registers and the visibility of exports *)

Section ArgRegisters.

Import AsmPrinter.

Variables C10 C11 C12 C13 C14 C15 C5 : MCPhysReg.
Variable isSubRegister : MCPhysReg -> MCPhysReg -> bool.

#[local] Abbreviation idx :=
  (firstArgReg isSubRegister (ArgGPCRsE C10 C11 C12 C13 C14 C15 C5) 0).
#[local] Abbreviation count :=
  (countUsedArgRegisters C10 C11 C12 C13 C14 C15 C5 isSubRegister).

Lemma idx_positive (li : MCPhysReg) (k : Z) : idx li = Some k -> 1 <= k.
Proof. intros H. apply ExportTable.firstArgReg_bound in H. lia. Qed.

Lemma count_fold_spec (l : list MCPhysReg) :
  forall acc : Z,
  let res := fold_left (fun NumArgRegs li =>
                          match idx li with
                          | Some k => Z.max NumArgRegs k
                          | None => NumArgRegs
                          end) l acc in
  acc <= res /\
  (forall li k, In li l -> idx li = Some k -> k <= res) /\
  (res = acc \/ exists li, In li l /\ idx li = Some res).
Proof.
  induction l as [|a l IH]; intros acc; cbn [fold_left].
  - split; [lia|]. split; [intros li k []|now left].
  - specialize (IH (match idx a with Some k => Z.max acc k | None => acc end)).
    cbn zeta in IH. destruct IH as (H1 & H2 & H3).
    set (res := fold_left _ l _) in *. clearbody res.
    destruct (idx a) as [ka|] eqn:Ea.
    + split; [lia|]. split.
      * intros li k [<- | Hin] Hk; [|now apply (H2 li)].
        rewrite Ea in Hk. injection Hk as <-. lia.
      * destruct H3 as [-> | (li & Hin & Hli)]; [|right; exists li; split; [now right|exact Hli]].
        destruct (Z.max_spec acc ka) as [[_ ->] | [_ ->]]; [|now left].
        right. exists a. split; [now left|exact Ea].
    + split; [lia|]. split.
      * intros li k [<- | Hin] Hk; [congruence|now apply (H2 li)].
      * destruct H3 as [-> | (li & Hin & Hli)]; [now left|].
        right. exists li. split; [now right|exact Hli].
Qed.

Lemma count_is_max (l : list MCPhysReg) :
  0 <= count l /\
  (forall li k, In li l -> idx li = Some k -> k <= count l) /\
  (count l = 0 \/ exists li, In li l /\ idx li = Some (count l)).
Proof. exact (count_fold_spec l 0). Qed.

Lemma count_le_of_incl (l l' : list MCPhysReg) :
  (forall li, In li l -> In li l') -> count l <= count l'.
Proof.
  intros Hincl.
  destruct (count_is_max l) as (_ & _ & [-> | (li & Hin & Hli)]).
  - apply count_is_max.
  - apply (proj1 (proj2 (count_is_max l')) li); [now apply Hincl|exact Hli].
Qed.

End ArgRegisters.

(** X27. [countUsedArgRegisters] is the highest position (from 1) among the
    argument registers C10..C15, C5 that a live-in is or is part of, and 0
    if there is none: it bounds the position of every live-in, is attained
    unless 0, grows with the set of live-ins and does not depend on their
    order. *)
Theorem count_used_arg_registers_is_highest
    (C10 C11 C12 C13 C14 C15 C5 : AsmPrinter.MCPhysReg)
    (isSubRegister : AsmPrinter.MCPhysReg -> AsmPrinter.MCPhysReg -> bool)
    (liveins : list AsmPrinter.MCPhysReg) :
  let count := AsmPrinter.countUsedArgRegisters C10 C11 C12 C13 C14 C15 C5 isSubRegister in
  let idx := AsmPrinter.firstArgReg isSubRegister
               (AsmPrinter.ArgGPCRsE C10 C11 C12 C13 C14 C15 C5) 0 in
  (forall li k, In li liveins -> idx li = Some k -> 1 <= k <= count liveins) /\
  (count liveins = 0 \/ exists li, In li liveins /\ idx li = Some (count liveins)) /\
  (forall liveins', (forall li, In li liveins -> In li liveins') ->
                    count liveins <= count liveins') /\
  (forall liveins', Permutation liveins liveins' -> count liveins' = count liveins).
Proof.
  intros count idx. subst count idx.
  destruct (count_is_max C10 C11 C12 C13 C14 C15 C5 isSubRegister liveins) as (H0 & H1 & H2).
  split; [|split; [exact H2|split]].
  - intros li k Hin Hk. split; [now apply idx_positive in Hk|now apply (H1 li)].
  - intros l' Hincl. now apply count_le_of_incl.
  - intros l' Hp. apply Z.le_antisymm; apply count_le_of_incl; intros li Hin.
    + now apply (Permutation_in li (Permutation_sym Hp)).
    + now apply (Permutation_in li Hp).
Qed.

(** X28. [runOnMachineFunction] records no export for a function of another
    calling convention without a (known) interrupt state; for such a
    function with an interrupt state it records one that
    [emitEndOfAsmFile] never makes global; for a compartment entry or a
    library call it records one that is made global exactly when the
    function has external linkage. *)
Theorem exported_symbol_is_global_iff_external
    (C10 C11 C12 C13 C14 C15 C5 : AsmPrinter.MCPhysReg)
    (isSubRegister : AsmPrinter.MCPhysReg -> AsmPrinter.MCPhysReg -> bool)
    (getImportExportTableName :
       string -> string -> AsmPrinter.CallingConv -> bool -> string)
    (entries : list AsmPrinter.CompartmentExport) (MF : AsmPrinter.MachineFunction) :
  let F := AsmPrinter.mf_function MF in
  let run := AsmPrinter.runOnMachineFunction C10 C11 C12 C13 C14 C15 C5 isSubRegister
               entries MF in
  let global e := exists sym,
    In (AsmPrinter.EmitSymbolAttribute sym AsmPrinter.MCSA_Global)
       (AsmPrinter.emitExport getImportExportTableName e) in
  (AsmPrinter.fn_callingConv F = AsmPrinter.OtherCC ->
   AsmPrinter.interruptFlagOf F = 0 -> run = entries) /\
  (AsmPrinter.fn_callingConv F = AsmPrinter.OtherCC ->
   AsmPrinter.interruptFlagOf F <> 0 ->
   exists e, run = entries ++ [e] /\ AsmPrinter.Fn e = F /\ ~ global e) /\
  (AsmPrinter.fn_callingConv F <> AsmPrinter.OtherCC ->
   exists e, run = entries ++ [e] /\ AsmPrinter.Fn e = F /\
             (global e <-> AsmPrinter.fn_hasExternalLinkage F = true)).
Proof.
  intros F run global. subst run global. cbn beta.
  unfold AsmPrinter.runOnMachineFunction. fold F.
  split; [|split].
  - intros -> ->. reflexivity.
  - intros -> Hne. destruct (Z.eqb_spec (AsmPrinter.interruptFlagOf F) 0); [contradiction|].
    cbn [negb]. eexists. split; [reflexivity|]. split; [reflexivity|].
    unfold not. intros [sym Hin]. unfold AsmPrinter.emitExport in Hin.
    cbn [AsmPrinter.forceLocal negb] in Hin. rewrite andb_false_r in Hin.
    cbn in Hin. intuition discriminate.
  - intros Hcc.
    destruct (AsmPrinter.fn_callingConv F) eqn:Ecc; [| |contradiction].
    all: eexists; split; [reflexivity|]; split; [reflexivity|].
    all: unfold AsmPrinter.emitExport; cbn [AsmPrinter.forceLocal AsmPrinter.Fn negb].
    all: rewrite andb_true_r; fold F.
    all: destruct (AsmPrinter.fn_hasExternalLinkage F); split.
    all: lazymatch goal with
         | |- _ -> true = true => reflexivity
         | |- true = true -> _ => intros _; eexists; cbn; right; left; reflexivity
         | |- false = true -> _ => discriminate
         | |- _ -> false = true => intros [sym Hin]; cbn in Hin; intuition discriminate
         end.
Qed.

(** ** The target machine *)

(** X29. [getSubtargetImpl] caches by the concatenation CPU + TuneCPU + FS:
    after a call that returned a subtarget, a call for any function with
    the same concatenated key returns that subtarget and changes nothing,
    whatever its attributes and module flag are.  The map only grows, and
    a subtarget made on a miss has the function's CPU, tuning CPU and
    features, and the module's ABI name if it has one. *)
Theorem subtarget_cached_by_concatenated_key (TargetOptions : Type)
    (getABIName : TargetOptions -> string)
    (resetTargetOptions : TargetMachine.Function -> TargetOptions -> TargetOptions)
    (isKnownABI : string -> bool)
    (F G : TargetMachine.Function) (tm tm' : TargetMachine.State TargetOptions)
    (s : TargetMachine.RISCVSubtarget) :
  TargetMachine.getSubtargetImpl TargetOptions getABIName resetTargetOptions isKnownABI F tm
    = Done (s, tm') ->
  TargetMachine.subtargetKey TargetOptions tm' G = TargetMachine.subtargetKey TargetOptions tm F ->
  TargetMachine.getSubtargetImpl TargetOptions getABIName resetTargetOptions isKnownABI G tm'
    = Done (s, tm') /\
  TargetMachine.SubtargetMap TargetOptions tm' !! TargetMachine.subtargetKey TargetOptions tm F
    = Some s /\
  (forall k v, TargetMachine.SubtargetMap TargetOptions tm !! k = Some v ->
               TargetMachine.SubtargetMap TargetOptions tm' !! k = Some v) /\
  (TargetMachine.SubtargetMap TargetOptions tm !! TargetMachine.subtargetKey TargetOptions tm F
     = None ->
   TargetMachine.st_CPU s =
     default (TargetMachine.TargetCPU TargetOptions tm) (TargetMachine.target_cpu F) /\
   TargetMachine.st_TuneCPU s =
     default (TargetMachine.st_CPU s) (TargetMachine.tune_cpu F) /\
   TargetMachine.st_FS s =
     default (TargetMachine.TargetFS TargetOptions tm) (TargetMachine.target_features F) /\
   TargetMachine.st_ABIName s =
     default (getABIName (resetTargetOptions F (TargetMachine.Options TargetOptions tm)))
       (TargetMachine.module_target_abi F)).
Proof.
  unfold TargetMachine.getSubtargetImpl, TargetMachine.subtargetKey.
  intros Hrun Hkey.
  destruct (TargetMachine.SubtargetMap TargetOptions tm !! _) as [s0|] eqn:Hhit.
  - injection Hrun as <- <-. rewrite Hkey, Hhit.
    split; [reflexivity|]. split; [reflexivity|]. split; [auto|discriminate].
  - destruct (TargetMachine.module_target_abi F) as [m|].
    + destruct (isKnownABI _ && _); [discriminate|].
      cbn in Hrun. injection Hrun as <- <-. cbn in Hkey |- *.
      rewrite Hkey, lookup_insert_eq. repeat split.
      intros k v Hk. rewrite lookup_insert_ne; [exact Hk|]. congruence.
    + cbn in Hrun. injection Hrun as <- <-. cbn in Hkey |- *.
      rewrite Hkey, lookup_insert_eq. repeat split.
      intros k v Hk. rewrite lookup_insert_ne; [exact Hk|]. congruence.
Qed.

Lemma subtarget_cached_by_concatenated_key_witness :
  example_getSubtargetImpl example_fn_ab_c example_tm_cached =
    Done (example_subtarget, example_tm_cached) /\
  TargetMachine.st_CPU example_subtarget = "a"%string.
Proof.
  split; [|reflexivity].
  apply (subtarget_cached_by_concatenated_key string (fun o => o) (fun _ o => o)
           (fun _ => true) example_fn_a_bc example_fn_ab_c example_tm example_tm_cached
           example_subtarget).
  - vm_compute. reflexivity.
  - reflexivity.
Defined.

(** X30. [isNoopAddrSpaceCast] holds exactly between two address spaces that
    are both CHERI or both not: it is reflexive, symmetric and transitive,
    so a chain of no-op casts is a no-op cast. *)
Theorem noop_addrspace_casts_form_equivalence (isCheriPointer : Z -> bool) :
  let noop := TargetMachine.isNoopAddrSpaceCast isCheriPointer in
  (forall a b, noop a b = true <-> isCheriPointer a = isCheriPointer b) /\
  (forall a, noop a a = true) /\
  (forall a b, noop a b = noop b a) /\
  (forall a b c, noop a b = true -> noop b c = true -> noop a c = true).
Proof.
  intros noop. subst noop. unfold TargetMachine.isNoopAddrSpaceCast.
  split; [|split; [|split]].
  - intros a b. destruct (isCheriPointer a), (isCheriPointer b); cbn; split; congruence.
  - intros a. destruct (isCheriPointer a); reflexivity.
  - intros a b. destruct (isCheriPointer a), (isCheriPointer b); reflexivity.
  - intros a b c.
    destruct (isCheriPointer a), (isCheriPointer b), (isCheriPointer c); cbn; congruence.
Qed.

